(** * rust_dpwh: the JavaScript flood-control report pipeline

    A shallow embedding of the two JavaScript sources of the repository,
    [src/main.js] (module [MainJs]) and its second, commented pass
    [src/unnamed/part_000] (module [Part000]), and the properties of the
    cleaner and of the three report generators.

    Modelling conventions.

    - A JavaScript Number is a [number]: an exact rational, [+Infinity],
      [-Infinity] or [NaN].  The special values follow IEEE 754 ([x/0],
      [Infinity - Infinity], comparisons with [NaN], ...).  The functions
      come in two layers.  In modules [MainJs] and [Part000] the arithmetic
      on finite values is exact: there the properties of counting, grouping,
      ordering and formatting are proved.  In module [B64] every operation
      is rounded to binary64, with overflow to the infinities: there the
      properties that depend on the values computed are proved (the median,
      the budget totals, the guarded fields, the year-over-year change).
      The sign of zero is outside the model.
    - Strings are [string]s of bytes; white space is the ASCII white space.
    - An object used as a map is an association list in insertion order,
      looked up through the prototype chain of a plain [{}] object
      ([lookup]) and enumerated as [Object.values] does ([Object_values]).
    - A thrown exception is a [Throw] result of the [completion] monad.
    - [dayjs] is an external library: the cleaner takes its string parser and
      the local time zone offset as parameters. *)

From Stdlib Require Import ZArith NArith Nnat QArith Qabs Qround Qpower Lia Lqa.
From Stdlib Require Import List String Ascii Bool.
From Stdlib Require Import Permutation Sorted.
From Stdlib Require Qcanon.
Import ListNotations.

Local Open Scope Z_scope.

(** ** JavaScript numbers *)

Inductive number : Type :=
| Fin (q : Q)
| PInf
| NInf
| NaN.

(** Finite results are kept in lowest terms, so that equal values are equal
    terms. *)
Definition fin (q : Q) : number := Fin (Qred q).

Definition ofZ (z : Z) : number := Fin (z # 1).
Definition ofNat (n : nat) : number := ofZ (Z.of_nat n).

Definition Qltb (a b : Q) : bool := negb (Qle_bool b a).
Definition Qis0 (a : Q) : bool := Qeq_bool a 0.

Definition isNaN (x : number) : bool :=
  match x with NaN => true | _ => false end.

Definition isFinite (x : number) : bool :=
  match x with Fin _ => true | _ => false end.

(** ToBoolean on a number: [0] and [NaN] are falsy. *)
Definition truthy (x : number) : bool :=
  match x with
  | Fin q => negb (Qis0 q)
  | PInf | NInf => true
  | NaN => false
  end.

Definition neg (x : number) : number :=
  match x with
  | Fin q => fin (- q)
  | PInf => NInf
  | NInf => PInf
  | NaN => NaN
  end.

Definition add (x y : number) : number :=
  match x, y with
  | NaN, _ | _, NaN => NaN
  | Fin a, Fin b => fin (a + b)
  | PInf, NInf | NInf, PInf => NaN
  | PInf, _ | _, PInf => PInf
  | NInf, _ | _, NInf => NInf
  end.

Definition sub (x y : number) : number :=
  match x, y with
  | NaN, _ | _, NaN => NaN
  | Fin a, Fin b => fin (a - b)
  | PInf, PInf | NInf, NInf => NaN
  | PInf, _ | _, NInf => PInf
  | NInf, _ | _, PInf => NInf
  end.

(** Sign of a non-[NaN] number: [Lt] negative, [Eq] zero, [Gt] positive. *)
Definition sign (x : number) : comparison :=
  match x with
  | Fin q => (Qnum q ?= 0)%Z
  | PInf => Gt
  | NInf => Lt
  | NaN => Eq
  end.

Definition signed_inf (s : comparison) : number :=
  match s with Gt => PInf | Lt => NInf | Eq => NaN end.

Definition sign_mul (s t : comparison) : comparison :=
  match s, t with
  | Eq, _ | _, Eq => Eq
  | Gt, Gt | Lt, Lt => Gt
  | _, _ => Lt
  end.

Definition mul (x y : number) : number :=
  match x, y with
  | NaN, _ | _, NaN => NaN
  | Fin a, Fin b => fin (a * b)
  | _, _ => signed_inf (sign_mul (sign x) (sign y))
  end.

(** Division: a finite non-zero value over zero is an infinity of its sign,
    [0/0] and [Infinity/Infinity] are [NaN]. *)
Definition div (x y : number) : number :=
  match x, y with
  | NaN, _ | _, NaN => NaN
  | Fin a, Fin b =>
      if Qis0 b then signed_inf (sign x) else fin (a / b)
  | Fin _, _ => Fin 0
  | _, Fin b => signed_inf (sign_mul (sign x) (if Qis0 b then Gt else sign y))
  | _, _ => NaN
  end.

(** Relational operators: every comparison with [NaN] is false. *)
Definition ltb (x y : number) : bool :=
  match x, y with
  | NaN, _ | _, NaN => false
  | Fin a, Fin b => Qltb a b
  | NInf, NInf | PInf, _ | _, NInf => false
  | _, _ => true
  end.

Definition gtb (x y : number) : bool := ltb y x.

Definition leb (x y : number) : bool :=
  match x, y with
  | NaN, _ | _, NaN => false
  | Fin a, Fin b => Qle_bool a b
  | NInf, _ | _, PInf => true
  | _, _ => false
  end.

Definition geb (x y : number) : bool := leb y x.

(** Strict equality [===] on numbers. *)
Definition eqb (x y : number) : bool :=
  match x, y with
  | Fin a, Fin b => Qeq_bool a b
  | PInf, PInf | NInf, NInf => true
  | _, _ => false
  end.

(** [a || b] on numbers. *)
Definition or_else (x y : number) : number := if truthy x then x else y.

Definition Math_abs (x : number) : number :=
  match x with
  | Fin q => fin (Qabs q)
  | PInf | NInf => PInf
  | NaN => NaN
  end.

(** Two-argument [Math.min] and [Math.max]; [NaN] is contagious. *)
Definition min2 (x y : number) : number :=
  match x, y with
  | NaN, _ | _, NaN => NaN
  | _, _ => if ltb y x then y else x
  end.

Definition max2 (x y : number) : number :=
  match x, y with
  | NaN, _ | _, NaN => NaN
  | _, _ => if ltb x y then y else x
  end.

(** [Math.min(...xs)] and [Math.max(...xs)]: the empty spread gives
    [Infinity] and [-Infinity]. *)
Definition Math_min (xs : list number) : number := fold_left min2 xs PInf.
Definition Math_max (xs : list number) : number := fold_left max2 xs NInf.

(** [arr.reduce((a, b) => a + b, 0)]. *)
Definition sum (xs : list number) : number := fold_left add xs (Fin 0).

(** ** Characters and strings *)

Definition chars (s : string) : list ascii := list_ascii_of_string s.
Definition str (cs : list ascii) : string := string_of_list_ascii cs.

(** ASCII white space: TAB, LF, VT, FF, CR and SPACE. *)
Definition is_ws (c : ascii) : bool :=
  let n := N_of_ascii c in
  ((9 <=? n) && (n <=? 13) || (n =? 32))%N.

Fixpoint skip_ws (cs : list ascii) : list ascii :=
  match cs with
  | c :: r => if is_ws c then skip_ws r else cs
  | [] => []
  end.

Definition trim_chars (cs : list ascii) : list ascii :=
  rev (skip_ws (rev (skip_ws cs))).

(** [s.trim()]. *)
Definition trim (s : string) : string := str (trim_chars (chars s)).

(** [s.replace(/,/g, "")]. *)
Definition remove_commas_chars (cs : list ascii) : list ascii :=
  filter (fun c => negb (Ascii.eqb c ","%char)) cs.

Definition remove_commas (s : string) : string :=
  str (remove_commas_chars (chars s)).

(** Value of a digit in a radix up to 36. *)
Definition digit_of (radix : N) (c : ascii) : option N :=
  let n := N_of_ascii c in
  let v :=
    (if (48 <=? n) && (n <=? 57) then Some (n - 48)
     else if (97 <=? n) && (n <=? 122) then Some (n - 87)
     else if (65 <=? n) && (n <=? 90) then Some (n - 55)
     else None)%N in
  match v with
  | Some d => if (d <? radix)%N then Some d else None
  | None => None
  end.

Definition is_digit (radix : N) (c : ascii) : bool :=
  match digit_of radix c with Some _ => true | None => false end.

Definition digit_step (radix : N) (a : N) (c : ascii) : N :=
  (radix * a + match digit_of radix c with Some d => d | None => 0 end)%N.

Definition digits_value (radix : N) (ds : list ascii) : N :=
  fold_left (digit_step radix) ds 0%N.

(** Longest prefix of digits, and the rest. *)
Fixpoint span_digits (radix : N) (cs : list ascii) : list ascii * list ascii :=
  match cs with
  | c :: r =>
      if is_digit radix c
      then let (ds, rest) := span_digits radix r in (c :: ds, rest)
      else ([], cs)
  | [] => ([], [])
  end.

Definition read_sign (cs : list ascii) : bool * list ascii :=
  match cs with
  | c :: r =>
      if Ascii.eqb c "-"%char then (true, r)
      else if Ascii.eqb c "+"%char then (false, r)
      else (false, cs)
  | [] => (false, cs)
  end.

Fixpoint starts_with (p cs : list ascii) : bool :=
  match p, cs with
  | [], _ => true
  | a :: p', b :: cs' => Ascii.eqb a b && starts_with p' cs'
  | _ :: _, [] => false
  end.

Definition is_nil {A} (l : list A) : bool :=
  match l with [] => true | _ => false end.

(** The optional exponent part [e[+-]ddd]; without digits nothing is read. *)
Definition read_exponent (cs : list ascii) : Z * list ascii :=
  match cs with
  | c :: r =>
      if Ascii.eqb c "e"%char || Ascii.eqb c "E"%char then
        let (sg, r1) := read_sign r in
        let (ds, r2) := span_digits 10 r1 in
        if is_nil ds then (0, cs)
        else ((if sg then -1 else 1) * Z.of_N (digits_value 10 ds), r2)
      else (0, cs)
  | [] => (0, cs)
  end.

(** The longest [StrUnsignedDecimalLiteral] (the [Infinity] literal apart)
    that starts [cs]: mantissa, power of ten, and the unread rest. *)
Definition read_decimal (cs : list ascii) : option (N * Z * list ascii) :=
  let (ip, r1) := span_digits 10 cs in
  let (fp, r2) :=
    match r1 with
    | c :: r => if Ascii.eqb c "."%char then span_digits 10 r else ([], r1)
    | [] => ([], r1)
    end in
  if is_nil ip && is_nil fp then None
  else
    let (e, r3) := read_exponent r2 in
    Some (digits_value 10 (ip ++ fp), e - Z.of_nat (List.length fp), r3).

(** [m * 10^e] as a number. *)
Definition scale10 (m : Z) (e : Z) : number :=
  if 0 <=? e then fin ((m * 10 ^ e) # 1)
  else fin (m # Z.to_pos (10 ^ (- e))).

Definition signed (sg : bool) (m : N) : Z := if sg then - Z.of_N m else Z.of_N m.

Definition Infinity_lit : list ascii := chars "Infinity".

(** The global [parseFloat] on a string. *)
Definition parseFloat (s : string) : number :=
  let (sg, cs) := read_sign (skip_ws (chars s)) in
  if starts_with Infinity_lit cs then (if sg then NInf else PInf)
  else
    match read_decimal cs with
    | Some (m, e, _) => scale10 (signed sg m) e
    | None => NaN
    end.

(** [Number(s)] on a string (StringToNumber), decimal literals only: the
    [0x], [0o] and [0b] forms, which no formatter prints, read as [NaN]. *)
Definition Number_ (s : string) : number :=
  let cs := trim_chars (chars s) in
  if is_nil cs then Fin 0
  else
    let (sg, cs1) := read_sign cs in
    if starts_with Infinity_lit cs1 && (List.length cs1 =? 8)%nat
    then (if sg then NInf else PInf)
    else
      match read_decimal cs1 with
      | Some (m, e, []) => scale10 (signed sg m) e
      | _ => NaN
      end.

(** The global [parseInt] without a radix argument, on a value that is a
    string or [undefined]; [None] is [NaN]. *)
Definition parseInt (v : option string) : option Z :=
  match v with
  | None => None
  | Some s =>
      let (sg, cs) := read_sign (skip_ws (chars s)) in
      let (radix, cs1) :=
        if starts_with (chars "0x") cs || starts_with (chars "0X") cs
        then (16%N, skipn 2 cs) else (10%N, cs) in
      let (ds, _) := span_digits radix cs1 in
      if is_nil ds then None else Some (signed sg (digits_value radix ds))
  end.

(** *** Printing *)

Definition digit_char (n : N) : ascii := ascii_of_N (48 + n).

(** Exactly [d] decimal digits: [n mod 10^d], zero padded. *)
Fixpoint fixed_digits (d : nat) (n : N) : list ascii :=
  match d with
  | O => []
  | S d' => fixed_digits d' (n / 10) ++ [digit_char (n mod 10)]
  end.

Fixpoint digits_aux (fuel : nat) (n : N) (acc : list ascii) : list ascii :=
  match fuel with
  | O => acc
  | S f =>
      if (n <? 10)%N then digit_char n :: acc
      else digits_aux f (n / 10) (digit_char (n mod 10) :: acc)
  end.

(** The decimal digits of [n], without leading zeros ([0] prints as the digit 0). *)
Definition digits (n : N) : list ascii :=
  digits_aux (S (N.to_nat (N.size n))) n [].

(** [ToString] of an integer Number (below [10^21] in magnitude). *)
Definition Z_toString (z : Z) : string :=
  str ((if z <? 0 then ["-"%char] else []) ++ digits (Z.abs_N z)).

(** [|q| * 10^d] rounded to the nearest integer, ties away from zero. *)
Definition round_scaled (d : nat) (q : Q) : N :=
  let a := Z.abs (Qnum q) * 10 ^ Z.of_nat d in
  let b := Zpos (Qden q) in
  Z.to_N ((2 * a + b) / (2 * b)).

Definition fraction_part (d : nat) (n : N) : list ascii :=
  match d with
  | O => []
  | _ => "."%char :: fixed_digits d n
  end.

Definition minus_sign (q : Q) : list ascii :=
  if Qltb q 0 then ["-"%char] else [].

(** [x.toFixed(d)].  Above [10^21] JavaScript switches to the exponential
    notation of [ToString]; the model keeps the positional one, which reads
    back as the same value. *)
Definition toFixed (d : nat) (x : number) : string :=
  match x with
  | NaN => "NaN"%string
  | PInf => "Infinity"%string
  | NInf => "-Infinity"%string
  | Fin q =>
      let n := round_scaled d q in
      str (minus_sign q ++ digits (n / 10 ^ N.of_nat d)
             ++ fraction_part d n)
  end.

(** Thousands grouping of a reversed digit string. *)
Fixpoint group_rev (l : list ascii) : list ascii :=
  match l with
  | a :: b :: c :: ((_ :: _) as rest) => a :: b :: c :: ","%char :: group_rev rest
  | _ => l
  end.

Definition group3 (l : list ascii) : list ascii := rev (group_rev (rev l)).

(** The UTF-8 bytes of the infinity sign U+221E. *)
Definition infinity_sign : list ascii :=
  [ascii_of_N 226; ascii_of_N 136; ascii_of_N 158].

(** [n.toLocaleString("en-US", { minimumFractionDigits: d,
    maximumFractionDigits: d })] on a number that is not [NaN]. *)
Definition toLocaleString (d : nat) (x : number) : string :=
  match x with
  | NaN => "NaN"%string
  | PInf => str infinity_sign
  | NInf => str ("-"%char :: infinity_sign)
  | Fin q =>
      let n := round_scaled d q in
      str (minus_sign q ++ group3 (digits (n / 10 ^ N.of_nat d))
             ++ fraction_part d n)
  end.

(** ** Exceptions *)

Inductive completion (A : Type) : Type :=
| Normal (a : A)
| Throw (e : string).

Arguments Normal {A} a.
Arguments Throw {A} e.

Definition bind {A B} (c : completion A) (k : A -> completion B) : completion B :=
  match c with
  | Normal a => k a
  | Throw e => Throw e
  end.

Notation "x <- c ;; k" := (bind c (fun x => k))
  (at level 61, c at next level, right associativity).

(** A [for ... of] loop whose body may throw, threading the loop state. *)
Fixpoint for_of {A S} (body : S -> A -> completion S) (xs : list A) (s : S)
  : completion S :=
  match xs with
  | [] => Normal s
  | x :: r => s' <- body s x ;; for_of body r s'
  end.

(** [xs.forEach(f)] where [f] updates the element it is given and may
    throw; the result is the array of the updated elements. *)
Fixpoint forEach {A B} (f : A -> completion B) (xs : list A)
  : completion (list B) :=
  match xs with
  | [] => Normal []
  | x :: r => y <- f x ;; ys <- forEach f r ;; Normal (y :: ys)
  end.

Definition TypeError (msg : string) : string := ("TypeError: " ++ msg)%string.

(** ** [Array.prototype.sort] with a comparator

    The sort is stable.  The model is the stable insertion sort; every stable
    sort agrees with it when the comparator is consistent, and ECMAScript
    leaves the order implementation-defined when it is not. *)

Section Sort.
Context {A : Type} (cmp : A -> A -> number).

(** [cmp x y > 0]: [x] goes after [y].  A [NaN] result counts as [0]. *)
Definition goes_after (x y : A) : bool := gtb (cmp x y) (Fin 0).

Fixpoint insert (x : A) (l : list A) : list A :=
  match l with
  | [] => [x]
  | y :: l' => if goes_after x y then y :: insert x l' else x :: l
  end.

Definition sort (l : list A) : list A := fold_right insert [] l.

End Sort.

(** ** Plain objects used as maps *)

Definition object (V : Type) : Type := list (string * V).

(** The properties every [{}] inherits from [Object.prototype]. *)
Definition Object_prototype_keys : list string :=
  ["constructor"; "hasOwnProperty"; "isPrototypeOf"; "propertyIsEnumerable";
   "toLocaleString"; "toString"; "valueOf"; "__proto__";
   "__defineGetter__"; "__defineSetter__"; "__lookupGetter__";
   "__lookupSetter__"]%string.

Definition inherited (k : string) : bool :=
  existsb (String.eqb k) Object_prototype_keys.

Fixpoint own {V} (o : object V) (k : string) : option V :=
  match o with
  | [] => None
  | (k', v) :: r => if String.eqb k k' then Some v else own r k
  end.

(** What [o[k]] evaluates to: an own value, a member of [Object.prototype]
    (a truthy value that is none of the program's groups), or [undefined]. *)
Inductive property (V : Type) : Type :=
| Own (v : V)
| Inherited
| Undefined.

Arguments Own {V} v.
Arguments Inherited {V}.
Arguments Undefined {V}.

Definition lookup {V} (o : object V) (k : string) : property V :=
  match own o k with
  | Some v => Own v
  | None => if inherited k then Inherited else Undefined
  end.

(** [o[k] = v] for a key that is not yet a property: appended last. *)
Definition define {V} (o : object V) (k : string) (v : V) : object V :=
  o ++ [(k, v)].

(** In-place mutation of the object stored under [k]. *)
Fixpoint update {V} (o : object V) (k : string) (f : V -> V) : object V :=
  match o with
  | [] => []
  | (k', v) :: r =>
      if String.eqb k k' then (k', f v) :: r else (k', v) :: update r k f
  end.

(** An array index: the canonical decimal form of an integer below
    [2^32 - 1].  Such keys are enumerated first, in ascending order. *)
Definition array_index (k : string) : option N :=
  let cs := chars k in
  if negb (is_nil cs) && forallb (is_digit 10) cs
     && ((List.length cs =? 1)%nat || negb (starts_with ["0"%char] cs))
  then
    let n := digits_value 10 cs in
    if (n <=? 4294967294)%N then Some n else None
  else None.

Definition is_index {V} (e : string * V) : bool :=
  match array_index (fst e) with Some _ => true | None => false end.

Definition index_order {V} (a b : string * V) : number :=
  sub (ofZ (Z.of_N (digits_value 10 (chars (fst a)))))
      (ofZ (Z.of_N (digits_value 10 (chars (fst b))))).

Definition Object_entries {V} (o : object V) : list (string * V) :=
  sort index_order (filter is_index o) ++ filter (fun e => negb (is_index e)) o.

Definition Object_values {V} (o : object V) : list V :=
  map snd (Object_entries o).

(** Objects keyed by a year: the key is the decimal form of an integer,
    which is never an inherited name; the model keeps the integer. *)
Definition year_object (V : Type) : Type := list (Z * V).

Fixpoint year_get {V} (o : year_object V) (y : Z) : option V :=
  match o with
  | [] => None
  | (y', v) :: r => if Z.eqb y y' then Some v else year_get r y
  end.

Fixpoint year_set {V} (o : year_object V) (y : Z) (v : V) : year_object V :=
  match o with
  | [] => [(y, v)]
  | (y', v') :: r =>
      if Z.eqb y y' then (y', v) :: r else (y', v') :: year_set r y v
  end.

(** * The program

    [parseFloatSafe], [parseDateSafe], [median], [formatNumber],
    [cleanAndPrepareData] and the three grouping loops read the same in
    [src/main.js] and in [src/unnamed/part_000]; they are embedded once.
    [average] and the three report generators differ and are embedded per
    file, in [MainJs] and [Part000]. *)

Local Open Scope string_scope.
Local Open Scope list_scope.
Local Open Scope Z_scope.

(** ** Scalar utilities *)

(** [parseFloatSafe(v)] on a raw cell: a string, or [undefined]. *)
Definition parseFloatSafe (v : option string) : number :=
  let n := parseFloat (remove_commas (match v with
                                      | Some s => s   (* [""] is falsy too *)
                                      | None => ""
                                      end)) in
  if isNaN n then Fin 0 else n.

(** A dayjs object: a time value in milliseconds, or an invalid date. *)
Inductive Dayjs : Type :=
| Date (t : Z)
| InvalidDate.

Definition isValid (d : Dayjs) : bool :=
  match d with Date _ => true | InvalidDate => false end.

(** [median(arr)]. *)
Definition median (arr : list number) : number :=
  if is_nil arr then Fin 0
  else
    let s := sort (fun a b => sub a b) arr in
    let mid := Nat.div (List.length s) 2 in
    let median :=
      if negb (Nat.modulo (List.length s) 2 =? 0)%nat then nth mid s NaN
      else div (add (nth (mid - 1) s NaN) (nth mid s NaN)) (Fin 2) in
    Number_ (toFixed 2 median).

(** [formatNumber(n, decimals = 2)]. *)
Definition formatNumber (n : number) (decimals : nat) : string :=
  if isNaN n then "0.00" else toLocaleString decimals n.

(** ** Record cleaner *)

Module Raw.
(** A row of the CSV reader: every cell is a string, or [undefined] when the
    column is missing. *)
Record Row : Type := {
  FundingYear : option string;
  ApprovedBudgetForContract : option string;
  ContractCost : option string;
  StartDate : option string;
  ActualCompletionDate : option string;
  Region : option string;
  MainIsland : option string;
  Contractor : option string;
  TypeOfWork : option string
}.
End Raw.

Record CleanedProject : Type := {
  row : Raw.Row;
  ApprovedBudgetForContract : number;
  ContractCost : number;
  StartDate : option Dayjs;
  ActualCompletionDate : Dayjs;
  FundingYear : Z;
  Region : string;
  MainIsland : string;
  Contractor : string;
  TypeOfWork : string;
  CostSavings : number;
  CompletionDelayDays : number
}.

(** [v?.trim() || dflt]. *)
Definition trim_or (v : option string) (dflt : string) : string :=
  match v with
  | Some s => if String.eqb (trim s) "" then dflt else trim s
  | None => dflt
  end.

Section Cleaner.

(** [dayjs(v)] on a raw cell, and the offset from UTC, in minutes, of the
    local time zone at an instant. *)
Variable dayjs : option string -> Dayjs.
Variable utcOffset : Z -> Z.

(** [parseDateSafe(v)]; [None] is [null]. *)
Definition parseDateSafe (v : option string) : option Dayjs :=
  let d := dayjs v in
  if isValid d then Some d else None.

(** [this.diff(input, "day")]: [dayjs(null)] is an invalid date, the
    difference with it is [NaN]; otherwise whole days, truncated. *)
Definition diff_day (this : Dayjs) (input : option Dayjs) : number :=
  match this, input with
  | Date t, Some (Date u) =>
      let zoneDelta := (utcOffset u - utcOffset t) * 60000 in
      ofZ (Z.quot (t - u - zoneDelta) 86400000)
  | _, _ => NaN
  end.

(** One turn of the loop of [cleanAndPrepareData]. *)
Definition clean_row (cleaned : list CleanedProject) (row : Raw.Row)
  : completion (list CleanedProject) :=
  match parseInt (Raw.FundingYear row) with
  | None => Normal cleaned                                  (* [!NaN] *)
  | Some FundingYear =>
    if (FundingYear =? 0) || (FundingYear <? 2021) || (2023 <? FundingYear)
    then Normal cleaned
    else
      let ApprovedBudgetForContract :=
        parseFloatSafe (Raw.ApprovedBudgetForContract row) in
      (* a number is never [=== null] *)
      if leb ApprovedBudgetForContract (Fin 0) then Normal cleaned
      else
        let ContractCost := parseFloatSafe (Raw.ContractCost row) in
        if leb ContractCost (Fin 0) then Normal cleaned
        else
          let StartDate := parseDateSafe (Raw.StartDate row) in
          match parseDateSafe (Raw.ActualCompletionDate row) with
          | None =>
              (* [ActualCompletionDate = StartDate] on a [const] binding *)
              Throw (TypeError "Assignment to constant variable.")
          | Some ActualCompletionDate =>
              let Region := trim_or (Raw.Region row) "Unknown" in
              let MainIsland := trim_or (Raw.MainIsland row) "Unknown" in
              let Contractor :=
                trim_or (Raw.Contractor row) "Unknown Contractor" in
              let TypeOfWork := trim_or (Raw.TypeOfWork row) "Unspecified" in
              let CostSavings := sub ApprovedBudgetForContract ContractCost in
              let CompletionDelayDays :=
                diff_day ActualCompletionDate StartDate in
              Normal (cleaned ++ [{|
                row := row;
                ApprovedBudgetForContract := ApprovedBudgetForContract;
                ContractCost := ContractCost;
                StartDate := StartDate;
                ActualCompletionDate := ActualCompletionDate;
                FundingYear := FundingYear;
                Region := Region;
                MainIsland := MainIsland;
                Contractor := Contractor;
                TypeOfWork := TypeOfWork;
                CostSavings := CostSavings;
                CompletionDelayDays := CompletionDelayDays |}])
          end
  end.

Definition cleanAndPrepareData (rawRows : list Raw.Row)
  : completion (list CleanedProject) :=
  for_of clean_row rawRows [].

End Cleaner.

(** ** Grouping loops of the three analyzers *)

Module RegionGroup.
Record t : Type := {
  Region : string;
  MainIsland : string;
  budgets : list number;
  savings : list number;
  delays : list number
}.
End RegionGroup.

Module ContractorGroup.
Record t : Type := {
  Contractor : string;
  projects : nat;
  delays : list number;
  totalSavings : number;
  totalCost : number
}.
End ContractorGroup.

Module YearWorkGroup.
Record t : Type := {
  FundingYear : Z;
  TypeOfWork : string;
  savings : list number
}.
End YearWorkGroup.

(** Reading [.budgets], [.delays] or [.savings] off an inherited member
    gives [undefined], and [undefined.push] throws. *)
Definition push_on_undefined : string :=
  TypeError "Cannot read properties of undefined (reading 'push')".

Definition region_key (r : CleanedProject) : string :=
  (Region r ++ "|" ++ MainIsland r)%string.

Definition region_push (r : CleanedProject) (g : RegionGroup.t) : RegionGroup.t :=
  {| RegionGroup.Region := RegionGroup.Region g;
     RegionGroup.MainIsland := RegionGroup.MainIsland g;
     RegionGroup.budgets := RegionGroup.budgets g ++ [ApprovedBudgetForContract r];
     RegionGroup.savings := RegionGroup.savings g ++ [CostSavings r];
     RegionGroup.delays := RegionGroup.delays g ++ [CompletionDelayDays r] |}.

(** The loop of [generateReport1] over [data]. *)
Definition region_step (regionMap : object RegionGroup.t) (r : CleanedProject)
  : completion (object RegionGroup.t) :=
  let key := region_key r in
  match lookup regionMap key with
  | Undefined =>
      Normal (update (define regionMap key
                        {| RegionGroup.Region := Region r;
                           RegionGroup.MainIsland := MainIsland r;
                           RegionGroup.budgets := [];
                           RegionGroup.savings := [];
                           RegionGroup.delays := [] |})
                key (region_push r))
  | Own _ => Normal (update regionMap key (region_push r))
  | Inherited => Throw push_on_undefined
  end.

Definition contractor_push (r : CleanedProject) (c : ContractorGroup.t)
  : ContractorGroup.t :=
  {| ContractorGroup.Contractor := ContractorGroup.Contractor c;
     ContractorGroup.projects := S (ContractorGroup.projects c);
     ContractorGroup.delays := ContractorGroup.delays c ++ [CompletionDelayDays r];
     ContractorGroup.totalSavings := add (ContractorGroup.totalSavings c) (CostSavings r);
     ContractorGroup.totalCost := add (ContractorGroup.totalCost c) (ContractCost r) |}.

(** The loop of [generateReport2] over [data]. *)
Definition contractor_step (contractorMap : object ContractorGroup.t)
  (r : CleanedProject) : completion (object ContractorGroup.t) :=
  if String.eqb (Contractor r) "" then Normal contractorMap    (* [continue] *)
  else
    let key := Contractor r in
    match lookup contractorMap key with
    | Undefined =>
        Normal (update (define contractorMap key
                          {| ContractorGroup.Contractor := key;
                             ContractorGroup.projects := 0;
                             ContractorGroup.delays := [];
                             ContractorGroup.totalSavings := Fin 0;
                             ContractorGroup.totalCost := Fin 0 |})
                  key (contractor_push r))
    | Own _ => Normal (update contractorMap key (contractor_push r))
    | Inherited => Throw push_on_undefined
    end.

Definition type_key (r : CleanedProject) : string :=
  (Z_toString (FundingYear r) ++ "|" ++ TypeOfWork r)%string.

Definition type_push (r : CleanedProject) (g : YearWorkGroup.t) : YearWorkGroup.t :=
  {| YearWorkGroup.FundingYear := YearWorkGroup.FundingYear g;
     YearWorkGroup.TypeOfWork := YearWorkGroup.TypeOfWork g;
     YearWorkGroup.savings := YearWorkGroup.savings g ++ [CostSavings r] |}.

(** The loop of [generateReport3] over [data]. *)
Definition type_step (typeMap : object YearWorkGroup.t) (r : CleanedProject)
  : completion (object YearWorkGroup.t) :=
  let key := type_key r in
  match lookup typeMap key with
  | Undefined =>
      Normal (update (define typeMap key
                        {| YearWorkGroup.FundingYear := FundingYear r;
                           YearWorkGroup.TypeOfWork := TypeOfWork r;
                           YearWorkGroup.savings := [] |})
                key (type_push r))
  | Own _ => Normal (update typeMap key (type_push r))
  | Inherited => Throw push_on_undefined
  end.

(** [arr.filter(p).length / arr.length * 100]. *)
Definition percentage (p : number -> bool) (arr : list number) : number :=
  mul (div (ofNat (List.length (filter p arr))) (ofNat (List.length arr)))
      (Fin 100).

(** ** [src/main.js] *)

Module MainJs.

(** [average(arr)]: the plain sum over the length. *)
Definition average (arr : list number) : number :=
  if is_nil arr then Fin 0 else div (sum arr) (ofNat (List.length arr)).

Module Row1.
Record t : Type := {
  Region : string;
  MainIsland : string;
  TotalApprovedBudget : string;
  MedianCostSavings : string;
  AvgCompletionDelayDays : string;
  DelayOver30Percent : string;
  EfficiencyScore : string
}.
End Row1.

Definition region_row (grp : RegionGroup.t) : Row1.t :=
  let avgDelay := average (RegionGroup.delays grp) in
  let delayOver30 :=
    percentage (fun d => gtb d (Fin 30)) (RegionGroup.delays grp) in
  let efficiency :=
    mul (div (median (RegionGroup.savings grp)) avgDelay) (Fin 100) in
  let efficiency :=
    if negb (isFinite efficiency) || ltb efficiency (Fin 0)
    then Fin 0 else efficiency in
  let efficiency := min2 (Fin 100) (max2 (Fin 0) efficiency) in
  {| Row1.Region := RegionGroup.Region grp;
     Row1.MainIsland := RegionGroup.MainIsland grp;
     Row1.TotalApprovedBudget := formatNumber (sum (RegionGroup.budgets grp)) 2;
     Row1.MedianCostSavings := formatNumber (median (RegionGroup.savings grp)) 2;
     Row1.AvgCompletionDelayDays := formatNumber avgDelay 2;
     Row1.DelayOver30Percent := formatNumber delayOver30 2;
     Row1.EfficiencyScore := formatNumber efficiency 2 |}.

Definition generateReport1 (data : list CleanedProject)
  : completion (list Row1.t) :=
  regionMap <- for_of region_step data [] ;;
  let results := map region_row (Object_values regionMap) in
  Normal (sort (fun a b => sub (Number_ (Row1.EfficiencyScore b))
                               (Number_ (Row1.EfficiencyScore a)))
               results).

Module Row2.
Record t : Type := {
  Contractor : string;
  Projects : nat;
  AvgDelay : string;
  TotalCostSavings : string;
  ReliabilityIndex : string;
  RiskFlag : string
}.
End Row2.

Definition contractor_row (c : ContractorGroup.t) : Row2.t :=
  let avgDelay := average (ContractorGroup.delays c) in
  let reliability :=
    mul (mul (sub (Fin 1) (div avgDelay (Fin 90)))
             (div (ContractorGroup.totalSavings c) (ContractorGroup.totalCost c)))
        (Fin 100) in
  let reliability := if negb (isFinite reliability) then Fin 0 else reliability in
  let reliability := min2 (Fin 100) (max2 (Fin 0) reliability) in
  {| Row2.Contractor := ContractorGroup.Contractor c;
     Row2.Projects := ContractorGroup.projects c;
     Row2.AvgDelay := formatNumber avgDelay 2;
     Row2.TotalCostSavings := formatNumber (ContractorGroup.totalSavings c) 2;
     Row2.ReliabilityIndex := formatNumber reliability 2;
     Row2.RiskFlag := if ltb reliability (Fin 50) then "High Risk" else "OK" |}.

Definition generateReport2 (data : list CleanedProject)
  : completion (list Row2.t) :=
  contractorMap <- for_of contractor_step data [] ;;
  let results :=
    firstn 15
      (sort (fun a b => sub (Number_ (Row2.TotalCostSavings b))
                            (Number_ (Row2.TotalCostSavings a)))
         (map contractor_row
            (filter (fun c => (5 <=? ContractorGroup.projects c)%nat)
               (Object_values contractorMap)))) in
  Normal results.

Module Row3.
Record t : Type := {
  FundingYear : Z;
  TypeOfWork : string;
  TotalProjects : nat;
  AvgCostSavings : string;
  OverrunRate : string;
  YoYChangePercent : option string      (* set by the later [forEach] *)
}.
End Row3.

(** The callback of [Object.values(typeMap).map], with its effect on
    [avgSavingsByYear]. *)
Definition type_row (st : year_object (list number) * list Row3.t)
  (grp : YearWorkGroup.t) : year_object (list number) * list Row3.t :=
  let (avgSavingsByYear, results) := st in
  let avgSavings := average (YearWorkGroup.savings grp) in
  let year := YearWorkGroup.FundingYear grp in
  let sofar := match year_get avgSavingsByYear year with
               | Some l => l
               | None => []
               end in
  let avgSavingsByYear := year_set avgSavingsByYear year (sofar ++ [avgSavings]) in
  let overrunRate :=
    percentage (fun s => ltb s (Fin 0)) (YearWorkGroup.savings grp) in
  (avgSavingsByYear,
   results ++ [{| Row3.FundingYear := year;
                  Row3.TypeOfWork := YearWorkGroup.TypeOfWork grp;
                  Row3.TotalProjects := List.length (YearWorkGroup.savings grp);
                  Row3.AvgCostSavings := formatNumber avgSavings 2;
                  Row3.OverrunRate := formatNumber overrunRate 2;
                  Row3.YoYChangePercent := None |}]).

(** [average(avgSavingsByYear[2021] || [0])]. *)
Definition baseline_of (avgSavingsByYear : year_object (list number)) : number :=
  average (match year_get avgSavingsByYear 2021 with
           | Some l => l
           | None => [Fin 0]
           end).

(** [average(undefined)] reads [.length] off [undefined]. *)
Definition length_of_undefined : string :=
  TypeError "Cannot read properties of undefined (reading 'length')".

(** The callback of [results.forEach]. *)
Definition yoy (avgSavingsByYear : year_object (list number)) (baseline : number)
  (r : Row3.t) : completion Row3.t :=
  match year_get avgSavingsByYear (Row3.FundingYear r) with
  | None => Throw length_of_undefined
  | Some l =>
      let yearAvg := average l in
      let change :=
        if Row3.FundingYear r =? 2021 then Fin 0
        else mul (div (sub yearAvg baseline) (Math_abs (or_else baseline (Fin 1))))
                 (Fin 100) in
      Normal {| Row3.FundingYear := Row3.FundingYear r;
                Row3.TypeOfWork := Row3.TypeOfWork r;
                Row3.TotalProjects := Row3.TotalProjects r;
                Row3.AvgCostSavings := Row3.AvgCostSavings r;
                Row3.OverrunRate := Row3.OverrunRate r;
                Row3.YoYChangePercent := Some (toFixed 2 change) |}
  end.

Definition generateReport3 (data : list CleanedProject)
  : completion (list Row3.t) :=
  typeMap <- for_of type_step data [] ;;
  let (avgSavingsByYear, results) :=
    fold_left type_row (Object_values typeMap) ([], []) in
  let baseline := baseline_of avgSavingsByYear in
  results <- forEach (yoy avgSavingsByYear baseline) results ;;
  Normal (sort (fun a b =>
                  or_else (sub (ofZ (Row3.FundingYear a)) (ofZ (Row3.FundingYear b)))
                          (sub (Number_ (Row3.AvgCostSavings b))
                               (Number_ (Row3.AvgCostSavings a))))
               results).

End MainJs.

(** ** [src/unnamed/part_000] *)

Module Part000.

(** The loop of [average]: [Number(x)] is [x] on a number; entries that are
    [NaN] are neither summed nor counted. *)
Definition average_step (st : number * nat) (x : number) : number * nat :=
  let (sum, count) := st in
  let num := x in
  if negb (isNaN num) then (add sum num, S count) else (sum, count).

Definition average (arr : list number) : number :=
  if is_nil arr then Fin 0
  else
    let (sum, count) := fold_left average_step arr (Fin 0, O) in
    if negb (count =? 0)%nat then div sum (ofNat count) else Fin 0.

Module Row1.
Record t : Type := {
  Region : string;
  MainIsland : string;
  TotalApprovedBudget : string;
  MedianCostSavings : string;
  AvgCompletionDelayDays : string;
  DelayOver30Percent : string;
  EfficiencyScore : number
}.
End Row1.

Definition region_row (grp : RegionGroup.t) : Row1.t :=
  let avgDelay := average (RegionGroup.delays grp) in
  let delayOver30 :=
    percentage (fun d => gtb d (Fin 30)) (RegionGroup.delays grp) in
  let efficiency := div (median (RegionGroup.savings grp)) avgDelay in
  let efficiency :=
    if negb (isFinite efficiency) || ltb efficiency (Fin 0)
    then Fin 0 else efficiency in
  {| Row1.Region := RegionGroup.Region grp;
     Row1.MainIsland := RegionGroup.MainIsland grp;
     Row1.TotalApprovedBudget := formatNumber (sum (RegionGroup.budgets grp)) 2;
     Row1.MedianCostSavings := formatNumber (median (RegionGroup.savings grp)) 2;
     Row1.AvgCompletionDelayDays := formatNumber avgDelay 2;
     Row1.DelayOver30Percent := formatNumber delayOver30 2;
     Row1.EfficiencyScore := efficiency |}.

(** The [forEach] that rescales [EfficiencyScore] to 0-100. *)
Definition normalize (minEff maxEff : number) (r : Row1.t) : Row1.t :=
  let score :=
    if isFinite (Row1.EfficiencyScore r) && negb (eqb maxEff minEff)
    then mul (div (sub (Row1.EfficiencyScore r) minEff) (sub maxEff minEff))
             (Fin 100)
    else Fin 0 in
  {| Row1.Region := Row1.Region r;
     Row1.MainIsland := Row1.MainIsland r;
     Row1.TotalApprovedBudget := Row1.TotalApprovedBudget r;
     Row1.MedianCostSavings := Row1.MedianCostSavings r;
     Row1.AvgCompletionDelayDays := Row1.AvgCompletionDelayDays r;
     Row1.DelayOver30Percent := Row1.DelayOver30Percent r;
     Row1.EfficiencyScore := Number_ (toFixed 2 score) |}.

(** [results] of [generateReport1] before the normalization. *)
Definition raw_results (regionMap : object RegionGroup.t) : list Row1.t :=
  map region_row (Object_values regionMap).

Definition generateReport1 (data : list CleanedProject)
  : completion (list Row1.t) :=
  regionMap <- for_of region_step data [] ;;
  let results := raw_results regionMap in
  let efficiencies := map Row1.EfficiencyScore results in
  let minEff := Math_min efficiencies in
  let maxEff := Math_max efficiencies in
  let results := map (normalize minEff maxEff) results in
  Normal (sort (fun a b => sub (Row1.EfficiencyScore b) (Row1.EfficiencyScore a))
               results).

Module Row2.
Record t : Type := {
  Contractor : string;
  TotalCost : string;
  NumProjects : nat;
  AvgDelay : string;
  TotalSavings : string;
  ReliabilityIndex : string;
  RiskFlag : string;
  _rawTotalCost : option number          (* [None] once deleted *)
}.
End Row2.

Definition contractor_row (c : ContractorGroup.t) : Row2.t :=
  let avgDelay := average (ContractorGroup.delays c) in
  let reliability :=
    mul (mul (sub (Fin 1) (div avgDelay (Fin 90)))
             (div (ContractorGroup.totalSavings c) (ContractorGroup.totalCost c)))
        (Fin 100) in
  let reliability := if negb (isFinite reliability) then Fin 0 else reliability in
  let reliability := min2 (Fin 100) reliability in
  {| Row2.Contractor := ContractorGroup.Contractor c;
     Row2.TotalCost := formatNumber (ContractorGroup.totalCost c) 2;
     Row2.NumProjects := ContractorGroup.projects c;
     Row2.AvgDelay := formatNumber avgDelay 2;
     Row2.TotalSavings := formatNumber (ContractorGroup.totalSavings c) 2;
     Row2.ReliabilityIndex := formatNumber reliability 2;
     Row2.RiskFlag := if ltb reliability (Fin 50) then "High Risk" else "Low Risk";
     Row2._rawTotalCost := Some (ContractorGroup.totalCost c) |}.

(** A numeric property that may be absent: [undefined] converts to [NaN]. *)
Definition prop (x : option number) : number :=
  match x with Some v => v | None => NaN end.

Definition delete_rawTotalCost (c : Row2.t) : Row2.t :=
  {| Row2.Contractor := Row2.Contractor c;
     Row2.TotalCost := Row2.TotalCost c;
     Row2.NumProjects := Row2.NumProjects c;
     Row2.AvgDelay := Row2.AvgDelay c;
     Row2.TotalSavings := Row2.TotalSavings c;
     Row2.ReliabilityIndex := Row2.ReliabilityIndex c;
     Row2.RiskFlag := Row2.RiskFlag c;
     Row2._rawTotalCost := None |}.

(** The rows of [generateReport2] after [.slice(0, 15)], before the
    clean-up of the temporary field. *)
Definition ranked (contractorMap : object ContractorGroup.t) : list Row2.t :=
  firstn 15
    (sort (fun a b => sub (prop (Row2._rawTotalCost b)) (prop (Row2._rawTotalCost a)))
       (map contractor_row
          (filter (fun c => (5 <=? ContractorGroup.projects c)%nat)
             (Object_values contractorMap)))).

Definition generateReport2 (data : list CleanedProject)
  : completion (list Row2.t) :=
  contractorMap <- for_of contractor_step data [] ;;
  Normal (map delete_rawTotalCost (ranked contractorMap)).

Module Row3.
Record t : Type := {
  FundingYear : Z;
  TypeOfWork : string;
  TotalProjects : nat;
  AvgCostSavings : string;
  _rawAvgSavings : option number;        (* [None] once deleted *)
  OverrunRate : string;
  YoYChange : option string              (* set by the later [forEach] *)
}.
End Row3.

Record totals : Type := {
  yearTotals : year_object number;
  yearCounts : year_object number;
  results : list Row3.t
}.

(** [o[year] || 0]. *)
Definition year_or0 (o : year_object number) (y : Z) : number :=
  match year_get o y with
  | Some v => or_else v (Fin 0)
  | None => Fin 0
  end.

(** The callback of [Object.values(typeMap).map], with its effect on
    [yearTotals] and [yearCounts]. *)
Definition type_row (st : totals) (grp : YearWorkGroup.t) : totals :=
  let savings := YearWorkGroup.savings grp in
  let totalProjects := List.length savings in
  let avgSavings := average savings in
  let year := YearWorkGroup.FundingYear grp in
  let overrunRate :=
    if negb (is_nil savings) then percentage (fun s => ltb s (Fin 0)) savings
    else Fin 0 in
  {| yearTotals :=
       year_set (yearTotals st) year (add (year_or0 (yearTotals st) year) (sum savings));
     yearCounts :=
       year_set (yearCounts st) year
         (add (year_or0 (yearCounts st) year) (ofNat (List.length savings)));
     results :=
       results st ++ [{| Row3.FundingYear := year;
                         Row3.TypeOfWork := YearWorkGroup.TypeOfWork grp;
                         Row3.TotalProjects := totalProjects;
                         Row3.AvgCostSavings := formatNumber avgSavings 2;
                         Row3._rawAvgSavings := Some avgSavings;
                         Row3.OverrunRate := formatNumber overrunRate 2;
                         Row3.YoYChange := None |}] |}.

(** [weightedYearAvg], filled by the [for ... in] over [yearTotals]. *)
Definition weightedYearAvg (st : totals) : year_object number :=
  map (fun e : Z * number =>
         (fst e, div (snd e) (prop (year_get (yearCounts st) (fst e)))))
      (yearTotals st).

Definition yoy (weighted : year_object number) (r : Row3.t) : Row3.t :=
  let baseline := year_or0 weighted 2021 in
  let yearAvg := year_or0 weighted (Row3.FundingYear r) in
  let change :=
    if Row3.FundingYear r =? 2021 then Fin 0
    else mul (div (sub yearAvg baseline) (Math_abs (or_else baseline (Fin 1))))
             (Fin 100) in
  {| Row3.FundingYear := Row3.FundingYear r;
     Row3.TypeOfWork := Row3.TypeOfWork r;
     Row3.TotalProjects := Row3.TotalProjects r;
     Row3.AvgCostSavings := Row3.AvgCostSavings r;
     Row3._rawAvgSavings := Row3._rawAvgSavings r;
     Row3.OverrunRate := Row3.OverrunRate r;
     Row3.YoYChange := Some (toFixed 2 change) |}.

Definition delete_rawAvgSavings (r : Row3.t) : Row3.t :=
  {| Row3.FundingYear := Row3.FundingYear r;
     Row3.TypeOfWork := Row3.TypeOfWork r;
     Row3.TotalProjects := Row3.TotalProjects r;
     Row3.AvgCostSavings := Row3.AvgCostSavings r;
     Row3._rawAvgSavings := None;
     Row3.OverrunRate := Row3.OverrunRate r;
     Row3.YoYChange := Row3.YoYChange r |}.

Definition trend_order (a b : Row3.t) : number :=
  if negb (Row3.FundingYear a =? Row3.FundingYear b)
  then sub (ofZ (Row3.FundingYear a)) (ofZ (Row3.FundingYear b))
  else sub (prop (Row3._rawAvgSavings b)) (prop (Row3._rawAvgSavings a)).

(** The state after the [map] over the groups of [typeMap]. *)
Definition tally (typeMap : object YearWorkGroup.t) : totals :=
  fold_left type_row (Object_values typeMap)
    {| yearTotals := []; yearCounts := []; results := [] |}.

Definition generateReport3 (data : list CleanedProject)
  : completion (list Row3.t) :=
  typeMap <- for_of type_step data [] ;;
  let st := tally typeMap in
  let results := map (yoy (weightedYearAvg st)) (results st) in
  Normal (map delete_rawAvgSavings (sort trend_order results)).

End Part000.

(** ** A stand-in for dayjs, for the examples

    In a UTC time zone, on the calendar dates [YYYY-MM-DD] with a month in
    1..12 and a day in 1..31; [undefined] is the current time, here a fixed
    instant.  The other strings the examples use, the empty string and text
    without digits, are invalid dates for dayjs as well. *)

Module TestDates.

Definition days_from_civil (y m d : Z) : Z :=
  let y' := if m <=? 2 then y - 1 else y in
  let era := y' / 400 in
  let yoe := y' - era * 400 in
  let doy := (153 * (if 2 <? m then m - 3 else m + 9) + 2) / 5 + d - 1 in
  let doe := yoe * 365 + yoe / 4 - yoe / 100 + doy in
  era * 146097 + doe - 719468.

Definition now : Z := 1793664000000.

Definition number_of (ds : list ascii) : Z := Z.of_N (digits_value 10 ds).

Definition dayjs (v : option string) : Dayjs :=
  match v with
  | None => Date now
  | Some s =>
      match chars s with
      | [y1; y2; y3; y4; d1; m1; m2; d2; a1; a2] =>
          if forallb (is_digit 10) [y1; y2; y3; y4; m1; m2; a1; a2]
             && Ascii.eqb d1 "-"%char && Ascii.eqb d2 "-"%char
          then
            let m := number_of [m1; m2] in
            let d := number_of [a1; a2] in
            if (1 <=? m) && (m <=? 12) && (1 <=? d) && (d <=? 31)
            then Date (days_from_civil (number_of [y1; y2; y3; y4]) m d * 86400000)
            else InvalidDate
          else InvalidDate
      | _ => InvalidDate
      end
  end.

Definition utcOffset (t : Z) : Z := 0.

Definition clean : list Raw.Row -> completion (list CleanedProject) :=
  cleanAndPrepareData dayjs utcOffset.

(** A raw row with the given year, budget, cost, dates, region and
    contractor, on island Luzon and of work type Drainage. *)
Definition raw (year budget cost start completion region contractor : string)
  : Raw.Row :=
  {| Raw.FundingYear := Some year;
     Raw.ApprovedBudgetForContract := Some budget;
     Raw.ContractCost := Some cost;
     Raw.StartDate := Some start;
     Raw.ActualCompletionDate := Some completion;
     Raw.Region := Some region;
     Raw.MainIsland := Some "Luzon";
     Raw.Contractor := Some contractor;
     Raw.TypeOfWork := Some "Drainage" |}.

End TestDates.

(** * The summary and the preview

    [generateSummary], the [summary] that [generateReports] makes of its
    reports, and [previewFile] read the same in both files but for the
    [average] they call and for the default of [lines]. *)

(** ** More of the object model *)

(** [Object.keys(o)]. *)
Definition Object_keys {V} (o : object V) : list string :=
  map fst (Object_entries o).

(** [o[k] = v]: an own property keeps its place, a new one comes last. *)
Definition assign {V} (o : object V) (k : string) (v : V) : object V :=
  match own o k with
  | Some _ => update o k (fun _ => v)
  | None => define o k v
  end.

(** [Object.fromEntries(entries)]. *)
Definition Object_fromEntries {V} (entries : list (string * V)) : object V :=
  fold_left (fun o e => assign o (fst e) (snd e)) entries [].

(** ** [generateSummary] *)

Module Summary.
Record t : Type := {
  totalProjects : nat;
  totalContractors : nat;
  totalRegions : nat;
  avgGlobalDelay : string;
  totalSavings : string
}.
End Summary.

Section GenerateSummary.

(** The [average] of the file. *)
Variable average : list number -> number.

Definition generateSummary {C R} (data : list CleanedProject)
  (contractors : object C) (regions : object R) : Summary.t :=
  {| Summary.totalProjects := List.length data;
     Summary.totalContractors := List.length (Object_keys contractors);
     Summary.totalRegions := List.length (Object_keys regions);
     Summary.avgGlobalDelay :=
       formatNumber (average (map CompletionDelayDays data)) 2;
     Summary.totalSavings :=
       formatNumber (fold_left (fun a b => add a (CostSavings b)) data (Fin 0)) 2 |}.

End GenerateSummary.

(** The [summary] of [generateReports], from the cleaned data and the first
    two reports. *)
Definition MainJs_summary (data : list CleanedProject)
  (report1 : list MainJs.Row1.t) (report2 : list MainJs.Row2.t) : Summary.t :=
  generateSummary MainJs.average data
    (Object_fromEntries (map (fun r => (MainJs.Row2.Contractor r, r)) report2))
    (Object_fromEntries (map (fun r => (MainJs.Row1.Region r, r)) report1)).

Definition Part000_summary (data : list CleanedProject)
  (report1 : list Part000.Row1.t) (report2 : list Part000.Row2.t) : Summary.t :=
  generateSummary Part000.average data
    (Object_fromEntries (map (fun r => (Part000.Row2.Contractor r, r)) report2))
    (Object_fromEntries (map (fun r => (Part000.Row1.Region r, r)) report1)).

(** A cell of the summary preview of [generateReports]:
    [formatNumber(parseFloat(cell.replace(/,/g, "")))]. *)
Definition summary_preview (cell : string) : string :=
  formatNumber (parseFloat (remove_commas cell)) 2.

(** ** [previewFile] *)

(** What the console receives: a line of [console.log], or the two
    arguments of [console.error]. *)
Inductive console : Type :=
| Log (line : string)
| Error (line : string) (err : string).

(** What [previewFile] finds under its path: nothing, a stream that fails
    with an error, or the rows of the CSV reader, whose cells are strings. *)
Inductive file_content : Type :=
| NoFile
| Unreadable (err : string)
| Rows (rows : list (object string)).

(** [c.repeat(n)] for a one-character string. *)
Definition repeat_char (c : ascii) (n : nat) : string := str (repeat c n).

(** [s.padEnd(n)]. *)
Definition padEnd (s : string) (n : nat) : string :=
  (s ++ repeat_char " "%char (n - String.length s))%string.

(** [xs.join(sep)]. *)
Fixpoint join (sep : string) (xs : list string) : string :=
  match xs with
  | [] => ""
  | [x] => x
  | x :: r => (x ++ sep ++ join sep r)%string
  end.

(** The text of a member that a plain object inherits: the source text of
    the native function, and [[object Object]] for the prototype itself. *)
Definition inherited_text (h : string) : string :=
  if String.eqb h "__proto__" then "[object Object]"
  else if String.eqb h "constructor" then "function Object() { [native code] }"
  else ("function " ++ h ++ "() { [native code] }")%string.

(** [r[h].toString()] when [r[h]] is truthy, [None] when it is not. *)
Definition cell (r : object string) (h : string) : option string :=
  match lookup r h with
  | Own v => if String.eqb v "" then None else Some v
  | Inherited => Some (inherited_text h)
  | Undefined => None
  end.

(** [Math.max(h.length, ...results.map(r => r[h] ? r[h].toString().length : 0)) + 2]. *)
Definition colWidth (results : list (object string)) (h : string) : nat :=
  (fold_left Nat.max
     (map (fun r => match cell r h with
                    | Some t => String.length t
                    | None => O
                    end) results)
     (String.length h) + 2)%nat.

Definition bar : string := " | ".

(** The lines of the table: the header row, the rule, and one line per
    previewed row. *)
Definition table (results : list (object string)) : list string :=
  match results with
  | [] => []
  | first :: _ =>
      let headers := Object_keys first in
      let colWidths := map (colWidth results) headers in
      let headerRow :=
        join bar (map (fun hw => padEnd (fst hw) (snd hw))
                      (combine headers colWidths)) in
      headerRow
      :: repeat_char "-"%char (String.length headerRow)
      :: map (fun r =>
                join bar (map (fun hw =>
                                 match cell r (fst hw) with
                                 | Some t => padEnd t (snd hw)
                                 | None => repeat_char " "%char (snd hw)
                                 end)
                              (combine headers colWidths)))
             results
  end.

Definition newline : string := String (ascii_of_N 10) "".

(** [previewFile(filePath, lines, reportTitle, filterNote, reportNumber)]
    with [lines] as it is compared with [results.length]: [None] is
    [undefined], which no length is below. *)
Definition preview (filePath : string) (file : file_content)
  (lines : option nat) (reportTitle filterNote : string) (reportNumber : Z)
  : list console :=
  match file with
  | NoFile => [Log ("File not found: " ++ filePath)%string]
  | _ =>
      let head :=
        [Log (newline ++ "Report " ++ Z_toString reportNumber ++ ": "
                ++ reportTitle)%string;
         Log reportTitle]
        ++ (if String.eqb filterNote "" then []
            else [Log ("(" ++ filterNote ++ ")")%string])
        ++ [Log ""] in
      match file with
      | Rows rows =>
          let results :=
            match lines with
            | Some n => firstn n rows
            | None => []
            end in
          if is_nil results
          then head ++ [Log ("No data to preview in " ++ filePath)%string]
          else head ++ map Log (table results) ++ [Log ""]
      | Unreadable err =>
          head ++ [Error ("Error previewing " ++ filePath ++ ":")%string err]
      | NoFile => []
      end
  end.

(** [src/main.js] declares [lines = 5]; [src/unnamed/part_000] declares no
    default. *)
Definition MainJs_previewFile (filePath : string) (file : file_content)
  (lines : option nat) : string -> string -> Z -> list console :=
  preview filePath file (Some (match lines with Some n => n | None => 5%nat end)).

Definition Part000_previewFile (filePath : string) (file : file_content)
  (lines : option nat) : string -> string -> Z -> list console :=
  preview filePath file lines.

(** ** [reportSelection]

    The answers of the user are a list; [scan.question] takes the next one.
    The function ends by calling [main] again, by [process.exit(0)], or it
    waits for an answer that does not come. *)

(** [s.toUpperCase()] on the letters of ASCII; a string with other letters
    is not the [Y] or [N] that the answer is compared with, before or after
    the conversion. *)
Definition upper (c : ascii) : ascii :=
  let n := N_of_ascii c in
  if ((97 <=? n) && (n <=? 122))%N then ascii_of_N (n - 32) else c.

Definition toUpperCase (s : string) : string := str (map upper (chars s)).

(** What the terminal shows: a question of [scan.question] with the answer
    typed, or a line of [console.log]. *)
Inductive dialogue : Type :=
| Ask (prompt answer : string)
| Say (line : string).

Inductive ending : Type :=
| CallsMain (unread : list string)
| Exits
| Waits.

Definition back_prompt : string := "Back to Report Selection (Y/N): ".

(** The [while (true)] loop of [src/main.js], entered with [choice]: only
    the first answer was converted to upper case. *)
Fixpoint MainJs_selection_loop (choice : string) (answers : list string)
  : list dialogue * ending :=
  if String.eqb choice "Y" then ([], CallsMain answers)
  else if String.eqb choice "N" then ([Say "Exiting the program."], Exits)
  else
    match answers with
    | [] => ([Say "Invalid choice."], Waits)
    | a :: rest =>
        let (shown, e) := MainJs_selection_loop a rest in
        (Say "Invalid choice." :: Ask back_prompt a :: shown, e)
    end.

Definition MainJs_reportSelection (answers : list string)
  : list dialogue * ending :=
  match answers with
  | [] => ([], Waits)
  | a :: rest =>
      let (shown, e) := MainJs_selection_loop (toUpperCase a) rest in
      (Ask back_prompt a :: shown, e)
  end.

(** The loop of [src/unnamed/part_000]: every answer is converted. *)
Fixpoint Part000_reportSelection (answers : list string)
  : list dialogue * ending :=
  match answers with
  | [] => ([], Waits)
  | a :: rest =>
      let choice := toUpperCase a in
      if String.eqb choice "Y" then ([Ask back_prompt a], CallsMain rest)
      else if String.eqb choice "N"
      then ([Ask back_prompt a; Say "Exiting the program."], Exits)
      else
        let (shown, e) := Part000_reportSelection rest in
        (Ask back_prompt a :: Say "Invalid choice. Please enter Y or N." :: shown, e)
  end.

(** * The arithmetic in binary64

    A JavaScript Number is a binary64 floating-point number: every
    arithmetic operation returns the exact result rounded to the nearest
    number with a 53-bit significand, ties to the even significand, with
    gradual underflow below [2^-1022] and an infinity from [2^1024 - 2^970]
    on.  Module [B64] has this rounding and, with every operation rounded,
    the functions of the program that compute: [median], the two [average]s
    and the three report generators of both files.  The sign of zero stays
    outside the model.  The grouping loops of the regional and of the trend
    report only push values; they are the ones above. *)

Module B64.

(** [floor (log2 |q|)], for [q] other than 0. *)
Definition ilog2 (q : Q) : Z :=
  let e := Z.log2 (Z.abs (Qnum q)) - Z.log2 (Zpos (Qden q)) in
  if Qle_bool (2 ^ e) (Qabs q) then e else e - 1.

(** The nearest integer, a tie going to the even one. *)
Definition rne (x : Q) : Z :=
  let f := Qfloor x in
  match (x - inject_Z f ?= 1 # 2)%Q with
  | Lt => f
  | Gt => f + 1
  | Eq => if Z.even f then f else f + 1
  end.

(** The exponent of the unit in the last place of the binade of [q]:
    53 bits of significand, and the grid of [2^-1074] below [2^-1022]. *)
Definition ulp_exp (q : Q) : Z := Z.max (ilog2 q) (-1022) - 52.

(** The nearest multiple of the unit in the last place. *)
Definition nearest (q : Q) : Q :=
  let p := ulp_exp q in (inject_Z (rne (q / 2 ^ p)) * 2 ^ p)%Q.

(** The Number value for the rational [q]. *)
Definition round64 (q : Q) : number :=
  let r := nearest q in
  if Qle_bool (2 ^ 1024) (Qabs r) then (if Qltb q 0 then NInf else PInf)
  else fin r.

Definition round (x : number) : number :=
  match x with Fin q => round64 q | _ => x end.

(** The operators [+], [-], [*] and [/]. *)
Definition add (x y : number) : number := round (add x y).
Definition sub (x y : number) : number := round (sub x y).
Definition mul (x y : number) : number := round (mul x y).
Definition div (x y : number) : number := round (div x y).

(** [arr.reduce((a, b) => a + b, 0)]. *)
Definition sum (xs : list number) : number := fold_left add xs (Fin 0).

(** [Number(s)] on a string: the Number value for the numeral. *)
Definition Number_ (s : string) : number := round (Number_ s).

(** [median(arr)]. *)
Definition median (arr : list number) : number :=
  if is_nil arr then Fin 0
  else
    let s := sort (fun a b => sub a b) arr in
    let mid := Nat.div (List.length s) 2 in
    let median :=
      if negb (Nat.modulo (List.length s) 2 =? 0)%nat then nth mid s NaN
      else div (add (nth (mid - 1) s NaN) (nth mid s NaN)) (Fin 2) in
    Number_ (toFixed 2 median).

(** [arr.filter(p).length / arr.length * 100]; a length is a whole number
    below [2^32]. *)
Definition percentage (p : number -> bool) (arr : list number) : number :=
  mul (div (ofNat (List.length (filter p arr))) (ofNat (List.length arr)))
      (Fin 100).

Definition contractor_push (r : CleanedProject) (c : ContractorGroup.t)
  : ContractorGroup.t :=
  {| ContractorGroup.Contractor := ContractorGroup.Contractor c;
     ContractorGroup.projects := S (ContractorGroup.projects c);
     ContractorGroup.delays := ContractorGroup.delays c ++ [CompletionDelayDays r];
     ContractorGroup.totalSavings := add (ContractorGroup.totalSavings c) (CostSavings r);
     ContractorGroup.totalCost := add (ContractorGroup.totalCost c) (ContractCost r) |}.

(** The loop of [generateReport2] over [data]. *)
Definition contractor_step (contractorMap : object ContractorGroup.t)
  (r : CleanedProject) : completion (object ContractorGroup.t) :=
  if String.eqb (Contractor r) "" then Normal contractorMap    (* [continue] *)
  else
    let key := Contractor r in
    match lookup contractorMap key with
    | Undefined =>
        Normal (update (define contractorMap key
                          {| ContractorGroup.Contractor := key;
                             ContractorGroup.projects := 0;
                             ContractorGroup.delays := [];
                             ContractorGroup.totalSavings := Fin 0;
                             ContractorGroup.totalCost := Fin 0 |})
                  key (contractor_push r))
    | Own _ => Normal (update contractorMap key (contractor_push r))
    | Inherited => Throw push_on_undefined
    end.

(** ** [src/main.js] *)

Module Main.

(** [average(arr)]: the plain sum over the length. *)
Definition average (arr : list number) : number :=
  if is_nil arr then Fin 0 else div (sum arr) (ofNat (List.length arr)).

Definition region_row (grp : RegionGroup.t) : MainJs.Row1.t :=
  let avgDelay := average (RegionGroup.delays grp) in
  let delayOver30 :=
    percentage (fun d => gtb d (Fin 30)) (RegionGroup.delays grp) in
  let efficiency :=
    mul (div (median (RegionGroup.savings grp)) avgDelay) (Fin 100) in
  let efficiency :=
    if negb (isFinite efficiency) || ltb efficiency (Fin 0)
    then Fin 0 else efficiency in
  let efficiency := min2 (Fin 100) (max2 (Fin 0) efficiency) in
  {| MainJs.Row1.Region := RegionGroup.Region grp;
     MainJs.Row1.MainIsland := RegionGroup.MainIsland grp;
     MainJs.Row1.TotalApprovedBudget :=
       formatNumber (sum (RegionGroup.budgets grp)) 2;
     MainJs.Row1.MedianCostSavings :=
       formatNumber (median (RegionGroup.savings grp)) 2;
     MainJs.Row1.AvgCompletionDelayDays := formatNumber avgDelay 2;
     MainJs.Row1.DelayOver30Percent := formatNumber delayOver30 2;
     MainJs.Row1.EfficiencyScore := formatNumber efficiency 2 |}.

Definition generateReport1 (data : list CleanedProject)
  : completion (list MainJs.Row1.t) :=
  regionMap <- for_of region_step data [] ;;
  let results := map region_row (Object_values regionMap) in
  Normal (sort (fun a b => sub (Number_ (MainJs.Row1.EfficiencyScore b))
                               (Number_ (MainJs.Row1.EfficiencyScore a)))
               results).

Definition contractor_row (c : ContractorGroup.t) : MainJs.Row2.t :=
  let avgDelay := average (ContractorGroup.delays c) in
  let reliability :=
    mul (mul (sub (Fin 1) (div avgDelay (Fin 90)))
             (div (ContractorGroup.totalSavings c) (ContractorGroup.totalCost c)))
        (Fin 100) in
  let reliability := if negb (isFinite reliability) then Fin 0 else reliability in
  let reliability := min2 (Fin 100) (max2 (Fin 0) reliability) in
  {| MainJs.Row2.Contractor := ContractorGroup.Contractor c;
     MainJs.Row2.Projects := ContractorGroup.projects c;
     MainJs.Row2.AvgDelay := formatNumber avgDelay 2;
     MainJs.Row2.TotalCostSavings :=
       formatNumber (ContractorGroup.totalSavings c) 2;
     MainJs.Row2.ReliabilityIndex := formatNumber reliability 2;
     MainJs.Row2.RiskFlag :=
       if ltb reliability (Fin 50) then "High Risk" else "OK" |}.

Definition generateReport2 (data : list CleanedProject)
  : completion (list MainJs.Row2.t) :=
  contractorMap <- for_of contractor_step data [] ;;
  let results :=
    firstn 15
      (sort (fun a b => sub (Number_ (MainJs.Row2.TotalCostSavings b))
                            (Number_ (MainJs.Row2.TotalCostSavings a)))
         (map contractor_row
            (filter (fun c => (5 <=? ContractorGroup.projects c)%nat)
               (Object_values contractorMap)))) in
  Normal results.

(** The callback of [Object.values(typeMap).map], with its effect on
    [avgSavingsByYear]. *)
Definition type_row (st : year_object (list number) * list MainJs.Row3.t)
  (grp : YearWorkGroup.t) : year_object (list number) * list MainJs.Row3.t :=
  let (avgSavingsByYear, results) := st in
  let avgSavings := average (YearWorkGroup.savings grp) in
  let year := YearWorkGroup.FundingYear grp in
  let sofar := match year_get avgSavingsByYear year with
               | Some l => l
               | None => []
               end in
  let avgSavingsByYear := year_set avgSavingsByYear year (sofar ++ [avgSavings]) in
  let overrunRate :=
    percentage (fun s => ltb s (Fin 0)) (YearWorkGroup.savings grp) in
  (avgSavingsByYear,
   results ++ [{| MainJs.Row3.FundingYear := year;
                  MainJs.Row3.TypeOfWork := YearWorkGroup.TypeOfWork grp;
                  MainJs.Row3.TotalProjects :=
                    List.length (YearWorkGroup.savings grp);
                  MainJs.Row3.AvgCostSavings := formatNumber avgSavings 2;
                  MainJs.Row3.OverrunRate := formatNumber overrunRate 2;
                  MainJs.Row3.YoYChangePercent := None |}]).

(** [average(avgSavingsByYear[2021] || [0])]. *)
Definition baseline_of (avgSavingsByYear : year_object (list number)) : number :=
  average (match year_get avgSavingsByYear 2021 with
           | Some l => l
           | None => [Fin 0]
           end).

(** The callback of [results.forEach]. *)
Definition yoy (avgSavingsByYear : year_object (list number)) (baseline : number)
  (r : MainJs.Row3.t) : completion MainJs.Row3.t :=
  match year_get avgSavingsByYear (MainJs.Row3.FundingYear r) with
  | None => Throw MainJs.length_of_undefined
  | Some l =>
      let yearAvg := average l in
      let change :=
        if MainJs.Row3.FundingYear r =? 2021 then Fin 0
        else mul (div (sub yearAvg baseline) (Math_abs (or_else baseline (Fin 1))))
                 (Fin 100) in
      Normal {| MainJs.Row3.FundingYear := MainJs.Row3.FundingYear r;
                MainJs.Row3.TypeOfWork := MainJs.Row3.TypeOfWork r;
                MainJs.Row3.TotalProjects := MainJs.Row3.TotalProjects r;
                MainJs.Row3.AvgCostSavings := MainJs.Row3.AvgCostSavings r;
                MainJs.Row3.OverrunRate := MainJs.Row3.OverrunRate r;
                MainJs.Row3.YoYChangePercent := Some (toFixed 2 change) |}
  end.

Definition generateReport3 (data : list CleanedProject)
  : completion (list MainJs.Row3.t) :=
  typeMap <- for_of type_step data [] ;;
  let (avgSavingsByYear, results) :=
    fold_left type_row (Object_values typeMap) ([], []) in
  let baseline := baseline_of avgSavingsByYear in
  results <- forEach (yoy avgSavingsByYear baseline) results ;;
  Normal (sort (fun a b =>
                  or_else (sub (ofZ (MainJs.Row3.FundingYear a))
                               (ofZ (MainJs.Row3.FundingYear b)))
                          (sub (Number_ (MainJs.Row3.AvgCostSavings b))
                               (Number_ (MainJs.Row3.AvgCostSavings a))))
               results).

End Main.

(** ** [src/unnamed/part_000] *)

Module Part.

(** The loop of [average]: entries that are [NaN] are neither summed nor
    counted. *)
Definition average_step (st : number * nat) (x : number) : number * nat :=
  let (sum, count) := st in
  let num := x in
  if negb (isNaN num) then (add sum num, S count) else (sum, count).

Definition average (arr : list number) : number :=
  if is_nil arr then Fin 0
  else
    let (sum, count) := fold_left average_step arr (Fin 0, O) in
    if negb (count =? 0)%nat then div sum (ofNat count) else Fin 0.

Definition region_row (grp : RegionGroup.t) : Part000.Row1.t :=
  let avgDelay := average (RegionGroup.delays grp) in
  let delayOver30 :=
    percentage (fun d => gtb d (Fin 30)) (RegionGroup.delays grp) in
  let efficiency := div (median (RegionGroup.savings grp)) avgDelay in
  let efficiency :=
    if negb (isFinite efficiency) || ltb efficiency (Fin 0)
    then Fin 0 else efficiency in
  {| Part000.Row1.Region := RegionGroup.Region grp;
     Part000.Row1.MainIsland := RegionGroup.MainIsland grp;
     Part000.Row1.TotalApprovedBudget :=
       formatNumber (sum (RegionGroup.budgets grp)) 2;
     Part000.Row1.MedianCostSavings :=
       formatNumber (median (RegionGroup.savings grp)) 2;
     Part000.Row1.AvgCompletionDelayDays := formatNumber avgDelay 2;
     Part000.Row1.DelayOver30Percent := formatNumber delayOver30 2;
     Part000.Row1.EfficiencyScore := efficiency |}.

(** The [forEach] that rescales [EfficiencyScore] to 0-100. *)
Definition normalize (minEff maxEff : number) (r : Part000.Row1.t)
  : Part000.Row1.t :=
  let score :=
    if isFinite (Part000.Row1.EfficiencyScore r) && negb (eqb maxEff minEff)
    then mul (div (sub (Part000.Row1.EfficiencyScore r) minEff)
                  (sub maxEff minEff))
             (Fin 100)
    else Fin 0 in
  {| Part000.Row1.Region := Part000.Row1.Region r;
     Part000.Row1.MainIsland := Part000.Row1.MainIsland r;
     Part000.Row1.TotalApprovedBudget := Part000.Row1.TotalApprovedBudget r;
     Part000.Row1.MedianCostSavings := Part000.Row1.MedianCostSavings r;
     Part000.Row1.AvgCompletionDelayDays := Part000.Row1.AvgCompletionDelayDays r;
     Part000.Row1.DelayOver30Percent := Part000.Row1.DelayOver30Percent r;
     Part000.Row1.EfficiencyScore := Number_ (toFixed 2 score) |}.

(** [results] of [generateReport1] before the normalization. *)
Definition raw_results (regionMap : object RegionGroup.t) : list Part000.Row1.t :=
  map region_row (Object_values regionMap).

Definition generateReport1 (data : list CleanedProject)
  : completion (list Part000.Row1.t) :=
  regionMap <- for_of region_step data [] ;;
  let results := raw_results regionMap in
  let efficiencies := map Part000.Row1.EfficiencyScore results in
  let minEff := Math_min efficiencies in
  let maxEff := Math_max efficiencies in
  let results := map (normalize minEff maxEff) results in
  Normal (sort (fun a b => sub (Part000.Row1.EfficiencyScore b)
                               (Part000.Row1.EfficiencyScore a))
               results).

Definition contractor_row (c : ContractorGroup.t) : Part000.Row2.t :=
  let avgDelay := average (ContractorGroup.delays c) in
  let reliability :=
    mul (mul (sub (Fin 1) (div avgDelay (Fin 90)))
             (div (ContractorGroup.totalSavings c) (ContractorGroup.totalCost c)))
        (Fin 100) in
  let reliability := if negb (isFinite reliability) then Fin 0 else reliability in
  let reliability := min2 (Fin 100) reliability in
  {| Part000.Row2.Contractor := ContractorGroup.Contractor c;
     Part000.Row2.TotalCost := formatNumber (ContractorGroup.totalCost c) 2;
     Part000.Row2.NumProjects := ContractorGroup.projects c;
     Part000.Row2.AvgDelay := formatNumber avgDelay 2;
     Part000.Row2.TotalSavings := formatNumber (ContractorGroup.totalSavings c) 2;
     Part000.Row2.ReliabilityIndex := formatNumber reliability 2;
     Part000.Row2.RiskFlag :=
       if ltb reliability (Fin 50) then "High Risk" else "Low Risk";
     Part000.Row2._rawTotalCost := Some (ContractorGroup.totalCost c) |}.

(** The rows of [generateReport2] after [.slice(0, 15)], before the
    clean-up of the temporary field. *)
Definition ranked (contractorMap : object ContractorGroup.t)
  : list Part000.Row2.t :=
  firstn 15
    (sort (fun a b => sub (Part000.prop (Part000.Row2._rawTotalCost b))
                          (Part000.prop (Part000.Row2._rawTotalCost a)))
       (map contractor_row
          (filter (fun c => (5 <=? ContractorGroup.projects c)%nat)
             (Object_values contractorMap)))).

Definition generateReport2 (data : list CleanedProject)
  : completion (list Part000.Row2.t) :=
  contractorMap <- for_of contractor_step data [] ;;
  Normal (map Part000.delete_rawTotalCost (ranked contractorMap)).

(** The callback of [Object.values(typeMap).map], with its effect on
    [yearTotals] and [yearCounts]. *)
Definition type_row (st : Part000.totals) (grp : YearWorkGroup.t)
  : Part000.totals :=
  let savings := YearWorkGroup.savings grp in
  let totalProjects := List.length savings in
  let avgSavings := average savings in
  let year := YearWorkGroup.FundingYear grp in
  let overrunRate :=
    if negb (is_nil savings) then percentage (fun s => ltb s (Fin 0)) savings
    else Fin 0 in
  {| Part000.yearTotals :=
       year_set (Part000.yearTotals st) year
         (add (Part000.year_or0 (Part000.yearTotals st) year) (sum savings));
     Part000.yearCounts :=
       year_set (Part000.yearCounts st) year
         (add (Part000.year_or0 (Part000.yearCounts st) year)
              (ofNat (List.length savings)));
     Part000.results :=
       Part000.results st ++
       [{| Part000.Row3.FundingYear := year;
           Part000.Row3.TypeOfWork := YearWorkGroup.TypeOfWork grp;
           Part000.Row3.TotalProjects := totalProjects;
           Part000.Row3.AvgCostSavings := formatNumber avgSavings 2;
           Part000.Row3._rawAvgSavings := Some avgSavings;
           Part000.Row3.OverrunRate := formatNumber overrunRate 2;
           Part000.Row3.YoYChange := None |}] |}.

(** [weightedYearAvg], filled by the [for ... in] over [yearTotals]. *)
Definition weightedYearAvg (st : Part000.totals) : year_object number :=
  map (fun e : Z * number =>
         (fst e,
          div (snd e) (Part000.prop (year_get (Part000.yearCounts st) (fst e)))))
      (Part000.yearTotals st).

Definition yoy (weighted : year_object number) (r : Part000.Row3.t)
  : Part000.Row3.t :=
  let baseline := Part000.year_or0 weighted 2021 in
  let yearAvg := Part000.year_or0 weighted (Part000.Row3.FundingYear r) in
  let change :=
    if Part000.Row3.FundingYear r =? 2021 then Fin 0
    else mul (div (sub yearAvg baseline) (Math_abs (or_else baseline (Fin 1))))
             (Fin 100) in
  {| Part000.Row3.FundingYear := Part000.Row3.FundingYear r;
     Part000.Row3.TypeOfWork := Part000.Row3.TypeOfWork r;
     Part000.Row3.TotalProjects := Part000.Row3.TotalProjects r;
     Part000.Row3.AvgCostSavings := Part000.Row3.AvgCostSavings r;
     Part000.Row3._rawAvgSavings := Part000.Row3._rawAvgSavings r;
     Part000.Row3.OverrunRate := Part000.Row3.OverrunRate r;
     Part000.Row3.YoYChange := Some (toFixed 2 change) |}.

Definition trend_order (a b : Part000.Row3.t) : number :=
  if negb (Part000.Row3.FundingYear a =? Part000.Row3.FundingYear b)
  then sub (ofZ (Part000.Row3.FundingYear a)) (ofZ (Part000.Row3.FundingYear b))
  else sub (Part000.prop (Part000.Row3._rawAvgSavings b))
           (Part000.prop (Part000.Row3._rawAvgSavings a)).

(** The state after the [map] over the groups of [typeMap]. *)
Definition tally (typeMap : object YearWorkGroup.t) : Part000.totals :=
  fold_left type_row (Object_values typeMap)
    {| Part000.yearTotals := []; Part000.yearCounts := [];
       Part000.results := [] |}.

Definition generateReport3 (data : list CleanedProject)
  : completion (list Part000.Row3.t) :=
  typeMap <- for_of type_step data [] ;;
  let st := tally typeMap in
  let results := map (yoy (weightedYearAvg st)) (Part000.results st) in
  Normal (map Part000.delete_rawAvgSavings (sort trend_order results)).

End Part.

End B64.

(** * Specification-side definitions *)

(** The rational a finite number stands for. *)
Definition qv (x : number) : Q :=
  match x with Fin q => q | _ => 0%Q end.

(** [x <= y] on numbers. *)
Definition num_le (x y : number) : Prop := leb x y = true.

(** Rounding to 2 decimal places: the nearest multiple of 1/100, a tie going
    away from zero; the special values are left alone. *)
Definition round2 (x : number) : number :=
  match x with
  | Fin q => fin (signed (Qltb q 0) (round_scaled 2 q) # 100)
  | _ => x
  end.

(** The number a formatted cell displays: separators removed, then read as a
    decimal numeral. *)
Definition shown (s : string) : number := Number_ (remove_commas s).

(** The middle of a sorted sequence: its central element when the length is
    odd, the mean of the two central elements when it is even. *)
Definition middle (s : list number) : number :=
  let n := List.length s in
  if Nat.odd n then nth (n / 2) s NaN
  else div (add (nth (n / 2 - 1) s NaN) (nth (n / 2) s NaN)) (Fin 2).

(** An entry that is a valid number. *)
Definition valid (x : number) : bool := negb (isNaN x).

(** The arithmetic mean of the valid entries; [0] when there is none. *)
Definition mean_of_valid (arr : list number) : number :=
  let vs := filter valid arr in
  if is_nil vs then Fin 0 else div (sum vs) (ofNat (List.length vs)).

(** A raw row passes validation: its year reads as an integer among 2021,
    2022 and 2023, and budget and cost, read with the separators removed and
    [0] for what cannot be read, are positive. *)
Definition passes_validation (r : Raw.Row) : bool :=
  match parseInt (Raw.FundingYear r) with
  | Some y =>
      ((y =? 2021) || (y =? 2022) || (y =? 2023))
      && ltb (Fin 0) (parseFloatSafe (Raw.ApprovedBudgetForContract r))
      && ltb (Fin 0) (parseFloatSafe (Raw.ContractCost r))
  | None => false
  end.

(** The constraints of the data model on a cleaned project: a funding year
    among 2021, 2022 and 2023, a positive budget and cost, the savings as
    their difference, a whole number of days (or [NaN], without a start
    date) as delay, and non-empty labels. *)
Record cleaned_ok (p : CleanedProject) : Prop := {
  ok_year : 2021 <= FundingYear p <= 2023;
  ok_budget : ltb (Fin 0) (ApprovedBudgetForContract p) = true;
  ok_cost : ltb (Fin 0) (ContractCost p) = true;
  ok_savings : CostSavings p = sub (ApprovedBudgetForContract p) (ContractCost p);
  ok_delay : CompletionDelayDays p = NaN \/
             exists z, CompletionDelayDays p = ofZ z;
  ok_contractor : Contractor p <> ""%string
}.

(** The exception of the cleaner. *)
Definition const_assignment : string :=
  TypeError "Assignment to constant variable.".

(** ** The shape shared by the three grouping loops *)

Section GroupingLoop.
Context {G : Type}.
Variable keep : CleanedProject -> bool.
Variable key_of : CleanedProject -> string.
Variable fresh : CleanedProject -> G.
Variable push : CleanedProject -> G -> G.

Definition group_step (m : object G) (r : CleanedProject) : completion (object G) :=
  if keep r then
    match lookup m (key_of r) with
    | Undefined =>
        Normal (update (define m (key_of r) (fresh r)) (key_of r) (push r))
    | Own _ => Normal (update m (key_of r) (push r))
    | Inherited => Throw push_on_undefined
    end
  else Normal m.

(** The kept rows of [ds] whose key is [k], in the order of [ds]. *)
Definition members (k : string) (ds : list CleanedProject) : list CleanedProject :=
  filter (fun r => keep r && String.eqb (key_of r) k) ds.

(** The group that rows of one key build: created for the first of them,
    then every one of them pushed. *)
Definition built (rs : list CleanedProject) : option G :=
  match rs with
  | [] => None
  | r :: _ => Some (fold_left (fun g x => push x g) rs (fresh r))
  end.

(** [m] is what the loop makes of the rows [ds]. *)
Definition grouped (ds : list CleanedProject) (m : object G) : Prop :=
  NoDup (map fst m) /\ forall k, own m k = built (members k ds).

End GroupingLoop.

Definition region_fresh (r : CleanedProject) : RegionGroup.t :=
  {| RegionGroup.Region := Region r;
     RegionGroup.MainIsland := MainIsland r;
     RegionGroup.budgets := [];
     RegionGroup.savings := [];
     RegionGroup.delays := [] |}.

Definition contractor_fresh (r : CleanedProject) : ContractorGroup.t :=
  {| ContractorGroup.Contractor := Contractor r;
     ContractorGroup.projects := 0;
     ContractorGroup.delays := [];
     ContractorGroup.totalSavings := Fin 0;
     ContractorGroup.totalCost := Fin 0 |}.

Definition type_fresh (r : CleanedProject) : YearWorkGroup.t :=
  {| YearWorkGroup.FundingYear := FundingYear r;
     YearWorkGroup.TypeOfWork := TypeOfWork r;
     YearWorkGroup.savings := [] |}.

Definition has_contractor (r : CleanedProject) : bool :=
  negb (String.eqb (Contractor r) "").

Definition always (r : CleanedProject) : bool := true.

(** Sum of a list of rationals. *)
Definition qsum (l : list Q) : Q := fold_right Qplus 0%Q l.


(** ** Example data *)

Module Examples.

Definition good_row : Raw.Row :=
  TestDates.raw "2021" "100" "80" "2021-01-01" "2021-01-11" "NCR" "A".

(** Valid year, budget and cost, and an empty completion date. *)
Definition row_without_completion : Raw.Row :=
  TestDates.raw "2021" "100" "80" "2021-01-01" "" "NCR" "A".

(** Valid year, budget and cost, and a start date that does not parse. *)
Definition row_bad_start : Raw.Row :=
  TestDates.raw "2022" "1,500.50" "60" "not a date" "2021-01-06" "NCR" "B".

Definition row_of_2020 : Raw.Row :=
  TestDates.raw "2020" "100" "80" "2020-01-01" "2020-01-11" "NCR" "A".

Definition row_without_cost : Raw.Row :=
  TestDates.raw "2021" "100" "n/a" "2021-01-01" "" "NCR" "A".

Definition mixed_rows : list Raw.Row :=
  [good_row; row_of_2020; row_bad_start; row_without_cost].

(** Savings of 0.5 in 2021 and of 1.5 in 2022. *)
Definition small_baseline_rows : list Raw.Row :=
  [TestDates.raw "2021" "100.5" "100" "2021-01-01" "2021-01-11" "NCR" "A";
   TestDates.raw "2022" "101.5" "100" "2022-01-01" "2022-01-11" "NCR" "A"].

(** One project of 2021 saving 20; in 2022 one drainage project saving 10 and
    three dike projects saving 50 each. *)
Definition of_type (r : Raw.Row) (t : string) : Raw.Row :=
  {| Raw.FundingYear := Raw.FundingYear r;
     Raw.ApprovedBudgetForContract := Raw.ApprovedBudgetForContract r;
     Raw.ContractCost := Raw.ContractCost r;
     Raw.StartDate := Raw.StartDate r;
     Raw.ActualCompletionDate := Raw.ActualCompletionDate r;
     Raw.Region := Raw.Region r;
     Raw.MainIsland := Raw.MainIsland r;
     Raw.Contractor := Raw.Contractor r;
     Raw.TypeOfWork := Some t |}.

Definition uneven_rows : list Raw.Row :=
  let dike :=
    of_type (TestDates.raw "2022" "150" "100" "2022-01-01" "2022-01-11" "NCR" "A")
            "Dike" in
  [TestDates.raw "2021" "100" "80" "2021-01-01" "2021-01-11" "NCR" "A";
   TestDates.raw "2022" "110" "100" "2022-01-01" "2022-01-11" "NCR" "A";
   dike; dike; dike].

(** What the cleaner makes of rows, [[]] if it throws. *)
Definition cleaned (rows : list Raw.Row) : list CleanedProject :=
  match TestDates.clean rows with
  | Normal data => data
  | Throw _ => []
  end.

(** Five projects of contractor A costing 100 each and saving 10 each, then
    five of contractor B costing 1000 each and saving 1 each. *)
Definition five (r : Raw.Row) : list Raw.Row := [r; r; r; r; r].

Definition two_contractors : list Raw.Row :=
  five (TestDates.raw "2021" "110" "100" "2021-01-01" "2021-01-11" "NCR" "A")
  ++ five (TestDates.raw "2021" "1001" "1000" "2021-01-01" "2021-01-11" "NCR" "B").


End Examples.

(** The sum of what a column of formatted cells displays. *)
Definition shown_total (cells : list string) : Q :=
  qsum (map (fun s => qv (shown s)) cells).

(** The sum of the approved budgets of the cleaned projects. *)
Definition approved_total (data : list CleanedProject) : Q :=
  qsum (map (fun p => qv (ApprovedBudgetForContract p)) data).

(** The tolerance of the 2-decimal display, per displayed cell. *)
Definition half_cent : Q := 1 # 200.

(** ** The cost-trend report, specified on the data *)

(** The savings of the projects of funding year [y]. *)
Definition year_savings (data : list CleanedProject) (y : Z) : list number :=
  map CostSavings (filter (fun p => FundingYear p =? y) data).

(** The aggregate savings figure of year [y]: the mean of the savings of all
    projects of the year, that is the average of the group averages weighted
    by the project counts of the groups; [0] for a year without project. *)
Definition year_mean (data : list CleanedProject) (y : Z) : number :=
  let s := year_savings data y in
  if is_nil s then Fin 0 else div (sum s) (ofNat (List.length s)).

(** The divisor of the year-over-year change as the code has it: the
    magnitude of the baseline, and 1 for a baseline of 0. *)
Definition yoy_divisor (baseline : number) : number :=
  if eqb baseline (Fin 0) then Fin 1 else Math_abs baseline.

(** The divisor as the claim words it: [max(|baseline|, 1)]. *)
Definition claimed_divisor (baseline : number) : number :=
  max2 (Math_abs baseline) (Fin 1).

Definition yoy_with (divisor : number -> number) (data : list CleanedProject)
  (y : Z) : string :=
  toFixed 2
    (if y =? 2021 then Fin 0
     else mul (div (sub (year_mean data y) (year_mean data 2021))
                   (divisor (year_mean data 2021)))
              (Fin 100)).

(** Sums and counts of the savings held by the groups of year [y]. *)
Definition ysum (gs : list YearWorkGroup.t) (y : Z) : Q :=
  qsum (map (fun g => if YearWorkGroup.FundingYear g =? y
                      then qsum (map qv (YearWorkGroup.savings g)) else 0%Q) gs).

Definition ycnt (gs : list YearWorkGroup.t) (y : Z) : Q :=
  qsum (map (fun g => if YearWorkGroup.FundingYear g =? y
                      then inject_Z (Z.of_nat (List.length (YearWorkGroup.savings g)))
                      else 0%Q) gs).

(** The row that the trend report of the second pass makes of a group, before
    the year-over-year change is known. *)
Definition trend_row (grp : YearWorkGroup.t) : Part000.Row3.t :=
  {| Part000.Row3.FundingYear := YearWorkGroup.FundingYear grp;
     Part000.Row3.TypeOfWork := YearWorkGroup.TypeOfWork grp;
     Part000.Row3.TotalProjects := List.length (YearWorkGroup.savings grp);
     Part000.Row3.AvgCostSavings :=
       formatNumber (Part000.average (YearWorkGroup.savings grp)) 2;
     Part000.Row3._rawAvgSavings := Some (Part000.average (YearWorkGroup.savings grp));
     Part000.Row3.OverrunRate :=
       formatNumber (percentage (fun s => ltb s (Fin 0)) (YearWorkGroup.savings grp)) 2;
     Part000.Row3.YoYChange := None |}.

(** A group of the trend loop with at least one project and finite savings. *)
Definition sound_group (g : YearWorkGroup.t) : Prop :=
  YearWorkGroup.savings g <> [] /\
  Forall (fun x => isFinite x = true) (YearWorkGroup.savings g).

(** What [tally] has reached after the groups [gs]. *)
Definition tallied (gs : list YearWorkGroup.t) (st : Part000.totals) : Prop :=
  Part000.results st = map trend_row gs /\
  forall y,
    year_get (Part000.yearTotals st) y =
      (if Qis0 (ycnt gs y) then None else Some (fin (ysum gs y))) /\
    year_get (Part000.yearCounts st) y =
      (if Qis0 (ycnt gs y) then None else Some (fin (ycnt gs y))).

(** The row of the trend report of the second pass for a group, as the data
    determine it. *)
Definition trend_final (data : list CleanedProject) (grp : YearWorkGroup.t)
  : Part000.Row3.t :=
  {| Part000.Row3.FundingYear := YearWorkGroup.FundingYear grp;
     Part000.Row3.TypeOfWork := YearWorkGroup.TypeOfWork grp;
     Part000.Row3.TotalProjects := List.length (YearWorkGroup.savings grp);
     Part000.Row3.AvgCostSavings :=
       formatNumber (Part000.average (YearWorkGroup.savings grp)) 2;
     Part000.Row3._rawAvgSavings := None;
     Part000.Row3.OverrunRate :=
       formatNumber (percentage (fun s => ltb s (Fin 0)) (YearWorkGroup.savings grp)) 2;
     Part000.Row3.YoYChange :=
       Some (yoy_with yoy_divisor data (YearWorkGroup.FundingYear grp)) |}.

(** ** Finite displays *)

(** A formatted cell that displays a finite number. *)
Definition finite_cell (s : string) : Prop := isFinite (shown s) = true.

(** A number that is finite, or [NaN]. *)
Definition soft (x : number) : Prop := x = NaN \/ isFinite x = true.

(** A cleaned project with finite amounts, and a delay that is a finite
    number of days or [NaN]. *)
Definition finite_inputs (p : CleanedProject) : Prop :=
  isFinite (ApprovedBudgetForContract p) = true /\
  isFinite (ContractCost p) = true /\
  isFinite (CostSavings p) = true /\
  soft (CompletionDelayDays p).

Definition main_row1_finite (r : MainJs.Row1.t) : Prop :=
  finite_cell (MainJs.Row1.TotalApprovedBudget r) /\
  finite_cell (MainJs.Row1.MedianCostSavings r) /\
  finite_cell (MainJs.Row1.AvgCompletionDelayDays r) /\
  finite_cell (MainJs.Row1.DelayOver30Percent r) /\
  finite_cell (MainJs.Row1.EfficiencyScore r).

Definition part_row1_finite (r : Part000.Row1.t) : Prop :=
  finite_cell (Part000.Row1.TotalApprovedBudget r) /\
  finite_cell (Part000.Row1.MedianCostSavings r) /\
  finite_cell (Part000.Row1.AvgCompletionDelayDays r) /\
  finite_cell (Part000.Row1.DelayOver30Percent r) /\
  isFinite (Part000.Row1.EfficiencyScore r) = true.

Definition main_row2_finite (r : MainJs.Row2.t) : Prop :=
  finite_cell (MainJs.Row2.AvgDelay r) /\
  finite_cell (MainJs.Row2.TotalCostSavings r) /\
  finite_cell (MainJs.Row2.ReliabilityIndex r).

Definition part_row2_finite (r : Part000.Row2.t) : Prop :=
  finite_cell (Part000.Row2.TotalCost r) /\
  finite_cell (Part000.Row2.AvgDelay r) /\
  finite_cell (Part000.Row2.TotalSavings r) /\
  finite_cell (Part000.Row2.ReliabilityIndex r).

Definition finite_change (c : option string) : Prop :=
  exists s, c = Some s /\ finite_cell s.

Definition main_row3_finite (r : MainJs.Row3.t) : Prop :=
  finite_cell (MainJs.Row3.AvgCostSavings r) /\
  finite_cell (MainJs.Row3.OverrunRate r) /\
  finite_change (MainJs.Row3.YoYChangePercent r).

Definition part_row3_finite (r : Part000.Row3.t) : Prop :=
  finite_cell (Part000.Row3.AvgCostSavings r) /\
  finite_cell (Part000.Row3.OverrunRate r) /\
  finite_change (Part000.Row3.YoYChange r).

(** The loop of the trend report of [src/main.js] keeps finite averages per
    year, an entry for the year of every row, and rows with finite cells. *)
Definition main_trend_ok (st : year_object (list number) * list MainJs.Row3.t)
  : Prop :=
  (forall y l, year_get (fst st) y = Some l ->
               Forall (fun x => isFinite x = true) l) /\
  Forall (fun r => year_get (fst st) (MainJs.Row3.FundingYear r) <> None /\
                   finite_cell (MainJs.Row3.AvgCostSavings r) /\
                   finite_cell (MainJs.Row3.OverrunRate r)) (snd st).

(** A row of the trend report of [src/main.js] with finite cells, and
    "0.00" as the change of the year 2021. *)
Definition main_row3_ok (r : MainJs.Row3.t) : Prop :=
  main_row3_finite r /\
  (MainJs.Row3.FundingYear r = 2021 ->
   MainJs.Row3.YoYChangePercent r = Some "0.00"%string).


(** * Specification-side definitions for the rest of the program *)

(** A label that is not empty and neither starts nor ends with white
    space. *)
Definition trimmed (s : string) : Prop :=
  match chars s with
  | [] => False
  | c :: _ => is_ws c = false
  end /\
  match rev (chars s) with
  | [] => False
  | c :: _ => is_ws c = false
  end.

(** What the cleaner guarantees of the dates and labels of a project. *)
Definition fields_ok (p : CleanedProject) : Prop :=
  isValid (ActualCompletionDate p) = true /\
  (CompletionDelayDays p = NaN <-> StartDate p = None) /\
  trimmed (Region p) /\ trimmed (MainIsland p) /\
  trimmed (Contractor p) /\ trimmed (TypeOfWork p).


(** A row that passes validation without a completion date that parses. *)
Definition undated (dayjs : option string -> Dayjs) (r : Raw.Row) : bool :=
  passes_validation r && negb (isValid (dayjs (Raw.ActualCompletionDate r))).

(** A number whose 2-decimal display is not a negative zero (the sign of
    zero is outside the model) and not an infinity sign: [NaN], or a finite
    number that is not strictly between -0.005 and 0. *)
Definition plainly_displayed (x : number) : Prop :=
  match x with
  | Fin q => (0 <= q \/ q <= - (1 # 200))%Q
  | NaN => True
  | _ => False
  end.

(** The number of distinct names in a list. *)
Definition distinct (names : list string) : nat :=
  List.length (nodup string_dec names).

(** A name without a vertical bar. *)
Definition bar_free (s : string) : Prop := ~ In "|"%char (chars s).

(** ** More example data *)

Module Samples.

(** [r] on another island. *)
Definition on_island (r : Raw.Row) (island : string) : Raw.Row :=
  {| Raw.FundingYear := Raw.FundingYear r;
     Raw.ApprovedBudgetForContract := Raw.ApprovedBudgetForContract r;
     Raw.ContractCost := Raw.ContractCost r;
     Raw.StartDate := Raw.StartDate r;
     Raw.ActualCompletionDate := Raw.ActualCompletionDate r;
     Raw.Region := Raw.Region r;
     Raw.MainIsland := Some island;
     Raw.Contractor := Raw.Contractor r;
     Raw.TypeOfWork := Raw.TypeOfWork r |}.

(** Region VIII on two islands, and the NCR; the last project has no start
    date. *)
Definition two_islands : list Raw.Row :=
  [TestDates.raw "2021" "100" "80" "2021-01-01" "2021-01-11" "Region VIII" "A";
   on_island
     (TestDates.raw "2022" "1,200.50" "1,000" "2022-03-01" "2022-05-30"
        "Region VIII" "B")
     "Visayas";
   TestDates.raw "2023" "500" "650" "" "2023-02-01" "NCR" "A"].

(** Rows of a CSV reader: the second has an empty cell, the third lacks the
    last column. *)
Definition csv_rows : list (object string) :=
  [[("Region", "NCR"); ("TotalApprovedBudget", "1,200.50"); ("Score", "100")];
   [("Region", "Region VIII"); ("TotalApprovedBudget", ""); ("Score", "7.5")];
   [("Region", "CAR"); ("TotalApprovedBudget", "80.00")]]%string.

End Samples.

(** ** The rows of the trend report, specified on the data *)

(** The cells of a row of the trend report, the change apart. *)
Module TrendCells.
Record t : Type := {
  year : Z;
  work : string;
  total : nat;
  avg : string;
  overrun : string
}.
End TrendCells.

Definition MainJs_cells (r : MainJs.Row3.t) : TrendCells.t :=
  {| TrendCells.year := MainJs.Row3.FundingYear r;
     TrendCells.work := MainJs.Row3.TypeOfWork r;
     TrendCells.total := MainJs.Row3.TotalProjects r;
     TrendCells.avg := MainJs.Row3.AvgCostSavings r;
     TrendCells.overrun := MainJs.Row3.OverrunRate r |}.

Definition Part000_cells (r : Part000.Row3.t) : TrendCells.t :=
  {| TrendCells.year := Part000.Row3.FundingYear r;
     TrendCells.work := Part000.Row3.TypeOfWork r;
     TrendCells.total := Part000.Row3.TotalProjects r;
     TrendCells.avg := Part000.Row3.AvgCostSavings r;
     TrendCells.overrun := Part000.Row3.OverrunRate r |}.

(** The cells that a group of projects of one year and type of work gives,
    with the [average] of the file. *)
Definition group_cells (average : list number -> number)
  (g : YearWorkGroup.t) : TrendCells.t :=
  {| TrendCells.year := YearWorkGroup.FundingYear g;
     TrendCells.work := YearWorkGroup.TypeOfWork g;
     TrendCells.total := List.length (YearWorkGroup.savings g);
     TrendCells.avg := formatNumber (average (YearWorkGroup.savings g)) 2;
     TrendCells.overrun :=
       formatNumber (percentage (fun s => ltb s (Fin 0))
                       (YearWorkGroup.savings g)) 2 |}.

(** The projects of funding year [y] and type of work [t]. *)
Definition of_year_and_work (y : Z) (t : string) (data : list CleanedProject)
  : list CleanedProject :=
  filter (fun p => (FundingYear p =? y) && String.eqb (TypeOfWork p) t) data.

(** Rows that count the projects of [data] by year and type of work: no two
    rows for one year and type, every row with the savings of the projects
    of its year and type, of which there is at least one, and every project
    counted. *)
Definition counted (average : list number -> number)
  (data : list CleanedProject) (rows : list TrendCells.t) : Prop :=
  NoDup (map (fun c => (TrendCells.year c, TrendCells.work c)) rows) /\
  Forall (fun c =>
            let ps := of_year_and_work (TrendCells.year c) (TrendCells.work c) data in
            ps <> [] /\
            TrendCells.total c = List.length ps /\
            TrendCells.avg c = formatNumber (average (map CostSavings ps)) 2 /\
            TrendCells.overrun c =
              formatNumber (percentage (fun s => ltb s (Fin 0))
                              (map CostSavings ps)) 2) rows /\
  list_sum (map TrendCells.total rows) = List.length data.




(** A formatted cell that displays a number between 0 and 100. *)
Definition percent_cell (s : string) : Prop :=
  exists q, shown s = Fin q /\ (0 <= q <= 100)%Q.

(** A reliability cell and the flag that goes with it: a cell that displays
    less than 50 is flagged [high], one that displays more than 50 is
    flagged [low]; the index is compared before it is rounded, so that a
    cell of exactly 50.00 may carry either flag. *)
Definition flagged (cell flag high low : string) : Prop :=
  exists q, shown cell = Fin q /\
            ((q < 50)%Q -> flag = high) /\
            ((50 < q)%Q -> flag = low) /\
            (flag = high \/ flag = low).

(** A formatted cell that displays a number of at most 100. *)
Definition at_most_100 (s : string) : Prop :=
  exists q, shown s = Fin q /\ (q <= 100)%Q.

(** The cells of a row of the regional report, the score apart. *)
Module RegionCells.
Record t : Type := {
  region : string;
  island : string;
  budget : string;
  median : string;
  delay : string;
  over30 : string
}.
End RegionCells.

Definition MainJs_region_cells (r : MainJs.Row1.t) : RegionCells.t :=
  {| RegionCells.region := MainJs.Row1.Region r;
     RegionCells.island := MainJs.Row1.MainIsland r;
     RegionCells.budget := MainJs.Row1.TotalApprovedBudget r;
     RegionCells.median := MainJs.Row1.MedianCostSavings r;
     RegionCells.delay := MainJs.Row1.AvgCompletionDelayDays r;
     RegionCells.over30 := MainJs.Row1.DelayOver30Percent r |}.

Definition Part000_region_cells (r : Part000.Row1.t) : RegionCells.t :=
  {| RegionCells.region := Part000.Row1.Region r;
     RegionCells.island := Part000.Row1.MainIsland r;
     RegionCells.budget := Part000.Row1.TotalApprovedBudget r;
     RegionCells.median := Part000.Row1.MedianCostSavings r;
     RegionCells.delay := Part000.Row1.AvgCompletionDelayDays r;
     RegionCells.over30 := Part000.Row1.DelayOver30Percent r |}.

(** A project whose delay and savings are numbers. *)
Definition measured (p : CleanedProject) : Prop :=
  isNaN (CompletionDelayDays p) = false /\ isNaN (CostSavings p) = false.







(** An answer that is neither yes nor no, whatever its case; and an answer
    that is not one of the two capital letters. *)
Definition undecided (s : string) : Prop :=
  toUpperCase s <> "Y"%string /\ toUpperCase s <> "N"%string.

Definition not_capital (s : string) : Prop :=
  s <> "Y"%string /\ s <> "N"%string.

(** The ending that an answer asks for. *)
Definition asked_for (choice : string) (unread : list string) : ending :=
  if String.eqb choice "Y" then CallsMain unread else Exits.

Definition decided (choice : string) : Prop :=
  choice = "Y"%string \/ choice = "N"%string.

(** The lines of [console.log] in what the terminal shows. *)
Definition lines_said (shown : list dialogue) : nat :=
  List.length
    (filter (fun d => match d with Say _ => true | Ask _ _ => false end) shown).

(** * Specification-side definitions for the binary64 arithmetic *)

(** A number of the binary64 format: rounding leaves it as it is. *)
Definition binary64 (x : number) : Prop := B64.round x = x.

(** The smallest positive binary64 number. *)
Definition tiny : Q := 2 ^ (-1074).

(** A whole multiple of [tiny], as every finite binary64 number is. *)
Definition on_grid (x : number) : Prop :=
  match x with
  | Fin q => exists K : Z, (q == inject_Z K * tiny)%Q
  | _ => True
  end.

(** The hundredth [n / 100] is the one nearest to [q], a tie going away
    from zero. *)
Definition nearest_hundredth (q : Q) (n : Z) : Prop :=
  (Qabs ((n # 100) - q) < 1 # 200)%Q \/
  ((Qabs ((n # 100) - q) == 1 # 200)%Q /\ (Qabs q < Qabs (n # 100))%Q).

(** [y] is [x] to 2 decimal places: the binary64 number for the nearest
    hundredth; an infinity stays. *)
Definition to_2_decimals (x y : number) : Prop :=
  match x with
  | Fin q => exists n, nearest_hundredth q n /\ y = B64.round64 (n # 100)
  | _ => y = x
  end.

(** The middle of a sorted sequence, in binary64: its central element when
    the length is odd; when it is even, the sum of the two central
    elements, rounded, and halved. *)
Definition middle64 (s : list number) : number :=
  let n := List.length s in
  if Nat.odd n then nth (n / 2) s NaN
  else B64.div (B64.add (nth (n / 2 - 1) s NaN) (nth (n / 2) s NaN)) (Fin 2).

(** The unit roundoff of binary64, and the factor by which [n] rounded
    additions can enlarge a sum of positive terms. *)
Definition unit_roundoff : Q := 2 ^ (-53).

Definition growth (n : nat) : Q := (1 + unit_roundoff) ^ Z.of_nat n.

(** A positive binary64 amount. *)
Definition amount (x : number) : Prop :=
  binary64 x /\ isFinite x = true /\ ltb (Fin 0) x = true.

(** ** Example data for the binary64 arithmetic *)

Module Rounding.

(** Three projects of one region with budgets of [2^53], 1 and 1. *)
Definition large_budget_rows : list Raw.Row :=
  [TestDates.raw "2021" "9007199254740992" "80" "2021-01-01" "2021-01-11" "NCR" "A";
   TestDates.raw "2021" "1" "1" "2021-01-01" "2021-01-11" "NCR" "A";
   TestDates.raw "2021" "1" "1" "2021-01-01" "2021-01-11" "NCR" "A"].



(** Savings of 800 in 2021 and of 829 in 2022. *)
Definition change_rows : list Raw.Row :=
  [TestDates.raw "2021" "1800" "1000" "2021-01-01" "2021-01-11" "NCR" "A";
   TestDates.raw "2022" "1829" "1000" "2022-01-01" "2022-01-11" "NCR" "A"].

End Rounding.

(** Decidable forms, for the examples. *)
Definition same (x y : number) : bool :=
  match x, y with
  | Fin a, Fin b => (Qnum a =? Qnum b) && (Qden a =? Qden b)%positive
  | PInf, PInf | NInf, NInf | NaN, NaN => true
  | _, _ => false
  end.

Definition is_binary64 (x : number) : bool := same (B64.round x) x.

Definition is_amount (x : number) : bool :=
  is_binary64 x && isFinite x && ltb (Fin 0) x.



(** ** The cost-trend report, specified on its groups *)

(** The groups are the projects by funding year and type of work: one group
    for each year and type that occurs, with the savings of its projects in
    input order, and every project in one group. *)
Definition trend_groups (data : list CleanedProject)
  (gs : list YearWorkGroup.t) : Prop :=
  NoDup (map (fun g => (YearWorkGroup.FundingYear g, YearWorkGroup.TypeOfWork g)) gs) /\
  Forall (fun g =>
            YearWorkGroup.savings g
            = map CostSavings
                (of_year_and_work (YearWorkGroup.FundingYear g)
                   (YearWorkGroup.TypeOfWork g) data) /\
            YearWorkGroup.savings g <> []) gs /\
  list_sum (map (fun g => List.length (YearWorkGroup.savings g)) gs)
  = List.length data.

(** The groups of funding year [y]. *)
Definition year_groups (gs : list YearWorkGroup.t) (y : Z)
  : list YearWorkGroup.t :=
  filter (fun g => YearWorkGroup.FundingYear g =? y) gs.

(** The savings of year [y]: the binary64 sums of its groups, added up in
    binary64, group by group; a total that is [NaN] so far counts as 0. *)
Definition year_total64 (gs : list YearWorkGroup.t) (y : Z) : number :=
  fold_left (fun acc g => B64.add (or_else acc (Fin 0))
                                  (B64.sum (YearWorkGroup.savings g)))
            (year_groups gs y) (Fin 0).

(** The number of projects of year [y]. *)
Definition year_count (gs : list YearWorkGroup.t) (y : Z) : nat :=
  list_sum (map (fun g => List.length (YearWorkGroup.savings g))
                (year_groups gs y)).

(** The aggregate savings figure of year [y]: the savings of the year over
    the number of its projects, that is the average of the groups weighted
    by their project counts; 0 for a year without project, and for a figure
    that is [NaN]. *)
Definition year_figure64 (gs : list YearWorkGroup.t) (y : Z) : number :=
  if is_nil (year_groups gs y) then Fin 0
  else or_else (B64.div (year_total64 gs y) (ofNat (year_count gs y))) (Fin 0).

(** The change of year [y] over 2021, each operation rounded. *)
Definition yoy64_change (divisor : number -> number)
  (gs : list YearWorkGroup.t) (y : Z) : number :=
  if y =? 2021 then Fin 0
  else B64.mul (B64.div (B64.sub (year_figure64 gs y) (year_figure64 gs 2021))
                        (divisor (year_figure64 gs 2021)))
               (Fin 100).

(** The change to 2 decimal places. *)
Definition yoy64_with (divisor : number -> number)
  (gs : list YearWorkGroup.t) (y : Z) : string :=
  toFixed 2 (yoy64_change divisor gs y).

(** A number that [toFixed] prints in positional notation: one below
    [10^21] in magnitude; [NaN] and the infinities are printed by name. *)
Definition positional (x : number) : Prop :=
  match x with
  | Fin q => (Qabs q < 10 ^ 21)%Q
  | _ => True
  end.

(** The row that the trend report of the second pass makes of a group, before
    the year-over-year change is known. *)
Definition trend_row64 (grp : YearWorkGroup.t) : Part000.Row3.t :=
  {| Part000.Row3.FundingYear := YearWorkGroup.FundingYear grp;
     Part000.Row3.TypeOfWork := YearWorkGroup.TypeOfWork grp;
     Part000.Row3.TotalProjects := List.length (YearWorkGroup.savings grp);
     Part000.Row3.AvgCostSavings :=
       formatNumber (B64.Part.average (YearWorkGroup.savings grp)) 2;
     Part000.Row3._rawAvgSavings :=
       Some (B64.Part.average (YearWorkGroup.savings grp));
     Part000.Row3.OverrunRate :=
       formatNumber
         (if negb (is_nil (YearWorkGroup.savings grp))
          then B64.percentage (fun s => ltb s (Fin 0)) (YearWorkGroup.savings grp)
          else Fin 0) 2;
     Part000.Row3.YoYChange := None |}.

(** What [tally] has reached after the groups [gs]. *)
Definition tallied64 (gs : list YearWorkGroup.t) (st : Part000.totals) : Prop :=
  Part000.results st = map trend_row64 gs /\
  forall y,
    year_get (Part000.yearTotals st) y =
      (if is_nil (year_groups gs y) then None else Some (year_total64 gs y)) /\
    year_get (Part000.yearCounts st) y =
      (if is_nil (year_groups gs y) then None else Some (ofNat (year_count gs y))).

(** The groups that the trend loop makes of the data, [[]] if it throws. *)
Definition groups_of (data : list CleanedProject) : list YearWorkGroup.t :=
  match for_of type_step data [] with
  | Normal typeMap => Object_values typeMap
  | Throw _ => []
  end.

(** ** The accuracy of [median] *)

(** A binary64 number of magnitude at most [2^1022]: the sum of two of them
    does not overflow. *)
Definition moderate (x : number) : Prop :=
  binary64 x /\
  match x with Fin q => (Qabs q <= inject_Z (2 ^ 1022))%Q | _ => False end.

Definition is_moderate (x : number) : bool :=
  is_binary64 x &&
  match x with Fin q => Qle_bool (Qabs q) (inject_Z (2 ^ 1022)) | _ => false end.

(** * Properties *)

(** ** Numbers *)

Lemma Qltb_lt a b : Qltb a b = true <-> (a < b)%Q.
Proof.
  unfold Qltb. rewrite negb_true_iff. split; intro H.
  - apply Qnot_le_lt. intro L. apply Qle_bool_iff in L. congruence.
  - destruct (Qle_bool b a) eqn:E; auto.
    apply Qle_bool_iff in E. exfalso. revert E. now apply Qlt_not_le.
Qed.

Lemma Qltb_ge a b : Qltb a b = false <-> (b <= a)%Q.
Proof.
  unfold Qltb. rewrite negb_false_iff. apply Qle_bool_iff.
Qed.

Lemma Qle_bool_gt a b : Qle_bool a b = false <-> (b < a)%Q.
Proof.
  rewrite <- Qltb_lt. unfold Qltb. now rewrite negb_true_iff.
Qed.

Lemma Qis0_eq q : Qis0 q = true <-> (q == 0)%Q.
Proof. apply Qeq_bool_iff. Qed.

Lemma Qis0_neq q : Qis0 q = false <-> ~ (q == 0)%Q.
Proof.
  unfold Qis0. split; intro H.
  - intro E. apply Qeq_bool_iff in E. congruence.
  - destruct (Qeq_bool q 0) eqn:E; auto. apply Qeq_bool_iff in E. tauto.
Qed.

(** Booleans of the number model to propositions over [Q]. *)
Ltac unbool :=
  repeat match goal with
  | H : Qltb _ _ = true |- _ => apply Qltb_lt in H
  | H : Qltb _ _ = false |- _ => apply Qltb_ge in H
  | H : Qle_bool _ _ = true |- _ => apply Qle_bool_iff in H
  | H : Qle_bool _ _ = false |- _ => apply Qle_bool_gt in H
  | H : Qis0 _ = true |- _ => apply Qis0_eq in H
  | H : Qis0 _ = false |- _ => apply Qis0_neq in H
  | H : Qeq_bool _ _ = true |- _ => apply Qeq_bool_iff in H
  | |- Qltb _ _ = true => apply Qltb_lt
  | |- Qltb _ _ = false => apply Qltb_ge
  | |- Qle_bool _ _ = true => apply Qle_bool_iff
  | |- Qle_bool _ _ = false => apply Qle_bool_gt
  | |- Qis0 _ = true => apply Qis0_eq
  | |- Qis0 _ = false => apply Qis0_neq
  end.

Lemma fin_eq a b : (a == b)%Q -> fin a = fin b.
Proof. intro H. unfold fin. f_equal. now apply Qred_complete. Qed.

Lemma qv_fin q : (qv (fin q) == q)%Q.
Proof. apply Qred_correct. Qed.

Lemma isFinite_Fin x : isFinite x = true -> exists q, x = Fin q.
Proof. destruct x; simpl; try discriminate. eauto. Qed.

Lemma leb_refl_fin q : leb (Fin q) (Fin q) = true.
Proof. simpl. unbool. apply Qle_refl. Qed.

(** ** [Array.prototype.sort] *)

Section SortFacts.
Context {A : Type} (cmp : A -> A -> number).

Lemma insert_perm x l : Permutation (insert cmp x l) (x :: l).
Proof.
  induction l as [|y l IH]; simpl; auto.
  destruct (goes_after cmp x y); auto.
  rewrite IH. apply perm_swap.
Qed.

Lemma sort_perm l : Permutation (sort cmp l) l.
Proof.
  induction l as [|x l IH]; simpl; auto.
  rewrite insert_perm. now constructor.
Qed.

Lemma sort_length l : List.length (sort cmp l) = List.length l.
Proof. apply Permutation_length, sort_perm. Qed.

Lemma sort_In x l : In x (sort cmp l) <-> In x l.
Proof.
  split; apply Permutation_in; [|symmetry]; apply sort_perm.
Qed.

Lemma sort_Forall (P : A -> Prop) l : Forall P l -> Forall P (sort cmp l).
Proof. apply Permutation_Forall. symmetry. apply sort_perm. Qed.

(** When the comparator decides a transitive relation [R] ("may come
    before") on the elements that satisfy [P], the result is sorted. *)
Variable R : A -> A -> Prop.
Variable P : A -> Prop.
Hypothesis stays : forall x y, P x -> P y -> goes_after cmp x y = false -> R x y.
Hypothesis moves : forall x y, P x -> P y -> goes_after cmp x y = true -> R y x.
Hypothesis R_trans : forall x y z, R x y -> R y z -> R x z.

Lemma insert_sorted x l :
  P x -> Forall P l -> StronglySorted R l -> StronglySorted R (insert cmp x l).
Proof.
  intros Px Pl Sl. induction l as [|y l IH]; simpl.
  - repeat constructor.
  - inversion Pl as [|? ? Py Pl']; subst.
    inversion Sl as [|? ? Sl' Hy]; subst.
    destruct (goes_after cmp x y) eqn:E.
    + constructor; [now apply IH|].
      eapply Permutation_Forall; [symmetry; apply insert_perm|].
      constructor; auto.
    + constructor; auto. constructor.
      * now apply stays.
      * eapply Forall_impl; [|exact Hy]. intros z Hz.
        eapply R_trans; [|exact Hz]. now apply stays.
Qed.

Lemma sort_sorted l : Forall P l -> StronglySorted R (sort cmp l).
Proof.
  induction 1 as [|x l Px Pl IH]; simpl; [constructor|].
  apply insert_sorted; auto. now apply sort_Forall.
Qed.

End SortFacts.

(** ** Digits: printing and reading back *)

Lemma chars_str l : chars (str l) = l.
Proof. apply list_ascii_of_string_of_list_ascii. Qed.

Lemma str_chars s : str (chars s) = s.
Proof. apply string_of_list_ascii_of_string. Qed.

Lemma chars_append a b : chars (a ++ b)%string = chars a ++ chars b.
Proof. induction a as [|c a IH]; simpl; [reflexivity|]. unfold chars in *. simpl. now rewrite IH. Qed.

Lemma N_of_digit_char k : (k < 10)%N -> N_of_ascii (digit_char k) = (48 + k)%N.
Proof.
  intro H. unfold digit_char. apply N_ascii_embedding. lia.
Qed.

Lemma digit_of_digit_char k : (k < 10)%N -> digit_of 10 (digit_char k) = Some k.
Proof.
  intro H. unfold digit_of. rewrite N_of_digit_char by assumption.
  replace ((48 <=? 48 + k)%N) with true by (symmetry; apply N.leb_le; lia).
  replace ((48 + k <=? 57)%N) with true by (symmetry; apply N.leb_le; lia).
  simpl andb. cbv iota.
  replace (48 + k - 48)%N with k by lia.
  replace ((k <? 10)%N) with true by (symmetry; apply N.ltb_lt; lia).
  reflexivity.
Qed.

Lemma is_digit_digit_char k : (k < 10)%N -> is_digit 10 (digit_char k) = true.
Proof. intro H. unfold is_digit. now rewrite digit_of_digit_char. Qed.

Lemma digits_value_app r a b :
  digits_value r (a ++ b) =
  fold_left (digit_step r) b (digits_value r a).
Proof. unfold digits_value. apply fold_left_app. Qed.

Lemma fold_digit_step_shift b acc :
  fold_left (digit_step 10) b acc =
  (acc * 10 ^ N.of_nat (List.length b) + digits_value 10 b)%N.
Proof.
  unfold digits_value. revert acc.
  induction b as [|c b IH]; intro acc; simpl fold_left.
  - simpl. lia.
  - rewrite IH. rewrite (IH (digit_step 10 0 c)).
    change (List.length (c :: b)) with (S (List.length b)).
    rewrite Nat2N.inj_succ, N.pow_succ_r'. unfold digit_step. lia.
Qed.

Lemma digits_value_app10 a b :
  digits_value 10 (a ++ b) =
  (digits_value 10 a * 10 ^ N.of_nat (List.length b) + digits_value 10 b)%N.
Proof. rewrite digits_value_app. apply fold_digit_step_shift. Qed.

Lemma digits_value_single k : (k < 10)%N -> digits_value 10 [digit_char k] = k.
Proof.
  intro H. unfold digits_value, digit_step. simpl.
  rewrite digit_of_digit_char by assumption. lia.
Qed.

Lemma digits_aux_app f : forall n acc,
  digits_aux f n acc = digits_aux f n [] ++ acc.
Proof.
  induction f as [|f IH]; intros n acc; simpl; [reflexivity|].
  destruct (n <? 10)%N; [reflexivity|].
  rewrite IH. rewrite (IH _ [_]). now rewrite <- app_assoc.
Qed.

Lemma digits_aux_value f : forall n,
  (n < 2 ^ N.of_nat f)%N -> digits_value 10 (digits_aux (S f) n []) = n.
Proof.
  induction f as [|f IH]; intros n Hn.
  - simpl in Hn. assert (n = 0%N) by lia. subst. reflexivity.
  - change (digits_aux (S (S f)) n [])
      with (if (n <? 10)%N then [digit_char n]
            else digits_aux (S f) (n / 10) [digit_char (n mod 10)]).
    destruct (n <? 10)%N eqn:E.
    + apply N.ltb_lt in E. now apply digits_value_single.
    + apply N.ltb_ge in E.
      rewrite digits_aux_app, digits_value_app10.
      rewrite IH.
      * rewrite digits_value_single by (apply N.mod_lt; lia).
        simpl List.length. change (10 ^ N.of_nat 1)%N with 10%N.
        pose proof (N.div_mod n 10). lia.
      * rewrite Nat2N.inj_succ, N.pow_succ_r' in Hn.
        apply N.Div0.div_lt_upper_bound. lia.
Qed.

Lemma digits_value_digits n : digits_value 10 (digits n) = n.
Proof.
  unfold digits. apply digits_aux_value.
  rewrite N2Nat.id. apply N.size_gt.
Qed.

Lemma digits_aux_all f : forall n acc,
  forallb (is_digit 10) acc = true ->
  forallb (is_digit 10) (digits_aux f n acc) = true.
Proof.
  induction f as [|f IH]; intros n acc H; simpl; auto.
  destruct (n <? 10)%N eqn:E.
  - simpl. rewrite H, is_digit_digit_char; auto. now apply N.ltb_lt.
  - apply IH. simpl. rewrite H, is_digit_digit_char; auto.
    apply N.mod_lt. lia.
Qed.

Lemma digits_all n : forallb (is_digit 10) (digits n) = true.
Proof. apply digits_aux_all. reflexivity. Qed.

Lemma digits_aux_nonempty f n acc : digits_aux (S f) n acc <> [].
Proof.
  simpl. destruct (n <? 10)%N; [discriminate|].
  rewrite digits_aux_app. intro H. apply app_eq_nil in H. destruct H. discriminate.
Qed.

Lemma digits_nonempty n : digits n <> [].
Proof. apply digits_aux_nonempty. Qed.

Lemma fixed_digits_length d : forall n, List.length (fixed_digits d n) = d.
Proof.
  induction d as [|d IH]; intro n; simpl; [reflexivity|].
  rewrite length_app, IH. simpl. lia.
Qed.

Lemma fixed_digits_all d : forall n,
  forallb (is_digit 10) (fixed_digits d n) = true.
Proof.
  induction d as [|d IH]; intro n; simpl; [reflexivity|].
  rewrite forallb_app, IH. simpl.
  rewrite is_digit_digit_char; auto. apply N.mod_lt. lia.
Qed.

Lemma fixed_digits_value d : forall n,
  digits_value 10 (fixed_digits d n) = (n mod 10 ^ N.of_nat d)%N.
Proof.
  induction d as [|d IH]; intro n.
  - simpl. now rewrite N.mod_1_r.
  - simpl fixed_digits. rewrite digits_value_app10, IH.
    rewrite digits_value_single by (apply N.mod_lt; lia).
    simpl List.length. change (10 ^ N.of_nat 1)%N with 10%N.
    rewrite Nat2N.inj_succ, N.pow_succ_r'.
    rewrite N.Div0.mod_mul_r. lia.
Qed.

(** ** Reading back what [toFixed] and [toLocaleString] print *)

Lemma is_digit10_range c :
  is_digit 10 c = true -> (48 <= N_of_ascii c <= 57)%N.
Proof.
  unfold is_digit, digit_of.
  destruct ((48 <=? N_of_ascii c) && (N_of_ascii c <=? 57))%N eqn:E.
  - intros _. apply andb_true_iff in E. destruct E as [E1 E2].
    apply N.leb_le in E1, E2. lia.
  - destruct ((97 <=? N_of_ascii c) && (N_of_ascii c <=? 122))%N eqn:E1.
    + apply andb_true_iff in E1. destruct E1 as [E1 E2].
      apply N.leb_le in E1. 
      destruct (N_of_ascii c - 87 <? 10)%N eqn:E3; [|discriminate].
      apply N.ltb_lt in E3. lia.
    + destruct ((65 <=? N_of_ascii c) && (N_of_ascii c <=? 90))%N eqn:E2;
        [|discriminate].
      apply andb_true_iff in E2. destruct E2 as [E2 E2'].
      apply N.leb_le in E2.
      destruct (N_of_ascii c - 55 <? 10)%N eqn:E3; [|discriminate].
      apply N.ltb_lt in E3. lia.
Qed.

Lemma eqb_by_code c x : N_of_ascii c <> N_of_ascii x -> Ascii.eqb c x = false.
Proof.
  intro H. destruct (Ascii.eqb c x) eqn:E; auto.
  apply Ascii.eqb_eq in E. subst. congruence.
Qed.

(** A decimal digit is no white space, sign, point, comma or letter. *)
Lemma digit_is_plain c :
  is_digit 10 c = true ->
  is_ws c = false /\ Ascii.eqb c "-"%char = false /\
  Ascii.eqb c "+"%char = false /\ Ascii.eqb c "."%char = false /\
  Ascii.eqb c ","%char = false /\ Ascii.eqb "I"%char c = false.
Proof.
  intro H. apply is_digit10_range in H.
  repeat split; try (apply eqb_by_code; simpl; lia).
  unfold is_ws.
  destruct (9 <=? N_of_ascii c)%N eqn:E1, (N_of_ascii c <=? 13)%N eqn:E2,
           (N_of_ascii c =? 32)%N eqn:E3; simpl; auto;
  try apply N.leb_le in E2; try apply N.eqb_eq in E3; lia.
Qed.

Lemma span_digits_app r ds rest :
  forallb (is_digit r) ds = true ->
  match rest with c :: _ => is_digit r c = false | [] => True end ->
  span_digits r (ds ++ rest) = (ds, rest).
Proof.
  intros H Hr. induction ds as [|c ds IH]; simpl.
  - destruct rest as [|c rest]; simpl; auto. now rewrite Hr.
  - simpl in H. apply andb_true_iff in H. destruct H as [Hc H].
    rewrite Hc, IH; auto.
Qed.

Lemma span_digits_all r ds :
  forallb (is_digit r) ds = true -> span_digits r ds = (ds, []).
Proof.
  intro H. rewrite <- (app_nil_r ds) at 1. now apply span_digits_app.
Qed.

Lemma read_decimal_fixed D F :
  D <> [] ->
  forallb (is_digit 10) D = true ->
  forallb (is_digit 10) F = true ->
  read_decimal (D ++ "."%char :: F) =
  Some (digits_value 10 (D ++ F), - Z.of_nat (List.length F), []).
Proof.
  intros HD HDd HFd. unfold read_decimal.
  rewrite span_digits_app by (auto; reflexivity).
  change (Ascii.eqb "."%char "."%char) with true. cbv iota.
  rewrite span_digits_all by assumption.
  destruct D as [|c D]; [congruence|]. simpl is_nil. simpl andb. cbv iota.
  simpl read_exponent. cbv iota. reflexivity.
Qed.

Lemma skip_ws_head c l : is_ws c = false -> skip_ws (c :: l) = c :: l.
Proof. intro H. simpl. now rewrite H. Qed.

Lemma trim_chars_id a l z :
  is_ws a = false -> is_ws z = false ->
  trim_chars (a :: l ++ [z]) = a :: l ++ [z].
Proof.
  intros Ha Hz. unfold trim_chars. rewrite skip_ws_head by assumption.
  assert (E : rev (a :: l ++ [z]) = z :: rev (a :: l)).
  { change (a :: l ++ [z]) with ((a :: l) ++ [z]).
    rewrite rev_app_distr. reflexivity. }
  rewrite E, skip_ws_head by assumption.
  rewrite <- E. apply rev_involutive.
Qed.

Lemma fixed_digits_2 n :
  fixed_digits 2 n = [digit_char ((n / 10) mod 10); digit_char (n mod 10)].
Proof. reflexivity. Qed.

Lemma starts_with_Infinity_digit c l :
  is_digit 10 c = true -> starts_with Infinity_lit (c :: l) = false.
Proof.
  intro H. destruct (digit_is_plain c H) as (_ & _ & _ & _ & _ & CI).
  unfold Infinity_lit.
  change (chars "Infinity") with ("I"%char :: chars "nfinity").
  cbn [starts_with]. now rewrite CI.
Qed.

(** The numeral [D.F], signed, reads back as its value. *)
Lemma Number_numeral (sg : bool) c D f1 f2 :
  forallb (is_digit 10) (c :: D) = true ->
  is_digit 10 f1 = true -> is_digit 10 f2 = true ->
  Number_ (str ((if sg then ["-"%char] else []) ++ (c :: D) ++ "."%char :: [f1; f2])) =
  fin (signed sg (digits_value 10 ((c :: D) ++ [f1; f2])) # 100).
Proof.
  intros HD H1 H2.
  assert (Hc : is_digit 10 c = true)
    by (simpl in HD; apply andb_true_iff in HD; tauto).
  destruct (digit_is_plain c Hc) as (Cw & Cm & Cp & Cd & Cc & CI).
  destruct (digit_is_plain f2 H2) as (Fw & _).
  unfold Number_. rewrite chars_str.
  assert (T : forall pre a, is_ws a = false ->
            trim_chars (a :: pre ++ "."%char :: [f1; f2]) =
            a :: pre ++ "."%char :: [f1; f2]).
  { intros pre a Ha.
    replace (pre ++ "."%char :: [f1; f2]) with ((pre ++ ["."%char; f1]) ++ [f2])
      by (rewrite <- app_assoc; reflexivity).
    now apply trim_chars_id. }
  assert (RD : read_decimal ((c :: D) ++ "."%char :: [f1; f2]) =
               Some (digits_value 10 ((c :: D) ++ [f1; f2]), -2, [])).
  { rewrite read_decimal_fixed; auto; [discriminate|].
    simpl. now rewrite H1, H2. }
  assert (SW : starts_with Infinity_lit (c :: D ++ "."%char :: [f1; f2]) = false)
    by now apply starts_with_Infinity_digit.
  cbn [app] in RD.
  destruct sg; cbn [app].
  - pose proof (T (c :: D) "-"%char eq_refl) as T1. cbn [app] in T1.
    rewrite T1. cbn [is_nil read_sign].
    change (Ascii.eqb "-"%char "-"%char) with true. cbv iota.
    rewrite SW. cbn [andb]. rewrite RD. reflexivity.
  - pose proof (T D c Cw) as T1. rewrite T1. cbn [is_nil read_sign].
    rewrite Cm, Cp, SW. cbn [andb]. rewrite RD. reflexivity.
Qed.

Lemma round_scaled_split n :
  digits_value 10 (digits (n / 10 ^ N.of_nat 2) ++ fixed_digits 2 n) = n.
Proof.
  rewrite digits_value_app10, digits_value_digits, fixed_digits_value.
  rewrite fixed_digits_length.
  pose proof (N.div_mod n (10 ^ N.of_nat 2)). lia.
Qed.

Theorem Number_toFixed x : Number_ (toFixed 2 x) = round2 x.
Proof.
  destruct x as [q| | |]; try reflexivity.
  unfold toFixed, round2, minus_sign, fraction_part.
  set (n := round_scaled 2 q).
  rewrite fixed_digits_2.
  pose proof (digits_all (n / 10 ^ N.of_nat 2)) as HD.
  pose proof (digits_nonempty (n / 10 ^ N.of_nat 2)) as HN.
  pose proof (round_scaled_split n) as HV. rewrite fixed_digits_2 in HV.
  destruct (digits (n / 10 ^ N.of_nat 2)) as [|c D]; [congruence|].
  rewrite Number_numeral; auto.
  - now rewrite HV.
  - apply is_digit_digit_char, N.mod_lt. lia.
  - apply is_digit_digit_char, N.mod_lt. lia.
Qed.

Lemma remove_commas_digits l :
  forallb (is_digit 10) l = true -> remove_commas_chars l = l.
Proof.
  induction l as [|c l IH]; simpl; intro H; [reflexivity|].
  apply andb_true_iff in H. destruct H as [Hc H].
  destruct (digit_is_plain c Hc) as (_ & _ & _ & _ & Cc & _).
  rewrite Cc. simpl. now rewrite IH.
Qed.

Lemma remove_commas_group_rev : forall n l,
  (List.length l <= n)%nat ->
  remove_commas_chars (group_rev l) = remove_commas_chars l.
Proof.
  induction n as [|n IH]; intros l Hl.
  - destruct l; [reflexivity|simpl in Hl; lia].
  - destruct l as [|a [|b [|c [|d r]]]]; try reflexivity.
    change (group_rev (a :: b :: c :: d :: r))
      with ([a; b; c] ++ ","%char :: group_rev (d :: r)).
    change (a :: b :: c :: d :: r) with ([a; b; c] ++ d :: r).
    unfold remove_commas_chars. rewrite !filter_app. f_equal.
    apply (IH (d :: r)). simpl in *. lia.
Qed.

Lemma remove_commas_group3 l :
  remove_commas_chars (group3 l) = remove_commas_chars l.
Proof.
  unfold group3, remove_commas_chars.
  rewrite filter_rev.
  fold (remove_commas_chars (group_rev (rev l))).
  rewrite (remove_commas_group_rev (List.length (rev l))) by lia.
  unfold remove_commas_chars. rewrite <- filter_rev. now rewrite rev_involutive.
Qed.

Lemma remove_commas_toLocaleString q :
  remove_commas (toLocaleString 2 (Fin q)) = toFixed 2 (Fin q).
Proof.
  unfold remove_commas, toLocaleString, toFixed. rewrite chars_str. f_equal.
  set (n := round_scaled 2 q).
  assert (E1 : remove_commas_chars (minus_sign q) = minus_sign q)
    by (unfold minus_sign; now destruct (Qltb q 0)).
  assert (E2 : remove_commas_chars (group3 (digits (n / 10 ^ N.of_nat 2))) =
               digits (n / 10 ^ N.of_nat 2))
    by (rewrite remove_commas_group3; apply remove_commas_digits, digits_all).
  assert (E3 : remove_commas_chars (fraction_part 2 n) = fraction_part 2 n).
  { unfold fraction_part.
    change (remove_commas_chars ("."%char :: fixed_digits 2 n))
      with ("."%char :: remove_commas_chars (fixed_digits 2 n)).
    now rewrite remove_commas_digits by apply fixed_digits_all. }
  unfold remove_commas_chars in *. rewrite !filter_app.
  now rewrite E1, E2, E3.
Qed.

(** What a cell printed by [formatNumber] displays. *)
Theorem shown_formatNumber x :
  isFinite x = true -> shown (formatNumber x 2) = round2 x.
Proof.
  intro H. apply isFinite_Fin in H. destruct H as [q ->].
  unfold shown, formatNumber. simpl isNaN. cbv iota.
  rewrite remove_commas_toLocaleString. apply Number_toFixed.
Qed.

Lemma shown_formatNumber_NaN : shown (formatNumber NaN 2) = Fin 0.
Proof. reflexivity. Qed.

Lemma shown_toFixed x : isFinite x = true -> shown (toFixed 2 x) = round2 x.
Proof.
  intro H. apply isFinite_Fin in H. destruct H as [q ->].
  rewrite <- Number_toFixed. unfold shown. f_equal.
  rewrite <- remove_commas_toLocaleString.
  unfold remove_commas at 2. unfold remove_commas. rewrite chars_str.
  f_equal. unfold remove_commas_chars.
  induction (chars (toLocaleString 2 (Fin q))) as [|c l IH]; simpl; auto.
  destruct (Ascii.eqb c ","%char) eqn:E; simpl; auto.
  rewrite E. simpl. now f_equal.
Qed.

(** [round2] is within half a hundredth. *)
Lemma round2_nearest q :
  (Qabs (qv (round2 (Fin q)) - q) <= 1 # 200)%Q.
Proof.
  unfold round2. rewrite qv_fin.
  destruct q as [a b]. unfold round_scaled, signed. simpl Qnum. simpl Qden.
  change (Z.of_nat 2) with 2. change (10 ^ 2) with 100.
  set (t := (2 * (Z.abs a * 100) + Z.pos b) / (2 * Z.pos b)).
  assert (Hb : 0 < Z.pos b) by lia.
  assert (Ht : 0 <= t) by (apply Z.div_pos; lia).
  rewrite Z2N.id by assumption.
  pose proof (Z.mul_div_le (2 * (Z.abs a * 100) + Z.pos b) (2 * Z.pos b) ltac:(lia)) as L.
  pose proof (Z.mul_succ_div_gt (2 * (Z.abs a * 100) + Z.pos b) (2 * Z.pos b) ltac:(lia)) as U.
  fold t in L, U.
  apply Qabs_Qle_condition.
  destruct (Qltb (a # b) 0) eqn:S; unbool; unfold Qlt, Qle in S; simpl in S;
    unfold Qle, Qminus, Qplus, Qopp; simpl; split; nia.
Qed.

(** ** [median] *)

Lemma sub_goes_after x y :
  isNaN x = false -> isNaN y = false ->
  goes_after (fun a b => sub a b) x y = ltb y x.
Proof.
  unfold goes_after, gtb.
  destruct x as [a| | |], y as [b| | |]; cbn [sub ltb isNaN];
    try discriminate; auto.
  intros _ _. unfold fin.
  destruct (Qltb b a) eqn:E; unbool;
    pose proof (Qred_correct (a - b)); lra.
Qed.

Lemma ltb_false_leb x y :
  isNaN x = false -> isNaN y = false -> ltb y x = false -> leb x y = true.
Proof.
  destruct x as [a| | |], y as [b| | |]; simpl; try discriminate; auto.
  intros _ _ H. unbool. lra.
Qed.

Lemma ltb_leb x y : ltb x y = true -> leb x y = true.
Proof.
  destruct x as [a| | |], y as [b| | |]; simpl; try discriminate; auto.
  intro H. unbool. lra.
Qed.

Lemma leb_trans x y z : leb x y = true -> leb y z = true -> leb x z = true.
Proof.
  destruct x as [a| | |], y as [b| | |], z as [c| | |]; simpl;
    try discriminate; auto.
  intros H1 H2. unbool. lra.
Qed.

Lemma sort_numbers_sorted l :
  Forall (fun x => isNaN x = false) l ->
  StronglySorted num_le (sort (fun a b => sub a b) l).
Proof.
  apply sort_sorted.
  - intros x y Hx Hy H. rewrite sub_goes_after in H by assumption.
    now apply ltb_false_leb.
  - intros x y Hx Hy H. rewrite sub_goes_after in H by assumption.
    now apply ltb_leb.
  - intros x y z. apply leb_trans.
Qed.

Lemma odd_mod2 n : Nat.odd n = negb (n mod 2 =? 0)%nat.
Proof.
  pose proof (Nat.div_mod_eq n 2) as D.
  pose proof (Nat.mod_upper_bound n 2 ltac:(lia)) as U.
  destruct (Nat.odd n) eqn:E.
  - apply Nat.odd_spec in E. destruct E as [k E].
    destruct (n mod 2 =? 0)%nat eqn:M; auto.
    apply Nat.eqb_eq in M. lia.
  - destruct (n mod 2 =? 0)%nat eqn:M; auto.
    apply Nat.eqb_neq in M.
    assert (O : Nat.odd n = true)
      by (apply Nat.odd_spec; exists (n / 2)%nat; lia).
    congruence.
Qed.

Lemma median_middle arr :
  arr <> [] ->
  median arr = round2 (middle (sort (fun a b => sub a b) arr)).
Proof.
  intro H. unfold median, middle.
  destruct arr as [|x arr]; [congruence|]. cbn [is_nil].
  rewrite Number_toFixed, odd_mod2. reflexivity.
Qed.

(** ** [average] *)

Lemma average_step_fold arr : forall s c,
  fold_left Part000.average_step arr (s, c) =
  (fold_left add (filter valid arr) s, (c + List.length (filter valid arr))%nat).
Proof.
  induction arr as [|x arr IH]; intros s c; cbn [fold_left filter].
  - cbn [List.length]. f_equal. lia.
  - change (Part000.average_step (s, c) x)
      with (if negb (isNaN x) then (add s x, S c) else (s, c)).
    change (valid x) with (negb (isNaN x)).
    destruct (isNaN x); cbn [negb]; rewrite IH; cbn [List.length fold_left];
      f_equal; lia.
Qed.

(** The second pass of [average] returns the mean of the valid entries. *)
Theorem Part000_average_mean arr : Part000.average arr = mean_of_valid arr.
Proof.
  unfold Part000.average, mean_of_valid.
  destruct arr as [|x arr]; [reflexivity|]. cbn [is_nil].
  rewrite average_step_fold. fold (sum (filter valid (x :: arr))).
  destruct (filter valid (x :: arr)) as [|v vs]; reflexivity.
Qed.

Lemma Part000_average_all_invalid arr :
  Forall (fun x => isNaN x = true) arr -> Part000.average arr = Fin 0.
Proof.
  intro H. rewrite Part000_average_mean. unfold mean_of_valid.
  replace (filter valid arr) with (@nil number); [reflexivity|].
  induction H as [|x arr Hx _ IH]; simpl; auto.
  unfold valid at 1. now rewrite Hx.
Qed.

(** ** The cleaner *)

Lemma parseFloatSafe_not_NaN v : isNaN (parseFloatSafe v) = false.
Proof.
  unfold parseFloatSafe.
  destruct (parseFloat _) eqn:E; reflexivity.
Qed.

Lemma leb_0_ltb x :
  isNaN x = false -> leb x (Fin 0) = negb (ltb (Fin 0) x).
Proof.
  destruct x as [q| | |]; cbn [leb ltb isNaN]; try discriminate; auto.
  intros _. unfold Qltb. now rewrite negb_involutive.
Qed.

Lemma year_window y :
  (y =? 0) || (y <? 2021) || (2023 <? y) =
  negb ((y =? 2021) || (y =? 2022) || (y =? 2023)).
Proof.
  destruct (y =? 0) eqn:E0, (y <? 2021) eqn:E1, (2023 <? y) eqn:E2,
           (y =? 2021) eqn:E3, (y =? 2022) eqn:E4, (y =? 2023) eqn:E5;
    try reflexivity; exfalso;
    rewrite ?Z.eqb_eq, ?Z.eqb_neq, ?Z.ltb_lt, ?Z.ltb_ge in *; lia.
Qed.

Lemma trim_or_nonempty v d : d <> ""%string -> trim_or v d <> ""%string.
Proof.
  intro H. unfold trim_or. destruct v as [s|]; auto.
  destruct (String.eqb (trim s) "") eqn:E; auto.
  now apply String.eqb_neq in E.
Qed.

Section CleanerFacts.
Variable dayjs : option string -> Dayjs.
Variable utcOffset : Z -> Z.


(** A row that fails validation is skipped. *)
Lemma clean_row_skips cleaned r :
  passes_validation r = false -> clean_row dayjs utcOffset cleaned r = Normal cleaned.
Proof.
  unfold passes_validation, clean_row.
  destruct (parseInt (Raw.FundingYear r)) as [y|]; [|reflexivity].
  rewrite year_window, !leb_0_ltb by apply parseFloatSafe_not_NaN.
  destruct ((y =? 2021) || (y =? 2022) || (y =? 2023)); [|reflexivity].
  cbn [negb andb].
  destruct (ltb (Fin 0) (parseFloatSafe (Raw.ApprovedBudgetForContract r)));
    [|reflexivity].
  cbn [negb andb].
  destruct (ltb (Fin 0) (parseFloatSafe (Raw.ContractCost r))); [|reflexivity].
  discriminate.
Qed.

(** A row that passes validation without a completion date that parses
    reaches the assignment to the constant, which throws. *)
Lemma clean_row_throws cleaned r :
  passes_validation r = true ->
  isValid (dayjs (Raw.ActualCompletionDate r)) = false ->
  clean_row dayjs utcOffset cleaned r = Throw const_assignment.
Proof.
  unfold passes_validation, clean_row, parseDateSafe.
  destruct (parseInt (Raw.FundingYear r)) as [y|]; [|discriminate].
  rewrite year_window, !leb_0_ltb by apply parseFloatSafe_not_NaN.
  intros H V. apply andb_true_iff in H. destruct H as [H H3].
  apply andb_true_iff in H. destruct H as [H1 H2].
  rewrite H1, H2, H3, V. reflexivity.
Qed.

(** A row that passes validation and has a completion date is appended,
    whatever its start date. *)
Lemma clean_row_keeps cleaned r :
  passes_validation r = true ->
  isValid (dayjs (Raw.ActualCompletionDate r)) = true ->
  exists p, clean_row dayjs utcOffset cleaned r = Normal (cleaned ++ [p]) /\
            row p = r /\ cleaned_ok p /\
            StartDate p = parseDateSafe dayjs (Raw.StartDate r).
Proof.
  unfold passes_validation, clean_row.
  destruct (parseInt (Raw.FundingYear r)) as [y|]; [|discriminate].
  rewrite year_window, !leb_0_ltb by apply parseFloatSafe_not_NaN.
  intros H V. apply andb_true_iff in H. destruct H as [H H3].
  apply andb_true_iff in H. destruct H as [H1 H2].
  rewrite H1, H2, H3. cbn [negb]. cbv iota.
  destruct (dayjs (Raw.ActualCompletionDate r)) as [t|] eqn:D; [|discriminate].
  cbv zeta. unfold parseDateSafe. rewrite D. cbn [isValid]. cbv iota.
  fold (parseDateSafe dayjs (Raw.StartDate r)).
  eexists. split; [reflexivity|]. split; [reflexivity|]. split; [|reflexivity].
  constructor; cbn [FundingYear ApprovedBudgetForContract ContractCost
                    CostSavings CompletionDelayDays Contractor]; auto.
  - rewrite !orb_true_iff, !Z.eqb_eq in H1. lia.
  - unfold diff_day.
    destruct (parseDateSafe dayjs (Raw.StartDate r)) as [[u|]|]; eauto.
  - apply trim_or_nonempty. discriminate.
Qed.

Lemma for_of_clean_throws rows : forall cleaned,
  Exists (fun r => passes_validation r = true /\
                   isValid (dayjs (Raw.ActualCompletionDate r)) = false) rows ->
  for_of (clean_row dayjs utcOffset) rows cleaned = Throw const_assignment.
Proof.
  induction rows as [|r rows IH]; intros cleaned H; [inversion H|].
  cbn [for_of].
  destruct (passes_validation r) eqn:P.
  - destruct (isValid (dayjs (Raw.ActualCompletionDate r))) eqn:V.
    + destruct (clean_row_keeps cleaned r P V) as (p & -> & _).
      cbn [bind]. apply IH.
      inversion H as [? ? [_ H1]|]; subst; [congruence|auto].
    + now rewrite clean_row_throws.
  - rewrite clean_row_skips by assumption. cbn [bind]. apply IH.
    inversion H as [? ? [H1 _]|]; subst; [congruence|auto].
Qed.

Lemma for_of_clean_keeps rows : forall cleaned,
  Forall (fun r => passes_validation r = true ->
                   isValid (dayjs (Raw.ActualCompletionDate r)) = true) rows ->
  exists out, for_of (clean_row dayjs utcOffset) rows cleaned = Normal (cleaned ++ out) /\
              map row out = filter passes_validation rows /\
              Forall cleaned_ok out.
Proof.
  induction rows as [|r rows IH]; intros cleaned H.
  - exists []. rewrite app_nil_r. repeat split; constructor.
  - inversion H as [|? ? Hr H']; subst. cbn [for_of filter].
    destruct (passes_validation r) eqn:P.
    + destruct (clean_row_keeps cleaned r P (Hr eq_refl)) as (p & -> & Rp & Ok & _).
      cbn [bind]. destruct (IH (cleaned ++ [p]) H') as (out & -> & M & F).
      exists (p :: out). rewrite <- app_assoc. cbn [app map].
      rewrite Rp, M. repeat split. now constructor.
    + rewrite clean_row_skips by assumption. cbn [bind]. now apply IH.
Qed.



End CleanerFacts.

(** ** Objects *)

Lemma own_app {V} (m1 m2 : object V) k :
  own (m1 ++ m2) k = match own m1 k with Some v => Some v | None => own m2 k end.
Proof.
  induction m1 as [|[k' v] m1 IH]; cbn [own app]; auto.
  destruct (String.eqb k k'); auto.
Qed.

Lemma own_define {V} (m : object V) k v k' :
  own m k = None ->
  own (define m k v) k' = if String.eqb k' k then Some v else own m k'.
Proof.
  intro H. unfold define. rewrite own_app. cbn [own].
  destruct (String.eqb k' k) eqn:E.
  - apply String.eqb_eq in E. subst. now rewrite H.
  - now destruct (own m k').
Qed.

Ltac string_cases :=
  repeat match goal with
  | H : String.eqb _ _ = true |- _ => apply String.eqb_eq in H; subst
  | H : String.eqb _ _ = false |- _ => apply String.eqb_neq in H
  end.

Lemma own_update {V} (m : object V) k f k' :
  own (update m k f) k' =
  if String.eqb k' k then option_map f (own m k) else own m k'.
Proof.
  induction m as [|[k0 v] m IH]; cbn [own update].
  - now destruct (String.eqb k' k).
  - destruct (String.eqb k k0) eqn:E; cbn [own];
      destruct (String.eqb k' k0) eqn:E0; destruct (String.eqb k' k) eqn:E';
      string_cases; rewrite ?String.eqb_refl in *; try congruence; auto;
      try (rewrite IH, String.eqb_refl; reflexivity).
    all: rewrite IH; apply String.eqb_neq in E'; now rewrite E'.
Qed.

Lemma keys_update {V} (m : object V) k f : map fst (update m k f) = map fst m.
Proof.
  induction m as [|[k0 v] m IH]; cbn [update map]; auto.
  destruct (String.eqb k k0); cbn [map fst]; congruence.
Qed.

Lemma own_None {V} (m : object V) k : own m k = None <-> ~ In k (map fst m).
Proof.
  induction m as [|[k0 v] m IH]; cbn [own map fst In]; [tauto|].
  destruct (String.eqb k k0) eqn:E.
  - apply String.eqb_eq in E. subst. split; [discriminate|tauto].
  - apply String.eqb_neq in E. rewrite IH. split; [intros H [H1|H1]; auto|tauto].
Qed.

Lemma In_own {V} (m : object V) k v :
  NoDup (map fst m) -> (In (k, v) m <-> own m k = Some v).
Proof.
  induction m as [|[k0 v0] m IH]; cbn [own map fst In]; intro N.
  - split; [tauto|discriminate].
  - inversion N as [|? ? N1 N2]; subst.
    destruct (String.eqb k k0) eqn:E.
    + apply String.eqb_eq in E. subst. split.
      * intros [H|H]; [congruence|].
        exfalso. apply N1. now apply (in_map fst) in H.
      * intro H. left. congruence.
    + apply String.eqb_neq in E. rewrite <- IH by assumption. split.
      * intros [H|H]; [congruence|assumption].
      * tauto.
Qed.

Lemma filter_partition {A} (f : A -> bool) l :
  Permutation (filter f l ++ filter (fun x => negb (f x)) l) l.
Proof.
  induction l as [|a l IH]; cbn [filter]; auto.
  destruct (f a); cbn [negb app].
  - now constructor.
  - rewrite <- Permutation_middle. now constructor.
Qed.

Lemma Object_entries_perm {V} (m : object V) : Permutation (Object_entries m) m.
Proof.
  unfold Object_entries. rewrite sort_perm. apply filter_partition.
Qed.

Lemma Object_values_perm {V} (m : object V) :
  Permutation (Object_values m) (map snd m).
Proof. unfold Object_values. apply Permutation_map, Object_entries_perm. Qed.

Lemma Object_values_In {V} (m : object V) v :
  In v (Object_values m) <-> exists k, In (k, v) m.
Proof.
  split.
  - intro H. apply (Permutation_in _ (Object_values_perm m)) in H.
    apply in_map_iff in H. destruct H as ([k v'] & E & H). simpl in E. subst.
    eauto.
  - intros [k H]. apply (Permutation_in _ (Permutation_sym (Object_values_perm m))).
    apply in_map_iff. exists (k, v). auto.
Qed.

Lemma year_get_set {V} (o : year_object V) y v y' :
  year_get (year_set o y v) y' = if y' =? y then Some v else year_get o y'.
Proof.
  induction o as [|[y0 v0] o IH]; cbn [year_get year_set].
  - now destruct (y' =? y).
  - destruct (y =? y0) eqn:E; cbn [year_get].
    + apply Z.eqb_eq in E. subst y0. now destruct (y' =? y).
    + destruct (y' =? y0) eqn:E0.
      * apply Z.eqb_eq in E0. subst y0.
        destruct (y' =? y) eqn:E'; auto.
        apply Z.eqb_eq in E'. subst. rewrite Z.eqb_refl in E. discriminate.
      * exact IH.
Qed.

(** ** The grouping loops *)

Section GroupingFacts.
Context {G : Type}.
Variable keep : CleanedProject -> bool.
Variable key_of : CleanedProject -> string.
Variable fresh : CleanedProject -> G.
Variable push : CleanedProject -> G -> G.

Local Abbreviation step := (group_step keep key_of fresh push).
Local Abbreviation mem := (members keep key_of).
Local Abbreviation blt := (built fresh push).
Local Abbreviation grp := (grouped keep key_of fresh push).

Lemma members_app k ds r :
  mem k (ds ++ [r]) =
  mem k ds ++ (if keep r && String.eqb (key_of r) k then [r] else []).
Proof.
  unfold members. rewrite filter_app. cbn [filter].
  now destruct (keep r && String.eqb (key_of r) k).
Qed.

Lemma built_snoc rs g r :
  blt rs = Some g -> blt (rs ++ [r]) = Some (push r g).
Proof.
  destruct rs as [|r0 rs]; [discriminate|].
  unfold built. cbn [app]. intro H. injection H as <-.
  change (r0 :: rs ++ [r]) with ((r0 :: rs) ++ [r]).
  now rewrite fold_left_app.
Qed.

Lemma built_none rs : blt rs = None -> rs = [].
Proof. destruct rs; [reflexivity|discriminate]. Qed.

(** One turn of the loop that does not throw extends the grouping. *)
Lemma group_step_grouped ds m r m' :
  grp ds m -> step m r = Normal m' -> grp (ds ++ [r]) m'.
Proof.
  intros [N O] H. unfold group_step in H.
  destruct (keep r) eqn:K.
  - unfold lookup in H. pose proof (O (key_of r)) as Ok.
    destruct (own m (key_of r)) as [g|] eqn:E.
    + injection H as <-. split; [now rewrite keys_update|].
      intro k. rewrite own_update, members_app, K. cbn [andb].
      destruct (String.eqb k (key_of r)) eqn:Ek; string_cases.
      * rewrite String.eqb_refl, E. cbn [option_map].
        symmetry. now apply built_snoc.
      * rewrite O. replace (String.eqb (key_of r) k) with false
          by (symmetry; apply String.eqb_neq; congruence).
        now rewrite app_nil_r.
    + destruct (inherited (key_of r)); [discriminate|].
      injection H as <-. split.
      * rewrite keys_update. unfold define. rewrite map_app. cbn [map fst].
        apply NoDup_app; auto.
        -- repeat constructor. intros [].
        -- intros x Hx [<-|[]]. now apply own_None in E.
      * intro k. rewrite own_update, !own_define, members_app, K by assumption.
        cbn [andb]. rewrite String.eqb_refl. cbn [option_map].
        symmetry in Ok. apply built_none in Ok.
        destruct (String.eqb k (key_of r)) eqn:Ek; string_cases.
        -- rewrite String.eqb_refl. fold (mem (key_of r) ds). rewrite Ok.
           reflexivity.
        -- rewrite O. replace (String.eqb (key_of r) k) with false
             by (symmetry; apply String.eqb_neq; congruence).
           now rewrite app_nil_r.
  - injection H as <-. split; auto.
    intro k. rewrite members_app, K. cbn [andb]. now rewrite app_nil_r.
Qed.

(** The loop throws on no key that is not an inherited name. *)
Lemma group_step_total m r :
  inherited (key_of r) = false -> exists m', step m r = Normal m'.
Proof.
  intro H. unfold group_step, lookup. rewrite H.
  destruct (keep r); [|eauto]. destruct (own m (key_of r)); eauto.
Qed.

Lemma for_of_grouped rs : forall ds m m',
  grp ds m -> for_of step rs m = Normal m' -> grp (ds ++ rs) m'.
Proof.
  induction rs as [|r rs IH]; intros ds m m' Hg H; cbn [for_of] in H.
  - injection H as <-. now rewrite app_nil_r.
  - destruct (step m r) as [m1|e] eqn:E; [|discriminate]. cbn [bind] in H.
    replace (ds ++ r :: rs) with ((ds ++ [r]) ++ rs)
      by (rewrite <- app_assoc; reflexivity).
    eapply IH; [|exact H]. eapply group_step_grouped; eauto.
Qed.

Lemma for_of_total rs : forall m,
  Forall (fun r => inherited (key_of r) = false) rs ->
  exists m', for_of step rs m = Normal m'.
Proof.
  induction rs as [|r rs IH]; intros m H; cbn [for_of]; [eauto|].
  inversion H as [|? ? Hr H']; subst.
  destruct (group_step_total m r Hr) as [m1 ->]. cbn [bind]. now apply IH.
Qed.

Lemma grouped_nil : grp [] [].
Proof. split; [constructor|reflexivity]. Qed.

(** Every value of the final object is the group built by the rows of its
    key, of which there is at least one. *)
Lemma grouped_values ds m g :
  grp ds m -> In g (Object_values m) ->
  exists k r rs, mem k ds = r :: rs /\
                 g = fold_left (fun a x => push x a) (r :: rs) (fresh r).
Proof.
  intros [N O] H. apply Object_values_In in H. destruct H as [k H].
  apply In_own in H; auto. rewrite O in H.
  destruct (mem k ds) as [|r rs] eqn:E; [discriminate|].
  exists k, r, rs. split; auto. unfold built in H. congruence.
Qed.

End GroupingFacts.

(** ** The three loops as instances *)

Lemma for_of_ext {A S} (f g : S -> A -> completion S) xs :
  (forall s x, f s x = g s x) -> forall s, for_of f xs s = for_of g xs s.
Proof.
  intros E. induction xs as [|x xs IH]; intro s; cbn [for_of]; auto.
  rewrite E. destruct (g s x); cbn [bind]; auto.
Qed.

Lemma region_step_generic m r :
  region_step m r = group_step always region_key region_fresh region_push m r.
Proof. reflexivity. Qed.

Lemma type_step_generic m r :
  type_step m r = group_step always type_key type_fresh type_push m r.
Proof. reflexivity. Qed.

Lemma contractor_step_generic m r :
  contractor_step m r =
  group_step has_contractor Contractor contractor_fresh contractor_push m r.
Proof.
  unfold contractor_step, group_step, has_contractor.
  destruct (String.eqb (Contractor r) ""); reflexivity.
Qed.

Lemma region_fold rs : forall g,
  fold_left (fun a x => region_push x a) rs g =
  {| RegionGroup.Region := RegionGroup.Region g;
     RegionGroup.MainIsland := RegionGroup.MainIsland g;
     RegionGroup.budgets :=
       RegionGroup.budgets g ++ map ApprovedBudgetForContract rs;
     RegionGroup.savings := RegionGroup.savings g ++ map CostSavings rs;
     RegionGroup.delays := RegionGroup.delays g ++ map CompletionDelayDays rs |}.
Proof.
  induction rs as [|r rs IH]; intros [a b c d e]; cbn [fold_left map].
  - now rewrite !app_nil_r.
  - rewrite IH. unfold region_push. cbn. now rewrite <- !app_assoc.
Qed.

Lemma contractor_fold rs : forall g,
  fold_left (fun a x => contractor_push x a) rs g =
  {| ContractorGroup.Contractor := ContractorGroup.Contractor g;
     ContractorGroup.projects := (ContractorGroup.projects g + List.length rs)%nat;
     ContractorGroup.delays :=
       ContractorGroup.delays g ++ map CompletionDelayDays rs;
     ContractorGroup.totalSavings :=
       fold_left add (map CostSavings rs) (ContractorGroup.totalSavings g);
     ContractorGroup.totalCost :=
       fold_left add (map ContractCost rs) (ContractorGroup.totalCost g) |}.
Proof.
  induction rs as [|r rs IH]; intros [a b c d e]; cbn [fold_left map List.length].
  - cbn. now rewrite Nat.add_0_r, app_nil_r.
  - rewrite IH. unfold contractor_push. cbn.
    now rewrite <- app_assoc, Nat.add_succ_r.
Qed.

Lemma type_fold rs : forall g,
  fold_left (fun a x => type_push x a) rs g =
  {| YearWorkGroup.FundingYear := YearWorkGroup.FundingYear g;
     YearWorkGroup.TypeOfWork := YearWorkGroup.TypeOfWork g;
     YearWorkGroup.savings := YearWorkGroup.savings g ++ map CostSavings rs |}.
Proof.
  induction rs as [|r rs IH]; intros [a b c]; cbn [fold_left map].
  - now rewrite app_nil_r.
  - rewrite IH. unfold type_push. cbn. now rewrite <- app_assoc.
Qed.

(** No inherited name contains a vertical bar, and the keys of the regional
    and of the trend loops do: these two loops never throw. *)
Lemma inherited_no_bar k : inherited k = true -> ~ In "|"%char (chars k).
Proof.
  unfold inherited. intro H. apply existsb_exists in H.
  destruct H as (n & Hn & E). apply String.eqb_eq in E. subst n.
  cbv [Object_prototype_keys In] in Hn.
  repeat (destruct Hn as [<-|Hn]; [cbv; intuition discriminate|]).
  destruct Hn.
Qed.

Lemma bar_key_ok a b : inherited (a ++ "|" ++ b)%string = false.
Proof.
  destruct (inherited (a ++ "|" ++ b)%string) eqn:E; auto.
  apply inherited_no_bar in E. exfalso. apply E.
  rewrite !chars_append. apply in_or_app. right. now left.
Qed.

Lemma region_loop_total data :
  exists m, for_of region_step data [] = Normal m /\
            grouped always region_key region_fresh region_push data m.
Proof.
  destruct (for_of_total always region_key region_fresh region_push data [])
    as [m H].
  - apply Forall_forall. intros r _. apply bar_key_ok.
  - exists m. rewrite (for_of_ext _ _ _ region_step_generic). split; auto.
    change data with ([] ++ data).
    eapply for_of_grouped; [apply grouped_nil|exact H].
Qed.

Lemma type_loop_total data :
  exists m, for_of type_step data [] = Normal m /\
            grouped always type_key type_fresh type_push data m.
Proof.
  destruct (for_of_total always type_key type_fresh type_push data [])
    as [m H].
  - apply Forall_forall. intros r _. apply bar_key_ok.
  - exists m. rewrite (for_of_ext _ _ _ type_step_generic). split; auto.
    change data with ([] ++ data).
    eapply for_of_grouped; [apply grouped_nil|exact H].
Qed.

Lemma contractor_loop_grouped data m :
  for_of contractor_step data [] = Normal m ->
  grouped has_contractor Contractor contractor_fresh contractor_push data m.
Proof.
  rewrite (for_of_ext _ _ _ contractor_step_generic). intro H.
  change data with ([] ++ data).
  eapply for_of_grouped; [apply grouped_nil|exact H].
Qed.

Lemma contractor_loop_total data :
  Forall (fun r => inherited (Contractor r) = false) data ->
  exists m, for_of contractor_step data [] = Normal m.
Proof.
  intro H. rewrite (for_of_ext _ _ _ contractor_step_generic).
  now apply for_of_total.
Qed.

(** ** Finite arithmetic *)

Lemma ofNat_pos n : (0 < n)%nat -> Qis0 (Z.of_nat n # 1) = false.
Proof.
  intro H. unbool. unfold Qeq. simpl. lia.
Qed.

Lemma count_ratio k n :
  (k <= n)%nat -> (0 < n)%nat ->
  (0 <= (Z.of_nat k # 1) / (Z.of_nat n # 1) <= 1)%Q.
Proof.
  intros Hk Hn.
  assert (P : (0 < Z.of_nat n # 1)%Q) by (unfold Qlt; simpl; lia).
  split.
  - apply Qle_shift_div_l; auto. unfold Qle, Qmult. cbn [Qnum Qden]. lia.
  - apply Qle_shift_div_r; auto. unfold Qle, Qmult. cbn [Qnum Qden]. lia.
Qed.

(** A percentage over a non-empty array is a number between 0 and 100. *)
Lemma percentage_bounds p arr :
  arr <> [] ->
  exists q, percentage p arr = Fin q /\ (0 <= q <= 100)%Q.
Proof.
  intro H. unfold percentage, ofNat, ofZ.
  assert (Hn : (0 < List.length arr)%nat)
    by (destruct arr; [congruence|simpl; lia]).
  cbn [div]. rewrite ofNat_pos by assumption. cbn [mul].
  eexists. split; [reflexivity|].
  pose proof (count_ratio _ _ (filter_length_le p arr) Hn) as B.
  unfold fin. rewrite !Qred_correct.
  set (x := ((Z.of_nat (List.length (filter p arr)) # 1) /
             (Z.of_nat (List.length arr) # 1))%Q) in *.
  pose proof (Qred_correct x). lra.
Qed.

Lemma percentage_finite p arr :
  arr <> [] -> isFinite (percentage p arr) = true.
Proof.
  intro H. destruct (percentage_bounds p arr H) as (q & -> & _). reflexivity.
Qed.

(** ** Sums of rationals *)

Lemma qsum_cons x l : qsum (x :: l) = (x + qsum l)%Q.
Proof. reflexivity. Qed.

Lemma qsum_app l1 l2 : (qsum (l1 ++ l2) == qsum l1 + qsum l2)%Q.
Proof.
  induction l1 as [|x l1 IH]; cbn [app].
  - change (qsum []) with 0%Q. lra.
  - rewrite !qsum_cons. lra.
Qed.

Lemma qsum_perm l l' : Permutation l l' -> (qsum l == qsum l')%Q.
Proof.
  induction 1; rewrite ?qsum_cons; lra.
Qed.

Lemma qsum_map_ext {A} (f g : A -> Q) l :
  (forall x, In x l -> (f x == g x)%Q) ->
  (qsum (map f l) == qsum (map g l))%Q.
Proof.
  induction l as [|x l IH]; intro H; cbn [map]; [reflexivity|].
  rewrite !qsum_cons.
  pose proof (H x (or_introl eq_refl)).
  assert (qsum (map f l) == qsum (map g l))%Q
    by (apply IH; intros; apply H; now right).
  lra.
Qed.

Lemma qsum_map_plus {A} (f g : A -> Q) l :
  (qsum (map (fun x => f x + g x) l) == qsum (map f l) + qsum (map g l))%Q.
Proof.
  induction l as [|x l IH]; cbn [map]; rewrite ?qsum_cons; [reflexivity|].
  lra.
Qed.

Lemma qsum_map_zero {A} (l : list A) : (qsum (map (fun _ => 0) l) == 0)%Q.
Proof.
  induction l as [|x l IH]; cbn [map]; rewrite ?qsum_cons; [reflexivity|].
  lra.
Qed.

(** Terms that differ by at most [e] each add up to sums that differ by at
    most [e] times their number. *)
Lemma qsum_map_close {A} (f g : A -> Q) (e : Q) l :
  (forall x, In x l -> (Qabs (f x - g x) <= e)%Q) ->
  (Qabs (qsum (map f l) - qsum (map g l)) <=
   e * inject_Z (Z.of_nat (List.length l)))%Q.
Proof.
  induction l as [|x l IH]; intro H; cbn [map List.length].
  - cbn [qsum fold_right]. apply Qabs_Qle_condition.
    unfold inject_Z. simpl Z.of_nat. lra.
  - rewrite !qsum_cons.
    pose proof (H x (or_introl eq_refl)) as Hx.
    assert (IH' : (Qabs (qsum (map f l) - qsum (map g l)) <=
                   e * inject_Z (Z.of_nat (List.length l)))%Q)
      by (apply IH; intros; apply H; now right).
    apply Qabs_Qle_condition in Hx, IH'. apply Qabs_Qle_condition.
    rewrite Nat2Z.inj_succ. unfold Z.succ. rewrite inject_Z_plus.
    change (inject_Z 1) with 1%Q. lra.
Qed.

Lemma fold_add_fin xs : forall a,
  Forall (fun x => isFinite x = true) xs ->
  fold_left add xs (fin a) = fin (a + qsum (map qv xs)).
Proof.
  induction xs as [|x xs IH]; intros a H; cbn [fold_left map].
  - apply fin_eq. cbn [qsum fold_right]. lra.
  - inversion H as [|? ? Hx H']; subst.
    apply isFinite_Fin in Hx. destruct Hx as [q ->].
    unfold fin at 1. cbn [add]. rewrite IH by assumption.
    apply fin_eq. rewrite qsum_cons. cbn [qv].
    pose proof (Qred_correct a). lra.
Qed.

(** The sum of finite numbers is the finite sum of their values. *)
Lemma sum_finite xs :
  Forall (fun x => isFinite x = true) xs ->
  sum xs = fin (qsum (map qv xs)).
Proof.
  intro H. unfold sum. change (Fin 0) with (fin 0).
  rewrite fold_add_fin by assumption. apply fin_eq. lra.
Qed.

(** ** Every row in exactly one group *)

Section Partition.
Variable keep : CleanedProject -> bool.
Variable key_of : CleanedProject -> string.
Variable v : CleanedProject -> Q.

Lemma indicator_sum k0 x keys :
  NoDup keys -> In k0 keys ->
  (qsum (map (fun k => if String.eqb k0 k then x else 0) keys) == x)%Q.
Proof.
  induction keys as [|k keys IH]; intros N I; [destruct I|].
  inversion N as [|? ? N1 N2]; subst. cbn [map]. rewrite qsum_cons.
  destruct (String.eqb k0 k) eqn:E; string_cases.
  - assert (Z : (qsum (map (fun k' => if String.eqb k k' then x else 0) keys) == 0)%Q).
    { rewrite <- (qsum_map_zero keys). apply qsum_map_ext.
      intros k' Hk'. destruct (String.eqb k k') eqn:E'; string_cases;
        [tauto|reflexivity]. }
    lra.
  - destruct I as [I|I]; [congruence|].
    pose proof (IH N2 I). lra.
Qed.

Lemma partition_sum keys :
  NoDup keys -> forall ds,
  (forall r, In r ds -> keep r = true -> In (key_of r) keys) ->
  (qsum (map (fun k => qsum (map v (members keep key_of k ds))) keys) ==
   qsum (map v (filter keep ds)))%Q.
Proof.
  intros N ds. induction ds as [|r ds IH]; intro C.
  - cbn [members filter map]. apply qsum_map_zero.
  - assert (IH' : (qsum (map (fun k => qsum (map v (members keep key_of k ds))) keys) ==
                   qsum (map v (filter keep ds)))%Q)
      by (apply IH; intros; apply C; auto; now right).
    cbn [filter]. unfold members at 1. cbn [filter].
    destruct (keep r) eqn:K; cbn [andb].
    + cbn [map]. rewrite qsum_cons.
      rewrite <- IH', <- (indicator_sum (key_of r) (v r) keys N)
        by (apply C; auto; now left).
      rewrite <- qsum_map_plus. apply qsum_map_ext. intros k _.
      destruct (String.eqb (key_of r) k); cbn [map]; rewrite ?qsum_cons;
        unfold members; lra.
    + rewrite <- IH'. apply qsum_map_ext. intros k _. reflexivity.
Qed.

End Partition.

(** ** The regional report *)

(** The raw efficiency of a group is a finite number that is not negative. *)
Lemma raw_efficiency_nonneg grp :
  exists q, Part000.Row1.EfficiencyScore (Part000.region_row grp) = Fin q /\
            (0 <= q)%Q.
Proof.
  unfold Part000.region_row. cbn [Part000.Row1.EfficiencyScore].
  destruct (div (median (RegionGroup.savings grp))
                (Part000.average (RegionGroup.delays grp))) as [q| | |];
    cbn [isFinite negb orb ltb];
    try (exists 0%Q; split; [reflexivity|lra]).
  destruct (Qltb q 0) eqn:E.
  - exists 0%Q. split; [reflexivity|lra].
  - exists q. split; [reflexivity|]. now unbool.
Qed.

Lemma min2_fold l : forall acc,
  Forall (fun x => isFinite x = true) l -> isNaN acc = false ->
  (fold_left min2 l acc = acc \/ In (fold_left min2 l acc) l) /\
  leb (fold_left min2 l acc) acc = true /\
  Forall (fun x => leb (fold_left min2 l acc) x = true) l.
Proof.
  induction l as [|x l IH]; intros acc Hl Ha; cbn [fold_left].
  - repeat split; auto. destruct acc; try discriminate; cbn [leb]; auto.
    unbool. apply Qle_refl.
  - inversion Hl as [|? ? Hx Hl']; subst.
    apply isFinite_Fin in Hx. destruct Hx as [q ->].
    assert (Hm : isNaN (min2 acc (Fin q)) = false).
    { destruct acc; try discriminate; cbn [min2 ltb];
        try reflexivity. destruct (Qltb q q0); reflexivity. }
    destruct (IH (min2 acc (Fin q)) Hl' Hm) as (I1 & I2 & I3).
    assert (L1 : leb (min2 acc (Fin q)) acc = true /\
                 leb (min2 acc (Fin q)) (Fin q) = true /\
                 (min2 acc (Fin q) = acc \/ min2 acc (Fin q) = Fin q)).
    { destruct acc as [a| | |]; try discriminate; cbn [min2 ltb leb];
        try (repeat split; auto; unbool; apply Qle_refl).
      destruct (Qltb q a) eqn:E; cbn [leb]; repeat split; auto;
        unbool; lra. }
    destruct L1 as (L1 & L2 & L3).
    split; [|split].
    + destruct I1 as [I1|I1]; [|right; now right].
      rewrite I1. destruct L3 as [L3|L3]; rewrite L3; auto.
      right. now left.
    + eapply leb_trans; eauto.
    + constructor; auto. eapply leb_trans; eauto.
Qed.

Lemma max2_fold l : forall acc,
  Forall (fun x => isFinite x = true) l -> isNaN acc = false ->
  (fold_left max2 l acc = acc \/ In (fold_left max2 l acc) l) /\
  leb acc (fold_left max2 l acc) = true /\
  Forall (fun x => leb x (fold_left max2 l acc) = true) l.
Proof.
  induction l as [|x l IH]; intros acc Hl Ha; cbn [fold_left].
  - repeat split; auto. destruct acc; try discriminate; cbn [leb]; auto.
    unbool. apply Qle_refl.
  - inversion Hl as [|? ? Hx Hl']; subst.
    apply isFinite_Fin in Hx. destruct Hx as [q ->].
    assert (Hm : isNaN (max2 acc (Fin q)) = false).
    { destruct acc; try discriminate; cbn [max2 ltb];
        try reflexivity. destruct (Qltb q0 q); reflexivity. }
    destruct (IH (max2 acc (Fin q)) Hl' Hm) as (I1 & I2 & I3).
    assert (L1 : leb acc (max2 acc (Fin q)) = true /\
                 leb (Fin q) (max2 acc (Fin q)) = true /\
                 (max2 acc (Fin q) = acc \/ max2 acc (Fin q) = Fin q)).
    { destruct acc as [a| | |]; try discriminate; cbn [max2 ltb leb];
        try (repeat split; auto; unbool; apply Qle_refl).
      destruct (Qltb a q) eqn:E; cbn [leb]; repeat split; auto;
        unbool; lra. }
    destruct L1 as (L1 & L2 & L3).
    split; [|split].
    + destruct I1 as [I1|I1]; [|right; now right].
      rewrite I1. destruct L3 as [L3|L3]; rewrite L3; auto.
      right. now left.
    + eapply leb_trans; eauto.
    + constructor; auto. eapply leb_trans; eauto.
Qed.

(** Over a non-empty array of finite numbers, [Math.min] and [Math.max]
    return elements of the array that bound it. *)
Lemma Math_min_spec l :
  l <> [] -> Forall (fun x => isFinite x = true) l ->
  In (Math_min l) l /\ Forall (fun x => leb (Math_min l) x = true) l.
Proof.
  intros N H. destruct (min2_fold l PInf H eq_refl) as (I1 & _ & I3).
  split; auto. destruct I1 as [I1|I1]; auto.
  exfalso. destruct l as [|x l]; [congruence|].
  inversion I3 as [|? ? L _]; subst. inversion H as [|? ? Hx _]; subst.
  unfold Math_min in L. rewrite I1 in L.
  apply isFinite_Fin in Hx. destruct Hx as [q ->]. discriminate.
Qed.

Lemma Math_max_spec l :
  l <> [] -> Forall (fun x => isFinite x = true) l ->
  In (Math_max l) l /\ Forall (fun x => leb x (Math_max l) = true) l.
Proof.
  intros N H. destruct (max2_fold l NInf H eq_refl) as (I1 & _ & I3).
  split; auto. destruct I1 as [I1|I1]; auto.
  exfalso. destruct l as [|x l]; [congruence|].
  inversion I3 as [|? ? L _]; subst. inversion H as [|? ? Hx _]; subst.
  unfold Math_max in L. rewrite I1 in L.
  apply isFinite_Fin in Hx. destruct Hx as [q ->]. discriminate.
Qed.

(** Rounding keeps a number of the range 0..100 in the range. *)
Lemma round2_range q :
  (0 <= q <= 100)%Q ->
  exists q', round2 (Fin q) = Fin q' /\ (0 <= q' <= 100)%Q.
Proof.
  intros [L U]. unfold round2, fin. eexists. split; [reflexivity|].
  rewrite Qred_correct.
  replace (Qltb q 0) with false by (symmetry; now unbool).
  unfold signed, round_scaled. destruct q as [a b].
  unfold Qle in L, U. cbn [Qnum Qden] in *.
  change (Z.of_nat 2) with 2. change (10 ^ 2) with 100.
  set (t := (2 * (Z.abs a * 100) + Z.pos b) / (2 * Z.pos b)).
  assert (T0 : 0 <= t) by (apply Z.div_pos; lia).
  assert (T1 : t < 10001) by (apply Z.div_lt_upper_bound; lia).
  rewrite Z2N.id by assumption.
  unfold Qle. cbn [Qnum Qden]. lia.
Qed.

Lemma Qeq_bool_false a b : Qeq_bool a b = false -> ~ (a == b)%Q.
Proof. intros H E. apply Qeq_bool_iff in E. congruence. Qed.

Lemma ratio_in_unit a b :
  (0 <= a)%Q -> (a <= b)%Q -> (0 < b)%Q -> (0 <= a / b <= 1)%Q.
Proof.
  intros A B C. split.
  - apply Qle_shift_div_l; auto. lra.
  - apply Qle_shift_div_r; auto. lra.
Qed.

(** A score between the minimum and the maximum is rescaled into 0..100. *)
Lemma normalize_range qn qx qe r :
  Part000.Row1.EfficiencyScore r = Fin qe ->
  (qn <= qe)%Q -> (qe <= qx)%Q ->
  exists q, Part000.Row1.EfficiencyScore (Part000.normalize (Fin qn) (Fin qx) r) = Fin q /\
            (0 <= q <= 100)%Q.
Proof.
  intros E L U. unfold Part000.normalize. cbn [Part000.Row1.EfficiencyScore].
  rewrite E, Number_toFixed. cbn [isFinite andb eqb].
  destruct (Qeq_bool qx qn) eqn:Q; cbn [negb].
  - apply round2_range. lra.
  - apply Qeq_bool_false in Q.
    cbn [sub]. unfold fin. cbn [div].
    replace (Qis0 (Qred (qx - qn))) with false
      by (symmetry; unbool; rewrite Qred_correct; lra).
    unfold fin. cbn [mul]. unfold fin. apply round2_range.
    rewrite Qred_correct.
    pose proof (Qred_correct (qe - qn)) as E1.
    pose proof (Qred_correct (qx - qn)) as E2.
    assert (R' : (0 <= Qred (qe - qn) / Qred (qx - qn) <= 1)%Q)
      by (apply ratio_in_unit; lra).
    set (y := (Qred (qe - qn) / Qred (qx - qn))%Q) in *.
    pose proof (Qred_correct y) as E3. lra.
Qed.

Lemma normalize_equal mn mx r :
  eqb mx mn = true ->
  Part000.Row1.EfficiencyScore (Part000.normalize mn mx r) = Fin 0.
Proof.
  intro E. unfold Part000.normalize. cbn [Part000.Row1.EfficiencyScore].
  rewrite E, andb_false_r. reflexivity.
Qed.

Lemma leb_Fin a b : leb (Fin a) (Fin b) = true -> (a <= b)%Q.
Proof. cbn [leb]. intro H. now unbool. Qed.

(** The regional report of the second pass: every score lies in 0..100, and
    all scores are 0 when there is one group or all raw scores are equal. *)
Theorem Part000_scores_normalized (data : list CleanedProject) :
  exists regionMap rows,
    for_of region_step data [] = Normal regionMap /\
    Part000.generateReport1 data = Normal rows /\
    Forall (fun r => exists q, Part000.Row1.EfficiencyScore r = Fin q /\
                               (0 <= q <= 100)%Q) rows /\
    (List.length (Part000.raw_results regionMap) = 1%nat \/
     (forall a b, In a (Part000.raw_results regionMap) ->
                  In b (Part000.raw_results regionMap) ->
                  eqb (Part000.Row1.EfficiencyScore a)
                      (Part000.Row1.EfficiencyScore b) = true) ->
     Forall (fun r => Part000.Row1.EfficiencyScore r = Fin 0) rows).
Proof.
  destruct (region_loop_total data) as (m & H & _).
  exists m. eexists. split; [exact H|].
  unfold Part000.generateReport1. rewrite H. cbn [bind].
  split; [reflexivity|].
  set (raw := Part000.raw_results m).
  set (effs := map Part000.Row1.EfficiencyScore raw).
  assert (F : Forall (fun x => isFinite x = true) effs).
  { apply Forall_forall. intros x Hx. apply in_map_iff in Hx.
    destruct Hx as (r & <- & Hr). unfold raw, Part000.raw_results in Hr.
    apply in_map_iff in Hr. destruct Hr as (g & <- & _).
    destruct (raw_efficiency_nonneg g) as (q & -> & _). reflexivity. }
  split.
  - apply sort_Forall. apply Forall_forall. intros r' Hr'.
    apply in_map_iff in Hr'. destruct Hr' as (r & <- & Hr).
    assert (N : effs <> []) by (unfold effs; destruct raw; [destruct Hr|discriminate]).
    destruct (Math_min_spec effs N F) as (Mi & Ml).
    destruct (Math_max_spec effs N F) as (Xi & Xl).
    assert (Hr' : In (Part000.Row1.EfficiencyScore r) effs) by now apply in_map.
    rewrite Forall_forall in F, Ml, Xl.
    pose proof (F _ Mi) as Fm. pose proof (F _ Xi) as Fx. pose proof (F _ Hr') as Fe.
    apply isFinite_Fin in Fm, Fx, Fe.
    destruct Fm as [qn En], Fx as [qx Ex], Fe as [qe Ee].
    pose proof (Ml _ Hr') as L. pose proof (Xl _ Hr') as U.
    rewrite En, Ee in L. rewrite Ex, Ee in U.
    rewrite En, Ex. apply (normalize_range qn qx qe r Ee); now apply leb_Fin.
  - intro C. apply sort_Forall. apply Forall_forall. intros r' Hr'.
    apply in_map_iff in Hr'. destruct Hr' as (r & <- & Hr).
    apply normalize_equal.
    assert (N : effs <> []) by (unfold effs; destruct raw; [destruct Hr|discriminate]).
    destruct (Math_min_spec effs N F) as (Mi & _).
    destruct (Math_max_spec effs N F) as (Xi & _).
    apply in_map_iff in Mi, Xi.
    destruct Mi as (a & <- & Ha), Xi as (b & <- & Hb).
    destruct C as [C|C]; [|now apply C].
    fold raw in C. destruct raw as [|x [|y raw']]; try discriminate.
    destruct Ha as [<-|[]], Hb as [<-|[]].
    rewrite Forall_forall in F.
    assert (Fx : isFinite (Part000.Row1.EfficiencyScore x) = true)
      by (apply F; now left).
    apply isFinite_Fin in Fx. destruct Fx as [q ->]. cbn [eqb].
    apply Qeq_bool_iff. reflexivity.
Qed.

(** ** Sums over the groups *)

Section GroupSums.
Context {G : Type}.
Variable keep : CleanedProject -> bool.
Variable key_of : CleanedProject -> string.
Variable fresh : CleanedProject -> G.
Variable push : CleanedProject -> G -> G.

Lemma grouped_keys_cover ds m r :
  grouped keep key_of fresh push ds m ->
  In r ds -> keep r = true -> In (key_of r) (map fst m).
Proof.
  intros [N O] I K.
  destruct (in_dec string_dec (key_of r) (map fst m)) as [Y|Y]; auto.
  exfalso. apply own_None in Y. rewrite O in Y. apply built_none in Y.
  assert (M : In r (members keep key_of (key_of r) ds)).
  { unfold members. apply filter_In. split; auto.
    now rewrite K, String.eqb_refl. }
  rewrite Y in M. destruct M.
Qed.

(** A measure of the groups that adds up the values of their rows adds up,
    over all groups, the values of all kept rows. *)
Lemma grouped_sum (mu : G -> Q) (v : CleanedProject -> Q) ds m :
  grouped keep key_of fresh push ds m ->
  (forall k r rs,
     members keep key_of k ds = r :: rs ->
     (mu (fold_left (fun a x => push x a) (r :: rs) (fresh r)) ==
      qsum (map v (r :: rs)))%Q) ->
  (qsum (map mu (Object_values m)) == qsum (map v (filter keep ds)))%Q.
Proof.
  intros Hg Hmu. pose proof Hg as [N O].
  rewrite (qsum_perm _ _ (Permutation_map mu (Object_values_perm m))).
  rewrite map_map.
  rewrite <- (partition_sum keep key_of v (map fst m) N ds)
    by (intros; eapply grouped_keys_cover; eauto).
  rewrite map_map. apply qsum_map_ext. intros [k g] I. cbn [fst snd].
  apply In_own in I; auto. rewrite O in I.
  destruct (members keep key_of k ds) as [|r rs] eqn:M; [discriminate|].
  unfold built in I. injection I as <-. now apply (Hmu k).
Qed.

End GroupSums.

Lemma filter_always ds : filter always ds = ds.
Proof.
  induction ds as [|r ds IH]; cbn [filter always]; congruence.
Qed.

Lemma budgets_add_up data m :
  Forall (fun p => isFinite (ApprovedBudgetForContract p) = true) data ->
  grouped always region_key region_fresh region_push data m ->
  Forall (fun g => Forall (fun x => isFinite x = true) (RegionGroup.budgets g))
         (Object_values m) /\
  (qsum (map (fun g => qv (sum (RegionGroup.budgets g))) (Object_values m)) ==
   approved_total data)%Q.
Proof.
  intros F Hg.
  assert (FB : forall rs, Forall (fun p : CleanedProject => In p data) rs ->
            Forall (fun x => isFinite x = true) (map ApprovedBudgetForContract rs)).
  { intros rs H. rewrite Forall_forall in F. induction H; cbn [map]; auto. }
  split.
  - apply Forall_forall. intros g I.
    destruct (grouped_values _ _ _ _ _ _ _ Hg I) as (k & r & rs & M & ->).
    rewrite region_fold. cbn [RegionGroup.budgets region_fresh app].
    apply FB. rewrite <- M. apply Forall_forall. intros x Hx.
    unfold members in Hx. now apply filter_In in Hx.
  - unfold approved_total.
    rewrite (grouped_sum always region_key region_fresh region_push
               (fun g => qv (sum (RegionGroup.budgets g)))
               (fun p => qv (ApprovedBudgetForContract p)) data m Hg).
    + now rewrite filter_always.
    + intros k r rs M. rewrite region_fold.
      cbn [RegionGroup.budgets region_fresh app].
      rewrite sum_finite, qv_fin, map_map; [reflexivity|].
      apply FB. rewrite <- M. apply Forall_forall. intros x Hx.
      unfold members in Hx. now apply filter_In in Hx.
Qed.

Lemma shown_total_perm c c' :
  Permutation c c' -> (shown_total c == shown_total c')%Q.
Proof. intro H. apply qsum_perm. now apply Permutation_map. Qed.

(** Cells that format the budget sums of the groups display, in total, the
    sum of these sums up to half a hundredth per cell. *)
Lemma budget_cells_close vals cells :
  Forall (fun g => Forall (fun x => isFinite x = true) (RegionGroup.budgets g)) vals ->
  Permutation cells
    (map (fun g => formatNumber (sum (RegionGroup.budgets g)) 2) vals) ->
  Forall (fun s => isFinite (shown s) = true) cells /\
  (Qabs (shown_total cells -
         qsum (map (fun g => qv (sum (RegionGroup.budgets g))) vals)) <=
   half_cent * inject_Z (Z.of_nat (List.length cells)))%Q.
Proof.
  intros F P.
  assert (S : forall g, In g vals ->
            exists q, sum (RegionGroup.budgets g) = Fin q).
  { intros g I. rewrite Forall_forall in F.
    rewrite sum_finite by now apply F. unfold fin. eauto. }
  split.
  - eapply Permutation_Forall; [symmetry; exact P|].
    apply Forall_forall. intros s Hs. apply in_map_iff in Hs.
    destruct Hs as (g & <- & I). destruct (S g I) as [q ->].
    rewrite shown_formatNumber by reflexivity. reflexivity.
  - rewrite (shown_total_perm _ _ P), (Permutation_length P), length_map.
    unfold shown_total. rewrite map_map.
    apply qsum_map_close. intros g I. destruct (S g I) as [q ->].
    rewrite shown_formatNumber by reflexivity. apply round2_nearest.
Qed.

(** ** The keys of the trend loop determine the year *)

Lemma split_unique {A} (c : A) : forall l1 l2 x y,
  ~ In c l1 -> ~ In c l2 -> l1 ++ c :: x = l2 ++ c :: y -> l1 = l2.
Proof.
  induction l1 as [|a l1 IH]; intros [|b l2] x y N1 N2 E; cbn [app] in E.
  - reflexivity.
  - injection E as E _. subst. exfalso. apply N2. now left.
  - injection E as E _. subst. exfalso. apply N1. now left.
  - injection E as E1 E2. subst. f_equal.
    apply (IH l2 x y); auto; intro H; [apply N1|apply N2]; now right.
Qed.

Lemma digits_no_bar l :
  forallb (is_digit 10) l = true -> ~ In "|"%char l.
Proof.
  intros H I. rewrite forallb_forall in H. apply H in I.
  apply is_digit10_range in I. simpl in I. lia.
Qed.

Lemma Z_toString_chars z :
  chars (Z_toString z) = (if z <? 0 then ["-"%char] else []) ++ digits (Z.abs_N z).
Proof. unfold Z_toString. apply chars_str. Qed.

Lemma Z_toString_no_bar z : ~ In "|"%char (chars (Z_toString z)).
Proof.
  rewrite Z_toString_chars. intro I. apply in_app_or in I.
  destruct I as [I|I].
  - destruct (z <? 0); [destruct I as [I|[]]; discriminate|destruct I].
  - revert I. apply digits_no_bar, digits_all.
Qed.

Lemma digits_inj a b : digits a = digits b -> a = b.
Proof.
  intro H. rewrite <- (digits_value_digits a), <- (digits_value_digits b).
  now rewrite H.
Qed.

Lemma digits_head_not_minus n l : digits n <> "-"%char :: l.
Proof.
  intro H. pose proof (digits_all n) as D. rewrite H in D.
  cbn [forallb] in D. apply andb_true_iff in D. destruct D as [D _].
  apply is_digit10_range in D. simpl in D. lia.
Qed.

Lemma Z_toString_inj a b : Z_toString a = Z_toString b -> a = b.
Proof.
  intro H. apply (f_equal chars) in H. rewrite !Z_toString_chars in H.
  destruct (a <? 0) eqn:A, (b <? 0) eqn:B; cbn [app] in H;
    rewrite ?Z.ltb_lt, ?Z.ltb_ge in *.
  - injection H as H. apply digits_inj in H. lia.
  - symmetry in H. now apply digits_head_not_minus in H.
  - now apply digits_head_not_minus in H.
  - apply digits_inj in H. lia.
Qed.

(** Two projects under one key of the trend loop have the same year. *)
Lemma type_key_year p r : type_key p = type_key r -> FundingYear p = FundingYear r.
Proof.
  unfold type_key. intro H. apply (f_equal chars) in H.
  rewrite !chars_append in H. cbn [chars list_ascii_of_string app] in H.
  apply split_unique in H; try apply Z_toString_no_bar.
  apply Z_toString_inj. rewrite <- (str_chars (Z_toString (FundingYear p))),
    <- (str_chars (Z_toString (FundingYear r))). now f_equal.
Qed.

(** ** The cost-trend report of the second pass *)

Lemma Qis0_proper a b : (a == b)%Q -> Qis0 a = Qis0 b.
Proof.
  intro E. destruct (Qis0 a) eqn:A, (Qis0 b) eqn:B; auto; unbool; exfalso.
  - apply B. now rewrite <- E.
  - apply A. now rewrite E.
Qed.

Lemma Qis0_Qred a : Qis0 (Qred a) = Qis0 a.
Proof. apply Qis0_proper, Qred_correct. Qed.

Lemma or_else_fin0 a : or_else (fin a) (Fin 0) = fin a.
Proof.
  unfold or_else, fin. cbn [truthy]. rewrite Qis0_Qred.
  destruct (Qis0 a) eqn:E; cbn [negb]; auto.
  unbool. change (Fin 0) with (Fin (Qred 0)). f_equal.
  apply Qred_complete. now symmetry.
Qed.

Lemma add_fin a b : add (fin a) (fin b) = fin (a + b).
Proof.
  unfold fin. cbn [add]. apply fin_eq. now rewrite !Qred_correct.
Qed.

Lemma div_fin a b : Qis0 b = false -> div (fin a) (fin b) = fin (a / b).
Proof.
  intro H. unfold fin. cbn [div]. rewrite Qis0_Qred, H.
  apply fin_eq. now rewrite !Qred_correct.
Qed.

Lemma ofNat_fin n : ofNat n = fin (inject_Z (Z.of_nat n)).
Proof.
  unfold ofNat, ofZ, fin, inject_Z. f_equal. symmetry.
  apply Qcanon.Qred_identity. cbn [Qnum Qden]. apply Z.gcd_1_r.
Qed.

Lemma ysum_snoc gs g y :
  (ysum (gs ++ [g]) y ==
   ysum gs y + (if YearWorkGroup.FundingYear g =? y
                then qsum (map qv (YearWorkGroup.savings g)) else 0))%Q.
Proof.
  unfold ysum. rewrite map_app, qsum_app. cbn [map]. rewrite qsum_cons.
  change (qsum []) with 0%Q. lra.
Qed.

Lemma ycnt_snoc gs g y :
  (ycnt (gs ++ [g]) y ==
   ycnt gs y + (if YearWorkGroup.FundingYear g =? y
                then inject_Z (Z.of_nat (List.length (YearWorkGroup.savings g)))
                else 0))%Q.
Proof.
  unfold ycnt. rewrite map_app, qsum_app. cbn [map]. rewrite qsum_cons.
  change (qsum []) with 0%Q. lra.
Qed.

Lemma inject_nat_nonneg n : (0 <= inject_Z (Z.of_nat n))%Q.
Proof. unfold Qle, inject_Z. cbn [Qnum Qden]. lia. Qed.

Lemma inject_nat_pos n : (0 < n)%nat -> (0 < inject_Z (Z.of_nat n))%Q.
Proof. intro H. unfold Qlt, inject_Z. cbn [Qnum Qden]. lia. Qed.

Lemma ycnt_nonneg gs y : (0 <= ycnt gs y)%Q.
Proof.
  unfold ycnt. induction gs as [|g gs IH]; cbn [map].
  - change (qsum []) with 0%Q. lra.
  - rewrite qsum_cons.
    pose proof (inject_nat_nonneg (List.length (YearWorkGroup.savings g))).
    destruct (YearWorkGroup.FundingYear g =? y); lra.
Qed.

(** Without a counted project of year [y], the groups hold no savings of
    the year. *)
Lemma ycnt_zero_ysum gs y :
  Forall sound_group gs -> (ycnt gs y == 0)%Q -> (ysum gs y == 0)%Q.
Proof.
  unfold ycnt, ysum. induction 1 as [|g gs [N _] _ IH]; cbn [map].
  - reflexivity.
  - rewrite !qsum_cons. intro Z.
    pose proof (ycnt_nonneg gs y) as P. unfold ycnt in P.
    destruct (YearWorkGroup.FundingYear g =? y).
    + exfalso.
      assert (0 < List.length (YearWorkGroup.savings g))%nat
        by (destruct (YearWorkGroup.savings g); [congruence|simpl; lia]).
      pose proof (inject_nat_pos _ H). lra.
    + assert (qsum (map (fun g0 => if YearWorkGroup.FundingYear g0 =? y
                          then qsum (map qv (YearWorkGroup.savings g0)) else 0) gs) == 0)%Q
        by (apply IH; lra).
      lra.
Qed.

Lemma year_or0_tallied (o : year_object number) y c s :
  ((c == 0)%Q -> (s == 0)%Q) ->
  year_get o y = (if Qis0 c then None else Some (fin s)) ->
  Part000.year_or0 o y = fin s.
Proof.
  intros Z H. unfold Part000.year_or0. rewrite H.
  destruct (Qis0 c) eqn:E.
  - unbool. change (Fin 0) with (fin 0). apply fin_eq. symmetry. auto.
  - apply or_else_fin0.
Qed.

(** One group more. *)
Lemma type_row_tallied gs st g :
  Forall sound_group gs -> sound_group g ->
  tallied gs st -> tallied (gs ++ [g]) (Part000.type_row st g).
Proof.
  intros Sg [N F] [R T]. split.
  - unfold Part000.type_row. cbn [Part000.results]. rewrite R, map_app.
    cbn [map]. f_equal. unfold trend_row. f_equal.
    destruct (YearWorkGroup.savings g); [congruence|reflexivity].
  - intro y. unfold Part000.type_row.
    cbn [Part000.yearTotals Part000.yearCounts].
    rewrite !year_get_set.
    pose proof (ysum_snoc gs g y) as YS. pose proof (ycnt_snoc gs g y) as YC.
    pose proof (ycnt_nonneg gs y) as YP.
    destruct (T (YearWorkGroup.FundingYear g)) as [T1 T2].
    destruct (T y) as [U1 U2].
    destruct (y =? YearWorkGroup.FundingYear g) eqn:E.
    + apply Z.eqb_eq in E. subst y. rewrite Z.eqb_refl in YS, YC.
      assert (L : (0 < List.length (YearWorkGroup.savings g))%nat)
        by (destruct (YearWorkGroup.savings g); [congruence|simpl; lia]).
      pose proof (inject_nat_pos _ L) as LP.
      replace (Qis0 (ycnt (gs ++ [g]) (YearWorkGroup.FundingYear g))) with false
        by (symmetry; unbool; lra).
      rewrite (year_or0_tallied _ _ _ _ (ycnt_zero_ysum gs _ Sg) T1).
      rewrite (year_or0_tallied _ _ _ _ (fun H => H) T2).
      rewrite sum_finite by assumption. rewrite ofNat_fin, !add_fin.
      split; f_equal; apply fin_eq; lra.
    + rewrite Z.eqb_sym, E in YS, YC.
      rewrite U1, U2.
      rewrite (Qis0_proper (ycnt (gs ++ [g]) y) (ycnt gs y)) by lra.
      destruct (Qis0 (ycnt gs y)); auto.
      split; f_equal; apply fin_eq; lra.
Qed.

Lemma fold_type_row_tallied gs2 : forall gs1 st,
  Forall sound_group gs1 -> Forall sound_group gs2 ->
  tallied gs1 st -> tallied (gs1 ++ gs2) (fold_left Part000.type_row gs2 st).
Proof.
  induction gs2 as [|g gs2 IH]; intros gs1 st S1 S2 T; cbn [fold_left].
  - now rewrite app_nil_r.
  - inversion S2 as [|? ? Sg S2']; subst.
    replace (gs1 ++ g :: gs2) with ((gs1 ++ [g]) ++ gs2)
      by (rewrite <- app_assoc; reflexivity).
    apply IH; auto.
    + apply Forall_app. split; auto.
    + now apply type_row_tallied.
Qed.

Lemma tally_tallied typeMap :
  Forall sound_group (Object_values typeMap) ->
  tallied (Object_values typeMap) (Part000.tally typeMap).
Proof.
  intro S. unfold Part000.tally.
  apply (fold_type_row_tallied (Object_values typeMap) []
           {| Part000.yearTotals := []; Part000.yearCounts := [];
              Part000.results := [] |}); auto.
  split; [reflexivity|]. intro y. split; reflexivity.
Qed.

Lemma members_key keep key_of k ds p :
  In p (members keep key_of k ds) -> In p ds /\ key_of p = k.
Proof.
  unfold members. intro H. apply filter_In in H. destruct H as [I H].
  apply andb_true_iff in H. destruct H as [_ H]. now string_cases.
Qed.

Lemma qsum_filter {A} (c : A -> bool) (f : A -> Q) l :
  (qsum (map (fun x => if c x then f x else 0) l) == qsum (map f (filter c l)))%Q.
Proof.
  induction l as [|x l IH]; cbn [map filter]; [reflexivity|].
  rewrite qsum_cons. destruct (c x); cbn [map]; rewrite ?qsum_cons; lra.
Qed.

Lemma qsum_ones {A} (l : list A) :
  (qsum (map (fun _ => 1) l) == inject_Z (Z.of_nat (List.length l)))%Q.
Proof.
  induction l as [|x l IH]; cbn [map List.length].
  - reflexivity.
  - rewrite qsum_cons, Nat2Z.inj_succ. unfold Z.succ.
    rewrite inject_Z_plus. change (inject_Z 1) with 1%Q. lra.
Qed.

Section TrendData.
Variable data : list CleanedProject.
Variable typeMap : object YearWorkGroup.t.
Hypothesis finite_savings :
  Forall (fun p => isFinite (CostSavings p) = true) data.
Hypothesis typeMap_grouped :
  grouped always type_key type_fresh type_push data typeMap.

Lemma trend_groups_sound : Forall sound_group (Object_values typeMap).
Proof.
  apply Forall_forall. intros g I.
  destruct (grouped_values _ _ _ _ _ _ _ typeMap_grouped I)
    as (k & r & rs & M & ->).
  rewrite type_fold. unfold sound_group.
  cbn [YearWorkGroup.savings type_fresh app]. split; [discriminate|].
  rewrite Forall_forall in finite_savings.
  apply Forall_forall. intros x Hx. apply in_map_iff in Hx.
  destruct Hx as (p & <- & Hp). apply finite_savings.
  rewrite <- M in Hp. now apply members_key in Hp.
Qed.

(** The rows of a group all have the year of the group. *)
Lemma trend_group_measure (f : list CleanedProject -> Q)
  (v : CleanedProject -> Q) y k r rs :
  members always type_key k data = r :: rs ->
  (forall l, f l == qsum (map v l))%Q ->
  ((if FundingYear r =? y then f (r :: rs) else 0) ==
   qsum (map (fun p => if FundingYear p =? y then v p else 0) (r :: rs)))%Q.
Proof.
  intros M F.
  assert (Y : forall p, In p (r :: rs) -> FundingYear p = FundingYear r).
  { intros p Hp. apply type_key_year.
    rewrite <- M in Hp. apply members_key in Hp. destruct Hp as [_ ->].
    assert (Hr : In r (members always type_key k data)) by (rewrite M; now left).
    apply members_key in Hr. now destruct Hr as [_ ->]. }
  destruct (FundingYear r =? y) eqn:E.
  - rewrite F. apply qsum_map_ext. intros p Hp. now rewrite (Y p Hp), E.
  - rewrite <- (qsum_map_zero (r :: rs)). apply qsum_map_ext.
    intros p Hp. now rewrite (Y p Hp), E.
Qed.

Lemma ysum_data y :
  (ysum (Object_values typeMap) y == qsum (map qv (year_savings data y)))%Q.
Proof.
  unfold ysum, year_savings. rewrite map_map, <- qsum_filter.
  rewrite (grouped_sum always type_key type_fresh type_push _
             (fun p => if FundingYear p =? y then qv (CostSavings p) else 0%Q)
             data typeMap typeMap_grouped).
  - now rewrite filter_always.
  - intros k r rs M. rewrite type_fold.
    cbn [YearWorkGroup.FundingYear YearWorkGroup.savings type_fresh app].
    apply (trend_group_measure
             (fun l => qsum (map qv (map CostSavings l)))
             (fun p => qv (CostSavings p)) y k r rs M).
    intro l. now rewrite map_map.
Qed.

Lemma ycnt_data y :
  (ycnt (Object_values typeMap) y ==
   inject_Z (Z.of_nat (List.length (year_savings data y))))%Q.
Proof.
  unfold ycnt, year_savings. rewrite length_map, <- qsum_ones, <- qsum_filter.
  rewrite (grouped_sum always type_key type_fresh type_push _
             (fun p => if FundingYear p =? y then 1%Q else 0%Q)
             data typeMap typeMap_grouped).
  - now rewrite filter_always.
  - intros k r rs M. rewrite type_fold.
    cbn [YearWorkGroup.FundingYear YearWorkGroup.savings type_fresh app].
    apply (trend_group_measure
             (fun l => inject_Z (Z.of_nat (List.length (map CostSavings l))))
             (fun _ => 1%Q) y k r rs M).
    intro l. now rewrite length_map, qsum_ones.
Qed.

End TrendData.

Lemma year_get_map {V W} (F : Z -> V -> W) (o : year_object V) y :
  year_get (map (fun e => (fst e, F (fst e) (snd e))) o) y =
  option_map (F y) (year_get o y).
Proof.
  induction o as [|[y' v] o IH]; cbn [map year_get fst snd]; auto.
  destruct (y =? y') eqn:E; auto. apply Z.eqb_eq in E. now subst.
Qed.

Lemma inject_nat_zero n : (inject_Z (Z.of_nat n) == 0)%Q -> n = O.
Proof. unfold Qeq, inject_Z. cbn [Qnum Qden]. lia. Qed.

Lemma divisor_agree b :
  isFinite b = true -> Math_abs (or_else b (Fin 1)) = yoy_divisor b.
Proof.
  intro H. apply isFinite_Fin in H. destruct H as [q ->].
  unfold or_else, yoy_divisor. cbn [truthy eqb]. unfold Qis0.
  destruct (Qeq_bool q 0); reflexivity.
Qed.

Section TrendRows.
Variable data : list CleanedProject.
Variable typeMap : object YearWorkGroup.t.
Hypothesis finite_savings :
  Forall (fun p => isFinite (CostSavings p) = true) data.
Hypothesis typeMap_grouped :
  grouped always type_key type_fresh type_push data typeMap.

Lemma year_savings_finite y :
  Forall (fun x => isFinite x = true) (year_savings data y).
Proof.
  unfold year_savings. rewrite Forall_forall in *. intros x Hx.
  apply in_map_iff in Hx. destruct Hx as (p & <- & Hp).
  apply finite_savings. now apply filter_In in Hp.
Qed.

Lemma year_mean_finite y : isFinite (year_mean data y) = true.
Proof.
  unfold year_mean. destruct (year_savings data y) as [|x l] eqn:E; [reflexivity|].
  cbn [is_nil]. rewrite <- E.
  rewrite sum_finite by apply year_savings_finite.
  rewrite ofNat_fin, div_fin; [reflexivity|].
  unbool. intro Z. apply inject_nat_zero in Z. rewrite E in Z. discriminate.
Qed.

(** The weighted average that the code keeps for a year is the mean of the
    savings of the year's projects. *)
Lemma weighted_is_year_mean y :
  Part000.year_or0 (Part000.weightedYearAvg (Part000.tally typeMap)) y =
  year_mean data y.
Proof.
  pose proof (tally_tallied typeMap
                (trend_groups_sound data typeMap finite_savings typeMap_grouped))
    as [_ T].
  destruct (T y) as [T1 T2].
  pose proof (ysum_data data typeMap typeMap_grouped y) as YS.
  pose proof (ycnt_data data typeMap typeMap_grouped y) as YC.
  unfold Part000.year_or0, Part000.weightedYearAvg.
  rewrite (year_get_map
             (fun y v => div v (Part000.prop
                                  (year_get (Part000.yearCounts (Part000.tally typeMap)) y)))).
  rewrite T1, T2. unfold year_mean.
  destruct (Qis0 (ycnt (Object_values typeMap) y)) eqn:E; cbn [option_map].
  - unbool. rewrite E in YC. symmetry in YC. apply inject_nat_zero in YC.
    destruct (year_savings data y); [reflexivity|discriminate].
  - cbn [Part000.prop]. rewrite div_fin by assumption.
    fold (or_else (fin (ysum (Object_values typeMap) y / ycnt (Object_values typeMap) y))
                  (Fin 0)).
    rewrite or_else_fin0.
    destruct (year_savings data y) as [|x l] eqn:L.
    + exfalso. unbool. apply E. rewrite YC. reflexivity.
    + cbn [is_nil]. rewrite <- L.
      rewrite sum_finite by apply year_savings_finite.
      rewrite ofNat_fin, div_fin.
      * apply fin_eq. rewrite YS, YC, L. reflexivity.
      * unbool. rewrite L, <- YC. exact E.
Qed.

Lemma trend_row_final g :
  Part000.delete_rawAvgSavings
    (Part000.yoy (Part000.weightedYearAvg (Part000.tally typeMap)) (trend_row g)) =
  trend_final data g.
Proof.
  unfold Part000.delete_rawAvgSavings, Part000.yoy, trend_final, trend_row.
  cbn [Part000.Row3.FundingYear Part000.Row3.TypeOfWork
       Part000.Row3.TotalProjects Part000.Row3.AvgCostSavings
       Part000.Row3.OverrunRate Part000.Row3.YoYChange].
  rewrite !weighted_is_year_mean, divisor_agree by apply year_mean_finite.
  reflexivity.
Qed.

Lemma trend_report_rows :
  for_of type_step data [] = Normal typeMap ->
  exists rows,
    Part000.generateReport3 data = Normal rows /\
    Permutation rows (map (trend_final data) (Object_values typeMap)).
Proof.
  intro H. unfold Part000.generateReport3. rewrite H. cbn [bind].
  eexists. split; [reflexivity|].
  pose proof (tally_tallied typeMap
                (trend_groups_sound data typeMap finite_savings typeMap_grouped))
    as [R _].
  rewrite R, (Permutation_map _ (sort_perm _ _)), !map_map.
  erewrite map_ext; [reflexivity|]. intro g. apply trend_row_final.
Qed.

End TrendRows.

(** The trend report of the second pass is, up to the order of its rows,
    one row per group of the loop, with the change of its year over 2021
    computed from the means of the two years. *)
Theorem Part000_trend_report data :
  Forall (fun p => isFinite (CostSavings p) = true) data ->
  exists typeMap rows,
    for_of type_step data [] = Normal typeMap /\
    grouped always type_key type_fresh type_push data typeMap /\
    Part000.generateReport3 data = Normal rows /\
    Permutation rows (map (trend_final data) (Object_values typeMap)).
Proof.
  intro F. destruct (type_loop_total data) as (m & H & Hg).
  destruct (trend_report_rows data m F Hg H) as (rows & R & P).
  exists m, rows. auto.
Qed.

(** ** Finite values and finite displays *)

Lemma round2_finite x : isFinite x = true -> isFinite (round2 x) = true.
Proof. destruct x; try discriminate. reflexivity. Qed.

Lemma finite_cell_format x : soft x -> finite_cell (formatNumber x 2).
Proof.
  intros [->|H]; [reflexivity|]. unfold finite_cell.
  rewrite shown_formatNumber by assumption. now apply round2_finite.
Qed.

Lemma finite_cell_toFixed x : isFinite x = true -> finite_cell (toFixed 2 x).
Proof.
  intro H. unfold finite_cell. rewrite shown_toFixed by assumption.
  now apply round2_finite.
Qed.

Lemma finite_soft x : isFinite x = true -> soft x.
Proof. now right. Qed.

Lemma add_finite x y :
  isFinite x = true -> isFinite y = true -> isFinite (add x y) = true.
Proof. destruct x, y; try discriminate; reflexivity. Qed.

Lemma sub_finite x y :
  isFinite x = true -> isFinite y = true -> isFinite (sub x y) = true.
Proof. destruct x, y; try discriminate; reflexivity. Qed.

Lemma mul_finite x y :
  isFinite x = true -> isFinite y = true -> isFinite (mul x y) = true.
Proof. destruct x, y; try discriminate; reflexivity. Qed.

Lemma div_finite x y :
  isFinite x = true -> isFinite y = true -> truthy y = true ->
  isFinite (div x y) = true.
Proof.
  destruct x, y; try discriminate. cbn [truthy div]. intros _ _ H.
  apply negb_true_iff in H. now rewrite H.
Qed.

Lemma add_soft x y : soft x -> soft y -> soft (add x y).
Proof.
  intros [->|Hx] [->|Hy]; try (left; reflexivity).
  - left. now destruct x.
  - right. now apply add_finite.
Qed.

Lemma fold_add_soft l : forall a, soft a -> Forall soft l -> soft (fold_left add l a).
Proof.
  induction l as [|x l IH]; intros a Ha H; cbn [fold_left]; auto.
  inversion H; subst. apply IH; auto. now apply add_soft.
Qed.

Lemma sum_soft l : Forall soft l -> soft (sum l).
Proof. apply fold_add_soft. now right. Qed.

Lemma sum_is_finite l :
  Forall (fun x => isFinite x = true) l -> isFinite (sum l) = true.
Proof. intro H. now rewrite sum_finite. Qed.

Lemma ofNat_truthy n : (0 < n)%nat -> truthy (ofNat n) = true.
Proof.
  intro H. unfold ofNat, ofZ. cbn [truthy]. now rewrite ofNat_pos.
Qed.

Lemma length_pos {A} (l : list A) : l <> [] -> (0 < List.length l)%nat.
Proof. destruct l; [congruence|simpl; lia]. Qed.

Lemma MainJs_average_soft l : Forall soft l -> soft (MainJs.average l).
Proof.
  intro H. unfold MainJs.average. destruct l as [|x l]; [now right|].
  cbn [is_nil].
  destruct (sum_soft _ H) as [->|F]; [now left|].
  right. apply div_finite;
    [assumption|reflexivity|apply ofNat_truthy; simpl; lia].
Qed.

Lemma MainJs_average_finite l :
  Forall (fun x => isFinite x = true) l -> isFinite (MainJs.average l) = true.
Proof.
  intro H. unfold MainJs.average. destruct l as [|x l]; [reflexivity|].
  cbn [is_nil]. apply div_finite;
    [now apply sum_is_finite|reflexivity|apply ofNat_truthy; simpl; lia].
Qed.

Lemma filter_valid_soft l :
  Forall soft l -> Forall (fun x => isFinite x = true) (filter valid l).
Proof.
  induction 1 as [|x l Hx _ IH]; cbn [filter]; [constructor|].
  destruct Hx as [->|Hx]; cbn [valid isNaN negb]; auto.
  destruct x; try discriminate. cbn [valid isNaN negb]. constructor; auto.
Qed.

Lemma Part000_average_finite l :
  Forall soft l -> isFinite (Part000.average l) = true.
Proof.
  intro H. rewrite Part000_average_mean. unfold mean_of_valid.
  pose proof (filter_valid_soft l H) as F.
  destruct (filter valid l) as [|x vs] eqn:E; [reflexivity|].
  cbn [is_nil]. apply div_finite.
  - now apply sum_is_finite.
  - reflexivity.
  - apply ofNat_truthy. simpl. lia.
Qed.

Lemma nth_finite l k :
  Forall (fun x => isFinite x = true) l -> (k < List.length l)%nat ->
  isFinite (nth k l NaN) = true.
Proof.
  intros H K. rewrite Forall_forall in H. apply H. now apply nth_In.
Qed.

Lemma median_finite l :
  Forall (fun x => isFinite x = true) l -> isFinite (median l) = true.
Proof.
  intro H. destruct l as [|x l]; [reflexivity|].
  rewrite median_middle by discriminate. apply round2_finite.
  unfold middle. set (s := sort _ _).
  assert (Fs : Forall (fun x => isFinite x = true) s) by now apply sort_Forall.
  assert (Ls : (0 < List.length s)%nat)
    by (unfold s; rewrite sort_length; simpl; lia).
  assert (D : (List.length s / 2 < List.length s)%nat)
    by (apply Nat.div_lt; lia).
  destruct (Nat.odd (List.length s)).
  - now apply nth_finite.
  - apply div_finite; [|reflexivity|reflexivity].
    apply add_finite; apply nth_finite; auto. lia.
Qed.

Lemma guard_negative_finite e :
  isFinite (if negb (isFinite e) || ltb e (Fin 0) then Fin 0 else e) = true.
Proof.
  destruct e as [q| | |]; cbn [isFinite negb orb]; auto.
  destruct (ltb (Fin q) (Fin 0)); reflexivity.
Qed.

Lemma guard_finite e :
  isFinite (if negb (isFinite e) then Fin 0 else e) = true.
Proof. destruct e; reflexivity. Qed.

Lemma cap_finite x : isFinite x = true -> isFinite (min2 (Fin 100) x) = true.
Proof.
  destruct x as [q| | |]; try discriminate. intros _. cbn [min2].
  destruct (ltb (Fin q) (Fin 100)); reflexivity.
Qed.

Lemma clamp_finite x :
  isFinite x = true -> isFinite (min2 (Fin 100) (max2 (Fin 0) x)) = true.
Proof.
  destruct x as [q| | |]; try discriminate. intros _. apply cap_finite.
  cbn [max2]. destruct (ltb (Fin 0) (Fin q)); reflexivity.
Qed.

Lemma yoy_divisor_truthy b :
  isFinite b = true ->
  isFinite (Math_abs (or_else b (Fin 1))) = true /\
  truthy (Math_abs (or_else b (Fin 1))) = true.
Proof.
  intro H. apply isFinite_Fin in H. destruct H as [q ->].
  unfold or_else. cbn [truthy].
  destruct (Qis0 q) eqn:E; cbn [negb]; [split; reflexivity|].
  cbn [Math_abs]. split; [reflexivity|]. unfold fin. cbn [truthy].
  rewrite Qis0_Qred. apply negb_true_iff. unbool.
  intro Z. apply E.
  assert (A : (Qabs q <= 0)%Q) by lra.
  apply Qabs_Qle_condition in A. lra.
Qed.

(** The year-over-year change of finite figures is finite. *)
Lemma yoy_change_finite y b :
  isFinite y = true -> isFinite b = true ->
  isFinite (mul (div (sub y b) (Math_abs (or_else b (Fin 1)))) (Fin 100)) = true.
Proof.
  intros Hy Hb. destruct (yoy_divisor_truthy b Hb) as [D1 D2].
  apply mul_finite; [|reflexivity].
  apply div_finite; auto. now apply sub_finite.
Qed.

(** *** The groups of finite inputs *)

Lemma members_inputs keep key_of k data (P : CleanedProject -> Prop) rs :
  Forall P data -> members keep key_of k data = rs -> Forall P rs.
Proof.
  intros F <-. rewrite Forall_forall in *. intros p Hp.
  apply F. now apply members_key in Hp.
Qed.

Lemma Forall_map_of {A B} (P : A -> Prop) (Q : B -> Prop) (f : A -> B) l :
  (forall x, P x -> Q (f x)) -> Forall P l -> Forall Q (map f l).
Proof. intros H F. induction F; cbn [map]; auto. Qed.

Lemma region_group_finite data m g :
  Forall finite_inputs data ->
  grouped always region_key region_fresh region_push data m ->
  In g (Object_values m) ->
  Forall (fun x => isFinite x = true) (RegionGroup.budgets g) /\
  Forall (fun x => isFinite x = true) (RegionGroup.savings g) /\
  Forall soft (RegionGroup.delays g) /\
  RegionGroup.delays g <> [].
Proof.
  intros F Hg I.
  destruct (grouped_values _ _ _ _ _ _ _ Hg I) as (k & r & rs & M & ->).
  pose proof (members_inputs _ _ _ _ _ _ F M) as Fm.
  rewrite region_fold.
  cbn [RegionGroup.budgets RegionGroup.savings RegionGroup.delays region_fresh app].
  repeat split; try discriminate;
    (eapply Forall_map_of; [|exact Fm]); intros p (A & B & C & D); auto.
Qed.

Lemma contractor_group_finite data m c :
  Forall finite_inputs data ->
  grouped has_contractor Contractor contractor_fresh contractor_push data m ->
  In c (Object_values m) ->
  Forall soft (ContractorGroup.delays c) /\
  isFinite (ContractorGroup.totalSavings c) = true /\
  isFinite (ContractorGroup.totalCost c) = true.
Proof.
  intros F Hg I.
  destruct (grouped_values _ _ _ _ _ _ _ Hg I) as (k & r & rs & M & ->).
  pose proof (members_inputs _ _ _ _ _ _ F M) as Fm.
  rewrite contractor_fold.
  cbn [ContractorGroup.delays ContractorGroup.totalSavings
       ContractorGroup.totalCost contractor_fresh app].
  repeat split.
  - eapply Forall_map_of; [|exact Fm]. intros p (A & B & C & D); auto.
  - apply sum_is_finite.
    eapply Forall_map_of; [|exact Fm]. intros p (A & B & C & D); auto.
  - apply sum_is_finite.
    eapply Forall_map_of; [|exact Fm]. intros p (A & B & C & D); auto.
Qed.

(** *** The rows *)

Lemma MainJs_region_row_finite g :
  Forall (fun x => isFinite x = true) (RegionGroup.budgets g) ->
  Forall (fun x => isFinite x = true) (RegionGroup.savings g) ->
  Forall soft (RegionGroup.delays g) ->
  RegionGroup.delays g <> [] ->
  main_row1_finite (MainJs.region_row g).
Proof.
  intros B S D N. unfold main_row1_finite, MainJs.region_row.
  cbn [MainJs.Row1.TotalApprovedBudget MainJs.Row1.MedianCostSavings
       MainJs.Row1.AvgCompletionDelayDays MainJs.Row1.DelayOver30Percent
       MainJs.Row1.EfficiencyScore].
  repeat split; apply finite_cell_format.
  - right. now apply sum_is_finite.
  - right. now apply median_finite.
  - now apply MainJs_average_soft.
  - right. now apply percentage_finite.
  - right. apply clamp_finite, guard_negative_finite.
Qed.

Lemma Part000_region_cells_finite mn mx g :
  Forall (fun x => isFinite x = true) (RegionGroup.budgets g) ->
  Forall (fun x => isFinite x = true) (RegionGroup.savings g) ->
  Forall soft (RegionGroup.delays g) ->
  RegionGroup.delays g <> [] ->
  let r := Part000.normalize mn mx (Part000.region_row g) in
  finite_cell (Part000.Row1.TotalApprovedBudget r) /\
  finite_cell (Part000.Row1.MedianCostSavings r) /\
  finite_cell (Part000.Row1.AvgCompletionDelayDays r) /\
  finite_cell (Part000.Row1.DelayOver30Percent r).
Proof.
  intros B S D N. unfold Part000.normalize, Part000.region_row.
  cbn [Part000.Row1.TotalApprovedBudget Part000.Row1.MedianCostSavings
       Part000.Row1.AvgCompletionDelayDays Part000.Row1.DelayOver30Percent].
  repeat split; apply finite_cell_format; right.
  - now apply sum_is_finite.
  - now apply median_finite.
  - now apply Part000_average_finite.
  - now apply percentage_finite.
Qed.

Lemma MainJs_contractor_row_finite c :
  Forall soft (ContractorGroup.delays c) ->
  isFinite (ContractorGroup.totalSavings c) = true ->
  main_row2_finite (MainJs.contractor_row c).
Proof.
  intros D S. unfold main_row2_finite, MainJs.contractor_row.
  cbn [MainJs.Row2.AvgDelay MainJs.Row2.TotalCostSavings
       MainJs.Row2.ReliabilityIndex].
  repeat split; apply finite_cell_format.
  - now apply MainJs_average_soft.
  - now right.
  - right. apply clamp_finite, guard_finite.
Qed.

Lemma Part000_contractor_row_finite c :
  Forall soft (ContractorGroup.delays c) ->
  isFinite (ContractorGroup.totalSavings c) = true ->
  isFinite (ContractorGroup.totalCost c) = true ->
  part_row2_finite (Part000.delete_rawTotalCost (Part000.contractor_row c)).
Proof.
  intros D S C.
  unfold part_row2_finite, Part000.delete_rawTotalCost, Part000.contractor_row.
  cbn [Part000.Row2.TotalCost Part000.Row2.AvgDelay Part000.Row2.TotalSavings
       Part000.Row2.ReliabilityIndex].
  repeat split; apply finite_cell_format; right; auto.
  - now apply Part000_average_finite.
  - apply cap_finite, guard_finite.
Qed.

Lemma In_firstn {A} n (l : list A) x : In x (firstn n l) -> In x l.
Proof.
  intro H. rewrite <- (firstn_skipn n l). apply in_or_app. now left.
Qed.

Lemma trend_final_finite data g :
  Forall (fun p => isFinite (CostSavings p) = true) data ->
  sound_group g -> part_row3_finite (trend_final data g).
Proof.
  intros F [N S]. unfold part_row3_finite, trend_final.
  cbn [Part000.Row3.AvgCostSavings Part000.Row3.OverrunRate Part000.Row3.YoYChange].
  repeat split.
  - apply finite_cell_format. right. apply Part000_average_finite.
    eapply Forall_impl; [|exact S]. intros x Hx. now right.
  - apply finite_cell_format. right. now apply percentage_finite.
  - eexists. split; [reflexivity|]. unfold yoy_with.
    apply finite_cell_toFixed.
    destruct (YearWorkGroup.FundingYear g =? 2021); [reflexivity|].
    rewrite <- divisor_agree.
    + apply yoy_change_finite.
      * now apply year_mean_finite.
      * now apply year_mean_finite.
    + now apply year_mean_finite.
Qed.

Lemma MainJs_type_row_ok st g :
  sound_group g -> main_trend_ok st -> main_trend_ok (MainJs.type_row st g).
Proof.
  intros [N Fg] [A R]. destruct st as [a res]. cbn [fst snd] in A, R.
  assert (Av : isFinite (MainJs.average (YearWorkGroup.savings g)) = true)
    by now apply MainJs_average_finite.
  unfold MainJs.type_row, main_trend_ok. cbn [fst snd]. split.
  - intros y l. rewrite year_get_set.
    destruct (y =? YearWorkGroup.FundingYear g) eqn:E; [|apply A].
    intro H. injection H as <-. apply Forall_app. split; [|now constructor].
    destruct (year_get a (YearWorkGroup.FundingYear g)) eqn:G;
      [eapply A; eauto|constructor].
  - apply Forall_app. split.
    + eapply Forall_impl; [|exact R]. intros r (Y & C1 & C2).
      split; [|split]; auto. rewrite year_get_set.
      destruct (MainJs.Row3.FundingYear r =? YearWorkGroup.FundingYear g);
        [discriminate|exact Y].
    + constructor; [|constructor].
      cbn [MainJs.Row3.FundingYear MainJs.Row3.AvgCostSavings
           MainJs.Row3.OverrunRate].
      split; [rewrite year_get_set, Z.eqb_refl; discriminate|].
      split; apply finite_cell_format; right; auto.
      now apply percentage_finite.
Qed.

Lemma MainJs_type_rows_ok gs : forall st,
  Forall sound_group gs -> main_trend_ok st ->
  main_trend_ok (fold_left MainJs.type_row gs st).
Proof.
  induction gs as [|g gs IH]; intros st S H; cbn [fold_left]; auto.
  inversion S; subst. apply IH; auto. now apply MainJs_type_row_ok.
Qed.

Lemma MainJs_baseline_finite a :
  (forall y l, year_get a y = Some l -> Forall (fun x => isFinite x = true) l) ->
  isFinite (MainJs.baseline_of a) = true.
Proof.
  intro A. unfold MainJs.baseline_of. apply MainJs_average_finite.
  destruct (year_get a 2021) eqn:G; [eapply A; eauto|repeat constructor].
Qed.

Lemma MainJs_yoy_ok a b r :
  (forall y l, year_get a y = Some l -> Forall (fun x => isFinite x = true) l) ->
  isFinite b = true ->
  year_get a (MainJs.Row3.FundingYear r) <> None /\
  finite_cell (MainJs.Row3.AvgCostSavings r) /\
  finite_cell (MainJs.Row3.OverrunRate r) ->
  exists r', MainJs.yoy a b r = Normal r' /\ main_row3_ok r'.
Proof.
  intros A B (Y & C1 & C2). unfold MainJs.yoy.
  destruct (year_get a (MainJs.Row3.FundingYear r)) as [l|] eqn:G;
    [|now elim Y].
  eexists. split; [reflexivity|]. unfold main_row3_ok, main_row3_finite.
  cbn [MainJs.Row3.FundingYear MainJs.Row3.AvgCostSavings
       MainJs.Row3.OverrunRate MainJs.Row3.YoYChangePercent].
  split; [split; [|split]; auto|].
  - eexists. split; [reflexivity|]. apply finite_cell_toFixed.
    destruct (MainJs.Row3.FundingYear r =? 2021); [reflexivity|].
    apply yoy_change_finite; auto. apply MainJs_average_finite. eapply A; eauto.
  - now intros ->.
Qed.

Lemma forEach_total {A B} (f : A -> completion B) (P : A -> Prop)
  (Q : B -> Prop) xs :
  (forall x, P x -> exists y, f x = Normal y /\ Q y) ->
  Forall P xs -> exists ys, forEach f xs = Normal ys /\ Forall Q ys.
Proof.
  intros H F. induction F as [|x xs Px _ (ys & E & IH)]; cbn [forEach].
  - exists []. split; [reflexivity|constructor].
  - destruct (H x Px) as (y & Ey & Qy). rewrite Ey, E. cbn [bind].
    exists (y :: ys). split; [reflexivity|now constructor].
Qed.
(** ** Finite cells, report by report *)

Lemma Forall_both {A} (P Q : A -> Prop) l :
  Forall P l -> Forall Q l -> Forall (fun x => P x /\ Q x) l.
Proof.
  intros HP HQ. apply Forall_forall. intros x I. rewrite Forall_forall in HP, HQ.
  split; auto.
Qed.

Lemma MainJs_report1_finite data :
  Forall finite_inputs data ->
  exists rows, MainJs.generateReport1 data = Normal rows /\
               Forall main_row1_finite rows.
Proof.
  intro F. destruct (region_loop_total data) as (m & H & Hg).
  unfold MainJs.generateReport1. rewrite H. cbn [bind].
  eexists. split; [reflexivity|]. apply sort_Forall.
  apply Forall_forall. intros r I. apply in_map_iff in I.
  destruct I as (g & <- & I).
  destruct (region_group_finite data m g F Hg I) as (B & S & D & N).
  now apply MainJs_region_row_finite.
Qed.

Lemma Part000_report1_finite data :
  Forall finite_inputs data ->
  exists rows, Part000.generateReport1 data = Normal rows /\
               Forall part_row1_finite rows.
Proof.
  intro F. destruct (Part000_scores_normalized data) as (m & rows & H & R & E & _).
  destruct (region_loop_total data) as (m' & H' & Hg).
  assert (m' = m) by congruence. subst m'.
  exists rows. split; [exact R|].
  assert (C : Forall (fun r =>
              finite_cell (Part000.Row1.TotalApprovedBudget r) /\
              finite_cell (Part000.Row1.MedianCostSavings r) /\
              finite_cell (Part000.Row1.AvgCompletionDelayDays r) /\
              finite_cell (Part000.Row1.DelayOver30Percent r)) rows).
  { unfold Part000.generateReport1 in R. rewrite H in R. cbn [bind] in R.
    injection R as <-. apply sort_Forall.
    apply Forall_forall. intros r I. apply in_map_iff in I.
    destruct I as (r0 & <- & I). unfold Part000.raw_results in I.
    apply in_map_iff in I. destruct I as (g & <- & I).
    destruct (region_group_finite data m g F Hg I) as (B & S & D & N).
    now apply Part000_region_cells_finite. }
  eapply Forall_impl; [|exact (Forall_both _ _ _ C E)].
  intros r ((A1 & A2 & A3 & A4) & q & Eq & _). unfold part_row1_finite.
  rewrite Eq. repeat split; auto.
Qed.

Lemma MainJs_report2_finite data rows :
  Forall finite_inputs data ->
  MainJs.generateReport2 data = Normal rows -> Forall main_row2_finite rows.
Proof.
  intros F R. unfold MainJs.generateReport2 in R.
  destruct (for_of contractor_step data []) as [m|e] eqn:H; [|discriminate].
  cbn [bind] in R. set (ranked := sort _ _) in R.
  assert (E : rows = firstn 15 ranked) by congruence. subst rows. clear R.
  apply contractor_loop_grouped in H.
  apply Forall_forall. intros r I. apply In_firstn in I. subst ranked.
  apply sort_In in I. apply in_map_iff in I. destruct I as (c & <- & I).
  apply filter_In in I. destruct I as [I _].
  destruct (contractor_group_finite data m c F H I) as (D & S & C).
  now apply MainJs_contractor_row_finite.
Qed.

Lemma Part000_report2_finite data rows :
  Forall finite_inputs data ->
  Part000.generateReport2 data = Normal rows -> Forall part_row2_finite rows.
Proof.
  intros F R. unfold Part000.generateReport2 in R.
  destruct (for_of contractor_step data []) as [m|e] eqn:H; [|discriminate].
  cbn [bind] in R. injection R as <-.
  apply contractor_loop_grouped in H.
  apply Forall_forall. intros r I. apply in_map_iff in I.
  destruct I as (r0 & <- & I).
  apply (In_firstn 15) in I.
  apply sort_In in I. apply in_map_iff in I. destruct I as (c & <- & I).
  apply filter_In in I. destruct I as [I _].
  destruct (contractor_group_finite data m c F H I) as (D & S & C).
  now apply Part000_contractor_row_finite.
Qed.

Lemma report2_total data :
  Forall (fun r => inherited (Contractor r) = false) data ->
  exists rows1 rows2,
    MainJs.generateReport2 data = Normal rows1 /\
    Part000.generateReport2 data = Normal rows2.
Proof.
  intro H. destruct (contractor_loop_total data H) as [m E].
  unfold MainJs.generateReport2, Part000.generateReport2. rewrite E.
  cbn [bind]. eauto.
Qed.

Lemma finite_inputs_savings data :
  Forall finite_inputs data ->
  Forall (fun p => isFinite (CostSavings p) = true) data.
Proof.
  intro F. eapply Forall_impl; [|exact F]. now intros p (_ & _ & S & _).
Qed.

(** The trend report of [src/main.js] is produced, with finite cells and
    "0.00" as the change of every row of 2021. *)
Lemma MainJs_report3_rows data :
  Forall (fun p => isFinite (CostSavings p) = true) data ->
  exists rows, MainJs.generateReport3 data = Normal rows /\
               Forall main_row3_ok rows.
Proof.
  intro F. destruct (type_loop_total data) as (m & H & Hg).
  pose proof (trend_groups_sound data m F Hg) as S.
  unfold MainJs.generateReport3. rewrite H. cbn [bind].
  assert (I : main_trend_ok
                (fold_left MainJs.type_row (Object_values m) ([], []))).
  { apply MainJs_type_rows_ok; [exact S|]. split; [|constructor].
    intros y l. discriminate. }
  destruct (fold_left MainJs.type_row (Object_values m) ([], [])) as [a res].
  destruct I as [A R]. cbn [fst snd] in A, R. cbv zeta.
  destruct (forEach_total (MainJs.yoy a (MainJs.baseline_of a)) _ main_row3_ok res
              (fun r => MainJs_yoy_ok a (MainJs.baseline_of a) r A
                          (MainJs_baseline_finite a A)) R)
    as (rows & E & Q).
  rewrite E. cbn [bind]. eexists. split; [reflexivity|].
  now apply sort_Forall.
Qed.

Lemma MainJs_report3_finite data :
  Forall finite_inputs data ->
  exists rows, MainJs.generateReport3 data = Normal rows /\
               Forall main_row3_finite rows.
Proof.
  intro F. apply finite_inputs_savings in F.
  destruct (MainJs_report3_rows data F) as (rows & E & Q).
  exists rows. split; [exact E|].
  eapply Forall_impl; [|exact Q]. now intros r [H _].
Qed.

Lemma Part000_report3_finite data :
  Forall finite_inputs data ->
  exists rows, Part000.generateReport3 data = Normal rows /\
               Forall part_row3_finite rows.
Proof.
  intro F. apply finite_inputs_savings in F.
  destruct (Part000_trend_report data F) as (m & rows & _ & Hg & R & P).
  exists rows. split; [exact R|].
  eapply Permutation_Forall; [symmetry; exact P|].
  pose proof (trend_groups_sound data m F Hg) as S.
  apply Forall_forall. intros r I. apply in_map_iff in I.
  destruct I as (g & <- & I). rewrite Forall_forall in S.
  apply trend_final_finite; auto.
Qed.
(** ** The ranking of the contractor report *)

Lemma StronglySorted_map_inv {A B} (f : A -> B) (R : B -> B -> Prop) l :
  StronglySorted R (map f l) -> StronglySorted (fun a b => R (f a) (f b)) l.
Proof.
  induction l as [|x l IH]; cbn [map]; intro H; [constructor|].
  inversion H as [|? ? S F]; subst. constructor; auto.
  rewrite Forall_forall in *. intros y I. apply F. now apply in_map.
Qed.

Lemma StronglySorted_firstn {A} (R : A -> A -> Prop) l : forall n,
  StronglySorted R l -> StronglySorted R (firstn n l).
Proof.
  induction l as [|x l IH]; intros [|n] H; cbn [firstn]; try constructor.
  - inversion H; subst. now apply IH.
  - inversion H as [|? ? S F]; subst. rewrite Forall_forall in *.
    intros y I. apply F. now apply In_firstn in I.
Qed.

Lemma raw_cost_goes_after a b :
  isNaN (ContractorGroup.totalCost a) = false ->
  isNaN (ContractorGroup.totalCost b) = false ->
  goes_after
    (fun x y => sub (Part000.prop (Part000.Row2._rawTotalCost y))
                    (Part000.prop (Part000.Row2._rawTotalCost x)))
    (Part000.contractor_row a) (Part000.contractor_row b)
  = ltb (ContractorGroup.totalCost a) (ContractorGroup.totalCost b).
Proof.
  intros Ha Hb.
  change (goes_after (fun x y => sub x y) (ContractorGroup.totalCost b)
            (ContractorGroup.totalCost a)
          = ltb (ContractorGroup.totalCost a) (ContractorGroup.totalCost b)).
  now apply sub_goes_after.
Qed.

(** Sorting rows of groups by [_rawTotalCost] puts the groups in
    non-increasing order of total cost. *)
Lemma ranked_by_cost cs :
  Forall (fun c => isNaN (ContractorGroup.totalCost c) = false) cs ->
  exists gs,
    Permutation cs gs /\
    sort (fun a b => sub (Part000.prop (Part000.Row2._rawTotalCost b))
                         (Part000.prop (Part000.Row2._rawTotalCost a)))
         (map Part000.contractor_row cs) = map Part000.contractor_row gs /\
    StronglySorted (fun a b => num_le (ContractorGroup.totalCost b)
                                      (ContractorGroup.totalCost a)) gs.
Proof.
  intro F. set (cmp := fun a b : Part000.Row2.t => _).
  destruct (Permutation_map_inv Part000.contractor_row cs
              (sort_perm cmp (map Part000.contractor_row cs)))
    as (gs & E & P).
  exists gs. split; [exact P|]. split; [exact E|].
  apply (StronglySorted_map_inv Part000.contractor_row
           (fun a b => num_le (Part000.prop (Part000.Row2._rawTotalCost b))
                              (Part000.prop (Part000.Row2._rawTotalCost a)))).
  rewrite <- E.
  apply sort_sorted with
    (P := fun r => exists c, r = Part000.contractor_row c /\
                             isNaN (ContractorGroup.totalCost c) = false).
  - intros x y (a & -> & Ha) (b & -> & Hb) H.
    unfold cmp in H. rewrite raw_cost_goes_after in H by assumption.
    now apply ltb_false_leb.
  - intros x y (a & -> & Ha) (b & -> & Hb) H.
    unfold cmp in H. rewrite raw_cost_goes_after in H by assumption.
    now apply ltb_leb.
  - intros x y z H1 H2. unfold num_le in *. eapply leb_trans; eauto.
  - apply Forall_map_of with (P := fun c => isNaN (ContractorGroup.totalCost c) = false);
      [|exact F].
    intros c Hc. eauto.
Qed.

Lemma finite_not_NaN x : isFinite x = true -> isNaN x = false.
Proof. destruct x; auto; discriminate. Qed.

(** The contractor report of the second pass: its rows are those of groups
    of at least 5 projects, at most 15 of them, in non-increasing order of
    total contract cost. *)
Theorem Part000_contractor_ranking data rows :
  Forall finite_inputs data ->
  Part000.generateReport2 data = Normal rows ->
  exists contractorMap gs,
    for_of contractor_step data [] = Normal contractorMap /\
    rows = map (fun c => Part000.delete_rawTotalCost (Part000.contractor_row c)) gs /\
    Forall (fun c => In c (Object_values contractorMap) /\
                     (5 <= ContractorGroup.projects c)%nat /\
                     ContractorGroup.projects c =
                       List.length (members has_contractor Contractor
                                      (ContractorGroup.Contractor c) data)) gs /\
    (List.length rows <= 15)%nat /\
    StronglySorted (fun a b => num_le (ContractorGroup.totalCost b)
                                      (ContractorGroup.totalCost a)) gs.
Proof.
  intros F R. unfold Part000.generateReport2 in R.
  destruct (for_of contractor_step data []) as [m|e] eqn:H; [|discriminate].
  cbn [bind] in R. exists m.
  pose proof (contractor_loop_grouped _ _ H) as Hg.
  set (cs := filter (fun c => (5 <=? ContractorGroup.projects c)%nat)
               (Object_values m)).
  destruct (ranked_by_cost cs) as (gs & P & E & S).
  { apply Forall_forall. intros c I. apply filter_In in I. destruct I as [I _].
    apply finite_not_NaN.
    now destruct (contractor_group_finite data m c F Hg I) as (_ & _ & C). }
  exists (firstn 15 gs).
  assert (Er : rows = map Part000.delete_rawTotalCost
                        (firstn 15 (map Part000.contractor_row gs))).
  { unfold Part000.ranked in R. fold cs in R. rewrite E in R. congruence. }
  split; [reflexivity|]. split; [|split; [|split]].
  - rewrite Er, firstn_map, map_map. reflexivity.
  - apply Forall_forall. intros c I. apply In_firstn in I.
    apply (Permutation_in _ (Permutation_sym P)) in I.
    apply filter_In in I. destruct I as [I L]. split; [exact I|].
    split; [now apply Nat.leb_le in L|].
    destruct (grouped_values _ _ _ _ _ _ _ Hg I) as (k & r & rs & M & ->).
    rewrite contractor_fold.
    cbn [ContractorGroup.projects ContractorGroup.Contractor contractor_fresh].
    assert (K : Contractor r = k).
    { apply (members_key has_contractor Contractor k data r).
      rewrite M. now left. }
    rewrite K, M. reflexivity.
  - rewrite Er, length_map. apply firstn_le_length.
  - now apply StronglySorted_firstn.
Qed.

(** ** The clamp of [src/main.js] *)

Lemma clamp_range x :
  isFinite x = true ->
  exists q, min2 (Fin 100) (max2 (Fin 0) x) = Fin q /\ (0 <= q <= 100)%Q.
Proof.
  destruct x as [q| | |]; try discriminate. intros _.
  cbn [max2 ltb]. destruct (Qltb 0 q) eqn:E1; cbn [min2 ltb].
  - destruct (Qltb q 100) eqn:E2; eexists; (split; [reflexivity|]); unbool; lra.
  - change (Qltb 0 100) with true. cbv iota.
    exists 0%Q. split; [reflexivity|lra].
Qed.

(** The regional report of [src/main.js]: every score cell displays a number
    between 0 and 100. *)
Lemma MainJs_scores_clamped data :
  exists rows,
    MainJs.generateReport1 data = Normal rows /\
    Forall (fun r => exists q, shown (MainJs.Row1.EfficiencyScore r) = Fin q /\
                               (0 <= q <= 100)%Q) rows.
Proof.
  destruct (region_loop_total data) as (m & H & _).
  unfold MainJs.generateReport1. rewrite H. cbn [bind].
  eexists. split; [reflexivity|]. apply sort_Forall.
  apply Forall_forall. intros r I. apply in_map_iff in I.
  destruct I as (g & <- & _).
  unfold MainJs.region_row. cbn [MainJs.Row1.EfficiencyScore].
  match goal with
  | |- context [min2 (Fin 100) (max2 (Fin 0) ?e)] =>
      destruct (clamp_range e) as (q & -> & B);
      [apply guard_negative_finite|]
  end.
  rewrite shown_formatNumber by reflexivity. now apply round2_range.
Qed.

(** * The claims *)

(** C10.  Every aggregation group of the three analyzers holds at least one
    project.  The regional and the trend loops always complete, and each of
    their groups has a non-empty delay list (savings list), so that
    [delayOver30] and [overrunRate] divide by a non-zero length and are
    finite; whenever the contractor loop completes, each of its groups counts
    at least one project and has a non-empty delay list. *)
Theorem C10_groups_are_never_empty (data : list CleanedProject) :
  (exists regionMap,
     for_of region_step data [] = Normal regionMap /\
     Forall (fun g => List.length (RegionGroup.delays g) <> O /\
                      List.length (RegionGroup.budgets g) <> O /\
                      List.length (RegionGroup.savings g) <> O /\
                      isFinite (percentage (fun d => gtb d (Fin 30))
                                  (RegionGroup.delays g)) = true)
            (Object_values regionMap)) /\
  (exists typeMap,
     for_of type_step data [] = Normal typeMap /\
     Forall (fun g => List.length (YearWorkGroup.savings g) <> O /\
                      isFinite (percentage (fun s => ltb s (Fin 0))
                                  (YearWorkGroup.savings g)) = true)
            (Object_values typeMap)) /\
  (forall contractorMap,
     for_of contractor_step data [] = Normal contractorMap ->
     Forall (fun c => ContractorGroup.projects c <> O /\
                      List.length (ContractorGroup.delays c) <> O)
            (Object_values contractorMap)).
Proof.
  split; [|split].
  - destruct (region_loop_total data) as (m & H & Hg).
    exists m. split; auto. apply Forall_forall. intros g Hin.
    destruct (grouped_values _ _ _ _ _ _ _ Hg Hin) as (k & r & rs & _ & ->).
    rewrite region_fold.
    cbn [RegionGroup.delays RegionGroup.budgets RegionGroup.savings
         region_fresh app map List.length].
    split; [discriminate|]. split; [discriminate|]. split; [discriminate|].
    apply percentage_finite. discriminate.
  - destruct (type_loop_total data) as (m & H & Hg).
    exists m. split; auto. apply Forall_forall. intros g Hin.
    destruct (grouped_values _ _ _ _ _ _ _ Hg Hin) as (k & r & rs & _ & ->).
    rewrite type_fold.
    cbn [YearWorkGroup.savings type_fresh app map List.length].
    split; [discriminate|]. apply percentage_finite. discriminate.
  - intros m H. apply contractor_loop_grouped in H.
    apply Forall_forall. intros c Hin.
    destruct (grouped_values _ _ _ _ _ _ _ H Hin) as (k & r & rs & _ & ->).
    rewrite contractor_fold.
    cbn [ContractorGroup.projects ContractorGroup.delays contractor_fresh
         app map List.length Nat.add].
    split; discriminate.
Qed.

(** On an array without [NaN], [average] of [src/main.js] is the mean too. *)
Lemma MainJs_average_mean arr :
  Forall (fun x => isNaN x = false) arr -> MainJs.average arr = mean_of_valid arr.
Proof.
  intro H. unfold MainJs.average, mean_of_valid.
  replace (filter valid arr) with arr; [reflexivity|].
  induction H as [|x arr Hx _ IH]; cbn [filter]; auto.
  unfold valid at 1. rewrite Hx. cbn [negb]. now f_equal.
Qed.

(** C8.  [average] of [src/main.js] neither returns 0 on an all-invalid
    input nor skips an invalid entry: one [NaN] makes the result [NaN],
    where the mean of the valid entries is 0, respectively 2. *)
Theorem C8_main_average_counts_invalid_entries :
  MainJs.average [NaN] = NaN /\ mean_of_valid [NaN] = Fin 0 /\
  MainJs.average [Fin 1; NaN; Fin 3] = NaN /\
  mean_of_valid [Fin 1; NaN; Fin 3] = Fin 2.
Proof. repeat split. Qed.

(** Whatever the date library, one row that passes validation without a
    completion date that parses makes the cleaner throw. *)
Theorem cleaner_throws dayjs utcOffset rows :
  Exists (fun r => passes_validation r = true /\
                   isValid (dayjs (Raw.ActualCompletionDate r)) = false) rows ->
  cleanAndPrepareData dayjs utcOffset rows = Throw const_assignment.
Proof. apply for_of_clean_throws. Qed.

(** C1.  A row that passes validation is not always emitted: with a
    completion date that does not parse, the imputation assigns to a
    constant, the cleaner throws, and no row of the batch is emitted. *)
Theorem C1_valid_row_is_not_emitted :
  passes_validation Examples.row_without_completion = true /\
  passes_validation Examples.good_row = true /\
  TestDates.clean [Examples.row_without_completion] = Throw const_assignment /\
  TestDates.clean [Examples.good_row; Examples.row_without_completion]
    = Throw const_assignment.
Proof. repeat split. Qed.




(** The rows of the example above: the row whose start date does not parse
    is kept, without a start date and with a delay of [NaN]. *)
Lemma unparsed_start_is_kept :
  map (fun p => (Raw.StartDate (row p), StartDate p, CompletionDelayDays p))
      (Examples.cleaned Examples.mixed_rows)
  = map (fun p => (Raw.StartDate (row p), StartDate p, CompletionDelayDays p))
      (Examples.cleaned [Examples.good_row]) ++
    [(Raw.StartDate Examples.row_bad_start, None, NaN)].
Proof. vm_compute. reflexivity. Qed.

(** C3.  In [src/main.js] the score is clamped to 0..100 and not rescaled
    over the groups of the run: one project saving 20 with a delay of 10
    days makes a single group, whose score is displayed as 100.00, where the
    second pass gives 0. *)
Theorem C3_main_single_group_scores_100 :
  let data := Examples.cleaned [Examples.good_row] in
  (exists regionMap g,
     for_of region_step data [] = Normal regionMap /\
     Object_values regionMap = [g] /\
     RegionGroup.savings g = [Fin 20] /\ RegionGroup.delays g = [Fin 10]) /\
  (exists r, MainJs.generateReport1 data = Normal [r] /\
             MainJs.Row1.EfficiencyScore r = "100.00"%string) /\
  (exists r, Part000.generateReport1 data = Normal [r] /\
             Part000.Row1.EfficiencyScore r = Fin 0).
Proof.
  cbv zeta. split; [|split].
  - do 2 eexists. split; [vm_compute; reflexivity|].
    split; [vm_compute; reflexivity|]. split; reflexivity.
  - eexists. split; [vm_compute; reflexivity|]. reflexivity.
  - eexists. split; [vm_compute; reflexivity|]. reflexivity.
Qed.

(** C4.  [src/main.js] orders the contractor rows by what the formatted
    [TotalCostSavings] reads as, not by total cost: contractor A, with 5
    projects costing 500 and saving 50 in total, comes before contractor B,
    with 5 projects costing 5000 and saving 5, where the second pass puts B
    first. *)
Theorem C4_main_ranks_by_savings :
  let data := Examples.cleaned Examples.two_contractors in
  (exists contractorMap,
     for_of contractor_step data [] = Normal contractorMap /\
     map (fun c => (ContractorGroup.Contractor c, ContractorGroup.projects c,
                    ContractorGroup.totalCost c, ContractorGroup.totalSavings c))
         (Object_values contractorMap)
       = [("A"%string, 5%nat, Fin 500, Fin 50);
          ("B"%string, 5%nat, Fin 5000, Fin 5)]) /\
  (exists rows, MainJs.generateReport2 data = Normal rows /\
                map MainJs.Row2.Contractor rows = ["A"; "B"]%string) /\
  (exists rows, Part000.generateReport2 data = Normal rows /\
                map Part000.Row2.Contractor rows = ["B"; "A"]%string).
Proof.
  cbv zeta. split; [|split]; eexists;
    (split; [vm_compute; reflexivity|]); vm_compute; reflexivity.
Qed.

(** * The rest of the program *)

(** ** More on the cleaner *)

Lemma skip_ws_head_plain cs :
  match skip_ws cs with [] => True | c :: _ => is_ws c = false end.
Proof.
  induction cs as [|c cs IH]; cbn [skip_ws]; auto.
  destruct (is_ws c) eqn:E; auto.
Qed.

Lemma skip_ws_suffix cs : exists pre, cs = pre ++ skip_ws cs.
Proof.
  induction cs as [|c cs [pre IH]]; cbn [skip_ws]; [now exists []|].
  destruct (is_ws c); [|now exists []].
  exists (c :: pre). cbn [app]. now f_equal.
Qed.

Lemma last_of_suffix {A} (pre b : list A) x l :
  rev (pre ++ b) = x :: l -> b <> [] -> exists l', rev b = x :: l'.
Proof.
  intros H N. rewrite rev_app_distr in H.
  destruct (rev b) as [|y l'] eqn:E.
  - apply (f_equal (@rev A)) in E. rewrite rev_involutive in E. now elim N.
  - cbn [app] in H. injection H as -> _. eauto.
Qed.

(** What [trim] leaves is empty, or starts and ends with no white space. *)
Lemma trim_chars_plain cs :
  trim_chars cs = [] \/
  (match trim_chars cs with [] => False | c :: _ => is_ws c = false end /\
   match rev (trim_chars cs) with [] => False | c :: _ => is_ws c = false end).
Proof.
  unfold trim_chars. set (a := skip_ws cs).
  pose proof (skip_ws_head_plain cs) as Ha. fold a in Ha.
  set (b := skip_ws (rev a)).
  pose proof (skip_ws_head_plain (rev a)) as Hb. fold b in Hb.
  destruct (skip_ws_suffix (rev a)) as [pre Hp]. fold b in Hp.
  destruct b as [|y b'] eqn:Eb; [now left|]. right.
  rewrite rev_involutive. split; [|exact Hb].
  destruct a as [|x a'] eqn:Ea.
  - cbn [rev] in Hp. destruct pre; discriminate.
  - assert (R : rev (pre ++ y :: b') = x :: a').
    { rewrite <- Hp. apply rev_involutive. }
    destruct (last_of_suffix pre (y :: b') x a' R) as [l' E]; [discriminate|].
    rewrite E. exact Ha.
Qed.

Lemma trim_or_trimmed v d : trimmed d -> trimmed (trim_or v d).
Proof.
  intro D. unfold trim_or. destruct v as [s|]; auto.
  destruct (String.eqb (trim s) "") eqn:E; auto.
  apply String.eqb_neq in E. unfold trimmed, trim in *.
  rewrite chars_str.
  destruct (trim_chars_plain (chars s)) as [H|H]; [|exact H].
  rewrite H in E. now elim E.
Qed.

Section CleanerFields.
Variable dayjs : option string -> Dayjs.
Variable utcOffset : Z -> Z.

Lemma clean_row_fields cleaned r :
  passes_validation r = true ->
  isValid (dayjs (Raw.ActualCompletionDate r)) = true ->
  exists p, clean_row dayjs utcOffset cleaned r = Normal (cleaned ++ [p]) /\
            fields_ok p.
Proof.
  unfold passes_validation, clean_row.
  destruct (parseInt (Raw.FundingYear r)) as [y|]; [|discriminate].
  rewrite year_window, !leb_0_ltb by apply parseFloatSafe_not_NaN.
  intros H V. apply andb_true_iff in H. destruct H as [H H3].
  apply andb_true_iff in H. destruct H as [H1 H2].
  rewrite H1, H2, H3. cbn [negb]. cbv iota.
  destruct (dayjs (Raw.ActualCompletionDate r)) as [t|] eqn:D; [|discriminate].
  cbv zeta. unfold parseDateSafe. rewrite D. cbn [isValid]. cbv iota.
  fold (parseDateSafe dayjs (Raw.StartDate r)).
  eexists. split; [reflexivity|]. unfold fields_ok.
  cbn [ActualCompletionDate CompletionDelayDays StartDate Region MainIsland
       Contractor TypeOfWork].
  split; [reflexivity|]. split.
  - unfold diff_day, parseDateSafe.
    destruct (dayjs (Raw.StartDate r)) as [u|]; cbn [isValid];
      split; intro E; try reflexivity; discriminate.
  - repeat split; apply trim_or_trimmed; split; cbv; reflexivity.
Qed.

Lemma for_of_clean_fields rows : forall cleaned out,
  for_of (clean_row dayjs utcOffset) rows cleaned = Normal out ->
  Forall fields_ok cleaned -> Forall fields_ok out.
Proof.
  induction rows as [|r rows IH]; intros cleaned out H F; cbn [for_of] in H.
  - now injection H as <-.
  - destruct (passes_validation r) eqn:P.
    + destruct (isValid (dayjs (Raw.ActualCompletionDate r))) eqn:V.
      * destruct (clean_row_fields cleaned r P V) as (p & E & Fp).
        rewrite E in H. cbn [bind] in H. apply IH in H; auto.
        apply Forall_app. split; auto.
      * rewrite clean_row_throws in H by assumption. discriminate.
    + rewrite clean_row_skips in H by assumption. cbn [bind] in H.
      now apply IH in H.
Qed.

Lemma undated_split rows :
  Forall (fun r => passes_validation r = true ->
                   isValid (dayjs (Raw.ActualCompletionDate r)) = true) rows \/
  Exists (fun r => passes_validation r = true /\
                   isValid (dayjs (Raw.ActualCompletionDate r)) = false) rows.
Proof.
  induction rows as [|r rows [IH|IH]]; [left; constructor| |right; now constructor].
  destruct (passes_validation r) eqn:P;
    [|left; constructor; [intro; congruence|assumption]].
  destruct (isValid (dayjs (Raw.ActualCompletionDate r))) eqn:V.
  - left. constructor; auto.
  - right. constructor. auto.
Qed.

(** X1.  The outcome of [cleanAndPrepareData] is decided by the rows that
    pass validation without a completion date that parses: with none of
    them the cleaner returns the rows that pass validation, in input order;
    with one of them it throws, and the only exception it ever throws is the
    [TypeError] of the assignment to the constant. *)
Theorem X1_cleaner_returns_or_throws_on_undated_row (rows : list Raw.Row) :
  match cleanAndPrepareData dayjs utcOffset rows with
  | Normal out =>
      existsb (undated dayjs) rows = false /\
      map row out = filter passes_validation rows
  | Throw e =>
      existsb (undated dayjs) rows = true /\ e = const_assignment
  end.
Proof.
  unfold cleanAndPrepareData.
  destruct (undated_split rows) as [F|E].
  - destruct (for_of_clean_keeps dayjs utcOffset rows [] F) as (out & -> & M & _).
    split; [|exact M].
    destruct (existsb (undated dayjs) rows) eqn:X; auto.
    apply existsb_exists in X. destruct X as (r & I & U).
    unfold undated in U. apply andb_true_iff in U. destruct U as [P V].
    rewrite Forall_forall in F. rewrite (F r I P) in V. discriminate.
  - rewrite (for_of_clean_throws dayjs utcOffset rows [] E).
    split; [|reflexivity]. apply existsb_exists.
    apply Exists_exists in E. destruct E as (r & I & P & V).
    exists r. split; auto. unfold undated. now rewrite P, V.
Qed.

(** X2.  Every project that the cleaner returns has a completion date that
    is valid, a completion delay that is [NaN] exactly when it has no start
    date, and a region, island, contractor and type of work that are not
    empty and carry no white space at either end. *)
Theorem X2_cleaned_dates_and_labels (rows : list Raw.Row)
  (out : list CleanedProject) :
  cleanAndPrepareData dayjs utcOffset rows = Normal out ->
  Forall fields_ok out.
Proof.
  intro H. eapply for_of_clean_fields; [exact H|constructor].
Qed.

End CleanerFields.

Lemma X2_witness :
  cleanAndPrepareData TestDates.dayjs TestDates.utcOffset
    [Examples.good_row; Examples.row_of_2020; Examples.row_bad_start]
  = Normal (Examples.cleaned [Examples.good_row; Examples.row_bad_start]) /\
  Forall fields_ok (Examples.cleaned [Examples.good_row; Examples.row_bad_start]).
Proof.
  assert (H : cleanAndPrepareData TestDates.dayjs TestDates.utcOffset
                [Examples.good_row; Examples.row_of_2020; Examples.row_bad_start]
              = Normal (Examples.cleaned [Examples.good_row; Examples.row_bad_start]))
    by (vm_compute; reflexivity).
  split; [exact H|].
  exact (X2_cleaned_dates_and_labels TestDates.dayjs TestDates.utcOffset _ _ H).
Defined.

(** ** Reading formatted cells back *)

(** The numeral [D.F], signed, as [parseFloat] reads it. *)
Lemma parseFloat_numeral (sg : bool) c D f1 f2 :
  forallb (is_digit 10) (c :: D) = true ->
  is_digit 10 f1 = true -> is_digit 10 f2 = true ->
  parseFloat (str ((if sg then ["-"%char] else []) ++ (c :: D) ++ "."%char :: [f1; f2])) =
  fin (signed sg (digits_value 10 ((c :: D) ++ [f1; f2])) # 100).
Proof.
  intros HD H1 H2.
  assert (Hc : is_digit 10 c = true)
    by (simpl in HD; apply andb_true_iff in HD; tauto).
  destruct (digit_is_plain c Hc) as (Cw & Cm & Cp & Cd & Cc & CI).
  unfold parseFloat. rewrite chars_str.
  assert (RD : read_decimal ((c :: D) ++ "."%char :: [f1; f2]) =
               Some (digits_value 10 ((c :: D) ++ [f1; f2]), -2, [])).
  { rewrite read_decimal_fixed; auto; [discriminate|].
    simpl. now rewrite H1, H2. }
  assert (SW : starts_with Infinity_lit (c :: D ++ "."%char :: [f1; f2]) = false)
    by now apply starts_with_Infinity_digit.
  cbn [app] in RD.
  destruct sg; cbn [app].
  - rewrite skip_ws_head by reflexivity. cbn [read_sign].
    change (Ascii.eqb "-"%char "-"%char) with true. cbv iota.
    rewrite SW, RD. reflexivity.
  - rewrite skip_ws_head by assumption. cbn [read_sign].
    rewrite Cm, Cp, SW, RD. reflexivity.
Qed.

Lemma parseFloat_toFixed q : parseFloat (toFixed 2 (Fin q)) = round2 (Fin q).
Proof.
  unfold toFixed, round2, minus_sign, fraction_part.
  set (n := round_scaled 2 q).
  rewrite fixed_digits_2.
  pose proof (digits_all (n / 10 ^ N.of_nat 2)) as HD.
  pose proof (digits_nonempty (n / 10 ^ N.of_nat 2)) as HN.
  pose proof (round_scaled_split n) as HV. rewrite fixed_digits_2 in HV.
  destruct (digits (n / 10 ^ N.of_nat 2)) as [|c D]; [congruence|].
  rewrite parseFloat_numeral; auto.
  - now rewrite HV.
  - apply is_digit_digit_char, N.mod_lt. lia.
  - apply is_digit_digit_char, N.mod_lt. lia.
Qed.

Lemma round2_not_NaN q : isNaN (round2 (Fin q)) = false.
Proof. reflexivity. Qed.

(** X3.  [parseFloatSafe] reads a cell printed by [formatNumber] back as the
    number rounded to 2 decimal places, thousands separators or not; the
    cells of [NaN] and of the infinities read back as 0. *)
Theorem X3_parseFloatSafe_reads_formatNumber (x : number) :
  parseFloatSafe (Some (formatNumber x 2)) =
  if isFinite x then round2 x else Fin 0.
Proof.
  destruct x as [q| | |]; try reflexivity.
  unfold parseFloatSafe, formatNumber. cbn [isNaN isFinite]. cbv iota.
  rewrite remove_commas_toLocaleString, parseFloat_toFixed.
  now rewrite round2_not_NaN.
Qed.

(** Printing what was rounded to 2 decimal places prints the same digits. *)
Lemma round_scaled_round2 sg n :
  round_scaled 2 (Qred (signed sg n # 100)) = n.
Proof.
  unfold round_scaled.
  pose proof (Qred_correct (signed sg n # 100)) as E.
  destruct (Qred (signed sg n # 100)) as [a b].
  unfold Qeq in E. cbn [Qnum Qden] in *.
  change (Z.of_nat 2) with 2. change (10 ^ 2) with 100.
  assert (A : Z.abs a * 100 = Z.of_N n * Z.pos b).
  { unfold signed in E. destruct sg; lia. }
  rewrite A.
  replace (2 * (Z.of_N n * Z.pos b) + Z.pos b)
    with (Z.pos b + Z.of_N n * (2 * Z.pos b)) by lia.
  rewrite Z.div_add by lia.
  rewrite Z.div_small by lia. cbn [Z.add]. apply N2Z.id.
Qed.

Lemma round_scaled_away q :
  (q <= - (1 # 200))%Q -> (0 < round_scaled 2 q)%N.
Proof.
  intro H. unfold round_scaled. destruct q as [a b].
  unfold Qle in H. cbn [Qnum Qden Qopp] in *.
  change (Z.of_nat 2) with 2. change (10 ^ 2) with 100.
  assert (L : 1 <= (2 * (Z.abs a * 100) + Z.pos b) / (2 * Z.pos b)).
  { apply Z.div_le_lower_bound; lia. }
  lia.
Qed.

Lemma formatNumber_round2 x :
  plainly_displayed x -> formatNumber (round2 x) 2 = formatNumber x 2.
Proof.
  destruct x as [q| | |]; cbn [plainly_displayed]; try tauto;
    try (intros _; reflexivity).
  intro H. unfold round2, fin, formatNumber. cbn [isNaN]. cbv iota.
  unfold toLocaleString. rewrite round_scaled_round2.
  f_equal. f_equal. unfold minus_sign.
  set (n := round_scaled 2 q).
  pose proof (Qred_correct (signed (Qltb q 0) n # 100)) as E.
  destruct (Qltb q 0) eqn:S.
  - assert (P : (0 < n)%N).
    { apply round_scaled_away. destruct H as [H|H]; [unbool; lra|exact H]. }
    replace (Qltb (Qred (signed true n # 100)) 0) with true; [reflexivity|].
    symmetry. apply Qltb_lt. rewrite E. unfold Qlt, signed. cbn [Qnum Qden]. lia.
  - replace (Qltb (Qred (signed false n # 100)) 0) with false; [reflexivity|].
    symmetry. apply Qltb_ge. rewrite E. unfold Qle, signed. cbn [Qnum Qden]. lia.
Qed.

(** X4.  The summary preview of [generateReports] reads each formatted cell
    back and formats it again: for a cell that [formatNumber] printed of
    [NaN] or of a finite number not strictly between -0.005 and 0, the
    preview is the cell itself; the cell of an infinity is previewed as
    0.00. *)
Theorem X4_summary_preview_repeats_the_cell (x : number) :
  (plainly_displayed x ->
   summary_preview (formatNumber x 2) = formatNumber x 2) /\
  summary_preview (formatNumber PInf 2) = "0.00"%string /\
  summary_preview (formatNumber NInf 2) = "0.00"%string.
Proof.
  split; [|split; reflexivity].
  intro H. unfold summary_preview.
  destruct x as [q| | |]; cbn [plainly_displayed] in H; try tauto;
    try reflexivity.
  replace (parseFloat (remove_commas (formatNumber (Fin q) 2)))
    with (round2 (Fin q)).
  - now apply formatNumber_round2.
  - unfold formatNumber. cbn [isNaN]. cbv iota.
    now rewrite remove_commas_toLocaleString, parseFloat_toFixed.
Qed.

(** ** The two [average]s *)

Lemma add_NaN_l x : add NaN x = NaN.
Proof. reflexivity. Qed.

Lemma add_NaN_r x : add x NaN = NaN.
Proof. now destruct x. Qed.

Lemma fold_add_NaN l : fold_left add l NaN = NaN.
Proof. induction l as [|x l IH]; cbn [fold_left]; auto. Qed.

Lemma sum_with_NaN l : forall a, In NaN l -> fold_left add l a = NaN.
Proof.
  induction l as [|x l IH]; intros a H; [destruct H|].
  cbn [fold_left]. destruct H as [->|H]; [|now apply IH].
  rewrite add_NaN_r. apply fold_add_NaN.
Qed.

Lemma no_NaN_valid arr :
  Forall (fun x => isNaN x = false) arr -> filter valid arr = arr.
Proof.
  induction 1 as [|x arr Hx _ IH]; cbn [filter]; auto.
  unfold valid at 1. rewrite Hx. cbn [negb]. now f_equal.
Qed.

Lemma MainJs_average_NaN arr : In NaN arr -> MainJs.average arr = NaN.
Proof.
  intro H. unfold MainJs.average, sum.
  destruct arr as [|x arr]; [destruct H|]. cbn [is_nil].
  now rewrite sum_with_NaN.
Qed.

(** X5.  [average] of the second pass is 0 on the empty array and on an
    array of [NaN]s only, and otherwise the sum of the entries that are not
    [NaN] over their number: an entry that is [NaN] counts neither in the
    sum nor in the divisor. *)
Theorem X5_part000_average_skips_NaN (arr : list number) :
  Part000.average arr = mean_of_valid arr /\
  (filter valid arr = [] -> Part000.average arr = Fin 0) /\
  (filter valid arr <> [] ->
   Part000.average arr =
     div (sum (filter valid arr)) (ofNat (List.length (filter valid arr)))).
Proof.
  rewrite Part000_average_mean. unfold mean_of_valid.
  split; [reflexivity|]. split.
  - now intros ->.
  - intro N. destruct (filter valid arr); [now elim N|reflexivity].
Qed.

(** X6.  [average] of [src/main.js] is [NaN] as soon as one entry is [NaN];
    on an array without [NaN] it is the mean of the entries, 0 on the empty
    array, and agrees with [average] of the second pass. *)
Theorem X6_main_average_propagates_NaN (arr : list number) :
  (In NaN arr -> MainJs.average arr = NaN) /\
  (Forall (fun x => isNaN x = false) arr ->
   MainJs.average arr = Part000.average arr /\
   MainJs.average arr = mean_of_valid arr).
Proof.
  split; [apply MainJs_average_NaN|].
  intro H. rewrite Part000_average_mean. split;
    unfold MainJs.average, mean_of_valid; now rewrite no_NaN_valid.
Qed.

(** ** When a grouping loop throws *)

Section GroupingThrows.
Context {G : Type}.
Variable keep : CleanedProject -> bool.
Variable key_of : CleanedProject -> string.
Variable fresh : CleanedProject -> G.
Variable push : CleanedProject -> G -> G.

(** No own property is named like an inherited member: the loop never
    defines one. *)
Lemma group_step_plain m r m' :
  (forall k, inherited k = true -> own m k = None) ->
  group_step keep key_of fresh push m r = Normal m' ->
  forall k, inherited k = true -> own m' k = None.
Proof.
  intros I H k Hk. unfold group_step, lookup in H.
  destruct (keep r); [|injection H as <-; auto].
  destruct (own m (key_of r)) as [g|] eqn:E.
  - injection H as <-. rewrite own_update.
    destruct (String.eqb k (key_of r)) eqn:Ek; [|auto].
    apply String.eqb_eq in Ek. subst k. rewrite (I _ Hk) in E. discriminate.
  - destruct (inherited (key_of r)) eqn:Hr; [discriminate|].
    injection H as <-. rewrite own_update, !own_define by assumption.
    destruct (String.eqb k (key_of r)) eqn:Ek; [|auto].
    apply String.eqb_eq in Ek. subst k. congruence.
Qed.

Lemma for_of_group_throws ds : forall m,
  (forall k, inherited k = true -> own m k = None) ->
  Exists (fun r => keep r = true /\ inherited (key_of r) = true) ds ->
  for_of (group_step keep key_of fresh push) ds m = Throw push_on_undefined.
Proof.
  induction ds as [|r ds IH]; intros m I H; [inversion H|].
  cbn [for_of].
  destruct (group_step keep key_of fresh push m r) as [m'|e] eqn:E.
  - cbn [bind]. apply IH; [eapply group_step_plain; eauto|].
    inversion H as [? ? [K Hr]|]; subst; auto.
    unfold group_step, lookup in E. rewrite K, (I _ Hr), Hr in E. discriminate.
  - cbn [bind]. unfold group_step, lookup in E.
    destruct (keep r); [|discriminate].
    destruct (own m (key_of r)); [discriminate|].
    destruct (inherited (key_of r)); [|discriminate]. congruence.
Qed.

End GroupingThrows.

Lemma inherited_not_empty k : inherited k = true -> String.eqb k "" = false.
Proof.
  intro H. destruct (String.eqb k "") eqn:E; auto.
  apply String.eqb_eq in E. subst. discriminate.
Qed.

Lemma contractor_loop_throws data :
  Exists (fun r => inherited (Contractor r) = true) data ->
  for_of contractor_step data [] = Throw push_on_undefined.
Proof.
  intro H. rewrite (for_of_ext _ _ _ contractor_step_generic).
  apply for_of_group_throws; [reflexivity|].
  eapply Exists_impl; [|exact H]. intros r Hr. split; auto.
  unfold has_contractor. now rewrite inherited_not_empty.
Qed.

Lemma inherited_split data :
  Forall (fun r => inherited (Contractor r) = false) data \/
  Exists (fun r => inherited (Contractor r) = true) data.
Proof.
  induction data as [|r data [IH|IH]]; [left; constructor| |right; now constructor].
  destruct (inherited (Contractor r)) eqn:E.
  - right. now constructor.
  - left. now constructor.
Qed.

(** X7.  The contractor report throws exactly when some project names its
    contractor like a member that every object inherits ([constructor],
    [toString], [__proto__], ...): the group is then never created, and
    pushing on its [delays] fails with a [TypeError]; otherwise both files
    return their report. *)
Theorem X7_contractor_report_throws_on_inherited_name (data : list CleanedProject) :
  if existsb (fun r => inherited (Contractor r)) data
  then MainJs.generateReport2 data = Throw push_on_undefined /\
       Part000.generateReport2 data = Throw push_on_undefined
  else exists rows1 rows2,
         MainJs.generateReport2 data = Normal rows1 /\
         Part000.generateReport2 data = Normal rows2.
Proof.
  destruct (existsb (fun r => inherited (Contractor r)) data) eqn:X.
  - assert (E : Exists (fun r => inherited (Contractor r) = true) data).
    { apply Exists_exists. now apply existsb_exists in X. }
    unfold MainJs.generateReport2, Part000.generateReport2.
    rewrite (contractor_loop_throws data E). split; reflexivity.
  - apply report2_total. apply Forall_forall. intros r I.
    destruct (inherited (Contractor r)) eqn:E; auto.
    assert (existsb (fun r => inherited (Contractor r)) data = true)
      by (apply existsb_exists; eauto).
    congruence.
Qed.

(** ** The groups of a finished loop, listed with their keys *)

Section Listing.
Context {G : Type}.
Variable keep : CleanedProject -> bool.
Variable key_of : CleanedProject -> string.
Variable fresh : CleanedProject -> G.
Variable push : CleanedProject -> G -> G.

Lemma grouped_entries ds m :
  grouped keep key_of fresh push ds m ->
  Object_values m = map snd (Object_entries m) /\
  NoDup (map fst (Object_entries m)) /\
  Forall (fun e => exists r rs,
            members keep key_of (fst e) ds = r :: rs /\
            snd e = fold_left (fun a x => push x a) (r :: rs) (fresh r))
         (Object_entries m) /\
  (forall r, In r ds -> keep r = true ->
             In (key_of r) (map fst (Object_entries m))).
Proof.
  intros Hg. pose proof Hg as [N O].
  pose proof (Object_entries_perm m) as P.
  split; [reflexivity|]. split; [|split].
  - eapply Permutation_NoDup; [|exact N].
    apply Permutation_map. now symmetry.
  - apply Forall_forall. intros [k g] I. cbn [fst snd].
    apply (Permutation_in _ P) in I. apply In_own in I; auto.
    rewrite O in I. destruct (members keep key_of k ds) as [|r rs]; [discriminate|].
    exists r, rs. split; auto. unfold built in I. congruence.
  - intros r I K.
    apply (Permutation_in _ (Permutation_map fst (Permutation_sym P))).
    eapply grouped_keys_cover; eauto.
Qed.

End Listing.

Lemma NoDup_firstn {A} n (l : list A) : NoDup l -> NoDup (firstn n l).
Proof.
  intro H. rewrite <- (firstn_skipn n l) in H.
  now apply NoDup_app_remove_r in H.
Qed.

Lemma members_head keep key_of k ds r rs :
  members keep key_of k ds = r :: rs -> In r ds /\ key_of r = k.
Proof.
  intro M. apply (members_key keep key_of k ds r). rewrite M. now left.
Qed.

(** The names of the contractor groups are their keys. *)
Lemma contractor_names data m :
  grouped has_contractor Contractor contractor_fresh contractor_push data m ->
  NoDup (map ContractorGroup.Contractor (Object_values m)).
Proof.
  intro Hg. destruct (grouped_entries _ _ _ _ _ _ Hg) as (E & N & F & _).
  rewrite E, map_map.
  replace (map (fun e => ContractorGroup.Contractor (snd e)) (Object_entries m))
    with (map fst (Object_entries m)); [exact N|].
  apply map_ext_in. intros [k g] I. rewrite Forall_forall in F.
  destruct (F _ I) as (r & rs & M & Eg). cbn [fst snd] in *.
  rewrite Eg, contractor_fold. cbn [ContractorGroup.Contractor contractor_fresh].
  symmetry. now apply members_head in M.
Qed.

(** ** [Object.fromEntries] and [Object.keys] *)

Lemma assign_keys {V} (o : object V) k v :
  NoDup (map fst o) ->
  NoDup (map fst (assign o k v)) /\
  forall k', In k' (map fst (assign o k v)) <-> k' = k \/ In k' (map fst o).
Proof.
  intro N. unfold assign. destruct (own o k) eqn:E.
  - rewrite keys_update. split; auto. intro k'. split; [tauto|].
    intros [->|H]; auto.
    destruct (in_dec string_dec k (map fst o)) as [I|I]; auto.
    apply own_None in I. congruence.
  - unfold define. rewrite map_app. cbn [map fst]. split.
    + apply NoDup_app; auto.
      * repeat constructor. intros [].
      * intros x Hx [<-|[]]. now apply own_None in E.
    + intro k'. rewrite in_app_iff. cbn [In]. intuition auto.
Qed.

Lemma fromEntries_keys {V} (es : list (string * V)) : forall o,
  NoDup (map fst o) ->
  let o' := fold_left (fun o e => assign o (fst e) (snd e)) es o in
  NoDup (map fst o') /\
  forall k, In k (map fst o') <-> In k (map fst o) \/ In k (map fst es).
Proof.
  induction es as [|[k v] es IH]; intros o N; cbn [fold_left map fst In].
  - split; auto. tauto.
  - destruct (assign_keys o k v N) as [N1 I1].
    destruct (IH (assign o k v) N1) as [N2 I2]. split; auto.
    intro k'. rewrite I2, I1. intuition (subst; auto).
Qed.

(** [Object.keys(Object.fromEntries(es))] has one key per distinct key of
    [es]. *)
Lemma fromEntries_count {V} (es : list (string * V)) :
  List.length (Object_keys (Object_fromEntries es)) =
  List.length (nodup string_dec (map fst es)).
Proof.
  unfold Object_keys, Object_fromEntries.
  destruct (fromEntries_keys es [] (NoDup_nil _)) as [N I].
  set (o := fold_left (fun (o : object V) (e : string * V) => assign o (fst e) (snd e)) es []) in *.
  apply Permutation_length.
  rewrite (Permutation_map fst (Object_entries_perm o)).
  apply NoDup_Permutation; auto; [apply NoDup_nodup|].
  intro k. rewrite I, nodup_In. cbn [map In]. tauto.
Qed.

Lemma fromEntries_count_distinct {V} (es : list (string * V)) :
  NoDup (map fst es) ->
  List.length (Object_keys (Object_fromEntries es)) = List.length es.
Proof.
  intro N. rewrite fromEntries_count, nodup_fixed_point by assumption.
  apply length_map.
Qed.

(** ** The summary *)

Lemma distinct_same l l' :
  (forall x, In x l <-> In x l') -> distinct l = distinct l'.
Proof.
  intro H. unfold distinct. apply Permutation_length.
  apply NoDup_Permutation; try apply NoDup_nodup.
  intro x. now rewrite !nodup_In.
Qed.

Lemma MainJs_report2_names data rows :
  MainJs.generateReport2 data = Normal rows ->
  NoDup (map MainJs.Row2.Contractor rows) /\
  (List.length rows <= 15)%nat /\
  Forall (fun r => (5 <= MainJs.Row2.Projects r)%nat) rows.
Proof.
  intro R. unfold MainJs.generateReport2 in R.
  destruct (for_of contractor_step data []) as [m|e] eqn:H; [|discriminate].
  cbn [bind] in R. set (cmp := fun a b : MainJs.Row2.t => _) in R.
  set (cs := filter (fun c => (5 <=? ContractorGroup.projects c)%nat)
               (Object_values m)) in R.
  assert (E : rows = firstn 15 (sort cmp (map MainJs.contractor_row cs)))
    by congruence.
  clear R. subst rows.
  pose proof (contractor_names data m (contractor_loop_grouped _ _ H)) as N.
  split; [|split].
  - rewrite <- firstn_map. apply NoDup_firstn.
    eapply Permutation_NoDup;
      [apply Permutation_map; symmetry; apply sort_perm|].
    rewrite map_map. cbn [MainJs.contractor_row MainJs.Row2.Contractor].
    change (map (fun x => ContractorGroup.Contractor x) cs)
      with (map ContractorGroup.Contractor cs).
    unfold cs. clear - N. induction (Object_values m) as [|c l IH]; cbn [filter map].
    + constructor.
    + cbn [map] in N. inversion N as [|? ? N1 N2]; subst.
      destruct (5 <=? ContractorGroup.projects c)%nat; auto.
      cbn [map]. constructor; auto. intro I. apply N1.
      apply in_map_iff in I. destruct I as (c' & E & I).
      apply filter_In in I. apply in_map_iff. exists c'. tauto.
  - apply firstn_le_length.
  - apply Forall_forall. intros r I. apply In_firstn in I. apply sort_In in I.
    apply in_map_iff in I. destruct I as (c & <- & I).
    apply filter_In in I. destruct I as [_ L]. apply Nat.leb_le in L. exact L.
Qed.

Lemma Part000_report2_names data rows :
  Part000.generateReport2 data = Normal rows ->
  NoDup (map Part000.Row2.Contractor rows) /\
  (List.length rows <= 15)%nat /\
  Forall (fun r => (5 <= Part000.Row2.NumProjects r)%nat) rows.
Proof.
  intro R. unfold Part000.generateReport2, Part000.ranked in R.
  destruct (for_of contractor_step data []) as [m|e] eqn:H; [|discriminate].
  cbn [bind] in R. set (cmp := fun a b : Part000.Row2.t => _) in R.
  set (cs := filter (fun c => (5 <=? ContractorGroup.projects c)%nat)
               (Object_values m)) in R.
  assert (E : rows = map Part000.delete_rawTotalCost
                       (firstn 15 (sort cmp (map Part000.contractor_row cs))))
    by congruence.
  clear R. subst rows.
  pose proof (contractor_names data m (contractor_loop_grouped _ _ H)) as N.
  split; [|split].
  - rewrite map_map. cbn [Part000.delete_rawTotalCost Part000.Row2.Contractor].
    change (map (fun x => Part000.Row2.Contractor x)
              (firstn 15 (sort cmp (map Part000.contractor_row cs))))
      with (map Part000.Row2.Contractor
              (firstn 15 (sort cmp (map Part000.contractor_row cs)))).
    rewrite <- firstn_map. apply NoDup_firstn.
    eapply Permutation_NoDup;
      [apply Permutation_map; symmetry; apply sort_perm|].
    rewrite map_map. cbn [Part000.contractor_row Part000.Row2.Contractor].
    change (map (fun x => ContractorGroup.Contractor x) cs)
      with (map ContractorGroup.Contractor cs).
    unfold cs. clear - N. induction (Object_values m) as [|c l IH]; cbn [filter map].
    + constructor.
    + cbn [map] in N. inversion N as [|? ? N1 N2]; subst.
      destruct (5 <=? ContractorGroup.projects c)%nat; auto.
      cbn [map]. constructor; auto. intro I. apply N1.
      apply in_map_iff in I. destruct I as (c' & E & I).
      apply filter_In in I. apply in_map_iff. exists c'. tauto.
  - rewrite length_map. apply firstn_le_length.
  - apply Forall_forall. intros r I. apply in_map_iff in I.
    destruct I as (r0 & <- & I). apply (In_firstn 15) in I. apply sort_In in I.
    apply in_map_iff in I. destruct I as (c & <- & I).
    apply filter_In in I. destruct I as [_ L]. apply Nat.leb_le in L. exact L.
Qed.

(** X8.  [totalContractors] of the summary counts the rows of the contractor
    report, not the contractors of the data: the contractors with at least 5
    projects, and at most 15 of them. *)
Theorem X8_summary_counts_the_ranked_contractors (data : list CleanedProject) :
  (forall rows1 rows2,
     MainJs.generateReport2 data = Normal rows2 ->
     Summary.totalContractors (MainJs_summary data rows1 rows2)
       = List.length rows2 /\
     (Summary.totalContractors (MainJs_summary data rows1 rows2) <= 15)%nat /\
     Forall (fun r => (5 <= MainJs.Row2.Projects r)%nat) rows2) /\
  (forall rows1 rows2,
     Part000.generateReport2 data = Normal rows2 ->
     Summary.totalContractors (Part000_summary data rows1 rows2)
       = List.length rows2 /\
     (Summary.totalContractors (Part000_summary data rows1 rows2) <= 15)%nat /\
     Forall (fun r => (5 <= Part000.Row2.NumProjects r)%nat) rows2).
Proof.
  split; intros rows1 rows2 R.
  - destruct (MainJs_report2_names data rows2 R) as (N & L & F).
    assert (E : Summary.totalContractors (MainJs_summary data rows1 rows2)
                = List.length rows2).
    { unfold MainJs_summary, generateSummary. cbn [Summary.totalContractors].
      rewrite fromEntries_count_distinct, length_map; auto.
      now rewrite map_map. }
    rewrite E. auto.
  - destruct (Part000_report2_names data rows2 R) as (N & L & F).
    assert (E : Summary.totalContractors (Part000_summary data rows1 rows2)
                = List.length rows2).
    { unfold Part000_summary, generateSummary. cbn [Summary.totalContractors].
      rewrite fromEntries_count_distinct, length_map; auto.
      now rewrite map_map. }
    rewrite E. auto.
Qed.

(** The region names of the rows of the regional report are those of the
    projects, when no name holds a vertical bar. *)
Lemma region_key_name p r :
  bar_free (Region p) -> bar_free (Region r) ->
  region_key p = region_key r -> Region p = Region r.
Proof.
  unfold region_key, bar_free. intros Bp Br H. apply (f_equal chars) in H.
  rewrite !chars_append in H. cbn [chars list_ascii_of_string app] in H.
  apply split_unique in H; auto.
  rewrite <- (str_chars (Region p)), <- (str_chars (Region r)). now f_equal.
Qed.

Lemma region_group_names data m :
  Forall (fun p => bar_free (Region p)) data ->
  grouped always region_key region_fresh region_push data m ->
  forall name, In name (map RegionGroup.Region (Object_values m)) <->
               In name (map Region data).
Proof.
  intros B Hg name. rewrite Forall_forall in B.
  destruct (grouped_entries _ _ _ _ _ _ Hg) as (E & N & F & C).
  rewrite Forall_forall in F. rewrite E, map_map. split; intro I.
  - apply in_map_iff in I. destruct I as ([k g] & <- & I).
    destruct (F _ I) as (r & rs & M & Eg). cbn [fst snd] in *.
    apply members_head in M. destruct M as [Ir _].
    rewrite Eg, region_fold. cbn [RegionGroup.Region region_fresh].
    now apply in_map.
  - apply in_map_iff in I. destruct I as (p & <- & Ip).
    pose proof (C p Ip eq_refl) as K. apply in_map_iff in K.
    destruct K as ([k g] & Ek & Ie). cbn [fst] in Ek. subst k.
    destruct (F _ Ie) as (r & rs & M & Eg). cbn [fst snd] in *.
    apply members_head in M. destruct M as [Ir Kr].
    apply in_map_iff. exists (region_key p, g). split; auto. cbn [snd].
    rewrite Eg, region_fold. cbn [RegionGroup.Region region_fresh].
    apply region_key_name; auto.
Qed.

Lemma MainJs_report1_regions data :
  Forall (fun p => bar_free (Region p)) data ->
  exists rows, MainJs.generateReport1 data = Normal rows /\
               forall name, In name (map MainJs.Row1.Region rows) <->
                            In name (map Region data).
Proof.
  intro B. destruct (region_loop_total data) as (m & H & Hg).
  unfold MainJs.generateReport1. rewrite H. cbn [bind].
  eexists. split; [reflexivity|]. intro name.
  rewrite <- (region_group_names data m B Hg).
  set (cmp := fun a b : MainJs.Row1.t => _).
  assert (P : Permutation
                (map MainJs.Row1.Region
                   (sort cmp (map MainJs.region_row (Object_values m))))
                (map RegionGroup.Region (Object_values m))).
  { rewrite (Permutation_map _ (sort_perm cmp _)), map_map. reflexivity. }
  split; apply Permutation_in; [|symmetry]; exact P.
Qed.

Lemma Part000_report1_regions data :
  Forall (fun p => bar_free (Region p)) data ->
  exists rows, Part000.generateReport1 data = Normal rows /\
               forall name, In name (map Part000.Row1.Region rows) <->
                            In name (map Region data).
Proof.
  intro B. destruct (region_loop_total data) as (m & H & Hg).
  unfold Part000.generateReport1. rewrite H. cbn [bind].
  eexists. split; [reflexivity|]. intro name.
  rewrite <- (region_group_names data m B Hg).
  set (cmp := fun a b : Part000.Row1.t => _).
  set (mn := Math_min _). set (mx := Math_max _).
  assert (P : Permutation
                (map Part000.Row1.Region
                   (sort cmp (map (Part000.normalize mn mx)
                                (Part000.raw_results m))))
                (map RegionGroup.Region (Object_values m))).
  { rewrite (Permutation_map _ (sort_perm cmp _)).
    unfold Part000.raw_results. rewrite !map_map. reflexivity. }
  split; apply Permutation_in; [|symmetry]; exact P.
Qed.

(** X9.  When no region name holds a vertical bar, [totalRegions] of the
    summary is the number of distinct region names of the cleaned projects:
    a name that occurs on two islands makes two rows of the regional report
    and counts once. *)
Theorem X9_summary_counts_distinct_region_names (data : list CleanedProject) :
  Forall (fun p => bar_free (Region p)) data ->
  (exists rows1,
     MainJs.generateReport1 data = Normal rows1 /\
     forall rows2,
       Summary.totalRegions (MainJs_summary data rows1 rows2)
         = distinct (map Region data)) /\
  (exists rows1,
     Part000.generateReport1 data = Normal rows1 /\
     forall rows2,
       Summary.totalRegions (Part000_summary data rows1 rows2)
         = distinct (map Region data)).
Proof.
  intro B. split.
  - destruct (MainJs_report1_regions data B) as (rows1 & R & I).
    exists rows1. split; auto. intro rows2.
    unfold MainJs_summary, generateSummary. cbn [Summary.totalRegions].
    rewrite fromEntries_count, map_map. cbn [fst].
    now apply distinct_same.
  - destruct (Part000_report1_regions data B) as (rows1 & R & I).
    exists rows1. split; auto. intro rows2.
    unfold Part000_summary, generateSummary. cbn [Summary.totalRegions].
    rewrite fromEntries_count, map_map. cbn [fst].
    now apply distinct_same.
Qed.

Lemma X9_witness :
  Forall (fun p => bar_free (Region p)) (Examples.cleaned Samples.two_islands) /\
  (exists rows1,
     MainJs.generateReport1 (Examples.cleaned Samples.two_islands) = Normal rows1 /\
     forall rows2,
       Summary.totalRegions
         (MainJs_summary (Examples.cleaned Samples.two_islands) rows1 rows2)
       = distinct (map Region (Examples.cleaned Samples.two_islands))) /\
  (exists rows1,
     Part000.generateReport1 (Examples.cleaned Samples.two_islands) = Normal rows1 /\
     forall rows2,
       Summary.totalRegions
         (Part000_summary (Examples.cleaned Samples.two_islands) rows1 rows2)
       = distinct (map Region (Examples.cleaned Samples.two_islands))).
Proof.
  assert (B : Forall (fun p => bar_free (Region p))
                     (Examples.cleaned Samples.two_islands)).
  { vm_compute. repeat constructor; intro H;
      repeat (destruct H as [H|H]; [discriminate|]); exact H. }
  split; [exact B|].
  exact (X9_summary_counts_distinct_region_names
           (Examples.cleaned Samples.two_islands) B).
Defined.


(** ** The preview table *)

Lemma length_chars s : String.length s = List.length (chars s).
Proof. induction s as [|c s IH]; cbn; auto. Qed.

Lemma length_str l : String.length (str l) = List.length l.
Proof. now rewrite length_chars, chars_str. Qed.

Lemma length_append a b :
  String.length (a ++ b)%string = (String.length a + String.length b)%nat.
Proof. now rewrite !length_chars, chars_append, length_app. Qed.

Lemma length_repeat_char c n : String.length (repeat_char c n) = n.
Proof. unfold repeat_char. now rewrite length_str, repeat_length. Qed.

Lemma length_padEnd s n :
  (String.length s <= n)%nat -> String.length (padEnd s n) = n.
Proof.
  intro H. unfold padEnd. rewrite length_append, length_repeat_char. lia.
Qed.

Lemma fold_max_ge l : forall a,
  (a <= fold_left Nat.max l a)%nat /\
  forall x, In x l -> (x <= fold_left Nat.max l a)%nat.
Proof.
  induction l as [|y l IH]; intro a; cbn [fold_left In]; [split; [lia|tauto]|].
  destruct (IH (Nat.max a y)) as [A B]. split; [lia|].
  intros x [<-|H]; [lia|auto].
Qed.

Lemma join_length sep xs :
  String.length (join sep xs) =
  (list_sum (map String.length xs)
   + String.length sep * (List.length xs - 1))%nat.
Proof.
  induction xs as [|x xs IH]; [simpl; lia|].
  destruct xs as [|y xs]; [simpl; lia|].
  change (join sep (x :: y :: xs)) with (x ++ sep ++ join sep (y :: xs))%string.
  rewrite !length_append, IH.
  cbn [map list_sum fold_right List.length]. lia.
Qed.

Lemma colWidth_header results h : (String.length h + 2 <= colWidth results h)%nat.
Proof.
  unfold colWidth.
  destruct (fold_max_ge
              (map (fun r => match cell r h with
                             | Some t => String.length t
                             | None => O
                             end) results) (String.length h)) as [A _].
  lia.
Qed.

Lemma colWidth_cell results r h t :
  In r results -> cell r h = Some t ->
  (String.length t + 2 <= colWidth results h)%nat.
Proof.
  intros I C. unfold colWidth.
  destruct (fold_max_ge
              (map (fun r => match cell r h with
                             | Some t => String.length t
                             | None => O
                             end) results) (String.length h)) as [_ B].
  specialize (B (String.length t)).
  assert (In (String.length t)
            (map (fun r => match cell r h with
                           | Some t => String.length t
                           | None => O
                           end) results)).
  { apply in_map_iff. exists r. now rewrite C. }
  apply B in H. lia.
Qed.

Lemma combine_widths results hs :
  combine hs (map (colWidth results) hs) = map (fun h => (h, colWidth results h)) hs.
Proof. induction hs as [|h hs IH]; cbn [combine map]; congruence. Qed.

(** Every field of a line is as wide as its column. *)
Lemma fields_width results hs (field : string * nat -> string) :
  (forall h, String.length (field (h, colWidth results h)) = colWidth results h) ->
  map String.length (map field (combine hs (map (colWidth results) hs))) =
  map (colWidth results) hs.
Proof.
  intro H. rewrite combine_widths, !map_map. apply map_ext. intro h. apply H.
Qed.

Lemma table_aligned results :
  results <> [] ->
  List.length (table results) = (2 + List.length results)%nat /\
  exists width, Forall (fun line => String.length line = width) (table results).
Proof.
  destruct results as [|first rest]; [congruence|]. intros _.
  unfold table. set (results := first :: rest).
  set (hs := Object_keys first).
  set (ws := map (colWidth results) hs).
  set (headerRow := join bar _).
  split; [cbn [List.length]; now rewrite length_map|].
  assert (W : forall fs, map String.length fs = ws ->
              String.length (join bar fs) =
              (list_sum ws + String.length bar * (List.length hs - 1))%nat).
  { intros fs F. rewrite join_length, F.
    replace (List.length fs) with (List.length hs); [reflexivity|].
    rewrite <- (length_map String.length fs), F. unfold ws.
    now rewrite length_map. }
  assert (H0 : String.length headerRow =
               (list_sum ws + String.length bar * (List.length hs - 1))%nat).
  { apply W. apply fields_width. intro h. cbn [fst snd].
    apply length_padEnd. pose proof (colWidth_header results h). lia. }
  exists (String.length headerRow).
  constructor; [reflexivity|]. constructor; [apply length_repeat_char|].
  apply Forall_forall. intros line I. apply in_map_iff in I.
  destruct I as (r & <- & I). rewrite H0. apply W.
  apply fields_width. intro h. cbn [fst snd].
  destruct (cell r h) as [t|] eqn:C.
  - apply length_padEnd. pose proof (colWidth_cell results r h t I C). lia.
  - apply length_repeat_char.
Qed.

(** X11.  When [previewFile] has rows to show, it prints the heading, then a
    table of the first [lines] rows and an empty line: a header row, a rule
    and one line per row, all of the same length, so that the columns stand
    aligned whatever the cells hold, empty or missing ones included. *)
Theorem X11_preview_table_is_aligned (filePath : string)
  (rows : list (object string)) (lines : nat)
  (reportTitle filterNote : string) (reportNumber : Z) :
  firstn lines rows <> [] ->
  (exists head,
     preview filePath (Rows rows) (Some lines) reportTitle filterNote reportNumber
     = head ++ map Log (table (firstn lines rows)) ++ [Log ""%string]) /\
  List.length (table (firstn lines rows))
    = (2 + Nat.min lines (List.length rows))%nat /\
  exists width,
    Forall (fun line => String.length line = width) (table (firstn lines rows)).
Proof.
  intro N. destruct (table_aligned (firstn lines rows) N) as [L A].
  split; [|split; auto].
  - unfold preview. destruct (firstn lines rows); [congruence|].
    cbn [is_nil]. eexists. reflexivity.
  - rewrite L, length_firstn. reflexivity.
Qed.

Lemma X11_witness :
  firstn 2 Samples.csv_rows <> [] /\
  (exists head,
     preview "report1.csv" (Rows Samples.csv_rows) (Some 2%nat)
       "Regional Summary" "" 1
     = head ++ map Log (table (firstn 2 Samples.csv_rows)) ++ [Log ""%string]) /\
  List.length (table (firstn 2 Samples.csv_rows))
    = (2 + Nat.min 2 (List.length Samples.csv_rows))%nat /\
  exists width,
    Forall (fun line => String.length line = width)
           (table (firstn 2 Samples.csv_rows)).
Proof.
  assert (N : firstn 2 Samples.csv_rows <> []) by discriminate.
  split; [exact N|].
  exact (X11_preview_table_is_aligned "report1.csv" Samples.csv_rows 2
           "Regional Summary" "" 1 N).
Defined.

(** ** The order and the number of the rows *)

(** Sorting on [(a, b) => key(b) - key(a)] puts keys that are numbers in
    non-increasing order. *)
Lemma sort_descending {A} (key : A -> number) l :
  Forall (fun x => isNaN (key x) = false) l ->
  StronglySorted (fun a b => num_le (key b) (key a))
                 (sort (fun a b => sub (key b) (key a)) l).
Proof.
  assert (G : forall a b, isNaN (key a) = false -> isNaN (key b) = false ->
              goes_after (fun a b => sub (key b) (key a)) a b
              = ltb (key a) (key b)).
  { intros a b Ha Hb.
    change (goes_after (fun x y => sub x y) (key b) (key a)
            = ltb (key a) (key b)).
    now apply sub_goes_after. }
  apply sort_sorted.
  - intros x y Hx Hy H. rewrite G in H by assumption. now apply ltb_false_leb.
  - intros x y Hx Hy H. rewrite G in H by assumption. now apply ltb_leb.
  - intros x y z H1 H2. unfold num_le in *. eapply leb_trans; eauto.
Qed.

Section Counting.
Context {G : Type}.
Variable keep : CleanedProject -> bool.
Variable key_of : CleanedProject -> string.
Variable fresh : CleanedProject -> G.
Variable push : CleanedProject -> G -> G.

(** One group per distinct key of the rows that the loop keeps. *)
Lemma grouped_count ds m :
  grouped keep key_of fresh push ds m ->
  List.length (Object_values m) = distinct (map key_of (filter keep ds)).
Proof.
  intro Hg. destruct (grouped_entries _ _ _ _ _ _ Hg) as (E & N & F & C).
  rewrite E, length_map, <- (length_map fst). unfold distinct.
  apply Permutation_length, NoDup_Permutation; auto; [apply NoDup_nodup|].
  intro k. rewrite nodup_In. split; intro I.
  - apply in_map_iff in I. destruct I as (e & <- & I).
    rewrite Forall_forall in F. destruct (F _ I) as (r & rs & M & _).
    assert (Ir : In r (members keep key_of (fst e) ds)) by (rewrite M; now left).
    unfold members in Ir. apply filter_In in Ir. destruct Ir as [Ir K].
    apply andb_true_iff in K. destruct K as [K1 K2].
    apply String.eqb_eq in K2. rewrite <- K2.
    apply in_map. apply filter_In. auto.
  - apply in_map_iff in I. destruct I as (r & <- & I).
    apply filter_In in I. destruct I as [I K]. now apply C.
Qed.

End Counting.

(** The regional report of the second pass, as its groups give it. *)
Lemma Part000_report1_sorted data :
  exists regionMap rows,
    for_of region_step data [] = Normal regionMap /\
    Part000.generateReport1 data = Normal rows /\
    List.length rows = List.length (Object_values regionMap) /\
    StronglySorted (fun a b => num_le (Part000.Row1.EfficiencyScore b)
                                      (Part000.Row1.EfficiencyScore a)) rows.
Proof.
  destruct (Part000_scores_normalized data) as (m & rows & H & R & S & _).
  exists m, rows. split; auto. split; auto.
  unfold Part000.generateReport1 in R. rewrite H in R. cbn [bind] in R.
  set (mn := Math_min _) in R. set (mx := Math_max _) in R.
  set (l := map (Part000.normalize mn mx) (Part000.raw_results m)) in R.
  assert (E : rows = sort (fun a b => sub (Part000.Row1.EfficiencyScore b)
                                          (Part000.Row1.EfficiencyScore a)) l)
    by congruence.
  clear R. subst rows. split.
  - rewrite sort_length. unfold l, Part000.raw_results.
    now rewrite !length_map.
  - apply sort_descending.
    eapply Permutation_Forall; [apply sort_perm|].
    eapply Forall_impl; [|exact S]. now intros r (q & -> & _).
Qed.

(** Without thousands separators, a score cell of [src/main.js] reads as a
    number the way it displays. *)
Lemma group3_short_checked :
  forallb (fun k => if list_eq_dec ascii_dec (group3 (digits (N.of_nat k)))
                                   (digits (N.of_nat k))
                    then true else false)
          (seq 0 101) = true.
Proof. vm_compute. reflexivity. Qed.

Lemma group3_short k : (k <= 100)%N -> group3 (digits k) = digits k.
Proof.
  intro H. pose proof group3_short_checked as C.
  rewrite forallb_forall in C. specialize (C (N.to_nat k)).
  rewrite N2Nat.id in C.
  destruct (list_eq_dec ascii_dec (group3 (digits k)) (digits k)); auto.
  assert (I : In (N.to_nat k) (seq 0 101)) by (apply in_seq; lia).
  apply C in I. discriminate.
Qed.

Lemma round_scaled_le q :
  (0 <= q <= 100)%Q -> (round_scaled 2 q / 10 ^ N.of_nat 2 <= 100)%N.
Proof.
  intros [L U]. unfold round_scaled. destruct q as [a b].
  unfold Qle in L, U. cbn [Qnum Qden] in *.
  change (Z.of_nat 2) with 2. change (10 ^ 2) with 100.
  change (10 ^ N.of_nat 2)%N with 100%N.
  set (t := (2 * (Z.abs a * 100) + Z.pos b) / (2 * Z.pos b)).
  assert (T : 0 <= t <= 10000).
  { split; [apply Z.div_pos; lia|].
    apply Z.lt_succ_r. apply Z.div_lt_upper_bound; lia. }
  assert (D : (Z.to_N t / 100 <= 100)%N).
  { apply N.Div0.div_le_upper_bound. lia. }
  exact D.
Qed.

Lemma Number_score q :
  (0 <= q <= 100)%Q ->
  Number_ (formatNumber (Fin q) 2) = round2 (Fin q) /\
  shown (formatNumber (Fin q) 2) = round2 (Fin q).
Proof.
  intro H. split; [|now apply shown_formatNumber].
  rewrite <- Number_toFixed. f_equal.
  unfold formatNumber, toLocaleString, toFixed. cbn [isNaN]. cbv iota.
  now rewrite group3_short by now apply round_scaled_le.
Qed.

(** The regional report of [src/main.js], as its groups give it. *)
Lemma MainJs_report1_sorted data :
  exists regionMap rows,
    for_of region_step data [] = Normal regionMap /\
    MainJs.generateReport1 data = Normal rows /\
    List.length rows = List.length (Object_values regionMap) /\
    StronglySorted (fun a b => num_le (shown (MainJs.Row1.EfficiencyScore b))
                                      (shown (MainJs.Row1.EfficiencyScore a))) rows.
Proof.
  destruct (region_loop_total data) as (m & H & _).
  unfold MainJs.generateReport1. rewrite H. cbn [bind].
  exists m. eexists. split; [reflexivity|]. split; [reflexivity|].
  split; [now rewrite sort_length, length_map|].
  set (l := map MainJs.region_row (Object_values m)).
  assert (F : Forall (fun r => Number_ (MainJs.Row1.EfficiencyScore r)
                               = shown (MainJs.Row1.EfficiencyScore r) /\
                               isNaN (Number_ (MainJs.Row1.EfficiencyScore r)) = false) l).
  { apply Forall_forall. intros r I. apply in_map_iff in I.
    destruct I as (g & <- & _).
    unfold MainJs.region_row. cbn [MainJs.Row1.EfficiencyScore].
    match goal with
    | |- context [min2 (Fin 100) (max2 (Fin 0) ?e)] =>
        destruct (clamp_range e) as (q & -> & B);
        [apply guard_negative_finite|]
    end.
    destruct (Number_score q B) as [E1 E2]. rewrite E1, E2. auto. }
  pose proof (sort_descending (fun r => Number_ (MainJs.Row1.EfficiencyScore r)) l) as S.
  cbv beta in S.
  assert (S' : StronglySorted
                 (fun a b => num_le (Number_ (MainJs.Row1.EfficiencyScore b))
                                    (Number_ (MainJs.Row1.EfficiencyScore a)))
                 (sort (fun a b => sub (Number_ (MainJs.Row1.EfficiencyScore b))
                                       (Number_ (MainJs.Row1.EfficiencyScore a))) l)).
  { apply S. eapply Forall_impl; [|exact F]. now intros r [_ N]. }
  clear S.
  assert (Fs : Forall (fun r => Number_ (MainJs.Row1.EfficiencyScore r)
                                = shown (MainJs.Row1.EfficiencyScore r))
                      (sort (fun a b => sub (Number_ (MainJs.Row1.EfficiencyScore b))
                                            (Number_ (MainJs.Row1.EfficiencyScore a))) l)).
  { apply sort_Forall. eapply Forall_impl; [|exact F]. now intros r [E _]. }
  revert S' Fs. generalize (sort (fun a b => sub (Number_ (MainJs.Row1.EfficiencyScore b))
                                            (Number_ (MainJs.Row1.EfficiencyScore a))) l).
  intros rows S'. induction S' as [|a rows S' IH Ha]; intro Fs; constructor.
  - apply IH. now inversion Fs.
  - inversion Fs as [|? ? Ea Fr]; subst. rewrite Forall_forall in *.
    intros b Ib. rewrite <- Ea, <- (Fr b Ib). now apply Ha.
Qed.

(** X12.  The regional report of the second pass is always produced; its
    scores are rescaled over the groups of the run to numbers between 0 and
    100, and all of them are 0 when the run has a single group or when the
    raw scores of all groups are equal. *)
Theorem X12_part000_scores_are_normalized (data : list CleanedProject) :
  exists regionMap rows,
    for_of region_step data [] = Normal regionMap /\
    Part000.generateReport1 data = Normal rows /\
    Forall (fun r => exists q, Part000.Row1.EfficiencyScore r = Fin q /\
                               (0 <= q <= 100)%Q) rows /\
    (List.length (Part000.raw_results regionMap) = 1%nat \/
     (forall a b, In a (Part000.raw_results regionMap) ->
                  In b (Part000.raw_results regionMap) ->
                  eqb (Part000.Row1.EfficiencyScore a)
                      (Part000.Row1.EfficiencyScore b) = true) ->
     Forall (fun r => Part000.Row1.EfficiencyScore r = Fin 0) rows).
Proof. exact (Part000_scores_normalized data). Qed.

(** X13.  The regional report has one row per distinct [Region|MainIsland]
    key of the cleaned projects, in non-increasing order of the efficiency
    score: of the number itself in the second pass, of the number that the
    cell displays in [src/main.js], whose scores of at most 100 carry no
    thousands separator that would spoil the comparison. *)
Theorem X13_regional_rows_are_ordered_by_score (data : list CleanedProject) :
  (exists rows,
     MainJs.generateReport1 data = Normal rows /\
     List.length rows = distinct (map region_key data) /\
     StronglySorted
       (fun a b => num_le (shown (MainJs.Row1.EfficiencyScore b))
                          (shown (MainJs.Row1.EfficiencyScore a))) rows) /\
  (exists rows,
     Part000.generateReport1 data = Normal rows /\
     List.length rows = distinct (map region_key data) /\
     StronglySorted
       (fun a b => num_le (Part000.Row1.EfficiencyScore b)
                          (Part000.Row1.EfficiencyScore a)) rows).
Proof.
  destruct (region_loop_total data) as (m & H & Hg).
  pose proof (grouped_count _ _ _ _ _ _ Hg) as C. rewrite filter_always in C.
  split.
  - destruct (MainJs_report1_sorted data) as (m' & rows & H' & R & L & S).
    assert (m' = m) by congruence. subst m'.
    exists rows. rewrite L, C. auto.
  - destruct (Part000_report1_sorted data) as (m' & rows & H' & R & L & S).
    assert (m' = m) by congruence. subst m'.
    exists rows. rewrite L, C. auto.
Qed.

(** ** The rows of the trend report *)

Lemma type_key_work p r : type_key p = type_key r -> TypeOfWork p = TypeOfWork r.
Proof.
  intro H. pose proof (type_key_year p r H) as Y.
  unfold type_key in H. rewrite Y in H. apply (f_equal chars) in H.
  rewrite !chars_append in H. apply app_inv_head in H. apply app_inv_head in H.
  rewrite <- (str_chars (TypeOfWork p)), <- (str_chars (TypeOfWork r)).
  now f_equal.
Qed.

Lemma type_key_same p r :
  String.eqb (type_key p) (type_key r)
  = (FundingYear p =? FundingYear r) && String.eqb (TypeOfWork p) (TypeOfWork r).
Proof.
  destruct (String.eqb (type_key p) (type_key r)) eqn:E.
  - apply String.eqb_eq in E.
    rewrite (type_key_year p r E), (type_key_work p r E).
    now rewrite Z.eqb_refl, String.eqb_refl.
  - symmetry. apply andb_false_iff.
    destruct (FundingYear p =? FundingYear r) eqn:Y; auto.
    destruct (String.eqb (TypeOfWork p) (TypeOfWork r)) eqn:T; auto.
    apply Z.eqb_eq in Y. apply String.eqb_eq in T.
    apply String.eqb_neq in E. elim E. unfold type_key. now rewrite Y, T.
Qed.

Lemma members_of_year_and_work r data :
  members always type_key (type_key r) data
  = of_year_and_work (FundingYear r) (TypeOfWork r) data.
Proof.
  unfold members, of_year_and_work, always. apply filter_ext. intro p.
  cbn [andb]. apply type_key_same.
Qed.

Lemma qsum_inject l :
  (qsum (map (fun n => inject_Z (Z.of_nat n)) l) == inject_Z (Z.of_nat (list_sum l)))%Q.
Proof.
  induction l as [|n l IH]; [reflexivity|].
  cbn [map list_sum fold_right]. rewrite qsum_cons, IH.
  fold (list_sum l). rewrite Nat2Z.inj_add, inject_Z_plus. reflexivity.
Qed.

Lemma inject_nat_inj a b :
  (inject_Z (Z.of_nat a) == inject_Z (Z.of_nat b))%Q -> a = b.
Proof. unfold Qeq, inject_Z. cbn [Qnum Qden]. lia. Qed.

Lemma list_sum_perm l l' : Permutation l l' -> list_sum l = list_sum l'.
Proof. unfold list_sum. induction 1; simpl; lia. Qed.

Section TrendCounting.
Variable average : list number -> number.

(** The groups of the trend loop count the projects by year and type. *)
Lemma type_groups_counted data m :
  grouped always type_key type_fresh type_push data m ->
  counted average data (map (group_cells average) (Object_values m)).
Proof.
  intro Hg. destruct (grouped_entries _ _ _ _ _ _ Hg) as (E & N & F & C).
  rewrite Forall_forall in F.
  assert (K : forall e, In e (Object_entries m) ->
            exists r, In r data /\ type_key r = fst e /\
              YearWorkGroup.FundingYear (snd e) = FundingYear r /\
              YearWorkGroup.TypeOfWork (snd e) = TypeOfWork r /\
              YearWorkGroup.savings (snd e)
              = map CostSavings (of_year_and_work (FundingYear r) (TypeOfWork r) data) /\
              of_year_and_work (FundingYear r) (TypeOfWork r) data <> []).
  { intros e I. destruct (F _ I) as (r & rs & M & Eg).
    pose proof (members_head _ _ _ _ _ _ M) as [Ir Kr].
    exists r. rewrite Eg, type_fold.
    cbn [YearWorkGroup.FundingYear YearWorkGroup.TypeOfWork
         YearWorkGroup.savings type_fresh app].
    rewrite <- members_of_year_and_work, Kr, M.
    repeat split; auto. discriminate. }
  rewrite E, map_map. split; [|split].
  - apply (NoDup_map_inv
             (fun yt : Z * string => (Z_toString (fst yt) ++ "|" ++ snd yt)%string)).
    rewrite !map_map.
    rewrite (map_ext_in _ fst); [exact N|]. intros e I.
    destruct (K e I) as (r & _ & Kr & Y & T & _).
    cbn [group_cells TrendCells.year TrendCells.work fst snd].
    now rewrite Y, T, <- Kr.
  - apply Forall_forall. intros c I. apply in_map_iff in I.
    destruct I as (e & <- & I).
    destruct (K e I) as (r & _ & _ & Y & T & S & Ne).
    cbn [group_cells TrendCells.year TrendCells.work TrendCells.total
         TrendCells.avg TrendCells.overrun].
    rewrite Y, T, S, length_map. auto.
  - rewrite map_map.
    cbn [group_cells TrendCells.total].
    apply inject_nat_inj. rewrite <- qsum_inject, map_map.
    rewrite <- (filter_always data). rewrite <- (qsum_ones (filter always data)).
    rewrite <- (partition_sum always type_key (fun _ => 1%Q)
                  (map fst (Object_entries m)) N data)
      by (intros r Ir _; now apply C).
    rewrite map_map. apply qsum_map_ext. intros e I.
    destruct (K e I) as (r & _ & Kr & _ & _ & S & _).
    rewrite qsum_ones, S, length_map, <- Kr, members_of_year_and_work.
    reflexivity.
Qed.

Lemma counted_perm data l l' :
  Permutation l l' -> counted average data l -> counted average data l'.
Proof.
  intros P (N & F & S). split; [|split].
  - eapply Permutation_NoDup; [|exact N]. now apply Permutation_map.
  - eapply Permutation_Forall; eauto.
  - rewrite <- S. symmetry. apply list_sum_perm. now apply Permutation_map.
Qed.

End TrendCounting.

(** *** [src/main.js] *)

Lemma MainJs_type_rows_shape gs : forall a res,
  let st := fold_left MainJs.type_row gs (a, res) in
  map MainJs_cells (snd st)
  = map MainJs_cells res ++ map (group_cells MainJs.average) gs /\
  forall y, year_get a y <> None \/ In y (map YearWorkGroup.FundingYear gs) ->
            year_get (fst st) y <> None.
Proof.
  induction gs as [|g gs IH]; intros a res; cbv zeta; cbn [fold_left].
  - cbn [fst snd map In]. rewrite app_nil_r. split; [reflexivity|].
    intros y [H|[]]. exact H.
  - unfold MainJs.type_row at 2.
    match goal with
    | |- context [fold_left MainJs.type_row gs (?a', ?res')] =>
        destruct (IH a' res') as [S Y]
    end.
    cbv zeta in S, Y. split.
    + rewrite S, map_app, <- app_assoc. reflexivity.
    + intros y H. apply Y. rewrite year_get_set. cbn [map In] in H.
      destruct (y =? YearWorkGroup.FundingYear g) eqn:E; [left; discriminate|].
      apply Z.eqb_neq in E.
      destruct H as [H|[H|H]]; [left; exact H|congruence|right; exact H].
Qed.

Lemma MainJs_yoy_cells a b r :
  year_get a (MainJs.Row3.FundingYear r) <> None ->
  exists r', MainJs.yoy a b r = Normal r' /\ MainJs_cells r' = MainJs_cells r.
Proof.
  intro Y. unfold MainJs.yoy.
  destruct (year_get a (MainJs.Row3.FundingYear r)); [|now elim Y].
  eexists. split; reflexivity.
Qed.

Lemma forEach_map {A B C} (f : A -> completion B) (pa : A -> C) (pb : B -> C)
  (P : A -> Prop) xs :
  (forall x, P x -> exists y, f x = Normal y /\ pb y = pa x) ->
  Forall P xs ->
  exists ys, forEach f xs = Normal ys /\ map pb ys = map pa xs.
Proof.
  intros H F. induction F as [|x xs Px _ (ys & E & IH)]; cbn [forEach].
  - exists []. split; reflexivity.
  - destruct (H x Px) as (y & Ey & Qy). rewrite Ey, E. cbn [bind].
    exists (y :: ys). cbn [map]. split; [reflexivity|congruence].
Qed.

Lemma MainJs_trend_cells data :
  exists typeMap rows,
    for_of type_step data [] = Normal typeMap /\
    grouped always type_key type_fresh type_push data typeMap /\
    MainJs.generateReport3 data = Normal rows /\
    Permutation (map MainJs_cells rows)
                (map (group_cells MainJs.average) (Object_values typeMap)).
Proof.
  destruct (type_loop_total data) as (m & H & Hg).
  exists m. unfold MainJs.generateReport3. rewrite H. cbn [bind].
  destruct (MainJs_type_rows_shape (Object_values m) [] []) as [S Y].
  cbv zeta in S, Y. cbn [map app] in S.
  pose (st := fold_left MainJs.type_row (Object_values m) ([], [])).
  change (fold_left MainJs.type_row (Object_values m) ([], [])) with st in S, Y.
  change (fold_left MainJs.type_row (Object_values m) ([], [])) with st.
  clearbody st. destruct st as [a res]. cbn [fst snd] in S, Y.
  destruct (forEach_map (MainJs.yoy a (MainJs.baseline_of a))
              MainJs_cells MainJs_cells
              (fun r => year_get a (MainJs.Row3.FundingYear r) <> None) res
              (MainJs_yoy_cells a (MainJs.baseline_of a)))
    as (rows & E & M).
  { apply Forall_forall. intros r I. apply Y. right.
    apply (in_map MainJs_cells) in I. rewrite S in I.
    apply in_map_iff in I. destruct I as (g & Eg & I).
    apply in_map_iff. exists g. split; auto.
    apply (f_equal TrendCells.year) in Eg. exact Eg. }
  rewrite E. cbn [bind]. eexists. split; [reflexivity|].
  split; [exact Hg|]. split; [reflexivity|].
  rewrite (Permutation_map _ (sort_perm _ rows)), M, S. reflexivity.
Qed.

(** *** [src/unnamed/part_000] *)

Lemma Part000_type_rows_shape gs : forall st,
  Forall (fun g => YearWorkGroup.savings g <> []) gs ->
  map Part000_cells (Part000.results (fold_left Part000.type_row gs st))
  = map Part000_cells (Part000.results st)
    ++ map (group_cells Part000.average) gs.
Proof.
  induction gs as [|g gs IH]; intros st F; cbn [fold_left].
  - cbn [map]. now rewrite app_nil_r.
  - inversion F as [|? ? Ng F']; subst. rewrite IH by assumption.
    unfold Part000.type_row at 1. cbn [Part000.results].
    rewrite map_app, <- app_assoc. f_equal. cbn [map app]. f_equal.
    unfold Part000_cells, group_cells.
    cbn [Part000.Row3.FundingYear Part000.Row3.TypeOfWork
         Part000.Row3.TotalProjects Part000.Row3.AvgCostSavings
         Part000.Row3.OverrunRate].
    destruct (YearWorkGroup.savings g); [congruence|reflexivity].
Qed.

Lemma Part000_trend_cells data :
  exists typeMap rows,
    for_of type_step data [] = Normal typeMap /\
    grouped always type_key type_fresh type_push data typeMap /\
    Part000.generateReport3 data = Normal rows /\
    Permutation (map Part000_cells rows)
                (map (group_cells Part000.average) (Object_values typeMap)).
Proof.
  destruct (type_loop_total data) as (m & H & Hg).
  exists m. unfold Part000.generateReport3. rewrite H. cbn [bind].
  eexists. split; [reflexivity|]. split; [exact Hg|].
  split; [reflexivity|]. cbv zeta.
  rewrite !map_map.
  assert (E1 : forall l : list Part000.Row3.t,
            map (fun x => Part000_cells (Part000.delete_rawAvgSavings x)) l
            = map Part000_cells l) by (intro l; now apply map_ext).
  rewrite E1, (Permutation_map _ (sort_perm _ _)), map_map.
  assert (E2 : forall w (l : list Part000.Row3.t),
            map (fun x => Part000_cells (Part000.yoy w x)) l
            = map Part000_cells l) by (intros w l; now apply map_ext).
  rewrite E2. unfold Part000.tally.
  rewrite Part000_type_rows_shape; [reflexivity|].
  apply Forall_forall. intros g I.
  destruct (grouped_values _ _ _ _ _ _ _ Hg I) as (k & r & rs & _ & ->).
  rewrite type_fold. cbn [YearWorkGroup.savings type_fresh app]. discriminate.
Qed.


(** ** The order of the trend report *)

Lemma half_up_mono p1 q1 p2 q2 :
  0 < q1 -> 0 < q2 -> 0 <= p1 -> p1 * q2 <= p2 * q1 ->
  (2 * p1 + q1) / (2 * q1) <= (2 * p2 + q2) / (2 * q2).
Proof.
  intros H1 H2 P L.
  pose proof (Z.mul_div_le (2 * p1 + q1) (2 * q1) ltac:(lia)) as L1.
  pose proof (Z.mul_succ_div_gt (2 * p2 + q2) (2 * q2) ltac:(lia)) as U2.
  set (t1 := (2 * p1 + q1) / (2 * q1)) in *.
  set (t2 := (2 * p2 + q2) / (2 * q2)) in *.
  destruct (Z_le_gt_dec t1 t2) as [|G]; auto. exfalso.
  assert (T : t2 + 1 <= t1) by lia.
  assert (A : 2 * q1 * q2 * (t2 + 1) <= 2 * q1 * q2 * t1) by nia.
  nia.
Qed.

Lemma round_scaled_mono a b :
  (0 <= a)%Q -> (a <= b)%Q ->
  (round_scaled 2 a <= round_scaled 2 b)%N.
Proof.
  intros A L. unfold round_scaled. destruct a as [p1 q1], b as [p2 q2].
  unfold Qle in A, L. cbn [Qnum Qden] in *.
  change (Z.of_nat 2) with 2. change (10 ^ 2) with 100.
  apply Z2N.inj_le; try (apply Z.div_pos; lia).
  apply half_up_mono; lia.
Qed.

Lemma round_scaled_neg q :
  round_scaled 2 (- q) = round_scaled 2 q.
Proof.
  unfold round_scaled. destruct q as [p d]. cbn [Qopp Qnum Qden].
  now rewrite Z.abs_opp.
Qed.

(** Rounding to 2 decimal places keeps the order. *)
Lemma round2_mono a b :
  (a <= b)%Q -> num_le (round2 (Fin a)) (round2 (Fin b)).
Proof.
  intro L. unfold num_le, round2, fin. cbn [leb]. apply Qle_bool_iff.
  rewrite !Qred_correct. unfold Qle, signed. cbn [Qnum Qden].
  destruct (Qltb a 0) eqn:A, (Qltb b 0) eqn:B; unbool.
  - assert (M : (round_scaled 2 (- b) <= round_scaled 2 (- a))%N)
      by (apply round_scaled_mono; lra).
    rewrite !round_scaled_neg in M. lia.
  - lia.
  - lra.
  - assert (M : (round_scaled 2 a <= round_scaled 2 b)%N)
      by (apply round_scaled_mono; lra).
    lia.
Qed.









(** ** Percentages *)

Lemma percent_cell_format p arr :
  arr <> [] -> percent_cell (formatNumber (percentage p arr) 2).
Proof.
  intro N. destruct (percentage_bounds p arr N) as (q & E & B).
  unfold percent_cell. rewrite E, shown_formatNumber by reflexivity.
  now apply round2_range.
Qed.

Lemma region_delays_nonempty data m g :
  grouped always region_key region_fresh region_push data m ->
  In g (Object_values m) -> RegionGroup.delays g <> [].
Proof.
  intros Hg I.
  destruct (grouped_values _ _ _ _ _ _ _ Hg I) as (k & r & rs & _ & ->).
  rewrite region_fold. cbn [RegionGroup.delays region_fresh app map]. discriminate.
Qed.

Lemma counted_overrun average data cells :
  counted average data cells ->
  Forall (fun c => percent_cell (TrendCells.overrun c)) cells.
Proof.
  intros (_ & F & _). eapply Forall_impl; [|exact F].
  intros c (N & _ & _ & ->). apply percent_cell_format.
  destruct (of_year_and_work _ _ data); [congruence|discriminate].
Qed.

Lemma Forall_map_back {A B} (f : A -> B) (P : B -> Prop) l :
  Forall P (map f l) -> Forall (fun x => P (f x)) l.
Proof. apply Forall_map. Qed.

(** X16.  Whatever the cleaned projects, the share of delays over 30 days
    of every row of the regional report and the overrun rate of every row of
    the trend report display numbers between 0 and 100: no group is empty,
    and the shares are counted, not summed. *)
Theorem X16_percentages_lie_between_0_and_100 (data : list CleanedProject) :
  (exists rows, MainJs.generateReport1 data = Normal rows /\
     Forall (fun r => percent_cell (MainJs.Row1.DelayOver30Percent r)) rows) /\
  (exists rows, Part000.generateReport1 data = Normal rows /\
     Forall (fun r => percent_cell (Part000.Row1.DelayOver30Percent r)) rows) /\
  (exists rows, MainJs.generateReport3 data = Normal rows /\
     Forall (fun r => percent_cell (MainJs.Row3.OverrunRate r)) rows) /\
  (exists rows, Part000.generateReport3 data = Normal rows /\
     Forall (fun r => percent_cell (Part000.Row3.OverrunRate r)) rows).
Proof.
  destruct (region_loop_total data) as (m & H & Hg).
  split; [|split; [|split]].
  - unfold MainJs.generateReport1. rewrite H. cbn [bind].
    eexists. split; [reflexivity|]. apply sort_Forall.
    apply Forall_forall. intros r I. apply in_map_iff in I.
    destruct I as (g & <- & I).
    apply percent_cell_format. eapply region_delays_nonempty; eauto.
  - unfold Part000.generateReport1. rewrite H. cbn [bind].
    eexists. split; [reflexivity|]. apply sort_Forall.
    apply Forall_forall. intros r I. apply in_map_iff in I.
    destruct I as (r0 & <- & I). unfold Part000.raw_results in I.
    apply in_map_iff in I. destruct I as (g & <- & I).
    apply percent_cell_format. eapply region_delays_nonempty; eauto.
  - destruct (MainJs_trend_cells data) as (tm & rows & _ & Tg & R & P).
    exists rows. split; auto.
    apply (Forall_map_back MainJs_cells
             (fun c => percent_cell (TrendCells.overrun c))).
    apply (counted_overrun MainJs.average data).
    eapply counted_perm; [symmetry; exact P|]. now apply type_groups_counted.
  - destruct (Part000_trend_cells data) as (tm & rows & _ & Tg & R & P).
    exists rows. split; auto.
    apply (Forall_map_back Part000_cells
             (fun c => percent_cell (TrendCells.overrun c))).
    apply (counted_overrun Part000.average data).
    eapply counted_perm; [symmetry; exact P|]. now apply type_groups_counted.
Qed.

(** ** The ends of the normalized scale *)

Lemma round2_100 y : (y == 100)%Q -> round2 (Fin (Qred y)) = Fin 100.
Proof. intro E. rewrite (Qred_complete _ _ E). reflexivity. Qed.

Lemma round2_0 y : (y == 0)%Q -> round2 (Fin (Qred y)) = Fin 0.
Proof. intro E. rewrite (Qred_complete _ _ E). reflexivity. Qed.

Lemma normalize_ends qn qx r :
  Qeq_bool qx qn = false ->
  (Part000.Row1.EfficiencyScore r = Fin qx ->
   Part000.Row1.EfficiencyScore (Part000.normalize (Fin qn) (Fin qx) r) = Fin 100) /\
  (Part000.Row1.EfficiencyScore r = Fin qn ->
   Part000.Row1.EfficiencyScore (Part000.normalize (Fin qn) (Fin qx) r) = Fin 0).
Proof.
  intro Q. pose proof (Qeq_bool_false _ _ Q) as N.
  assert (Z : Qis0 (Qred (qx - qn)) = false)
    by (unbool; rewrite Qred_correct; lra).
  pose proof (Qred_correct (qx - qn)) as E2.
  split; intro E; unfold Part000.normalize;
    cbn [Part000.Row1.EfficiencyScore];
    rewrite E, Number_toFixed; cbn [isFinite andb eqb]; rewrite Q;
    cbn [negb sub]; unfold fin; cbn [div]; rewrite Z;
    unfold fin; cbn [mul]; unfold fin.
  - apply round2_100.
    set (x := Qred (qx - qn)) in *.
    pose proof (Qred_correct (x / x)) as E3.
    assert (X : (x / x == 1)%Q) by (field; lra).
    lra.
  - apply round2_0.
    pose proof (Qred_correct (qn - qn)) as E1.
    set (x := Qred (qx - qn)) in *. set (z := Qred (qn - qn)) in *.
    pose proof (Qred_correct (z / x)) as E3.
    assert (X : (z / x == 0)%Q) by (rewrite E1; field; lra).
    lra.
Qed.

(** X20.  When two groups of the run differ in their raw score, the min-max
    normalization of the second pass uses its whole scale: the regional
    report has a row with score 100, the best group, and a row with score 0,
    the worst. *)
Theorem X20_part000_scale_is_used_in_full (data : list CleanedProject) :
  exists regionMap rows,
    for_of region_step data [] = Normal regionMap /\
    Part000.generateReport1 data = Normal rows /\
    (forall a b,
       In a (Part000.raw_results regionMap) ->
       In b (Part000.raw_results regionMap) ->
       eqb (Part000.Row1.EfficiencyScore a) (Part000.Row1.EfficiencyScore b) = false ->
       In (Fin 100) (map Part000.Row1.EfficiencyScore rows) /\
       In (Fin 0) (map Part000.Row1.EfficiencyScore rows)).
Proof.
  destruct (region_loop_total data) as (m & H & _).
  exists m. unfold Part000.generateReport1. rewrite H. cbn [bind].
  eexists. split; [reflexivity|]. split; [reflexivity|].
  intros a b Ia Ib D.
  set (raw := Part000.raw_results m) in *.
  set (effs := map Part000.Row1.EfficiencyScore raw).
  assert (Fe : Forall (fun x => isFinite x = true) effs).
  { apply Forall_forall. intros x I. apply in_map_iff in I.
    destruct I as (r & <- & I). unfold raw, Part000.raw_results in I.
    apply in_map_iff in I. destruct I as (g & <- & _).
    destruct (raw_efficiency_nonneg g) as (q & -> & _). reflexivity. }
  assert (Ne : effs <> []).
  { unfold effs. destruct raw; [destruct Ia|discriminate]. }
  destruct (Math_min_spec effs Ne Fe) as [Imn Lmn].
  destruct (Math_max_spec effs Ne Fe) as [Imx Lmx].
  rewrite Forall_forall in Fe, Lmn, Lmx.
  destruct (isFinite_Fin _ (Fe _ Imn)) as [qn En].
  destruct (isFinite_Fin _ (Fe _ Imx)) as [qx Ex].
  assert (Q : Qeq_bool qx qn = false).
  { destruct (Qeq_bool qx qn) eqn:Q; auto. exfalso. unbool.
    assert (Ha : In (Part000.Row1.EfficiencyScore a) effs) by now apply in_map.
    assert (Hb : In (Part000.Row1.EfficiencyScore b) effs) by now apply in_map.
    pose proof (Lmn _ Ha) as A1. pose proof (Lmx _ Ha) as A2.
    pose proof (Lmn _ Hb) as B1. pose proof (Lmx _ Hb) as B2.
    destruct (isFinite_Fin _ (Fe _ Ha)) as [qa Ea].
    destruct (isFinite_Fin _ (Fe _ Hb)) as [qb Eb].
    rewrite Ea, Eb in D. rewrite En, Ea in A1. rewrite Ex, Ea in A2.
    rewrite En, Eb in B1. rewrite Ex, Eb in B2.
    apply leb_Fin in A1, A2, B1, B2. cbn [eqb] in D.
    apply Qeq_bool_false in D. apply D. lra. }
  apply in_map_iff in Imn. destruct Imn as (rn & Ern & Irn).
  apply in_map_iff in Imx. destruct Imx as (rx & Erx & Irx).
  fold effs. rewrite En, Ex.
  destruct (normalize_ends qn qx rx Q) as [Top _].
  destruct (normalize_ends qn qx rn Q) as [_ Bottom].
  rewrite Ex in Erx. rewrite En in Ern.
  split; apply in_map_iff.
  - exists (Part000.normalize (Fin qn) (Fin qx) rx). split; [now apply Top|].
    apply sort_In. now apply in_map.
  - exists (Part000.normalize (Fin qn) (Fin qx) rn). split; [now apply Bottom|].
    apply sort_In. now apply in_map.
Qed.

(** ** The reliability index and its flag *)

Lemma round2_value q : exists q', round2 (Fin q) = Fin q'.
Proof. unfold round2, fin. eauto. Qed.

Lemma flagged_format q high low :
  flagged (formatNumber (Fin q) 2)
          (if ltb (Fin q) (Fin 50) then high else low) high low.
Proof.
  unfold flagged. rewrite shown_formatNumber by reflexivity.
  destruct (round2_value q) as [q' E]. exists q'. split; [exact E|].
  cbn [ltb]. destruct (Qltb q 50) eqn:L; unbool.
  - split; [auto|]. split; [|auto]. intro H. exfalso.
    assert (M : num_le (round2 (Fin q)) (round2 (Fin 50)))
      by (apply round2_mono; lra).
    rewrite E in M. change (round2 (Fin 50)) with (Fin 50) in M.
    apply leb_Fin in M. lra.
  - split; [|split; auto]. intro H. exfalso.
    assert (M : num_le (round2 (Fin 50)) (round2 (Fin q)))
      by now apply round2_mono.
    rewrite E in M. change (round2 (Fin 50)) with (Fin 50) in M.
    apply leb_Fin in M. lra.
Qed.

Lemma cap_range x :
  isFinite x = true -> exists q, min2 (Fin 100) x = Fin q /\ (q <= 100)%Q.
Proof.
  destruct x as [q| | |]; try discriminate. intros _. cbn [min2 ltb].
  destruct (Qltb q 100) eqn:E; eexists; (split; [reflexivity|]); unbool; lra.
Qed.

Lemma at_most_100_format q :
  (q <= 100)%Q -> at_most_100 (formatNumber (Fin q) 2).
Proof.
  intro H. unfold at_most_100. rewrite shown_formatNumber by reflexivity.
  destruct (round2_value q) as [q' E]. exists q'. split; [exact E|].
  assert (M : num_le (round2 (Fin q)) (round2 (Fin 100)))
    by now apply round2_mono.
  rewrite E in M. change (round2 (Fin 100)) with (Fin 100) in M.
  now apply leb_Fin in M.
Qed.

Lemma MainJs_contractor_row_flag c :
  let r := MainJs.contractor_row c in
  percent_cell (MainJs.Row2.ReliabilityIndex r) /\
  flagged (MainJs.Row2.ReliabilityIndex r) (MainJs.Row2.RiskFlag r)
          "High Risk" "OK".
Proof.
  cbv zeta. unfold MainJs.contractor_row.
  cbn [MainJs.Row2.ReliabilityIndex MainJs.Row2.RiskFlag].
  match goal with
  | |- context [min2 (Fin 100) (max2 (Fin 0) ?e)] =>
      destruct (clamp_range e) as (q & -> & B); [apply guard_finite|]
  end.
  split; [|apply flagged_format].
  unfold percent_cell. rewrite shown_formatNumber by reflexivity.
  now apply round2_range.
Qed.

Lemma Part000_contractor_row_flag c :
  let r := Part000.delete_rawTotalCost (Part000.contractor_row c) in
  at_most_100 (Part000.Row2.ReliabilityIndex r) /\
  flagged (Part000.Row2.ReliabilityIndex r) (Part000.Row2.RiskFlag r)
          "High Risk" "Low Risk".
Proof.
  cbv zeta. unfold Part000.delete_rawTotalCost, Part000.contractor_row.
  cbn [Part000.Row2.ReliabilityIndex Part000.Row2.RiskFlag].
  match goal with
  | |- context [min2 (Fin 100) ?e] =>
      destruct (cap_range e) as (q & -> & B); [apply guard_finite|]
  end.
  split; [now apply at_most_100_format|apply flagged_format].
Qed.

(** X17.  In both contractor reports the reliability index never displays
    more than 100, and in [src/main.js] never less than 0; a row that
    displays less than 50 is flagged as high risk and a row that displays
    more than 50 is not, whatever the delays, savings and costs, zero costs
    and infinite ratios included. *)
Theorem X17_reliability_cell_and_flag (data : list CleanedProject)
  (rows : list MainJs.Row2.t) (rows' : list Part000.Row2.t) :
  MainJs.generateReport2 data = Normal rows ->
  Part000.generateReport2 data = Normal rows' ->
  Forall (fun r => percent_cell (MainJs.Row2.ReliabilityIndex r) /\
                   flagged (MainJs.Row2.ReliabilityIndex r)
                           (MainJs.Row2.RiskFlag r) "High Risk" "OK") rows /\
  Forall (fun r => at_most_100 (Part000.Row2.ReliabilityIndex r) /\
                   flagged (Part000.Row2.ReliabilityIndex r)
                           (Part000.Row2.RiskFlag r) "High Risk" "Low Risk") rows'.
Proof.
  intros R R'. unfold MainJs.generateReport2 in R.
  unfold Part000.generateReport2, Part000.ranked in R'.
  destruct (for_of contractor_step data []) as [m|e]; [|discriminate].
  cbn [bind] in R, R'.
  set (l := sort _ (map MainJs.contractor_row _)) in R.
  set (l' := sort _ (map Part000.contractor_row _)) in R'.
  assert (E : rows = firstn 15 l) by congruence.
  assert (E' : rows' = map Part000.delete_rawTotalCost (firstn 15 l'))
    by congruence.
  clear R R'. subst rows rows'. split.
  - apply Forall_forall. intros r I. apply In_firstn in I.
    unfold l in I. apply sort_In in I. apply in_map_iff in I.
    destruct I as (c & <- & _). apply MainJs_contractor_row_flag.
  - apply Forall_forall. intros r I. apply in_map_iff in I.
    destruct I as (r0 & <- & I). apply In_firstn in I.
    unfold l' in I. apply sort_In in I. apply in_map_iff in I.
    destruct I as (c & <- & _). apply Part000_contractor_row_flag.
Qed.

Lemma X17_witness :
  exists rows rows',
    MainJs.generateReport2 (Examples.cleaned Examples.two_contractors)
      = Normal rows /\
    Part000.generateReport2 (Examples.cleaned Examples.two_contractors)
      = Normal rows' /\
    Forall (fun r => percent_cell (MainJs.Row2.ReliabilityIndex r) /\
                     flagged (MainJs.Row2.ReliabilityIndex r)
                             (MainJs.Row2.RiskFlag r) "High Risk" "OK") rows /\
    Forall (fun r => at_most_100 (Part000.Row2.ReliabilityIndex r) /\
                     flagged (Part000.Row2.ReliabilityIndex r)
                             (Part000.Row2.RiskFlag r) "High Risk" "Low Risk") rows'.
Proof.
  destruct (MainJs.generateReport2 (Examples.cleaned Examples.two_contractors))
    as [rows|e] eqn:R; [|vm_compute in R; discriminate].
  destruct (Part000.generateReport2 (Examples.cleaned Examples.two_contractors))
    as [rows'|e] eqn:R'; [|vm_compute in R'; discriminate].
  exists rows, rows'. split; [reflexivity|]. split; [reflexivity|].
  exact (X17_reliability_cell_and_flag
           (Examples.cleaned Examples.two_contractors) rows rows' R R').
Defined.

(** X18.  With finite amounts, the contractor report of the second pass
    lists contractors with at least 5 projects only, each with the number of
    cleaned projects that name it, in at most 15 rows, in non-increasing
    order of total contract cost. *)
Theorem X18_part000_contractors_are_ranked_by_cost (data : list CleanedProject)
  (rows : list Part000.Row2.t) :
  Forall finite_inputs data ->
  Part000.generateReport2 data = Normal rows ->
  exists contractorMap gs,
    for_of contractor_step data [] = Normal contractorMap /\
    rows = map (fun c => Part000.delete_rawTotalCost (Part000.contractor_row c)) gs /\
    Forall (fun c => In c (Object_values contractorMap) /\
                     (5 <= ContractorGroup.projects c)%nat /\
                     ContractorGroup.projects c =
                       List.length (members has_contractor Contractor
                                      (ContractorGroup.Contractor c) data)) gs /\
    (List.length rows <= 15)%nat /\
    StronglySorted (fun a b => num_le (ContractorGroup.totalCost b)
                                      (ContractorGroup.totalCost a)) gs.
Proof. apply Part000_contractor_ranking. Qed.

Lemma X18_witness :
  exists rows,
    Forall finite_inputs (Examples.cleaned Examples.two_contractors) /\
    Part000.generateReport2 (Examples.cleaned Examples.two_contractors)
      = Normal rows /\
    exists contractorMap gs,
      for_of contractor_step (Examples.cleaned Examples.two_contractors) []
        = Normal contractorMap /\
      rows = map (fun c => Part000.delete_rawTotalCost (Part000.contractor_row c)) gs /\
      Forall (fun c => In c (Object_values contractorMap) /\
                       (5 <= ContractorGroup.projects c)%nat /\
                       ContractorGroup.projects c =
                         List.length (members has_contractor Contractor
                                        (ContractorGroup.Contractor c)
                                        (Examples.cleaned Examples.two_contractors))) gs /\
      (List.length rows <= 15)%nat /\
      StronglySorted (fun a b => num_le (ContractorGroup.totalCost b)
                                        (ContractorGroup.totalCost a)) gs.
Proof.
  assert (F : Forall finite_inputs (Examples.cleaned Examples.two_contractors)).
  { vm_compute.
    repeat (apply Forall_cons; [repeat split; auto|]). apply Forall_nil. }
  destruct (Part000.generateReport2 (Examples.cleaned Examples.two_contractors))
    as [rows|e] eqn:R; [|vm_compute in R; discriminate].
  exists rows. split; [exact F|]. split; [reflexivity|].
  exact (X18_part000_contractors_are_ranked_by_cost
           (Examples.cleaned Examples.two_contractors) rows F R).
Defined.

(** ** The two files side by side *)

Lemma averages_agree l :
  Forall (fun x => isNaN x = false) l -> MainJs.average l = Part000.average l.
Proof.
  intro H. rewrite Part000_average_mean.
  unfold MainJs.average, mean_of_valid. now rewrite no_NaN_valid.
Qed.

Lemma region_cells_agree g mn mx :
  Forall (fun x => isNaN x = false) (RegionGroup.delays g) ->
  MainJs_region_cells (MainJs.region_row g)
  = Part000_region_cells (Part000.normalize mn mx (Part000.region_row g)).
Proof.
  intro H. unfold MainJs_region_cells, Part000_region_cells,
    MainJs.region_row, Part000.normalize, Part000.region_row.
  cbn [MainJs.Row1.Region MainJs.Row1.MainIsland MainJs.Row1.TotalApprovedBudget
       MainJs.Row1.MedianCostSavings MainJs.Row1.AvgCompletionDelayDays
       MainJs.Row1.DelayOver30Percent
       Part000.Row1.Region Part000.Row1.MainIsland
       Part000.Row1.TotalApprovedBudget Part000.Row1.MedianCostSavings
       Part000.Row1.AvgCompletionDelayDays Part000.Row1.DelayOver30Percent].
  now rewrite averages_agree.
Qed.

Lemma trend_cells_agree g :
  Forall (fun x => isNaN x = false) (YearWorkGroup.savings g) ->
  group_cells MainJs.average g = group_cells Part000.average g.
Proof. intro H. unfold group_cells. now rewrite averages_agree. Qed.

(** X21.  When the delay and the savings of every cleaned project are
    numbers, the two files print the same regional report but for the
    efficiency score and the order that follows it, and the same trend
    report but for the year-over-year change and the order within a year:
    region, island, budget, median savings, average delay and share of long
    delays, and year, type of work, number of projects, average savings and
    overrun rate are the same, row for row. *)
Theorem X21_the_second_pass_keeps_the_other_cells (data : list CleanedProject) :
  Forall measured data ->
  (exists rows rows',
     MainJs.generateReport1 data = Normal rows /\
     Part000.generateReport1 data = Normal rows' /\
     Permutation (map MainJs_region_cells rows)
                 (map Part000_region_cells rows')) /\
  (exists rows rows',
     MainJs.generateReport3 data = Normal rows /\
     Part000.generateReport3 data = Normal rows' /\
     Permutation (map MainJs_cells rows) (map Part000_cells rows')).
Proof.
  intro M. rewrite Forall_forall in M. split.
  - destruct (region_loop_total data) as (m & H & Hg).
    unfold MainJs.generateReport1, Part000.generateReport1.
    rewrite H. cbn [bind]. do 2 eexists.
    split; [reflexivity|]. split; [reflexivity|].
    set (mn := Math_min _). set (mx := Math_max _).
    rewrite (Permutation_map _ (sort_perm _ _)).
    rewrite (Permutation_map Part000_region_cells (sort_perm _ _)).
    unfold Part000.raw_results. rewrite !map_map.
    rewrite (map_ext_in _ (fun g => Part000_region_cells
                                      (Part000.normalize mn mx (Part000.region_row g))));
      [reflexivity|].
    intros g I. apply region_cells_agree.
    destruct (grouped_values _ _ _ _ _ _ _ Hg I) as (k & r & rs & Mk & ->).
    rewrite region_fold. cbn [RegionGroup.delays region_fresh app].
    apply Forall_forall. intros x Ix. apply in_map_iff in Ix.
    destruct Ix as (p & <- & Ip). apply M.
    rewrite <- Mk in Ip. now apply members_key in Ip.
  - destruct (MainJs_trend_cells data) as (m & rows & H & Hg & R & P).
    destruct (Part000_trend_cells data) as (m' & rows' & H' & _ & R' & P').
    assert (m' = m) by congruence. subst m'.
    exists rows, rows'. split; auto. split; auto.
    rewrite P, P'.
    rewrite (map_ext_in _ (group_cells Part000.average)); [reflexivity|].
    intros g I. apply trend_cells_agree.
    destruct (grouped_values _ _ _ _ _ _ _ Hg I) as (k & r & rs & Mk & ->).
    rewrite type_fold. cbn [YearWorkGroup.savings type_fresh app].
    apply Forall_forall. intros x Ix. apply in_map_iff in Ix.
    destruct Ix as (p & <- & Ip). apply M.
    rewrite <- Mk in Ip. now apply members_key in Ip.
Qed.

Lemma X21_witness :
  Forall measured (Examples.cleaned Examples.uneven_rows) /\
  (exists rows rows',
     MainJs.generateReport1 (Examples.cleaned Examples.uneven_rows) = Normal rows /\
     Part000.generateReport1 (Examples.cleaned Examples.uneven_rows) = Normal rows' /\
     Permutation (map MainJs_region_cells rows)
                 (map Part000_region_cells rows')) /\
  (exists rows rows',
     MainJs.generateReport3 (Examples.cleaned Examples.uneven_rows) = Normal rows /\
     Part000.generateReport3 (Examples.cleaned Examples.uneven_rows) = Normal rows' /\
     Permutation (map MainJs_cells rows) (map Part000_cells rows')).
Proof.
  assert (M : Forall measured (Examples.cleaned Examples.uneven_rows))
    by (vm_compute; repeat constructor).
  split; [exact M|].
  exact (X21_the_second_pass_keeps_the_other_cells
           (Examples.cleaned Examples.uneven_rows) M).
Defined.

(** ** The rows of the contractor report, specified on the data *)





(** ** The rows of the regional report, specified on the data *)



Section RegionSums.
Variable average : list number -> number.
Variable data : list CleanedProject.
Variable m : object RegionGroup.t.
Hypothesis bar_free_regions : Forall (fun p => bar_free (Region p)) data.
Hypothesis region_grouped :
  grouped always region_key region_fresh region_push data m.


End RegionSums.



(** * The question after a report *)

Lemma selection_loop_decided (choice : string) (unread : list string) :
  decided choice ->
  snd (MainJs_selection_loop choice unread) = asked_for choice unread.
Proof.
  intros [-> | ->]; now destruct unread.
Qed.

Lemma selection_loop_refuses (pre : list string) :
  forall choice a rest,
    not_capital choice -> Forall not_capital pre ->
    snd (MainJs_selection_loop choice (pre ++ a :: rest))
    = snd (MainJs_selection_loop a rest).
Proof.
  induction pre as [|p pre IH]; intros choice a rest [NY NN] F.
  - cbn [app MainJs_selection_loop].
    apply String.eqb_neq in NY, NN. rewrite NY, NN.
    now destruct (MainJs_selection_loop a rest).
  - inversion F as [|? ? Hp F']; subst.
    cbn [app MainJs_selection_loop].
    apply String.eqb_neq in NY, NN. rewrite NY, NN.
    specialize (IH p a rest Hp F').
    now destruct (MainJs_selection_loop p (pre ++ a :: rest)).
Qed.

(** X24.  In [src/main.js] only the first answer to the question is
    converted to upper case.  After a first answer that is neither yes nor
    no, every answer other than the capital letters [Y] and [N] is refused,
    the small letters [y] and [n] among them, and the first capital answer
    decides: [Y] calls [main] with the answers left, [N] exits. *)
Theorem X24_main_selection_takes_later_answers_literally
    (first : string) (pre : list string) (a : string) (rest : list string) :
  undecided first -> Forall not_capital pre -> decided a ->
  snd (MainJs_reportSelection (first :: pre ++ a :: rest)) = asked_for a rest.
Proof.
  intros U F D. unfold MainJs_reportSelection.
  rewrite <- (selection_loop_decided a rest D).
  rewrite <- (selection_loop_refuses pre (toUpperCase first) a rest U F).
  now destruct (MainJs_selection_loop (toUpperCase first) (pre ++ a :: rest)).
Qed.

Lemma X24_witness :
  snd (MainJs_reportSelection ("maybe" :: ["y"; "n"] ++ "Y" :: ["1"]))%string
  = CallsMain ["1"%string].
Proof.
  apply (X24_main_selection_takes_later_answers_literally
           "maybe" ["y"; "n"] "Y" ["1"])%string.
  - split; vm_compute; discriminate.
  - repeat constructor; discriminate.
  - now left.
Defined.

(** X25.  In [src/unnamed/part_000] every answer is converted: the answers
    that are neither yes nor no in any case are refused, each with one
    line, and the first other answer decides, in small or capital letters. *)
Theorem X25_part000_selection_ignores_case
    (pre : list string) (a : string) (rest : list string) :
  Forall undecided pre -> decided (toUpperCase a) ->
  snd (Part000_reportSelection (pre ++ a :: rest))
  = asked_for (toUpperCase a) rest
  /\ lines_said (fst (Part000_reportSelection (pre ++ a :: rest)))
     = (List.length pre + if String.eqb (toUpperCase a) "Y" then 0 else 1)%nat.
Proof.
  intros F D. induction pre as [|p pre IH].
  - cbn [app Part000_reportSelection]. unfold asked_for, lines_said.
    destruct D as [-> | ->]; cbn; now split.
  - inversion F as [|? ? [NY NN] F']; subst.
    cbn [app Part000_reportSelection].
    apply String.eqb_neq in NY, NN. rewrite NY, NN.
    destruct (IH F') as [E L].
    destruct (Part000_reportSelection (pre ++ a :: rest)) as [shown e].
    cbn [fst snd] in *. split; [exact E|].
    unfold lines_said in *. cbn [filter List.length Nat.add]. now rewrite L.
Qed.

Lemma X25_witness :
  snd (Part000_reportSelection (["maybe"; ""] ++ "y" :: ["1"]))%string
  = CallsMain ["1"%string].
Proof.
  apply (X25_part000_selection_ignores_case ["maybe"; ""] "y" ["1"])%string.
  - repeat constructor; vm_compute; discriminate.
  - now left.
Defined.

(** * Binary64 rounding *)

(** ** Powers of two *)

Lemma two_neq0 : ~ (2 == 0)%Q.
Proof. discriminate. Qed.

Lemma pow2_pos p : (0 < 2 ^ p)%Q.
Proof. now apply Qpower_0_lt. Qed.

Lemma pow2_add a b : (2 ^ (a + b) == 2 ^ a * 2 ^ b)%Q.
Proof. apply Qpower_plus, two_neq0. Qed.

Lemma pow2_sub a b : (2 ^ (a - b) == 2 ^ a / 2 ^ b)%Q.
Proof. apply Qpower_minus, two_neq0. Qed.

Lemma pow2_le a b : a <= b -> (2 ^ a <= 2 ^ b)%Q.
Proof. intro H. apply Qpower_le_compat_l; [exact H|discriminate]. Qed.

Lemma pow2_lt a b : a < b -> (2 ^ a < 2 ^ b)%Q.
Proof. intro H. apply Qpower_lt_compat_l; [exact H|reflexivity]. Qed.

Lemma pow2_lt_inv a b : (2 ^ a < 2 ^ b)%Q -> a < b.
Proof. intro H. apply (Qpower_lt_compat_l_inv 2); [exact H|reflexivity]. Qed.

Lemma pow2_Z n : 0 <= n -> (2 ^ n == inject_Z (2 ^ n))%Q.
Proof. intro H. symmetry. now apply (Zpower_Qpower 2). Qed.

Lemma pow2_succ a : (2 ^ (a + 1) == 2 * 2 ^ a)%Q.
Proof. rewrite pow2_add. change (2 ^ 1)%Q with 2%Q. ring. Qed.

(** An integer multiple of [2^j] is an integer multiple of [2^p], [p <= j]. *)
Lemma grid_coarser k j p :
  p <= j -> (inject_Z k * 2 ^ j == inject_Z (k * 2 ^ (j - p)) * 2 ^ p)%Q.
Proof.
  intro H. rewrite inject_Z_mult, <- (pow2_Z (j - p)) by lia.
  rewrite <- Qmult_assoc, <- pow2_add. now replace (j - p + p) with j by lia.
Qed.

(** ** The binary exponent *)

Lemma ilog2_spec q :
  ~ (q == 0)%Q -> (2 ^ B64.ilog2 q <= Qabs q < 2 ^ (B64.ilog2 q + 1))%Q.
Proof.
  intro N. unfold B64.ilog2.
  destruct q as [n d]. cbn [Qnum Qden].
  set (a := Z.abs n). set (ln := Z.log2 a). set (ld := Z.log2 (Z.pos d)).
  assert (Ha : 0 < a).
  { unfold a. assert (n <> 0).
    { intro E. apply N. subst n. reflexivity. }
    lia. }
  destruct (Z.log2_spec a Ha) as [A1 A2]. fold ln in A1, A2.
  destruct (Z.log2_spec (Z.pos d) ltac:(lia)) as [D1 D2]. fold ld in D1, D2.
  assert (Lln : 0 <= ln) by apply Z.log2_nonneg.
  assert (Lld : 0 <= ld) by apply Z.log2_nonneg.
  assert (E : (Qabs (n # d) * inject_Z (Z.pos d) == inject_Z a)%Q).
  { unfold Qabs, Qeq, Qmult, inject_Z. cbn. fold a. lia. }
  set (x := Qabs (n # d)) in *.
  assert (QA1 : (2 ^ ln <= inject_Z a)%Q)
    by (rewrite pow2_Z by lia; now rewrite <- Zle_Qle).
  assert (QA2 : (inject_Z a < 2 * 2 ^ ln)%Q).
  { rewrite <- pow2_succ, pow2_Z by lia. now rewrite <- Zlt_Qlt, Z.add_1_r. }
  assert (QD1 : (2 ^ ld <= inject_Z (Z.pos d))%Q)
    by (rewrite pow2_Z by lia; now rewrite <- Zle_Qle).
  assert (QD2 : (inject_Z (Z.pos d) < 2 * 2 ^ ld)%Q).
  { rewrite <- pow2_succ, pow2_Z by lia. now rewrite <- Zlt_Qlt, Z.add_1_r. }
  pose proof (pow2_pos ln) as Pn. pose proof (pow2_pos ld) as Pd.
  assert (X0 : (0 <= x)%Q) by apply Qabs_nonneg.
  assert (U : (x < 2 ^ (ln - ld + 1))%Q).
  { replace (ln - ld + 1) with (ln + 1 - ld) by lia.
    rewrite pow2_sub, pow2_succ.
    apply Qlt_shift_div_l; [exact Pd|].
    assert ((x * 2 ^ ld <= x * inject_Z (Z.pos d))%Q) by nra. lra. }
  assert (L : (2 ^ (ln - ld - 1) <= x)%Q).
  { replace (ln - ld - 1) with (ln - (ld + 1)) by lia.
    rewrite pow2_sub, pow2_succ.
    apply Qle_shift_div_r; [lra|].
    assert ((x * inject_Z (Z.pos d) <= x * (2 * 2 ^ ld))%Q) by nra. lra. }
  destruct (Qle_bool (2 ^ (ln - ld)) x) eqn:T.
  - apply Qle_bool_iff in T. split; assumption.
  - apply Qle_bool_gt in T. split; [exact L|].
    replace (ln - ld - 1 + 1) with (ln - ld) by lia. exact T.
Qed.

Lemma ilog2_unique q e :
  (2 ^ e <= Qabs q < 2 ^ (e + 1))%Q -> B64.ilog2 q = e.
Proof.
  intros [L U].
  assert (N : ~ (q == 0)%Q).
  { intro E. rewrite E in L. pose proof (pow2_pos e). cbn in L. lra. }
  destruct (ilog2_spec q N) as [L' U'].
  assert (B64.ilog2 q < e + 1) by (apply pow2_lt_inv; lra).
  assert (e < B64.ilog2 q + 1) by (apply pow2_lt_inv; lra).
  lia.
Qed.

Lemma ilog2_comp q q' :
  ~ (q == 0)%Q -> (q == q')%Q -> B64.ilog2 q = B64.ilog2 q'.
Proof.
  intros N E. symmetry. apply ilog2_unique. rewrite <- E. now apply ilog2_spec.
Qed.

(** ** Rounding to the nearest integer, ties to even *)

Lemma rne_cases x :
  let f := Qfloor x in
  (inject_Z f <= x < inject_Z f + 1)%Q /\
  ((B64.rne x = f /\ (x - inject_Z f <= 1 # 2)%Q) \/
   (B64.rne x = f + 1 /\ (1 # 2 <= x - inject_Z f)%Q)).
Proof.
  cbv zeta. pose proof (Qfloor_le x) as L. pose proof (Qlt_floor x) as U.
  rewrite inject_Z_plus in U. change (inject_Z 1) with 1%Q in U.
  split; [split; assumption|]. unfold B64.rne.
  destruct (x - inject_Z (Qfloor x) ?= 1 # 2)%Q eqn:C.
  - apply Qeq_alt in C.
    destruct (Z.even (Qfloor x)); [left|right]; (split; [reflexivity|lra]).
  - apply Qlt_alt in C. left. split; [reflexivity|lra].
  - apply Qgt_alt in C. right. split; [reflexivity|lra].
Qed.

Lemma rne_error x : (Qabs (inject_Z (B64.rne x) - x) <= 1 # 2)%Q.
Proof.
  destruct (rne_cases x) as [[L U] [[-> H]|[-> H]]]; apply Qabs_Qle_condition;
    rewrite ?inject_Z_plus; change (inject_Z 1) with 1%Q; split; lra.
Qed.

Lemma rne_le_Z x k : (x <= inject_Z k)%Q -> B64.rne x <= k.
Proof.
  intro H. destruct (rne_cases x) as [[L U] [[-> _]|[-> F]]].
  - rewrite Zle_Qle. lra.
  - assert (Qfloor x < k); [|lia]. rewrite Zlt_Qlt. lra.
Qed.

Lemma rne_ge_Z x k : (inject_Z k <= x)%Q -> k <= B64.rne x.
Proof.
  intro H.
  assert (K : k < Qfloor x + 1).
  { rewrite Zlt_Qlt, inject_Z_plus. change (inject_Z 1) with 1%Q.
    pose proof (Qlt_floor x) as U. rewrite inject_Z_plus in U.
    change (inject_Z 1) with 1%Q in U. lra. }
  destruct (rne_cases x) as [_ [[-> _]|[-> _]]]; lia.
Qed.

Lemma rne_Z k : B64.rne (inject_Z k) = k.
Proof.
  apply Z.le_antisymm; [apply rne_le_Z|apply rne_ge_Z]; apply Qle_refl.
Qed.

Lemma rne_comp x y : (x == y)%Q -> B64.rne x = B64.rne y.
Proof.
  intro E. unfold B64.rne. rewrite (Qfloor_comp _ _ E).
  assert (C : (x - inject_Z (Qfloor y) ?= 1 # 2)%Q
              = (y - inject_Z (Qfloor y) ?= 1 # 2)%Q)
    by now rewrite E.
  now rewrite C.
Qed.

Lemma rne_mono x y : (x <= y)%Q -> B64.rne x <= B64.rne y.
Proof.
  intro H. pose proof (Qfloor_resp_le _ _ H) as F.
  destruct (Z.eq_dec (Qfloor x) (Qfloor y)) as [E|N].
  - unfold B64.rne. rewrite E.
    destruct (x - inject_Z (Qfloor y) ?= 1 # 2)%Q eqn:Cx;
      destruct (y - inject_Z (Qfloor y) ?= 1 # 2)%Q eqn:Cy;
      try lia; try (destruct (Z.even (Qfloor y)); lia);
      first [apply Qeq_alt in Cx|apply Qlt_alt in Cx|apply Qgt_alt in Cx];
      first [apply Qeq_alt in Cy|apply Qlt_alt in Cy|apply Qgt_alt in Cy];
      exfalso; lra.
  - assert (B64.rne x <= Qfloor x + 1)
      by (destruct (rne_cases x) as [_ [[-> _]|[-> _]]]; lia).
    assert (Qfloor y <= B64.rne y)
      by (destruct (rne_cases y) as [_ [[-> _]|[-> _]]]; lia).
    lia.
Qed.

(** ** Rounding to the grid of a binade *)

Lemma ulp_exp_low q : -1074 <= B64.ulp_exp q.
Proof. unfold B64.ulp_exp. lia. Qed.

Lemma ulp_exp_le q : -1074 <= B64.ilog2 q -> B64.ulp_exp q <= B64.ilog2 q.
Proof. unfold B64.ulp_exp. lia. Qed.

Lemma ulp_exp_mono q q' :
  B64.ilog2 q <= B64.ilog2 q' -> B64.ulp_exp q <= B64.ulp_exp q'.
Proof. unfold B64.ulp_exp. lia. Qed.

Lemma nearest_le_grid q k j :
  B64.ulp_exp q <= j -> (q <= inject_Z k * 2 ^ j)%Q ->
  (B64.nearest q <= inject_Z k * 2 ^ j)%Q.
Proof.
  intros P H. unfold B64.nearest. set (p := B64.ulp_exp q) in *.
  rewrite (grid_coarser k j p P) in *.
  pose proof (pow2_pos p) as Pp.
  apply Qmult_le_compat_r; [|lra].
  rewrite <- Zle_Qle. apply rne_le_Z.
  apply Qle_shift_div_r; [exact Pp|exact H].
Qed.

Lemma nearest_ge_grid q k j :
  B64.ulp_exp q <= j -> (inject_Z k * 2 ^ j <= q)%Q ->
  (inject_Z k * 2 ^ j <= B64.nearest q)%Q.
Proof.
  intros P H. unfold B64.nearest. set (p := B64.ulp_exp q) in *.
  rewrite (grid_coarser k j p P) in *.
  pose proof (pow2_pos p) as Pp.
  apply Qmult_le_compat_r; [|lra].
  rewrite <- Zle_Qle. apply rne_ge_Z.
  apply Qle_shift_div_l; [exact Pp|exact H].
Qed.

Lemma nearest_error q :
  (Qabs (B64.nearest q - q) <= 2 ^ (B64.ulp_exp q - 1))%Q.
Proof.
  unfold B64.nearest. set (p := B64.ulp_exp q).
  pose proof (pow2_pos p) as Pp.
  pose proof (rne_error (q / 2 ^ p)) as E.
  assert (S : (inject_Z (B64.rne (q / 2 ^ p)) * 2 ^ p - q ==
               (inject_Z (B64.rne (q / 2 ^ p)) - q / 2 ^ p) * 2 ^ p)%Q)
    by (field; lra).
  rewrite S, Qabs_Qmult, (Qabs_pos (2 ^ p)) by lra.
  rewrite pow2_sub. change (2 ^ 1)%Q with 2%Q.
  apply Qle_trans with ((1 # 2) * 2 ^ p)%Q.
  - apply Qmult_le_compat_r; [exact E|lra].
  - apply Qle_lteq. right. field.
Qed.

Lemma nearest_comp q q' : (q == q')%Q -> (B64.nearest q == B64.nearest q')%Q.
Proof.
  intro E. destruct (Qeq_dec q 0) as [Z|N].
  - assert (Z' : (q' == 0)%Q) by now rewrite <- E.
    assert (A : forall x, (x == 0)%Q -> (B64.nearest x == 0)%Q).
    { intros x Hx. unfold B64.nearest.
      generalize (B64.ulp_exp x). intro p.
      rewrite (rne_comp _ (inject_Z 0)), rne_Z; [ring|].
      rewrite Hx. unfold Qdiv. ring. }
    now rewrite (A q Z), (A q' Z').
  - unfold B64.nearest, B64.ulp_exp. rewrite <- (ilog2_comp q q' N E).
    set (p := Z.max _ _ - 52). now rewrite (rne_comp (q / 2 ^ p) (q' / 2 ^ p)) by now rewrite E.
Qed.

Lemma round64_comp q q' : (q == q')%Q -> B64.round64 q = B64.round64 q'.
Proof.
  intro E. unfold B64.round64. pose proof (nearest_comp q q' E) as N.
  assert (T : Qle_bool (2 ^ 1024) (Qabs (B64.nearest q))
              = Qle_bool (2 ^ 1024) (Qabs (B64.nearest q'))) by now rewrite N.
  assert (S : Qltb q 0 = Qltb q' 0) by (unfold Qltb; now rewrite E).
  rewrite T, S. clear T S.
  destruct (Qle_bool (2 ^ 1024) (Qabs (B64.nearest q'))); [reflexivity|].
  now apply fin_eq.
Qed.

Lemma ilog2_pos q : (0 < q)%Q -> (2 ^ B64.ilog2 q <= q < 2 ^ (B64.ilog2 q + 1))%Q.
Proof.
  intro H. assert (N : ~ (q == 0)%Q) by lra.
  pose proof (ilog2_spec q N) as S. rewrite Qabs_pos in S by lra. exact S.
Qed.

Lemma ilog2_neg q :
  (q < 0)%Q -> (2 ^ B64.ilog2 q <= - q < 2 ^ (B64.ilog2 q + 1))%Q.
Proof.
  intro H. assert (N : ~ (q == 0)%Q) by lra.
  pose proof (ilog2_spec q N) as S. rewrite Qabs_neg in S by lra. exact S.
Qed.

Lemma nearest_nonpos q : (q <= 0)%Q -> (B64.nearest q <= 0)%Q.
Proof.
  intro H. pose proof (nearest_le_grid q 0 (B64.ulp_exp q) (Z.le_refl _)) as L.
  assert (Z : (inject_Z 0 * 2 ^ B64.ulp_exp q == 0)%Q) by ring.
  rewrite Z in L. now apply L.
Qed.

Lemma nearest_nonneg q : (0 <= q)%Q -> (0 <= B64.nearest q)%Q.
Proof.
  intro H. pose proof (nearest_ge_grid q 0 (B64.ulp_exp q) (Z.le_refl _)) as L.
  assert (Z : (inject_Z 0 * 2 ^ B64.ulp_exp q == 0)%Q) by ring.
  rewrite Z in L. now apply L.
Qed.

Lemma nearest_same_grid q q' :
  B64.ulp_exp q = B64.ulp_exp q' -> (q <= q')%Q ->
  (B64.nearest q <= B64.nearest q')%Q.
Proof.
  intros E H. unfold B64.nearest. rewrite E. set (p := B64.ulp_exp q').
  pose proof (pow2_pos p) as Pp.
  apply Qmult_le_compat_r; [|lra]. rewrite <- Zle_Qle. apply rne_mono.
  apply Qmult_le_compat_r; [exact H|]. apply Qlt_le_weak, Qinv_lt_0_compat, Pp.
Qed.

Lemma one_mul x : (inject_Z 1 * x == x)%Q.
Proof. change (inject_Z 1) with 1%Q. ring. Qed.

Lemma minus_one_mul x : (inject_Z (-1) * x == - x)%Q.
Proof. change (inject_Z (-1)) with (-1 # 1)%Q. ring. Qed.

Lemma nearest_mono q q' : (q <= q')%Q -> (B64.nearest q <= B64.nearest q')%Q.
Proof.
  intro H.
  destruct (Qlt_le_dec 0 q) as [Pq|Nq].
  - (* 0 < q <= q' *)
    assert (Pq' : (0 < q')%Q) by lra.
    destruct (ilog2_pos q Pq) as [L U]. destruct (ilog2_pos q' Pq') as [L' U'].
    assert (Ee : B64.ilog2 q <= B64.ilog2 q').
    { assert (B64.ilog2 q < B64.ilog2 q' + 1) by (apply pow2_lt_inv; lra). lia. }
    pose proof (ulp_exp_mono q q' Ee) as Pe.
    destruct (Z.eq_dec (B64.ulp_exp q) (B64.ulp_exp q')) as [E|NE].
    + now apply nearest_same_grid.
    + assert (Lt : B64.ilog2 q < B64.ilog2 q')
        by (unfold B64.ulp_exp in *; lia).
      assert (P' : B64.ulp_exp q' <= B64.ilog2 q')
        by (unfold B64.ulp_exp in *; lia).
      assert (M : (2 ^ (B64.ilog2 q + 1) <= 2 ^ B64.ilog2 q')%Q)
        by (apply pow2_le; lia).
      apply Qle_trans with (inject_Z 1 * 2 ^ B64.ilog2 q')%Q.
      * apply nearest_le_grid; [lia|]. rewrite one_mul. lra.
      * apply nearest_ge_grid; [lia|]. rewrite one_mul. lra.
  - destruct (Qlt_le_dec q' 0) as [Nq'|Pq'].
    + (* q <= q' < 0 *)
      assert (Nq0 : (q < 0)%Q) by lra.
      destruct (ilog2_neg q Nq0) as [L U]. destruct (ilog2_neg q' Nq') as [L' U'].
      assert (Ee : B64.ilog2 q' <= B64.ilog2 q).
      { assert (B64.ilog2 q' < B64.ilog2 q + 1) by (apply pow2_lt_inv; lra). lia. }
      pose proof (ulp_exp_mono q' q Ee) as Pe.
      destruct (Z.eq_dec (B64.ulp_exp q) (B64.ulp_exp q')) as [E|NE].
      * now apply nearest_same_grid.
      * assert (Lt : B64.ilog2 q' < B64.ilog2 q)
          by (unfold B64.ulp_exp in *; lia).
        assert (P' : B64.ulp_exp q <= B64.ilog2 q)
          by (unfold B64.ulp_exp in *; lia).
        assert (M : (2 ^ (B64.ilog2 q' + 1) <= 2 ^ B64.ilog2 q)%Q)
          by (apply pow2_le; lia).
        apply Qle_trans with (inject_Z (-1) * 2 ^ B64.ilog2 q)%Q.
        -- apply nearest_le_grid; [lia|]. rewrite minus_one_mul. lra.
        -- apply nearest_ge_grid; [lia|]. rewrite minus_one_mul. lra.
    + apply Qle_trans with 0%Q; [now apply nearest_nonpos|now apply nearest_nonneg].
Qed.

(** A value that is at least the smallest positive binary64 number does
    not round to zero. *)
Lemma nearest_pos q : (2 ^ (-1074) <= q)%Q -> (0 < B64.nearest q)%Q.
Proof.
  intro H. pose proof (pow2_pos (-1074)) as P0.
  assert (Pq : (0 < q)%Q) by lra.
  destruct (ilog2_pos q Pq) as [L U].
  assert (E : -1074 <= B64.ilog2 q).
  { assert (-1074 < B64.ilog2 q + 1) by (apply pow2_lt_inv; lra). lia. }
  pose proof (ulp_exp_le q E) as P.
  pose proof (nearest_ge_grid q 1 (B64.ilog2 q) P) as G.
  rewrite one_mul in G. pose proof (pow2_pos (B64.ilog2 q)). specialize (G L). lra.
Qed.

Lemma nearest_neg q : (q <= - 2 ^ (-1074))%Q -> (B64.nearest q < 0)%Q.
Proof.
  intro H. pose proof (pow2_pos (-1074)) as P0.
  assert (Nq : (q < 0)%Q) by lra.
  destruct (ilog2_neg q Nq) as [L U].
  assert (E : -1074 <= B64.ilog2 q).
  { assert (-1074 < B64.ilog2 q + 1) by (apply pow2_lt_inv; lra). lia. }
  pose proof (ulp_exp_le q E) as P.
  pose proof (nearest_le_grid q (-1) (B64.ilog2 q) P) as G.
  rewrite minus_one_mul in G. pose proof (pow2_pos (B64.ilog2 q)).
  assert (q <= - 2 ^ B64.ilog2 q)%Q by lra. specialize (G H1). lra.
Qed.

(** A value on the grid of its binade is left alone. *)
Lemma nearest_on_grid q k :
  (q == inject_Z k * 2 ^ B64.ulp_exp q)%Q -> (B64.nearest q == q)%Q.
Proof.
  intro H. unfold B64.nearest. set (p := B64.ulp_exp q) in *.
  pose proof (pow2_pos p) as Pp.
  rewrite (rne_comp _ (inject_Z k)), rne_Z; [now symmetry|].
  rewrite H. field. lra.
Qed.

(** ** The rounding of numbers *)

Lemma round64_cases q :
  (B64.round64 q = PInf /\ (2 ^ 1024 <= B64.nearest q)%Q /\ (0 < q)%Q) \/
  (B64.round64 q = NInf /\ (B64.nearest q <= - 2 ^ 1024)%Q /\ (q < 0)%Q) \/
  (B64.round64 q = fin (B64.nearest q) /\ (Qabs (B64.nearest q) < 2 ^ 1024)%Q).
Proof.
  unfold B64.round64. pose proof (pow2_pos 1024) as P.
  destruct (Qle_bool (2 ^ 1024) (Qabs (B64.nearest q))) eqn:T.
  - apply Qle_bool_iff in T.
    destruct (Qltb q 0) eqn:S; unbool.
    + right. left. split; [reflexivity|]. split; [|exact S].
      pose proof (nearest_nonpos q ltac:(lra)).
      rewrite Qabs_neg in T by assumption. lra.
    + left. split; [reflexivity|].
      pose proof (nearest_nonneg q S).
      rewrite Qabs_pos in T by assumption. split; [exact T|].
      destruct (Qeq_dec q 0) as [Z|N]; [|lra].
      pose proof (nearest_nonpos q ltac:(lra)). lra.
  - apply Qle_bool_gt in T. right. right. split; [reflexivity|exact T].
Qed.

Lemma round64_mono q q' :
  (q <= q')%Q -> leb (B64.round64 q) (B64.round64 q') = true.
Proof.
  intro H. pose proof (nearest_mono q q' H) as M.
  pose proof (pow2_pos 1024) as P.
  destruct (round64_cases q) as [(-> & A & S)|[(-> & A & S)|(-> & A)]];
    destruct (round64_cases q') as [(-> & A' & S')|[(-> & A' & S')|(-> & A')]];
    unfold fin; cbn [leb]; try reflexivity; try (exfalso; lra).
  - exfalso. apply Qabs_Qlt_condition in A'. lra.
  - exfalso. apply Qabs_Qlt_condition in A. lra.
  - unbool. pose proof (Qred_correct (B64.nearest q)).
    pose proof (Qred_correct (B64.nearest q')). lra.
Qed.

Lemma round_mono x y : leb x y = true -> leb (B64.round x) (B64.round y) = true.
Proof.
  destruct x as [a| | |], y as [b| | |]; cbn [leb B64.round]; try discriminate;
    auto.
  - intro H. unbool. now apply round64_mono.
  - intros _. destruct (round64_cases a) as [(-> & _)|[(-> & _)|(-> & _)]];
      reflexivity.
  - intros _. destruct (round64_cases b) as [(-> & _)|[(-> & _)|(-> & _)]];
      reflexivity.
Qed.

(** The error of a finite result: at most half a unit in the last place. *)
Lemma round64_error q r :
  B64.round64 q = Fin r -> (Qabs (r - q) <= 2 ^ (B64.ulp_exp q - 1))%Q.
Proof.
  intro H. destruct (round64_cases q) as [(E & _)|[(E & _)|(E & _)]];
    rewrite E in H; try discriminate.
  assert (R : r = Qred (B64.nearest q)) by (unfold fin in H; congruence).
  rewrite R, Qred_correct. apply nearest_error.
Qed.

(** ** The grid of the binary64 numbers *)

Lemma nearest_grid q : exists K : Z, (B64.nearest q == inject_Z K * tiny)%Q.
Proof.
  unfold B64.nearest, tiny. eexists.
  apply grid_coarser. apply ulp_exp_low.
Qed.

Lemma Fin_eq_Qeq a b : Fin a = Fin b -> (a == b)%Q.
Proof. intro H. assert (E : a = b) by congruence. now rewrite E. Qed.

Lemma round64_on_grid q : on_grid (B64.round64 q).
Proof.
  destruct (round64_cases q) as [(-> & _)|[(-> & _)|(-> & _)]];
    try exact I.
  destruct (nearest_grid q) as [K HK]. exists K.
  now rewrite Qred_correct.
Qed.

Lemma round_on_grid x : on_grid x -> on_grid (B64.round x).
Proof. destruct x; cbn [B64.round]; auto. intros _. apply round64_on_grid. Qed.

Lemma binary64_on_grid x : binary64 x -> on_grid x.
Proof.
  unfold binary64. destruct x as [q| | |]; cbn [B64.round]; try (intros; exact I).
  intro H. rewrite <- H. apply round64_on_grid.
Qed.

Lemma tiny_pos : (0 < tiny)%Q.
Proof. apply pow2_pos. Qed.

Lemma grid_pos q K : (q == inject_Z K * tiny)%Q -> (0 < q)%Q -> (tiny <= q)%Q.
Proof.
  intros E P. pose proof tiny_pos as T.
  assert (0 < K).
  { destruct (Z_lt_le_dec 0 K) as [L|L]; auto. exfalso.
    assert ((inject_Z K <= 0)%Q) by (rewrite Zle_Qle in L; exact L). nra. }
  assert ((1 <= inject_Z K)%Q).
  { change 1%Q with (inject_Z 1). rewrite <- Zle_Qle. lia. }
  nra.
Qed.

Lemma grid_neg q K : (q == inject_Z K * tiny)%Q -> (q < 0)%Q -> (q <= - tiny)%Q.
Proof.
  intros E P.
  assert (E' : (- q == inject_Z (- K) * tiny)%Q) by (rewrite inject_Z_opp, E; ring).
  pose proof (grid_pos (- q) (- K) E' ltac:(lra)). lra.
Qed.

(** The sign of a value on the grid survives the rounding. *)
Lemma round64_sign q :
  on_grid (Fin q) ->
  gtb (B64.round64 q) (Fin 0) = Qltb 0 q /\
  ltb (B64.round64 q) (Fin 0) = Qltb q 0.
Proof.
  intros [K E]. pose proof tiny_pos as T. unfold gtb.
  destruct (Qlt_le_dec 0 q) as [P|NP].
  - pose proof (nearest_pos q (grid_pos q K E P)) as N.
    assert (S1 : Qltb 0 q = true) by now unbool.
    assert (S2 : Qltb q 0 = false) by (unbool; lra).
    rewrite S1, S2.
    destruct (round64_cases q) as [(-> & _)|[(-> & A & _)|(-> & _)]];
      cbn [ltb]; auto.
    + pose proof (pow2_pos 1024). lra.
    + unfold fin. cbn [ltb]. pose proof (Qred_correct (B64.nearest q)).
      split; unbool; lra.
  - destruct (Qlt_le_dec q 0) as [N|Z].
    + pose proof (nearest_neg q (grid_neg q K E N)) as M.
      assert (S1 : Qltb 0 q = false) by (unbool; lra).
      assert (S2 : Qltb q 0 = true) by now unbool.
      rewrite S1, S2.
      destruct (round64_cases q) as [(-> & A & _)|[(-> & _)|(-> & _)]];
        cbn [ltb]; auto.
      * pose proof (pow2_pos 1024). lra.
      * unfold fin. cbn [ltb]. pose proof (Qred_correct (B64.nearest q)).
        split; unbool; lra.
    + assert (S1 : Qltb 0 q = false) by (unbool; lra).
      assert (S2 : Qltb q 0 = false) by (unbool; lra).
      rewrite S1, S2.
      pose proof (nearest_nonpos q NP). pose proof (nearest_nonneg q Z).
      destruct (round64_cases q) as [(-> & A & _)|[(-> & A & _)|(-> & _)]];
        cbn [ltb]; auto.
      * pose proof (pow2_pos 1024). lra.
      * pose proof (pow2_pos 1024). lra.
      * unfold fin. cbn [ltb]. pose proof (Qred_correct (B64.nearest q)).
        split; unbool; lra.
Qed.

Lemma on_grid_sub a b :
  on_grid (Fin a) -> on_grid (Fin b) -> on_grid (Fin (a - b)).
Proof.
  intros [Ka Ea] [Kb Eb]. exists (Ka - Kb).
  unfold Z.sub. rewrite inject_Z_plus, inject_Z_opp, Ea, Eb. ring.
Qed.

Lemma on_grid_add a b :
  on_grid (Fin a) -> on_grid (Fin b) -> on_grid (Fin (a + b)).
Proof.
  intros [Ka Ea] [Kb Eb]. exists (Ka + Kb).
  rewrite inject_Z_plus, Ea, Eb. ring.
Qed.

Lemma round_fin q : B64.round (fin q) = B64.round64 q.
Proof. unfold fin. cbn [B64.round]. apply round64_comp, Qred_correct. Qed.

(** The comparator [(a, b) => a - b] orders binary64 numbers as the exact
    difference does. *)
Lemma sub64_goes_after x y :
  on_grid x -> on_grid y -> isNaN x = false -> isNaN y = false ->
  goes_after (fun a b => B64.sub a b) x y = ltb y x.
Proof.
  unfold goes_after, B64.sub.
  destruct x as [a| | |], y as [b| | |]; cbn [sub ltb isNaN B64.round];
    try discriminate; auto.
  intros Ga Gb _ _. rewrite round_fin.
  destruct (round64_sign (a - b) (on_grid_sub a b Ga Gb)) as [-> _].
  destruct (Qltb b a) eqn:E; unbool; lra.
Qed.

Lemma sort64_sorted l :
  Forall (fun x => on_grid x /\ isNaN x = false) l ->
  StronglySorted num_le (sort (fun a b => B64.sub a b) l).
Proof.
  apply sort_sorted.
  - intros x y [Gx Hx] [Gy Hy] H. rewrite sub64_goes_after in H by assumption.
    now apply ltb_false_leb.
  - intros x y [Gx Hx] [Gy Hy] H. rewrite sub64_goes_after in H by assumption.
    now apply ltb_leb.
  - intros x y z. apply leb_trans.
Qed.

Lemma same_eq x y : same x y = true -> x = y.
Proof.
  destruct x as [[a b]| | |], y as [[c d]| | |]; cbn [same Qnum Qden];
    try discriminate; auto.
  intro H. apply andb_true_iff in H. destruct H as [H1 H2].
  apply Z.eqb_eq in H1. apply Pos.eqb_eq in H2. now subst.
Qed.

Lemma is_binary64_ok x : is_binary64 x = true -> binary64 x.
Proof. apply same_eq. Qed.

Lemma is_amount_ok x : is_amount x = true -> amount x.
Proof.
  unfold is_amount, amount. intro H.
  apply andb_true_iff in H. destruct H as [H P].
  apply andb_true_iff in H. destruct H as [B F].
  repeat split; auto. now apply is_binary64_ok.
Qed.

(** A property of all elements, checked by evaluation. *)
Lemma Forall_checked {A} (P : A -> Prop) (f : A -> bool) l :
  (forall x, f x = true -> P x) -> forallb f l = true -> Forall P l.
Proof.
  intros H C. apply Forall_forall. intros x I.
  apply H. rewrite forallb_forall in C. now apply C.
Qed.

(** ** The results of the operations are binary64 numbers *)




(** Rounding stays between two binary64 numbers. *)
Lemma round64_between a b q :
  B64.round64 a = Fin a -> B64.round64 b = Fin b -> (a <= q <= b)%Q ->
  exists r, B64.round64 q = Fin r /\ (a <= r <= b)%Q.
Proof.
  intros Ha Hb [L U].
  pose proof (round64_mono a q L) as M1. pose proof (round64_mono q b U) as M2.
  rewrite Ha in M1. rewrite Hb in M2.
  destruct (B64.round64 q) as [r| | |]; cbn [leb] in M1, M2; try discriminate.
  exists r. split; [reflexivity|]. unbool. lra.
Qed.

Lemma round64_0 : B64.round64 0 = Fin 0.
Proof. vm_compute. reflexivity. Qed.

Lemma round64_1 : B64.round64 1 = Fin 1.
Proof. vm_compute. reflexivity. Qed.

Lemma round64_100 : B64.round64 100 = Fin 100.
Proof. vm_compute. reflexivity. Qed.

(** ** [median] in binary64 *)

(** [toFixed(2)] prints the nearest hundredth, a tie going away from zero. *)
Lemma round_scaled_nearest q :
  nearest_hundredth q (signed (Qltb q 0) (round_scaled 2 q)).
Proof.
  unfold nearest_hundredth.
  destruct q as [a b]. unfold round_scaled, signed. cbn [Qnum Qden].
  change (Z.of_nat 2) with 2. change (10 ^ 2) with 100.
  set (t := (2 * (Z.abs a * 100) + Z.pos b) / (2 * Z.pos b)).
  assert (Hb : 0 < Z.pos b) by lia.
  assert (Ht : 0 <= t) by (apply Z.div_pos; lia).
  rewrite Z2N.id by assumption.
  pose proof (Z.mul_div_le (2 * (Z.abs a * 100) + Z.pos b) (2 * Z.pos b) ltac:(lia)) as L.
  pose proof (Z.mul_succ_div_gt (2 * (Z.abs a * 100) + Z.pos b) (2 * Z.pos b) ltac:(lia)) as U.
  fold t in L, U.
  destruct (Z.eq_dec (2 * Z.pos b * t) (2 * (Z.abs a * 100) + Z.pos b)) as [T|NT].
  - right.
    destruct (Qltb (a # b) 0) eqn:S; unbool; unfold Qlt, Qle in S; cbn in S.
    + split.
      * rewrite Qabs_neg; unfold Qeq, Qle, Qminus, Qplus, Qopp; cbn; nia.
      * rewrite !Qabs_neg; unfold Qlt, Qle, Qopp; cbn; nia.
    + split.
      * rewrite Qabs_pos; unfold Qeq, Qle, Qminus, Qplus, Qopp; cbn; nia.
      * rewrite !Qabs_pos; unfold Qlt, Qle, Qopp; cbn; nia.
  - left. apply Qabs_Qlt_condition.
    destruct (Qltb (a # b) 0) eqn:S; unbool; unfold Qlt, Qle in S; cbn in S;
      unfold Qlt, Qminus, Qplus, Qopp; cbn; split; nia.
Qed.

Lemma round2_to_2_decimals x : to_2_decimals x (B64.round (round2 x)).
Proof.
  destruct x as [q| | |]; cbn [to_2_decimals round2 B64.round]; auto.
  eexists. split; [apply round_scaled_nearest|]. apply round_fin.
Qed.

Lemma median64_middle arr :
  arr <> [] ->
  B64.median arr =
  B64.round (round2 (middle64 (sort (fun a b => B64.sub a b) arr))).
Proof.
  intro H. unfold B64.median, middle64, B64.Number_.
  destruct arr as [|x arr]; [congruence|]. cbn [is_nil].
  rewrite Number_toFixed, odd_mod2. reflexivity.
Qed.

(** C9, as stated, fails on the exact mean: the binary64 numbers for 0.01
    and 0.02 have a mean that is nearer to 0.02 than to any other hundredth,
    and [median] returns the number for 0.01, the sum being rounded before
    it is halved. *)
Lemma C9_rounded_sum_misses_the_mean :
  let a := B64.round64 (1 # 100) in
  let b := B64.round64 (2 # 100) in
  binary64 a /\ binary64 b /\
  nearest_hundredth ((qv a + qv b) / 2) 2 /\
  B64.median [a; b] = a /\ a <> b.
Proof.
  cbv zeta. split; [vm_compute; reflexivity|]. split; [vm_compute; reflexivity|].
  split; [left; vm_compute; reflexivity|].
  split; [vm_compute; reflexivity|]. vm_compute. discriminate.
Qed.

(** C9, amended.  On binary64 numbers, [median] returns 0 on the empty
    array; otherwise it takes, of the array sorted in ascending order, the
    central element when the length is odd and, when it is even, the
    binary64 sum of the two central elements, halved, and returns the
    binary64 number for the hundredth nearest to it, a tie going away from
    zero; an infinity is returned as it is. *)
Theorem C9_median_in_binary64 (arr : list number) :
  Forall (fun x => binary64 x /\ isNaN x = false) arr ->
  (arr = [] -> B64.median arr = Fin 0) /\
  (arr <> [] ->
   exists s, Permutation s arr /\ StronglySorted num_le s /\
             to_2_decimals (middle64 s) (B64.median arr)) /\
  B64.median [Fin 5] = Fin 5 /\
  B64.median [Fin 1; Fin 2; Fin 3; Fin 4] = Fin (5 # 2).
Proof.
  intro H. split; [intros ->; reflexivity|].
  split; [|split; vm_compute; reflexivity].
  intro N. exists (sort (fun a b => B64.sub a b) arr).
  split; [apply sort_perm|]. split.
  - apply sort64_sorted. eapply Forall_impl; [|exact H].
    intros x [B Hx]. split; [now apply binary64_on_grid|exact Hx].
  - rewrite median64_middle by assumption. apply round2_to_2_decimals.
Qed.

Lemma C9_witness :
  let arr := [Fin 4; B64.round64 (1 # 10); PInf; Fin (-3); B64.round64 (2 # 10)] in
  Forall (fun x => binary64 x /\ isNaN x = false) arr /\
  (arr <> [] ->
   exists s, Permutation s arr /\ StronglySorted num_le s /\
             to_2_decimals (middle64 s) (B64.median arr)).
Proof.
  cbv zeta.
  assert (H : Forall (fun x => binary64 x /\ isNaN x = false)
                [Fin 4; B64.round64 (1 # 10); PInf; Fin (-3); B64.round64 (2 # 10)]).
  { repeat constructor; vm_compute; reflexivity. }
  split; [exact H|].
  exact (proj1 (proj2 (C9_median_in_binary64 _ H))).
Defined.

(** ** The error of a rounded sum *)

Lemma unit_roundoff_pos : (0 < unit_roundoff)%Q.
Proof. apply pow2_pos. Qed.

Lemma growth_succ n : (growth (S n) == (1 + unit_roundoff) * growth n)%Q.
Proof.
  unfold growth. rewrite Nat2Z.inj_succ. unfold Z.succ.
  pose proof unit_roundoff_pos.
  rewrite Qpower_plus by lra. rewrite Qpower_1_r. ring.
Qed.

Lemma growth_ge1 n : (1 <= growth n)%Q.
Proof.
  pose proof unit_roundoff_pos.
  induction n as [|n IH]; [unfold growth; cbn; lra|].
  rewrite growth_succ. nra.
Qed.

Lemma growth_mono n m : (n <= m)%nat -> (growth n <= growth m)%Q.
Proof.
  pose proof unit_roundoff_pos.
  induction 1 as [|m L IH]; [lra|].
  rewrite growth_succ. pose proof (growth_ge1 m). nra.
Qed.

(** Rounding a value of the grid that does not overflow: the relative
    error is at most the unit roundoff. *)
Lemma round64_relative q :
  on_grid (Fin q) -> (Qabs q < 2 ^ 1023)%Q ->
  exists r, B64.round64 q = Fin r /\
            (Qabs (r - q) <= unit_roundoff * Qabs q)%Q.
Proof.
  intros [K G] B. pose proof unit_roundoff_pos as Up.
  pose proof (pow2_pos 1023) as P23.
  assert (P24 : (2 ^ 1023 < 2 ^ 1024)%Q) by (apply pow2_lt; lia).
  assert (E : (Qabs (B64.nearest q - q) <= unit_roundoff * Qabs q)%Q).
  { destruct (Qeq_dec q 0) as [Z|NZ].
    - assert (N0 : (B64.nearest q == 0)%Q).
      { pose proof (nearest_nonpos q ltac:(lra)).
        pose proof (nearest_nonneg q ltac:(lra)). lra. }
      rewrite N0, Z. cbn. lra.
    - destruct (ilog2_spec q NZ) as [L U].
      destruct (Z_lt_le_dec (B64.ilog2 q) (-1022)) as [Sub|Nor].
      + (* subnormal: the value is on the grid already *)
        rewrite (nearest_on_grid q K).
        * assert (Z0 : (q - q == 0)%Q) by ring. rewrite Z0. cbn.
          pose proof (Qabs_nonneg q). nra.
        * unfold B64.ulp_exp. rewrite Z.max_r by lia.
          change (-1022 - 52) with (-1074). exact G.
      + eapply Qle_trans; [apply nearest_error|].
        unfold B64.ulp_exp. rewrite Z.max_l by lia.
        replace (B64.ilog2 q - 52 - 1) with (-53 + B64.ilog2 q) by lia.
        rewrite pow2_add. fold unit_roundoff.
        apply Qmult_le_l; [exact Up|exact L]. }
  assert (F : (Qabs (B64.nearest q) < 2 ^ 1024)%Q).
  { apply Qabs_Qle_condition in E. apply Qabs_Qlt_condition.
    assert (unit_roundoff < 1)%Q by (unfold unit_roundoff; reflexivity).
    pose proof (Qabs_nonneg q).
    apply Qabs_Qlt_condition in B.
    destruct (Qlt_le_dec q 0) as [Nq|Pq].
    - rewrite Qabs_neg in * by lra. split; nra.
    - rewrite Qabs_pos in * by lra. split; nra. }
  destruct (round64_cases q) as [(_ & A & _)|[(_ & A & _)|(R & _)]].
  - exfalso. apply Qabs_Qlt_condition in F. lra.
  - exfalso. apply Qabs_Qlt_condition in F. lra.
  - exists (Qred (B64.nearest q)). split; [exact R|].
    now rewrite Qred_correct.
Qed.

(** A sum of non-negative numbers of the grid, added up from [a], which
    stands for the exact sum [A] of [k] earlier terms. *)
Lemma fold_add64_close xs : forall a A k,
  Forall (fun x => on_grid x /\ exists q, x = Fin q /\ (0 <= q)%Q) xs ->
  on_grid (Fin a) -> (0 <= A)%Q ->
  (Qabs (a - A) <= (growth k - 1) * A)%Q ->
  ((A + qsum (map qv xs)) * growth (k + List.length xs) < 2 ^ 1023)%Q ->
  exists r, fold_left B64.add xs (Fin a) = Fin r /\
            (Qabs (r - (A + qsum (map qv xs))) <=
             (growth (k + List.length xs) - 1) * (A + qsum (map qv xs)))%Q.
Proof.
  pose proof unit_roundoff_pos as Up.
  induction xs as [|x xs IH]; intros a A k F Ga A0 Ea Ov.
  - cbn [fold_left map qsum fold_right List.length] in *.
    exists a. split; [reflexivity|].
    rewrite Nat.add_0_r in *.
    assert (Z : (a - (A + 0) == a - A)%Q) by ring. rewrite Z.
    eapply Qle_trans; [exact Ea|]. apply Qle_lteq. right. ring.
  - inversion F as [|? ? [Gx (q & -> & Q0)] F']; subst.
    cbn [fold_left map List.length] in Ov |- *.
    rewrite qsum_cons in Ov |- *. cbn [qv] in Ov |- *.
    set (S := qsum (map qv xs)) in *.
    assert (S0 : (0 <= S)%Q).
    { unfold S. clear - F'. induction F' as [|y ys [_ (qy & -> & Hy)] _ IH];
        [cbn; lra|]. cbn [map]. rewrite qsum_cons. cbn [qv]. lra. }
    replace (k + Datatypes.S (List.length xs))%nat
      with (Datatypes.S k + List.length xs)%nat in * by lia.
    pose proof (growth_ge1 k) as G1.
    pose proof (growth_mono (Datatypes.S k) (Datatypes.S k + List.length xs)
                  ltac:(lia)) as GM.
    pose proof (growth_succ k) as GS.
    apply Qabs_Qle_condition in Ea.
    (* the first addition *)
    assert (Bq : (Qabs (a + q) < 2 ^ 1023)%Q).
    { apply Qabs_Qlt_condition.
      assert ((a + q) <= growth k * (A + q))%Q by nra.
      assert (growth k * (A + q) <= growth (Datatypes.S k + List.length xs) * (A + (q + S)))%Q.
      { assert (growth k <= growth (Datatypes.S k))%Q by (apply growth_mono; lia).
        nra. }
      split; nra. }
    destruct (round64_relative (a + q) (on_grid_add a q Ga Gx) Bq)
      as (r1 & R1 & E1).
    unfold B64.add at 2. cbn [add]. rewrite round_fin, R1.
    assert (Gr1 : on_grid (Fin r1)) by (rewrite <- R1; apply round64_on_grid).
    assert (E1' : (Qabs (r1 - (A + q)) <= (growth (Datatypes.S k) - 1) * (A + q))%Q).
    { apply Qabs_Qle_condition in E1. apply Qabs_Qle_condition.
      assert (Qabs (a + q) <= growth k * (A + q))%Q.
      { apply Qabs_Qle_condition. split; nra. }
      pose proof (Qabs_nonneg (a + q)).
      rewrite GS. split; nra. }
    destruct (IH r1 (A + q)%Q (Datatypes.S k) F' Gr1 ltac:(lra) E1') as (r & R & E).
    { eapply Qle_lt_trans; [|exact Ov]. apply Qle_lteq. right. ring. }
    exists r. split; [exact R|].
    assert (Z : (A + (q + S) == A + q + S)%Q) by ring. rewrite Z. exact E.
Qed.

Lemma sum64_close xs :
  Forall (fun x => on_grid x /\ exists q, x = Fin q /\ (0 <= q)%Q) xs ->
  (qsum (map qv xs) * growth (List.length xs) < 2 ^ 1023)%Q ->
  exists r, B64.sum xs = Fin r /\
            (Qabs (r - qsum (map qv xs)) <=
             (growth (List.length xs) - 1) * qsum (map qv xs))%Q.
Proof.
  intros F Ov.
  destruct (fold_add64_close xs 0 0 0%nat F) as (r & R & E).
  - exists 0. unfold tiny. ring.
  - lra.
  - cbn. lra.
  - cbn [Nat.add]. eapply Qle_lt_trans; [|exact Ov]. apply Qle_lteq. right. ring.
  - exists r. split; [exact R|]. cbn [Nat.add] in E.
    assert (Z : (0 + qsum (map qv xs) == qsum (map qv xs))%Q) by ring.
    now rewrite Z in E.
Qed.

(** ** The budget totals of the regional report *)

Lemma qsum_map_close_by {A} (f g h : A -> Q) l :
  (forall x, In x l -> (Qabs (f x - g x) <= h x)%Q) ->
  (Qabs (qsum (map f l) - qsum (map g l)) <= qsum (map h l))%Q.
Proof.
  induction l as [|x l IH]; intro H; cbn [map].
  - cbn [qsum fold_right]. apply Qabs_Qle_condition. lra.
  - rewrite !qsum_cons.
    pose proof (H x (or_introl eq_refl)) as Hx.
    assert (IH' : (Qabs (qsum (map f l) - qsum (map g l)) <= qsum (map h l))%Q)
      by (apply IH; intros; apply H; now right).
    apply Qabs_Qle_condition in Hx, IH'. apply Qabs_Qle_condition. lra.
Qed.

Lemma qsum_map_scale {A} (c : Q) (f : A -> Q) l :
  (qsum (map (fun x => c * f x) l) == c * qsum (map f l))%Q.
Proof.
  induction l as [|x l IH]; cbn [map]; [cbn; ring|].
  rewrite !qsum_cons, IH. ring.
Qed.

Lemma qsum_nonneg {A} (f : A -> Q) l :
  (forall x, In x l -> (0 <= f x)%Q) -> (0 <= qsum (map f l))%Q.
Proof.
  induction l as [|x l IH]; intro H; cbn [map]; [cbn; lra|].
  rewrite qsum_cons. pose proof (H x (or_introl eq_refl)).
  assert (0 <= qsum (map f l))%Q by (apply IH; intros; apply H; now right). lra.
Qed.

Lemma qsum_filter_le {A} (f : A -> Q) (p : A -> bool) l :
  (forall x, In x l -> (0 <= f x)%Q) ->
  (qsum (map f (filter p l)) <= qsum (map f l))%Q.
Proof.
  induction l as [|x l IH]; intro H; cbn [filter map]; [lra|].
  pose proof (H x (or_introl eq_refl)).
  assert (qsum (map f (filter p l)) <= qsum (map f l))%Q
    by (apply IH; intros; apply H; now right).
  destruct (p x); cbn [map]; rewrite !qsum_cons; lra.
Qed.

Lemma filter_length_le {A} (p : A -> bool) l :
  (List.length (filter p l) <= List.length l)%nat.
Proof.
  induction l as [|x l IH]; cbn [filter List.length]; [lia|].
  destruct (p x); cbn [List.length]; lia.
Qed.

Lemma amount_value x :
  amount x -> on_grid x /\ exists q, x = Fin q /\ (0 <= q)%Q.
Proof.
  intros (B & F & P). split; [now apply binary64_on_grid|].
  destruct x as [q| | |]; try discriminate. exists q. split; [reflexivity|].
  cbn [ltb] in P. unbool. lra.
Qed.

(** The binary64 sums of the budgets of the groups are finite, and they add
    up to the sum of all budgets but for the rounding of the additions. *)
Lemma budget_sums64 data m :
  Forall (fun p => amount (ApprovedBudgetForContract p)) data ->
  (approved_total data * growth (List.length data) < 2 ^ 1023)%Q ->
  grouped always region_key region_fresh region_push data m ->
  Forall (fun g => isFinite (B64.sum (RegionGroup.budgets g)) = true)
         (Object_values m) /\
  (Qabs (qsum (map (fun g => qv (B64.sum (RegionGroup.budgets g)))
                 (Object_values m)) - approved_total data) <=
   (growth (List.length data) - 1) * approved_total data)%Q.
Proof.
  intros F Ov Hg. set (n := List.length data) in *.
  set (v := fun p : CleanedProject => qv (ApprovedBudgetForContract p)).
  assert (V0 : forall p, In p data -> (0 <= v p)%Q).
  { intros p I. rewrite Forall_forall in F.
    destruct (amount_value _ (F p I)) as (_ & q & E & Q0).
    unfold v. now rewrite E. }
  assert (T0 : (0 <= approved_total data)%Q) by now apply qsum_nonneg.
  pose proof (growth_ge1 n) as G1.
  (* every group *)
  assert (GS : forall g, In g (Object_values m) ->
            exists r, B64.sum (RegionGroup.budgets g) = Fin r /\
              (Qabs (r - qsum (map qv (RegionGroup.budgets g))) <=
               (growth n - 1) * qsum (map qv (RegionGroup.budgets g)))%Q).
  { intros g I.
    destruct (grouped_values _ _ _ _ _ _ _ Hg I) as (k & r & rs & M & ->).
    rewrite region_fold. cbn [RegionGroup.budgets region_fresh app].
    rewrite <- M. set (ps := members always region_key k data).
    assert (Sub : forall p, In p ps -> In p data).
    { intros p Hp. unfold ps, members in Hp. now apply filter_In in Hp. }
    assert (Fx : Forall (fun x => on_grid x /\ exists q, x = Fin q /\ (0 <= q)%Q)
                   (map ApprovedBudgetForContract ps)).
    { apply Forall_forall. intros x Hx. apply in_map_iff in Hx.
      destruct Hx as (p & <- & Hp). apply amount_value.
      rewrite Forall_forall in F. apply F. now apply Sub. }
    assert (Sle : (qsum (map qv (map ApprovedBudgetForContract ps))
                   <= approved_total data)%Q).
    { rewrite map_map. fold v. unfold ps, members.
      now apply qsum_filter_le. }
    assert (Lle : (List.length (map ApprovedBudgetForContract ps) <= n)%nat).
    { rewrite length_map. unfold ps, members. apply filter_length_le. }
    pose proof (growth_mono _ _ Lle) as GM.
    pose proof (growth_ge1 (List.length (map ApprovedBudgetForContract ps))) as G1'.
    assert (S0 : (0 <= qsum (map qv (map ApprovedBudgetForContract ps)))%Q).
    { rewrite map_map. apply qsum_nonneg. intros p Hp. apply V0. now apply Sub. }
    destruct (sum64_close _ Fx) as (x & X & E).
    { eapply Qle_lt_trans; [|exact Ov]. fold n. nra. }
    exists x. split; [exact X|].
    eapply Qle_trans; [exact E|]. nra. }
  split.
  - apply Forall_forall. intros g I. destruct (GS g I) as (r & -> & _). reflexivity.
  - assert (ST : (qsum (map (fun g => qsum (map qv (RegionGroup.budgets g)))
                          (Object_values m)) == approved_total data)%Q).
    { unfold approved_total.
      rewrite (grouped_sum always region_key region_fresh region_push
                 (fun g => qsum (map qv (RegionGroup.budgets g))) v data m Hg).
      - now rewrite filter_always.
      - intros k r rs M. rewrite region_fold.
        cbn [RegionGroup.budgets region_fresh app]. now rewrite map_map. }
    rewrite <- ST at 1.
    eapply Qle_trans.
    + apply (qsum_map_close_by _ _
               (fun g => (growth n - 1) * qsum (map qv (RegionGroup.budgets g)))%Q).
      intros g I. destruct (GS g I) as (r & -> & E). exact E.
    + rewrite qsum_map_scale, ST. apply Qle_refl.
Qed.

(** Cells that format finite values display, in total, the sum of the
    values up to half a hundredth per cell. *)
Lemma cells_close {G} (val : G -> number) vals cells :
  Forall (fun g => isFinite (val g) = true) vals ->
  Permutation cells (map (fun g => formatNumber (val g) 2) vals) ->
  Forall (fun s => isFinite (shown s) = true) cells /\
  (Qabs (shown_total cells - qsum (map (fun g => qv (val g)) vals)) <=
   half_cent * inject_Z (Z.of_nat (List.length cells)))%Q.
Proof.
  intros F P. rewrite Forall_forall in F.
  split.
  - eapply Permutation_Forall; [symmetry; exact P|].
    apply Forall_forall. intros s Hs. apply in_map_iff in Hs.
    destruct Hs as (g & <- & I).
    destruct (isFinite_Fin _ (F g I)) as [q ->].
    rewrite shown_formatNumber by reflexivity. reflexivity.
  - rewrite (shown_total_perm _ _ P), (Permutation_length P), length_map.
    unfold shown_total. rewrite map_map.
    apply qsum_map_close. intros g I.
    destruct (isFinite_Fin _ (F g I)) as [q ->].
    rewrite shown_formatNumber by reflexivity. apply round2_nearest.
Qed.

Lemma Qabs_triangle_3 a b c e1 e2 :
  (Qabs (a - b) <= e1)%Q -> (Qabs (b - c) <= e2)%Q ->
  (Qabs (a - c) <= e1 + e2)%Q.
Proof.
  intros H1 H2. apply Qabs_Qle_condition in H1, H2.
  apply Qabs_Qle_condition. lra.
Qed.

(** C6, as stated, fails: the budgets [2^53], 1 and 1 of one region are
    binary64 numbers, and both files display 9,007,199,254,740,992.00 as
    their total, which differs from the sum of the budgets by 2: the
    additions are rounded, not only the display. *)
Lemma C6_rounded_additions_lose_budgets :
  let data := Examples.cleaned Rounding.large_budget_rows in
  let cells := ["9,007,199,254,740,992.00"%string] in
  Forall (fun p => amount (ApprovedBudgetForContract p)) data /\
  (approved_total data == 9007199254740994)%Q /\
  map MainJs.Row1.TotalApprovedBudget
      (match B64.Main.generateReport1 data with
       | Normal rows => rows
       | Throw _ => []
       end) = cells /\
  map Part000.Row1.TotalApprovedBudget
      (match B64.Part.generateReport1 data with
       | Normal rows => rows
       | Throw _ => []
       end) = cells /\
  (shown_total cells == 9007199254740992)%Q /\
  ~ (Qabs (shown_total cells - approved_total data) <= half_cent * 1)%Q.
Proof.
  cbv zeta. split.
  { apply (Forall_checked _ (fun p => is_amount (ApprovedBudgetForContract p)));
      [intros p; apply is_amount_ok|vm_compute; reflexivity]. }
  split; [vm_compute; reflexivity|].
  split; [vm_compute; reflexivity|].
  split; [vm_compute; reflexivity|].
  split; [vm_compute; reflexivity|].
  vm_compute. intro H. now apply H.
Qed.

(** C6, amended.  For positive binary64 budgets whose sum stays clear of
    the overflow, both files produce the regional report, every
    [TotalApprovedBudget] cell displays a finite number, and the sum of what
    the cells display differs from the sum of [approvedBudget] over all
    cleaned projects by at most half a hundredth per row, the rounding of
    the display, plus the rounding of the binary64 additions: at most
    [(1 + 2^-53)^n - 1] times the sum, for [n] projects. *)
Theorem C6_regional_budget_totals_in_binary64 (data : list CleanedProject) :
  Forall (fun p => amount (ApprovedBudgetForContract p)) data ->
  (approved_total data * growth (List.length data) < 2 ^ 1023)%Q ->
  exists rows1 rows2,
    B64.Main.generateReport1 data = Normal rows1 /\
    B64.Part.generateReport1 data = Normal rows2 /\
    Forall finite_cell (map MainJs.Row1.TotalApprovedBudget rows1) /\
    Forall finite_cell (map Part000.Row1.TotalApprovedBudget rows2) /\
    (Qabs (shown_total (map MainJs.Row1.TotalApprovedBudget rows1) -
           approved_total data) <=
     half_cent * inject_Z (Z.of_nat (List.length rows1)) +
     (growth (List.length data) - 1) * approved_total data)%Q /\
    (Qabs (shown_total (map Part000.Row1.TotalApprovedBudget rows2) -
           approved_total data) <=
     half_cent * inject_Z (Z.of_nat (List.length rows2)) +
     (growth (List.length data) - 1) * approved_total data)%Q.
Proof.
  intros F Ov. destruct (region_loop_total data) as (m & H & Hg).
  destruct (budget_sums64 data m F Ov Hg) as (FB & T).
  unfold B64.Main.generateReport1, B64.Part.generateReport1.
  rewrite H. cbn [bind].
  do 2 eexists. split; [reflexivity|]. split; [reflexivity|].
  set (cmp1 := fun a b : MainJs.Row1.t => _).
  set (cmp2 := fun a b : Part000.Row1.t => _).
  set (mn := Math_min _). set (mx := Math_max _).
  assert (P1 : Permutation
            (map MainJs.Row1.TotalApprovedBudget
               (sort cmp1 (map B64.Main.region_row (Object_values m))))
            (map (fun g => formatNumber (B64.sum (RegionGroup.budgets g)) 2)
               (Object_values m))).
  { rewrite (Permutation_map _ (sort_perm cmp1 _)), map_map. reflexivity. }
  assert (P2 : Permutation
            (map Part000.Row1.TotalApprovedBudget
               (sort cmp2 (map (B64.Part.normalize mn mx)
                             (B64.Part.raw_results m))))
            (map (fun g => formatNumber (B64.sum (RegionGroup.budgets g)) 2)
               (Object_values m))).
  { rewrite (Permutation_map _ (sort_perm cmp2 _)).
    unfold B64.Part.raw_results. rewrite !map_map. reflexivity. }
  destruct (cells_close _ _ _ FB P1) as (A1 & B1).
  destruct (cells_close _ _ _ FB P2) as (A2 & B2).
  rewrite !length_map in B1, B2.
  split; [exact A1|]. split; [exact A2|].
  split; eapply Qabs_triangle_3; eauto.
Qed.

Lemma C6_witness :
  let data := Examples.cleaned Examples.mixed_rows in
  Forall (fun p => amount (ApprovedBudgetForContract p)) data /\
  (approved_total data * growth (List.length data) < 2 ^ 1023)%Q /\
  exists rows1 rows2,
    B64.Main.generateReport1 data = Normal rows1 /\
    B64.Part.generateReport1 data = Normal rows2 /\
    Forall finite_cell (map MainJs.Row1.TotalApprovedBudget rows1) /\
    Forall finite_cell (map Part000.Row1.TotalApprovedBudget rows2) /\
    (Qabs (shown_total (map MainJs.Row1.TotalApprovedBudget rows1) -
           approved_total data) <=
     half_cent * inject_Z (Z.of_nat (List.length rows1)) +
     (growth (List.length data) - 1) * approved_total data)%Q /\
    (Qabs (shown_total (map Part000.Row1.TotalApprovedBudget rows2) -
           approved_total data) <=
     half_cent * inject_Z (Z.of_nat (List.length rows2)) +
     (growth (List.length data) - 1) * approved_total data)%Q.
Proof.
  cbv zeta.
  assert (H : Forall (fun p => amount (ApprovedBudgetForContract p))
                (Examples.cleaned Examples.mixed_rows)).
  { apply (Forall_checked _ (fun p => is_amount (ApprovedBudgetForContract p)));
      [intros p; apply is_amount_ok|vm_compute; reflexivity]. }
  assert (O : (approved_total (Examples.cleaned Examples.mixed_rows)
               * growth (List.length (Examples.cleaned Examples.mixed_rows))
               < 2 ^ 1023)%Q) by (vm_compute; reflexivity).
  split; [exact H|]. split; [exact O|].
  exact (C6_regional_budget_totals_in_binary64 _ H O).
Defined.

(** ** The guarded fields of the reports, in binary64 *)

Lemma percent_cell_value q :
  (0 <= q <= 100)%Q -> percent_cell (formatNumber (Fin q) 2).
Proof.
  intro B. unfold percent_cell. rewrite shown_formatNumber by reflexivity.
  now apply round2_range.
Qed.

Lemma percent_cell_NaN : percent_cell (formatNumber NaN 2).
Proof. exists 0%Q. split; [reflexivity|lra]. Qed.

Lemma percentage64_range p arr :
  arr <> [] ->
  exists q, B64.percentage p arr = Fin q /\ (0 <= q <= 100)%Q.
Proof.
  intro N. unfold B64.percentage, B64.mul, B64.div, ofNat, ofZ.
  set (k := List.length (filter p arr)). set (n := List.length arr).
  assert (Hn : (0 < n)%nat) by (unfold n; destruct arr; cbn; [congruence|lia]).
  assert (Hk : (k <= n)%nat) by apply filter_length_le.
  cbn [div]. rewrite (ofNat_pos n Hn), round_fin.
  destruct (round64_between 0 1 _ round64_0 round64_1 (count_ratio k n Hk Hn))
    as (r & -> & R).
  cbn [mul]. rewrite round_fin.
  apply (round64_between 0 100 _ round64_0 round64_100). lra.
Qed.

(** Also of an empty array, whose percentage is [NaN]: [formatNumber]
    prints 0.00. *)
Lemma percentage64_cell p arr :
  percent_cell (formatNumber (B64.percentage p arr) 2).
Proof.
  destruct arr as [|x arr].
  - exact percent_cell_NaN.
  - destruct (percentage64_range p (x :: arr)) as (q & -> & B); [discriminate|].
    now apply percent_cell_value.
Qed.









(** The trend rows of [src/main.js]: every row has its year in
    [avgSavingsByYear], so that the later [forEach] does not throw. *)
Lemma Main64_type_rows gs : forall a res,
  Forall (fun r => percent_cell (MainJs.Row3.OverrunRate r) /\
                   year_get a (MainJs.Row3.FundingYear r) <> None) res ->
  let st := fold_left B64.Main.type_row gs (a, res) in
  Forall (fun r => percent_cell (MainJs.Row3.OverrunRate r) /\
                   year_get (fst st) (MainJs.Row3.FundingYear r) <> None)
         (snd st).
Proof.
  induction gs as [|g gs IH]; intros a res H; cbn [fold_left]; [exact H|].
  apply IH. unfold B64.Main.type_row.
  apply Forall_app. split.
  - eapply Forall_impl; [|exact H]. intros r [P Y]. split; [exact P|].
    rewrite year_get_set. destruct (_ =? _); [discriminate|exact Y].
  - constructor; [|constructor].
    cbn [MainJs.Row3.OverrunRate MainJs.Row3.FundingYear].
    split; [apply percentage64_cell|].
    rewrite year_get_set, Z.eqb_refl. discriminate.
Qed.

Lemma Main64_yoy_keeps a b r :
  year_get a (MainJs.Row3.FundingYear r) <> None ->
  exists r', B64.Main.yoy a b r = Normal r' /\
             MainJs.Row3.OverrunRate r' = MainJs.Row3.OverrunRate r /\
             (MainJs.Row3.FundingYear r' = 2021 ->
              MainJs.Row3.YoYChangePercent r' = Some "0.00"%string).
Proof.
  intro Y. unfold B64.Main.yoy.
  destruct (year_get a (MainJs.Row3.FundingYear r)) as [l|]; [|congruence].
  eexists. split; [reflexivity|].
  cbn [MainJs.Row3.OverrunRate MainJs.Row3.FundingYear
       MainJs.Row3.YoYChangePercent].
  split; [reflexivity|]. intros ->. reflexivity.
Qed.

Lemma Main64_report3_rows data :
  exists rows,
    B64.Main.generateReport3 data = Normal rows /\
    Forall (fun r => percent_cell (MainJs.Row3.OverrunRate r) /\
                     (MainJs.Row3.FundingYear r = 2021 ->
                      MainJs.Row3.YoYChangePercent r = Some "0.00"%string)) rows.
Proof.
  destruct (type_loop_total data) as (m & H & _).
  unfold B64.Main.generateReport3. rewrite H. cbn [bind].
  pose proof (Main64_type_rows (Object_values m) [] [] (Forall_nil _)) as T.
  cbv zeta in T.
  pose (st := fold_left B64.Main.type_row (Object_values m) ([], [])).
  change (fold_left B64.Main.type_row (Object_values m) ([], [])) with st in T.
  change (fold_left B64.Main.type_row (Object_values m) ([], [])) with st.
  clearbody st. destruct st as [a res]. cbn [fst snd] in T.
  destruct (forEach_total (B64.Main.yoy a (B64.Main.baseline_of a))
              (fun r => percent_cell (MainJs.Row3.OverrunRate r) /\
                        year_get a (MainJs.Row3.FundingYear r) <> None)
              (fun r => percent_cell (MainJs.Row3.OverrunRate r) /\
                        (MainJs.Row3.FundingYear r = 2021 ->
                         MainJs.Row3.YoYChangePercent r = Some "0.00"%string))
              res) as (ys & E & Q).
  - intros r [P Y]. destruct (Main64_yoy_keeps a (B64.Main.baseline_of a) r Y)
      as (r' & E' & O & Z).
    exists r'. split; [exact E'|]. split; [now rewrite O|exact Z].
  - exact T.
  - rewrite E. cbn [bind]. eexists. split; [reflexivity|].
    now apply sort_Forall.
Qed.







(** ** The cost-trend report in binary64 *)

(** Whole numbers up to [2^53] are binary64 numbers. *)
Lemma round64_whole k :
  (Z.abs k <= 2 ^ 53)%Z -> B64.round64 (inject_Z k) = Fin (inject_Z k).
Proof.
  intro H.
  assert (N : (B64.nearest (inject_Z k) == inject_Z k)%Q).
  { destruct (Z.eq_dec k 0) as [->|NZ].
    - pose proof (nearest_nonpos 0 ltac:(lra)).
      pose proof (nearest_nonneg 0 ltac:(lra)).
      change (inject_Z 0) with 0%Q. lra.
    - assert (Q0 : ~ (inject_Z k == 0)%Q).
      { unfold Qeq, inject_Z. cbn [Qnum Qden]. lia. }
      destruct (ilog2_spec _ Q0) as [L U]. set (e := B64.ilog2 (inject_Z k)) in *.
      assert (A : (Qabs (inject_Z k) == inject_Z (Z.abs k))%Q) by reflexivity.
      rewrite A in L, U.
      assert (E53 : e <= 53).
      { assert (e < 54); [|lia]. apply pow2_lt_inv.
        eapply Qle_lt_trans; [exact L|].
        apply Qle_lt_trans with (2 ^ 53)%Q; [|apply pow2_lt; lia].
        rewrite (pow2_Z 53) by lia. now rewrite <- Zle_Qle. }
      assert (E0 : 0 <= e).
      { assert (0 < e + 1); [|lia]. apply pow2_lt_inv.
        eapply Qle_lt_trans; [|exact U].
        change (2 ^ 0)%Q with (inject_Z 1). rewrite <- Zle_Qle. lia. }
      assert (UE : B64.ulp_exp (inject_Z k) = e - 52)
        by (unfold B64.ulp_exp; fold e; lia).
      destruct (Z.eq_dec e 53) as [Top|Low].
      + (* |k| = 2^53 *)
        assert (K : Z.abs k = 2 ^ 53).
        { apply Z.le_antisymm; [exact H|].
          rewrite Zle_Qle, <- (pow2_Z 53) by lia. now rewrite <- Top. }
        apply (nearest_on_grid _ (k / 2)). rewrite UE, Top.
        change (2 ^ (53 - 52))%Q with (inject_Z 2).
        rewrite <- inject_Z_mult. unfold Qeq, inject_Z. cbn [Qnum Qden].
        destruct (Z.abs_spec k) as [[_ Ak]|[_ Ak]]; rewrite Ak in K.
        * rewrite K. reflexivity.
        * replace k with (- 2 ^ 53) by lia. reflexivity.
      + apply (nearest_on_grid _ (k * 2 ^ (0 - (e - 52)))). rewrite UE.
        rewrite <- (grid_coarser k 0 (e - 52)) by lia.
        change (2 ^ 0)%Q with 1%Q. ring. }
  destruct (round64_cases (inject_Z k)) as [(_ & A & _)|[(_ & A & _)|(-> & _)]].
  - exfalso. rewrite N in A.
    assert (inject_Z k <= 2 ^ 53)%Q.
    { rewrite (pow2_Z 53), <- Zle_Qle by lia. lia. }
    assert (2 ^ 53 < 2 ^ 1024)%Q by (apply pow2_lt; lia). lra.
  - exfalso. rewrite N in A.
    assert (- 2 ^ 53 <= inject_Z k)%Q.
    { rewrite (pow2_Z 53) by lia. rewrite <- inject_Z_opp, <- Zle_Qle. lia. }
    assert (2 ^ 53 < 2 ^ 1024)%Q by (apply pow2_lt; lia). lra.
  - rewrite (fin_eq _ _ N). unfold fin. f_equal.
    apply Qcanon.Qred_identity. cbn [Qnum Qden inject_Z]. apply Z.gcd_1_r.
Qed.

Lemma ofNat_inject n : ofNat n = Fin (inject_Z (Z.of_nat n)).
Proof. reflexivity. Qed.

Lemma or_else_ofNat n : or_else (ofNat n) (Fin 0) = ofNat n.
Proof.
  unfold or_else, ofNat, ofZ. cbn [truthy].
  destruct (Qis0 (Z.of_nat n # 1)) eqn:E; cbn [negb]; auto.
  unbool. unfold Qeq in E. cbn [Qnum Qden] in E. f_equal.
  replace (Z.of_nat n) with 0 by lia. reflexivity.
Qed.

(** Counts below [2^53] add up exactly. *)
Lemma add64_counts a b :
  (Z.of_nat (a + b) <= 2 ^ 53)%Z ->
  B64.add (ofNat a) (ofNat b) = ofNat (a + b).
Proof.
  intro H. unfold B64.add. rewrite !ofNat_fin, add_fin, round_fin.
  rewrite <- inject_Z_plus, <- Nat2Z.inj_add, round64_whole by lia.
  rewrite <- ofNat_fin. reflexivity.
Qed.

Lemma year_groups_snoc gs g y :
  year_groups (gs ++ [g]) y =
  year_groups gs y ++ (if YearWorkGroup.FundingYear g =? y then [g] else []).
Proof.
  unfold year_groups. rewrite filter_app. cbn [filter].
  now destruct (YearWorkGroup.FundingYear g =? y).
Qed.

Lemma is_nil_app {A} (l l' : list A) :
  is_nil (l ++ l') = is_nil l && is_nil l'.
Proof. now destruct l. Qed.

Lemma list_sum_cons n l : list_sum (n :: l) = (n + list_sum l)%nat.
Proof. reflexivity. Qed.

Lemma list_sum_snoc l n : list_sum (l ++ [n]) = (list_sum l + n)%nat.
Proof. rewrite list_sum_app, list_sum_cons. cbn. lia. Qed.

Lemma year_count_le gs y :
  (year_count gs y
   <= list_sum (map (fun g => List.length (YearWorkGroup.savings g)) gs))%nat.
Proof.
  unfold year_count, year_groups.
  induction gs as [|g gs IH]; cbn [filter map]; [reflexivity|].
  destruct (YearWorkGroup.FundingYear g =? y);
    cbn [map]; rewrite ?list_sum_cons; lia.
Qed.

(** One group more. *)
Lemma type_row_tallied64 gs st g :
  (Z.of_nat (list_sum (map (fun g => List.length (YearWorkGroup.savings g))
                           (gs ++ [g]))) <= 2 ^ 53)%Z ->
  tallied64 gs st -> tallied64 (gs ++ [g]) (B64.Part.type_row st g).
Proof.
  intros B [R T]. split.
  - unfold B64.Part.type_row. cbn [Part000.results]. rewrite R, map_app.
    reflexivity.
  - intro y. unfold B64.Part.type_row.
    cbn [Part000.yearTotals Part000.yearCounts].
    rewrite !year_get_set, year_groups_snoc, is_nil_app.
    destruct (T (YearWorkGroup.FundingYear g)) as [T1 T2].
    destruct (T y) as [U1 U2].
    destruct (y =? YearWorkGroup.FundingYear g) eqn:E.
    + apply Z.eqb_eq in E. subst y. rewrite Z.eqb_refl.
      cbn [is_nil]. rewrite andb_false_r.
      unfold Part000.year_or0. rewrite T1, T2.
      unfold year_total64, year_count.
      rewrite year_groups_snoc, Z.eqb_refl, fold_left_app, map_app.
      cbn [fold_left map]. rewrite list_sum_snoc.
      fold (year_total64 gs (YearWorkGroup.FundingYear g)).
      fold (year_count gs (YearWorkGroup.FundingYear g)).
      assert (C : (Z.of_nat (year_count gs (YearWorkGroup.FundingYear g)
                             + List.length (YearWorkGroup.savings g)) <= 2 ^ 53)%Z).
      { pose proof (year_count_le gs (YearWorkGroup.FundingYear g)).
        rewrite map_app in B. cbn [map] in B. rewrite list_sum_snoc in B. lia. }
      split.
      * destruct (is_nil (year_groups gs (YearWorkGroup.FundingYear g))) eqn:Z.
        -- assert (Y0 : year_total64 gs (YearWorkGroup.FundingYear g) = Fin 0).
           { unfold year_total64.
             destruct (year_groups gs (YearWorkGroup.FundingYear g));
               [reflexivity|discriminate]. }
           rewrite Y0. reflexivity.
        -- reflexivity.
      * f_equal.
        destruct (is_nil (year_groups gs (YearWorkGroup.FundingYear g))) eqn:Z.
        -- assert (Y0 : year_count gs (YearWorkGroup.FundingYear g) = O).
           { unfold year_count.
             destruct (year_groups gs (YearWorkGroup.FundingYear g));
               [reflexivity|discriminate]. }
           rewrite Y0 in *. cbn [Nat.add] in *.
           change (Fin 0) with (ofNat 0). now rewrite add64_counts.
        -- rewrite or_else_ofNat. now apply add64_counts.
    + assert (E' : (YearWorkGroup.FundingYear g =? y) = false)
        by (rewrite Z.eqb_sym; exact E).
      rewrite E'. cbn [is_nil]. rewrite andb_true_r.
      unfold year_total64, year_count. rewrite year_groups_snoc, E', app_nil_r.
      split; assumption.
Qed.

Lemma fold_type_row_tallied64 gs : forall done st,
  (Z.of_nat (list_sum (map (fun g => List.length (YearWorkGroup.savings g))
                           (done ++ gs))) <= 2 ^ 53)%Z ->
  tallied64 done st ->
  tallied64 (done ++ gs) (fold_left B64.Part.type_row gs st).
Proof.
  induction gs as [|g gs IH]; intros done st B T; cbn [fold_left].
  - now rewrite app_nil_r.
  - replace (done ++ g :: gs) with ((done ++ [g]) ++ gs) in *
      by (rewrite <- app_assoc; reflexivity).
    apply IH; [exact B|]. apply type_row_tallied64; [|exact T].
    rewrite !map_app, !list_sum_app in B.
    rewrite map_app, list_sum_app. lia.
Qed.

Lemma tally_tallied64 typeMap :
  (Z.of_nat (list_sum (map (fun g => List.length (YearWorkGroup.savings g))
                           (Object_values typeMap))) <= 2 ^ 53)%Z ->
  tallied64 (Object_values typeMap) (B64.Part.tally typeMap).
Proof.
  intro B. unfold B64.Part.tally.
  apply (fold_type_row_tallied64 (Object_values typeMap) []
           {| Part000.yearTotals := []; Part000.yearCounts := [];
              Part000.results := [] |}); auto.
  split; [reflexivity|]. intro y. split; reflexivity.
Qed.

Lemma weighted64_figure typeMap y :
  tallied64 (Object_values typeMap) (B64.Part.tally typeMap) ->
  Part000.year_or0 (B64.Part.weightedYearAvg (B64.Part.tally typeMap)) y =
  year_figure64 (Object_values typeMap) y.
Proof.
  intros [_ T]. destruct (T y) as [T1 T2].
  unfold Part000.year_or0, B64.Part.weightedYearAvg.
  rewrite (year_get_map
             (fun y v => B64.div v (Part000.prop
                          (year_get (Part000.yearCounts (B64.Part.tally typeMap)) y)))).
  rewrite T1, T2. unfold year_figure64.
  destruct (is_nil (year_groups (Object_values typeMap) y)); reflexivity.
Qed.

(** A figure is never [NaN], so that the divisor is the magnitude of the
    baseline, or 1 for a baseline of 0. *)
Lemma year_figure64_not_NaN gs y : isNaN (year_figure64 gs y) = false.
Proof.
  unfold year_figure64. destruct (is_nil _); [reflexivity|].
  unfold or_else. destruct (B64.div _ _) as [q| | |]; cbn [truthy]; try reflexivity.
  destruct (negb (Qis0 q)); reflexivity.
Qed.

Lemma divisor_agree64 b :
  isNaN b = false -> Math_abs (or_else b (Fin 1)) = yoy_divisor b.
Proof.
  destruct b as [q| | |]; try discriminate; intros _; try reflexivity.
  unfold or_else, yoy_divisor. cbn [truthy eqb]. unfold Qis0.
  destruct (Qeq_bool q 0); reflexivity.
Qed.

Lemma trend_groups_of data m :
  grouped always type_key type_fresh type_push data m ->
  trend_groups data (Object_values m).
Proof.
  intro Hg. destruct (grouped_entries _ _ _ _ _ _ Hg) as (E & N & F & C).
  rewrite Forall_forall in F.
  assert (K : forall e, In e (Object_entries m) ->
            exists r, In r data /\ type_key r = fst e /\
              YearWorkGroup.FundingYear (snd e) = FundingYear r /\
              YearWorkGroup.TypeOfWork (snd e) = TypeOfWork r /\
              YearWorkGroup.savings (snd e)
              = map CostSavings (of_year_and_work (FundingYear r) (TypeOfWork r) data) /\
              of_year_and_work (FundingYear r) (TypeOfWork r) data <> []).
  { intros e I. destruct (F _ I) as (r & rs & M & Eg).
    pose proof (members_head _ _ _ _ _ _ M) as [Ir Kr].
    exists r. rewrite Eg, type_fold.
    cbn [YearWorkGroup.FundingYear YearWorkGroup.TypeOfWork
         YearWorkGroup.savings type_fresh app].
    rewrite <- members_of_year_and_work, Kr, M.
    repeat split; auto. discriminate. }
  pose proof (type_groups_counted (fun _ => Fin 0) data m Hg) as (_ & _ & S).
  rewrite map_map in S. cbn [group_cells TrendCells.total] in S.
  unfold trend_groups. rewrite E, !map_map. split; [|split].
  - apply (NoDup_map_inv
             (fun yt : Z * string => (Z_toString (fst yt) ++ "|" ++ snd yt)%string)).
    rewrite !map_map.
    rewrite (map_ext_in _ fst); [exact N|]. intros e I.
    destruct (K e I) as (r & _ & Kr & Y & T & _).
    cbn [fst snd]. now rewrite Y, T, <- Kr.
  - apply Forall_forall. intros g I. apply in_map_iff in I.
    destruct I as (e & <- & I).
    destruct (K e I) as (r & _ & _ & Y & T & S' & Ne).
    rewrite Y, T, S'. split; [reflexivity|].
    destruct (of_year_and_work _ _ _); [congruence|discriminate].
  - rewrite E, map_map in S. exact S.
Qed.

Lemma year_count_ycnt gs y :
  (inject_Z (Z.of_nat (year_count gs y)) == ycnt gs y)%Q.
Proof.
  unfold year_count, year_groups, ycnt.
  induction gs as [|g gs IH]; [reflexivity|].
  cbn [filter map]. rewrite qsum_cons, <- IH.
  destruct (YearWorkGroup.FundingYear g =? y); cbn [map].
  - rewrite list_sum_cons, Nat2Z.inj_add, inject_Z_plus. reflexivity.
  - ring.
Qed.

Lemma year_count_data data m y :
  grouped always type_key type_fresh type_push data m ->
  year_count (Object_values m) y = List.length (year_savings data y).
Proof.
  intro G. apply inject_nat_inj.
  rewrite year_count_ycnt. now apply ycnt_data.
Qed.

Lemma groups_of_loop data m :
  for_of type_step data [] = Normal m -> groups_of data = Object_values m.
Proof. intro H. unfold groups_of. now rewrite H. Qed.

(** The change that the second pass writes into a row. *)
Lemma Part64_yoy_change m r :
  tallied64 (Object_values m) (B64.Part.tally m) ->
  Part000.Row3.YoYChange
    (B64.Part.yoy (B64.Part.weightedYearAvg (B64.Part.tally m)) r)
  = Some (yoy64_with yoy_divisor (Object_values m) (Part000.Row3.FundingYear r)).
Proof.
  intro T. unfold B64.Part.yoy. cbn [Part000.Row3.YoYChange].
  rewrite !(weighted64_figure m _ T).
  rewrite (divisor_agree64 _ (year_figure64_not_NaN _ _)).
  reflexivity.
Qed.

(** C5, as stated, fails: with a figure of 0.5 for 2021 and of 1.5 for 2022
    the code divides by 0.5 and reports 200.00 for 2022, in both files,
    where division by [max(|baseline|, 1)] gives 100.00. *)
Lemma C5_divisor_is_not_at_least_one :
  let data := Examples.cleaned Examples.small_baseline_rows in
  year_figure64 (groups_of data) 2021 = Fin (1 # 2) /\
  year_figure64 (groups_of data) 2022 = Fin (3 # 2) /\
  yoy64_with claimed_divisor (groups_of data) 2022 = "100.00"%string /\
  map (fun r => (Part000.Row3.FundingYear r, Part000.Row3.YoYChange r))
      (match B64.Part.generateReport3 data with Normal rows => rows | Throw _ => [] end)
    = [(2021, Some "0.00"%string); (2022, Some "200.00"%string)] /\
  map (fun r => (MainJs.Row3.FundingYear r, MainJs.Row3.YoYChangePercent r))
      (match B64.Main.generateReport3 data with Normal rows => rows | Throw _ => [] end)
    = [(2021, Some "0.00"%string); (2022, Some "200.00"%string)].
Proof. vm_compute. repeat split. Qed.

(** The change is what the binary64 operations give, not the exact quotient
    to 2 decimal places: with savings of 800 in 2021 and of 829 in 2022 the
    exact change is 3.625, of which 3.63 is the nearest hundredth, and both
    files report 3.62, the quotient 29/800 times 100 being
    3.6249999999999996 in binary64. *)
Lemma change_rounds_each_operation :
  let data := Examples.cleaned Rounding.change_rows in
  year_figure64 (groups_of data) 2021 = Fin 800 /\
  year_figure64 (groups_of data) 2022 = Fin 829 /\
  yoy_with yoy_divisor data 2022 = "3.63"%string /\
  map Part000.Row3.YoYChange
      (match B64.Part.generateReport3 data with Normal rows => rows | Throw _ => [] end)
    = [Some "0.00"%string; Some "3.62"%string] /\
  map MainJs.Row3.YoYChangePercent
      (match B64.Main.generateReport3 data with Normal rows => rows | Throw _ => [] end)
    = [Some "0.00"%string; Some "3.62"%string].
Proof. vm_compute. repeat split. Qed.

(** The year figure of [src/main.js] is the plain mean of the group
    averages: with groups of one project saving 10 and of three projects
    saving 50 each in 2022, and a baseline of 20, it reports 50.00 where the
    second pass, with the figure 40 of the four projects, reports 100.00. *)
Lemma Main64_year_figure_is_unweighted :
  let data := Examples.cleaned Examples.uneven_rows in
  year_figure64 (groups_of data) 2022 = Fin 40 /\
  map MainJs.Row3.YoYChangePercent
      (match B64.Main.generateReport3 data with Normal rows => rows | Throw _ => [] end)
    = [Some "0.00"; Some "50.00"; Some "50.00"]%string /\
  map Part000.Row3.YoYChange
      (match B64.Part.generateReport3 data with Normal rows => rows | Throw _ => [] end)
    = [Some "0.00"; Some "100.00"; Some "100.00"]%string.
Proof. vm_compute. repeat split. Qed.

(** The changes of the example above are printed in positional notation. *)
Lemma uneven_changes_are_positional :
  Forall (fun y =>
            positional
              (yoy64_change yoy_divisor
                 (groups_of (Examples.cleaned Examples.uneven_rows)) y))
         [2021; 2022; 2023].
Proof.
  apply Forall_cons; [vm_compute; reflexivity|].
  apply Forall_cons; [vm_compute; reflexivity|].
  apply Forall_cons; [vm_compute; reflexivity|]. apply Forall_nil.
Qed.

(** C5, amended.  For an array of cleaned projects (an array has fewer than
    [2^32] elements), the trend report of the second pass is produced from
    the groups of the projects by year and type of work, and the change of
    each row is the 2-decimal form of 0 for the funding year 2021 and of
    [(yearAvg - baselineAvg) / d * 100] otherwise, each operation in
    binary64, where [yearAvg] and [baselineAvg] are the figures of the row's
    year and of 2021, the figure of a year being the binary64 sum of the
    savings sums of its groups over the number of its projects (the average
    of the groups weighted by their project counts), and [d] is
    [|baselineAvg|], or 1 when [baselineAvg] is 0.  This is stated for a
    change below [10^21] in magnitude, where [toFixed] prints in positional
    notation.  In both files the change of a row of 2021 is exactly
    "0.00". *)
Theorem C5_change_over_the_2021_figure (data : list CleanedProject) :
  (Z.of_nat (List.length data) < 2 ^ 32)%Z ->
  trend_groups data (groups_of data) /\
  (forall y, year_count (groups_of data) y = List.length (year_savings data y)) /\
  (exists rows,
     B64.Part.generateReport3 data = Normal rows /\
     Forall (fun r =>
               (positional (yoy64_change yoy_divisor (groups_of data)
                              (Part000.Row3.FundingYear r)) ->
                Part000.Row3.YoYChange r =
                  Some (yoy64_with yoy_divisor (groups_of data)
                          (Part000.Row3.FundingYear r))) /\
               (Part000.Row3.FundingYear r = 2021 ->
                Part000.Row3.YoYChange r = Some "0.00"%string)) rows) /\
  (exists rows,
     B64.Main.generateReport3 data = Normal rows /\
     Forall (fun r => MainJs.Row3.FundingYear r = 2021 ->
                      MainJs.Row3.YoYChangePercent r = Some "0.00"%string) rows).
Proof.
  intro L. destruct (type_loop_total data) as (m & H & G).
  rewrite (groups_of_loop data m H).
  pose proof (trend_groups_of data m G) as TG.
  split; [exact TG|]. split; [intro y; now apply year_count_data|]. split.
  - assert (T : tallied64 (Object_values m) (B64.Part.tally m)).
    { apply tally_tallied64. destruct TG as (_ & _ & ->). lia. }
    unfold B64.Part.generateReport3. rewrite H. cbn [bind].
    eexists. split; [reflexivity|].
    apply Forall_map_of with
      (P := fun r =>
              Part000.Row3.YoYChange r =
                Some (yoy64_with yoy_divisor (Object_values m)
                        (Part000.Row3.FundingYear r)) /\
              (Part000.Row3.FundingYear r = 2021 ->
               Part000.Row3.YoYChange r = Some "0.00"%string)).
    { intros r [P Z]. split; [intros _; exact P|exact Z]. }
    apply sort_Forall.
    apply Forall_map_of with (P := fun _ => True).
    { intros r _. split; [rewrite (Part64_yoy_change m r T); reflexivity|].
      cbn [B64.Part.yoy Part000.Row3.FundingYear Part000.Row3.YoYChange].
      intros ->. reflexivity. }
    apply Forall_forall. auto.
  - destruct (Main64_report3_rows data) as (rows & E & Q).
    exists rows. split; [exact E|].
    eapply Forall_impl; [|exact Q]. now intros r [_ Z].
Qed.

Lemma C5_witness :
  (Z.of_nat (List.length (Examples.cleaned Examples.uneven_rows)) < 2 ^ 32)%Z /\
  trend_groups (Examples.cleaned Examples.uneven_rows)
    (groups_of (Examples.cleaned Examples.uneven_rows)) /\
  (forall y, year_count (groups_of (Examples.cleaned Examples.uneven_rows)) y
             = List.length (year_savings (Examples.cleaned Examples.uneven_rows) y)) /\
  (exists rows,
     B64.Part.generateReport3 (Examples.cleaned Examples.uneven_rows) = Normal rows /\
     Forall (fun r =>
               (positional (yoy64_change yoy_divisor
                              (groups_of (Examples.cleaned Examples.uneven_rows))
                              (Part000.Row3.FundingYear r)) ->
                Part000.Row3.YoYChange r =
                  Some (yoy64_with yoy_divisor
                          (groups_of (Examples.cleaned Examples.uneven_rows))
                          (Part000.Row3.FundingYear r))) /\
               (Part000.Row3.FundingYear r = 2021 ->
                Part000.Row3.YoYChange r = Some "0.00"%string)) rows) /\
  (exists rows,
     B64.Main.generateReport3 (Examples.cleaned Examples.uneven_rows) = Normal rows /\
     Forall (fun r => MainJs.Row3.FundingYear r = 2021 ->
                      MainJs.Row3.YoYChangePercent r = Some "0.00"%string) rows).
Proof.
  assert (H : (Z.of_nat (List.length (Examples.cleaned Examples.uneven_rows))
               < 2 ^ 32)%Z) by (vm_compute; reflexivity).
  split; [exact H|].
  exact (C5_change_over_the_2021_figure (Examples.cleaned Examples.uneven_rows) H).
Defined.

(** ** The accuracy of [median] in binary64 *)

Lemma is_moderate_ok x : is_moderate x = true -> moderate x.
Proof.
  unfold is_moderate, moderate. intro H. apply andb_true_iff in H.
  destruct H as [B M]. split; [now apply is_binary64_ok|].
  destruct x; try discriminate. now apply Qle_bool_iff.
Qed.

(** Half a unit in the last place, against the magnitude. *)
Lemma half_ulp_bound q :
  ~ (q == 0)%Q ->
  (2 ^ (B64.ulp_exp q - 1) <= unit_roundoff * Qabs q + tiny)%Q.
Proof.
  intro NZ. destruct (ilog2_spec q NZ) as [L _].
  pose proof (pow2_pos (B64.ilog2 q)) as Pe.
  assert (U : (0 < unit_roundoff)%Q) by apply unit_roundoff_pos.
  assert (T : (0 < tiny)%Q) by apply tiny_pos.
  unfold B64.ulp_exp. destruct (Z.max_spec (B64.ilog2 q) (-1022)) as [[C ->]|[C ->]].
  - replace (-1022 - 52 - 1) with (-1074 + -1) by lia.
    rewrite pow2_add. fold tiny.
    assert (H : (2 ^ (-1) == 1 # 2)%Q) by reflexivity.
    rewrite H.
    assert (0 <= unit_roundoff * Qabs q)%Q.
    { apply Qmult_le_0_compat; [lra|apply Qabs_nonneg]. }
    set (p := (unit_roundoff * Qabs q)%Q) in *. set (t := tiny) in *.
    clearbody p t. lra.
  - replace (B64.ilog2 q - 52 - 1) with (-53 + B64.ilog2 q) by lia.
    rewrite pow2_add. fold unit_roundoff.
    assert (unit_roundoff * 2 ^ B64.ilog2 q <= unit_roundoff * Qabs q)%Q.
    { apply Qmult_le_l; [exact U|exact L]. }
    set (p := (unit_roundoff * Qabs q)%Q) in *.
    set (p' := (unit_roundoff * 2 ^ B64.ilog2 q)%Q) in *.
    set (t := tiny) in *. clearbody p p' t. lra.
Qed.

(** Rounding within a bound that is a binary64 number: the result stays
    within the bound and is off by at most the unit roundoff, relative to
    the magnitude, and half the smallest number. *)
Lemma round64_close q B :
  B64.round64 B = Fin B -> B64.round64 (- B) = Fin (- B) ->
  (Qabs q <= B)%Q ->
  exists r, B64.round64 q = Fin r /\ (Qabs r <= B)%Q /\
            (Qabs (r - q) <= unit_roundoff * Qabs q + tiny)%Q.
Proof.
  intros Rp Rn Hq.
  assert (I : (- B <= q <= B)%Q) by (now apply Qabs_Qle_condition).
  destruct (round64_between (- B) B q Rn Rp I) as (r & R & Hr).
  exists r. split; [exact R|]. split; [now apply Qabs_Qle_condition|].
  assert (U : (0 < unit_roundoff)%Q) by apply unit_roundoff_pos.
  assert (T : (0 < tiny)%Q) by apply tiny_pos.
  destruct (Qeq_dec q 0) as [Z|NZ].
  - assert (N0 : (B64.nearest q == 0)%Q).
    { pose proof (nearest_nonpos q ltac:(lra)).
      pose proof (nearest_nonneg q ltac:(lra)). lra. }
    destruct (round64_cases q) as [(E & _)|[(E & _)|(E & _)]];
      rewrite E in R; try discriminate.
    assert (Er : (r == B64.nearest q)%Q).
    { assert (X : r = Qred (B64.nearest q)) by (unfold fin in R; congruence).
      rewrite X. apply Qred_correct. }
    assert (D : (r - q == 0)%Q) by lra.
    rewrite D. change (Qabs 0) with 0%Q.
    assert (0 <= unit_roundoff * Qabs q)%Q.
    { apply Qmult_le_0_compat; [lra|apply Qabs_nonneg]. }
    set (p := (unit_roundoff * Qabs q)%Q) in *. set (t := tiny) in *.
    clearbody p t. lra.
  - eapply Qle_trans; [exact (round64_error q r R)|]. now apply half_ulp_bound.
Qed.

Lemma round64_cap_1022 :
  B64.round64 (inject_Z (2 ^ 1022)) = Fin (inject_Z (2 ^ 1022)) /\
  B64.round64 (- inject_Z (2 ^ 1022)) = Fin (- inject_Z (2 ^ 1022)).
Proof. split; vm_compute; reflexivity. Qed.

Lemma round64_cap_1023 :
  B64.round64 (inject_Z (2 ^ 1023)) = Fin (inject_Z (2 ^ 1023)) /\
  B64.round64 (- inject_Z (2 ^ 1023)) = Fin (- inject_Z (2 ^ 1023)).
Proof. split; vm_compute; reflexivity. Qed.

Lemma unit_roundoff_value : (unit_roundoff == 1 # 9007199254740992)%Q.
Proof. reflexivity. Qed.

Lemma tiny_small : (tiny <= 1 # 9007199254740992)%Q.
Proof. vm_compute. discriminate. Qed.

Lemma moderate_value x :
  moderate x ->
  exists a, x = Fin a /\ (Qabs a <= inject_Z (2 ^ 1022))%Q /\ on_grid (Fin a).
Proof.
  intros [B M]. destruct x as [a| | |]; try contradiction.
  exists a. repeat split; auto. now apply binary64_on_grid.
Qed.

Lemma nth_moderate s i :
  Forall moderate s -> (i < List.length s)%nat -> moderate (nth i s NaN).
Proof.
  intros F L. rewrite Forall_forall in F. apply F. now apply nth_In.
Qed.

(** The two-decimal form of a moderate value. *)
Lemma to_2_decimals_close h y :
  (Qabs h <= inject_Z (2 ^ 1022))%Q ->
  to_2_decimals (Fin h) y ->
  exists r, y = Fin r /\
            (Qabs (r - h) <=
             (1 # 200) + unit_roundoff * (Qabs h + (1 # 200)) + tiny)%Q.
Proof.
  intros Hh (n & Hn & ->).
  assert (D : (Qabs ((n # 100) - h) <= 1 # 200)%Q).
  { destruct Hn as [L|[E _]]; [now apply Qlt_le_weak|rewrite E; apply Qle_refl]. }
  assert (N : (Qabs (n # 100) <= Qabs h + (1 # 200))%Q).
  { assert (E : ((n # 100) == ((n # 100) - h) + h)%Q) by ring.
    rewrite E at 1. eapply Qle_trans; [apply Qabs_triangle|]. lra. }
  assert (C : (inject_Z (2 ^ 1022) + (1 # 200) <= inject_Z (2 ^ 1023))%Q).
  { vm_compute. discriminate. }
  destruct round64_cap_1023 as [Rp Rn].
  destruct (round64_close (n # 100) _ Rp Rn) as (r & R & _ & E); [lra|].
  exists r. split; [exact R|].
  assert (T : (Qabs (r - h) <= Qabs (r - (n # 100)) + Qabs ((n # 100) - h))%Q).
  { assert (X : (r - h == (r - (n # 100)) + ((n # 100) - h))%Q) by ring.
    rewrite X at 1. apply Qabs_triangle. }
  assert (M : (unit_roundoff * Qabs (n # 100) <=
               unit_roundoff * (Qabs h + (1 # 200)))%Q).
  { apply Qmult_le_l; [apply unit_roundoff_pos|exact N]. }
  set (p := (unit_roundoff * Qabs (n # 100))%Q) in *.
  set (p' := (unit_roundoff * (Qabs h + (1 # 200)))%Q) in *.
  set (t := tiny) in *. clearbody p p' t. lra.
Qed.

Lemma Qabs_half q : (Qabs (q / 2) == Qabs q * (1 # 2))%Q.
Proof.
  assert (E : (q / 2 == q * (1 # 2))%Q) by (field).
  rewrite E, Qabs_Qmult. reflexivity.
Qed.

(** The binary64 middle against the exact one. *)
Lemma middle64_close s :
  s <> [] -> Forall moderate s ->
  exists h, middle64 s = Fin h /\ (Qabs h <= inject_Z (2 ^ 1022))%Q /\
            (Qabs (h - qv (middle s)) <=
             (5 # 2) * unit_roundoff * Qabs (qv (middle s)) + 2 * tiny)%Q.
Proof.
  intros N F. unfold middle64, middle.
  assert (Ls : (0 < List.length s)%nat)
    by (destruct s; [congruence|simpl; lia]).
  assert (D : (List.length s / 2 < List.length s)%nat)
    by (apply Nat.div_lt; lia).
  pose proof unit_roundoff_pos as U. pose proof tiny_pos as T.
  destruct (Nat.odd (List.length s)).
  - destruct (moderate_value _ (nth_moderate s _ F D)) as (a & -> & Ha & _).
    exists a. split; [reflexivity|]. split; [exact Ha|]. cbn [qv].
    assert (E : (a - a == 0)%Q) by ring. rewrite E. change (Qabs 0) with 0%Q.
    assert (0 <= unit_roundoff * Qabs a)%Q.
    { apply Qmult_le_0_compat; [lra|apply Qabs_nonneg]. }
    rewrite <- Qmult_assoc.
    set (p := (unit_roundoff * Qabs a)%Q) in *. set (t := tiny) in *.
    clearbody p t. lra.
  - assert (D' : (List.length s / 2 - 1 < List.length s)%nat) by lia.
    destruct (moderate_value _ (nth_moderate s _ F D')) as (a & -> & Ha & _).
    destruct (moderate_value _ (nth_moderate s _ F D)) as (b & -> & Hb & _).
    unfold B64.add, B64.div. cbn [add]. rewrite round_fin.
    assert (P2 : (inject_Z (2 ^ 1022) + inject_Z (2 ^ 1022) == inject_Z (2 ^ 1023))%Q)
      by (vm_compute; reflexivity).
    assert (HS : (Qabs (a + b) <= inject_Z (2 ^ 1023))%Q).
    { eapply Qle_trans; [apply Qabs_triangle|]. lra. }
    destruct round64_cap_1023 as [Rp Rn].
    destruct (round64_close (a + b) _ Rp Rn HS) as (s1 & -> & B1 & E1).
    cbn [div]. change (Qis0 2) with false. cbv iota. rewrite round_fin.
    assert (HH : (Qabs (s1 / 2) <= inject_Z (2 ^ 1022))%Q).
    { rewrite Qabs_half. lra. }
    destruct round64_cap_1022 as [Rp' Rn'].
    destruct (round64_close (s1 / 2) _ Rp' Rn' HH) as (h & -> & B2 & E2).
    exists h. split; [reflexivity|]. split; [exact B2|].
    cbn [qv].
    assert (Em : (Qred (Qred (a + b) / 2) == (a + b) * (1 # 2))%Q).
    { rewrite Qred_correct. rewrite (Qred_correct (a + b)). field. }
    rewrite Em. rewrite Qabs_half in E2.
    assert (A2 : (Qabs ((a + b) * (1 # 2)) == Qabs (a + b) * (1 # 2))%Q)
      by (rewrite Qabs_Qmult; reflexivity).
    rewrite A2.
    assert (Eh : (h - s1 / 2 == h - s1 * (1 # 2))%Q) by field.
    rewrite Eh in E2.
    rewrite unit_roundoff_value in *.
    pose proof tiny_small as Ts.
    set (t := tiny) in *. clearbody t.
    revert E1 E2. set (S := (a + b)%Q). clearbody S.
    pattern (Qabs S). apply Qabs_case; intro SS;
      (pattern (Qabs s1); apply Qabs_case; intro S1);
      intros E1 E2;
      apply Qabs_Qle_condition in E1; apply Qabs_Qle_condition in E2;
      apply Qabs_Qle_condition; split; lra.
Qed.

(** X19.  On a non-empty array of binary64 numbers of magnitude at most
    [2^1022], [median] returns a finite number that differs from the exact
    middle of the sorted values, the central one or the exact mean of the
    two central ones, by at most half a hundredth, the rounding to 2 decimal
    places, plus [2^-51] times the magnitude of the middle plus 1, the
    rounding of the binary64 operations. *)
Theorem X19_median_is_close_to_the_exact_middle (arr : list number) :
  arr <> [] ->
  Forall moderate arr ->
  exists s r,
    Permutation s arr /\ StronglySorted num_le s /\
    B64.median arr = Fin r /\
    (Qabs (r - qv (middle s)) <=
     (1 # 200) + 2 ^ (-51) * (Qabs (qv (middle s)) + 1))%Q.
Proof.
  intros N F. set (s := sort (fun a b => B64.sub a b) arr).
  assert (Fs : Forall moderate s) by (now apply sort_Forall).
  assert (Ns : s <> []).
  { intro E. apply N. apply (f_equal (@List.length number)) in E.
    unfold s in E. rewrite sort_length in E. now destruct arr. }
  destruct (middle64_close s Ns Fs) as (h & Eh & Bh & Dh).
  assert (R : to_2_decimals (middle64 s) (B64.median arr)).
  { rewrite (median64_middle arr N). apply round2_to_2_decimals. }
  rewrite Eh in R.
  destruct (to_2_decimals_close h _ Bh R) as (r & Er & Dr).
  exists s, r. split; [apply sort_perm|]. split.
  { apply sort64_sorted. eapply Forall_impl; [|exact F].
    intros x Mx. destruct (moderate_value x Mx) as (a & -> & _ & G).
    split; [exact G|reflexivity]. }
  split; [exact Er|].
  set (m := qv (middle s)) in *. clearbody m.
  assert (T1 : (Qabs (r - m) <= Qabs (r - h) + Qabs (h - m))%Q).
  { assert (X : (r - m == (r - h) + (h - m))%Q) by ring.
    rewrite X at 1. apply Qabs_triangle. }
  assert (T2 : (Qabs h <= Qabs (h - m) + Qabs m)%Q).
  { assert (X : (h == (h - m) + m)%Q) by ring.
    rewrite X at 1. apply Qabs_triangle. }
  assert (P : (2 ^ (-51) == 1 # 2251799813685248)%Q) by reflexivity.
  rewrite P. rewrite unit_roundoff_value in *.
  pose proof tiny_small as Ts. pose proof tiny_pos as Tp.
  pose proof (Qabs_nonneg m) as Am.
  set (t := tiny) in *. set (G := Qabs (r - m)) in *.
  set (D1 := Qabs (r - h)) in *. set (D2 := Qabs (h - m)) in *.
  set (Ah := Qabs h) in *. set (Aa := Qabs m) in *.
  clearbody t G D1 D2 Ah Aa. lra.
Qed.

Lemma X19_witness :
  [Fin 20; B64.round64 (5001 # 100); Fin (-3); Fin 2] <> [] /\
  Forall moderate [Fin 20; B64.round64 (5001 # 100); Fin (-3); Fin 2] /\
  exists s r,
    Permutation s [Fin 20; B64.round64 (5001 # 100); Fin (-3); Fin 2] /\
    StronglySorted num_le s /\
    B64.median [Fin 20; B64.round64 (5001 # 100); Fin (-3); Fin 2] = Fin r /\
    (Qabs (r - qv (middle s)) <=
     (1 # 200) + 2 ^ (-51) * (Qabs (qv (middle s)) + 1))%Q.
Proof.
  assert (N : [Fin 20; B64.round64 (5001 # 100); Fin (-3); Fin 2] <> [])
    by discriminate.
  assert (F : Forall moderate
                [Fin 20; B64.round64 (5001 # 100); Fin (-3); Fin 2]).
  { apply (Forall_checked moderate is_moderate _ is_moderate_ok).
    vm_compute. reflexivity. }
  split; [exact N|]. split; [exact F|].
  exact (X19_median_is_close_to_the_exact_middle _ N F).
Defined.
